(** * CADRE evaluation engine: a shallow embedding and its properties

    The development follows the TypeScript sources of the evaluation
    orchestration engine:

    - [Statistics]   : lib/server/eval/statistics.ts
    - [OpenRouter]   : lib/server/eval/openrouter.ts
    - [Judge]        : lib/server/eval/judge.ts
    - [RateLimiter]  : lib/server/eval/rate-limiter.ts
    - [Runner]       : lib/server/eval/runner.ts
    - [JudgeClient]  : lib/server/eval/judge.ts ([grade])
    - [Magisterium]  : lib/server/eval/magisterium.ts
    - [EvaluationsLoader] : lib/server/eval/evaluations-loader.ts
    - [RunEval]      : scripts/run-eval.ts, lib/server/eval/loader.ts

    and, where a statement turns on the rounding of doubles or on the
    JavaScript value that a judgment holds,

    - [Float64]      : IEEE 754 binary64 arithmetic and V8's [Math.exp]
    - [Statistics64] : lib/server/eval/statistics.ts in double arithmetic
    - [JudgedTrial]  : lib/server/eval/runner.ts, a trial and its judgment
    - [RunningAverage] : lib/server/eval/runner.ts, the running average

    Conventions.  A JavaScript [number] that carries a score, a statistic or
    a probability is modelled as a real number ([R]) where only the formula
    or the flow of the data matters; the consistency score and the indices
    of the bootstrap interval, whose properties depend on rounding, are also
    modelled over doubles ([Float64.float64]).  Millisecond clocks and
    counters are integers.  Strings are [string]s of 8-bit characters.  An
    exception is a value of an error type, threaded by a small monad. *)

From Stdlib Require Import Reals Lra Lia ZArith QArith Qround List Ascii String Bool.
From Stdlib Require Import Permutation Sorted Orders Mergesort.
From Stdlib Require Import DecimalString DecimalNat.
From Stdlib Require Import Qabs Qpower Qminmax.
From Stdlib Require Lqa.
From stdpp Require Import base option list strings gmap.

Set Warnings "-register-all,-abstract-large-number".

Local Open Scope R_scope.

(** * Statistics (statistics.ts) *)

Module Statistics.

Record ConsistencyMetrics : Type := mkMetrics {
  cm_mean : R;
  cm_stdDev : R;
  cm_coefficientOfVariation : R;
  cm_min : R;
  cm_max : R;
  cm_variance : R
}.

(** [undefined] can reach a bound of the interval (an array read out of
    range), hence [option]. *)
Record ConfidenceInterval : Type := mkCI {
  ci_lower : option R;
  ci_upper : option R;
  ci_mean : R
}.

(** [scores.reduce((sum, score) => sum + score, 0)] *)
Definition reduce_sum (scores : list R) : R :=
  fold_left (fun sum score => sum + score) scores 0.

(** [scores.reduce((sum, score) => sum + Math.pow(score - mean, 2), 0)] *)
Definition reduce_sqdev (mean : R) (scores : list R) : R :=
  fold_left (fun sum score => sum + (score - mean) ^ 2) scores 0.

(** [Math.min(...scores)] and [Math.max(...scores)] on a list that is known
    to be non-empty, given as head and tail. *)
Definition Math_min (s0 : R) (rest : list R) : R := fold_left Rmin rest s0.
Definition Math_max (s0 : R) (rest : list R) : R := fold_left Rmax rest s0.

Definition calculateConsistencyMetrics (scores : list R) : ConsistencyMetrics :=
  match scores with
  | [] => mkMetrics 0 0 0 0 0 0
  | s0 :: rest =>
      let mean := reduce_sum scores / INR (length scores) in
      match rest with
      | [] => mkMetrics mean 0 0 s0 s0 0
      | _ :: _ =>
          let variance :=
            reduce_sqdev mean scores / (INR (length scores) - 1) in
          let stdDev := sqrt variance in
          let coefficientOfVariation :=
            if Req_dec_T mean 0 then 0 else stdDev / mean in
          mkMetrics mean stdDev coefficientOfVariation
                    (Math_min s0 rest) (Math_max s0 rest) variance
      end
  end.

(** [Math.max(0, Math.min(100, 100 * Math.exp(-3 * cv)))] *)
Definition calculateConsistencyScore (coefficientOfVariation : R) : R :=
  let score := 100 * exp (-3 * coefficientOfVariation) in
  Rmax 0 (Rmin 100 score).

(** ** Bootstrap confidence interval

    [Math.random()] is the only effect: the [k]-th call of a run returns
    [random k], and a computation threads the number of draws made so far. *)

Definition Rand (A : Type) : Type := nat -> A * nat.

Definition ret {A} (a : A) : Rand A := fun k => (a, k).
Definition bind {A B} (m : Rand A) (f : A -> Rand B) : Rand B :=
  fun k => let (a, k') := m k in f a k'.

Local Notation "'let*' x ':=' m 'in' f" := (bind m (fun x => f))
  (at level 10, x name, m at level 100, f at level 200).

(** A [for (let i = 0; i < n; i++)] loop whose body pushes one element. *)
Fixpoint for_push {A} (n : nat) (body : Rand A) : Rand (list A) :=
  match n with
  | O => ret []
  | S n' =>
      let* x := body in
      let* xs := for_push n' body in
      ret (x :: xs)
  end.

(** [array[i]] for an index computed by [Math.floor]. *)
Definition js_get (array : list R) (i : Z) : option R :=
  if (i <? 0)%Z then None else nth_error array (Z.to_nat i).

(** [bootstrapMeans.sort((a, b) => a - b)]: ascending numeric order. *)
Module ROrder <: Orders.TotalLeBool.
Definition t := R.
Definition leb (x y : R) : bool := if Rle_dec x y then true else false.
Infix "<=?" := leb (at level 70, no associativity).
Theorem leb_total : forall x y, (x <=? y) = true \/ (y <=? x) = true.
Proof.
  intros x y; unfold leb.
  destruct (Rle_dec x y); [now left|].
  destruct (Rle_dec y x); [now right|lra].
Qed.
End ROrder.

Module RSort := Mergesort.Sort ROrder.

Definition sort_ascending (l : list R) : list R := RSort.sort l.

Section Bootstrap.

Variable random : nat -> R.

Definition Math_random : Rand R := fun k => (random k, S k).

(** The index read is in range whenever [0 <= random k < 1]
    (see [randomIndex_in_range]); the default of [nth] is never used. *)
Definition resampleWithReplacement (array : list R) : Rand (list R) :=
  for_push (length array)
    (let* r := Math_random in
     let randomIndex := Zfloor (r * INR (length array)) in
     ret (nth (Z.to_nat randomIndex) array 0)).

Definition bootstrap_iteration (scores : list R) : Rand R :=
  let* resample := resampleWithReplacement scores in
  ret (reduce_sum resample / INR (length resample)).

Definition lowerIndex (len : nat) (confidenceLevel : R) : Z :=
  let alpha := 1 - confidenceLevel in
  Zfloor (INR len * (alpha / 2)).

Definition upperIndex (len : nat) (confidenceLevel : R) : Z :=
  let alpha := 1 - confidenceLevel in
  Zfloor (INR len * (1 - alpha / 2)).

(** The array of resample means, after [bootstrapMeans.sort]. *)
Definition sortedBootstrapMeans (scores : list R) (iterations : nat)
  : Rand (list R) :=
  let* bootstrapMeans := for_push iterations (bootstrap_iteration scores) in
  ret (sort_ascending bootstrapMeans).

Definition calculateBootstrapCI
    (scores : list R) (confidenceLevel : R) (iterations : nat)
  : Rand ConfidenceInterval :=
  match scores with
  | [] => ret (mkCI (Some 0) (Some 0) 0)
  | [s0] => ret (mkCI (Some s0) (Some s0) s0)
  | _ =>
      let* bootstrapMeans := sortedBootstrapMeans scores iterations in
      let mean := reduce_sum scores / INR (length scores) in
      ret (mkCI
             (js_get bootstrapMeans
                (lowerIndex (length bootstrapMeans) confidenceLevel))
             (js_get bootstrapMeans
                (upperIndex (length bootstrapMeans) confidenceLevel))
             mean)
  end.

End Bootstrap.

(** [responses.map(r => calculateConsistencyScore(r.coefficientOfVariation))]
    averaged. *)
Definition calculateAverageConsistencyScore (cvs : list R) : R :=
  match cvs with
  | [] => 0
  | _ =>
      let consistencyScores := map calculateConsistencyScore cvs in
      reduce_sum consistencyScores / INR (length consistencyScores)
  end.

(** [scores.map((score) => score / maxScore)] *)
Definition normalizeScores (scores : list R) (maxScore : R) : list R :=
  map (fun score => score / maxScore) scores.

(** [normalizedScores.map((score) => score * maxScore)] *)
Definition denormalizeScores (normalizedScores : list R) (maxScore : R)
  : list R :=
  map (fun score => score * maxScore) normalizedScores.

(** ** Welch's t-test *)

(** The polynomial of the Abramowitz and Stegun approximation. *)
Definition normalCDF (z : R) : R :=
  let t := 1 / (1 + 0.2316419 * Rabs z) in
  let d := 0.3989423 * exp ((- z * z) / 2) in
  let p :=
    d * t *
    (0.3193815 + t * (-0.3565638 + t * (1.781478 + t * (-1.821256 + t * 1.330274)))) in
  if Rlt_dec 0 z then 1 - p else p.

Definition approximateCDF (t df : R) : R :=
  if Rlt_dec 30 df then normalCDF t
  else
    let z := t / sqrt (1 + t * t / df) in
    normalCDF z.

Record TTest : Type := mkTTest {
  tStatistic : R;
  pValue : R;
  significant : bool
}.

Definition welchTTest (scores1 scores2 : list R) : TTest :=
  if ((length scores1 =? 0)%nat || (length scores2 =? 0)%nat)%bool then
    mkTTest 0 1 false
  else
    let metrics1 := calculateConsistencyMetrics scores1 in
    let metrics2 := calculateConsistencyMetrics scores2 in
    let numerator := cm_mean metrics1 - cm_mean metrics2 in
    let denominator :=
      sqrt (cm_variance metrics1 / INR (length scores1)
            + cm_variance metrics2 / INR (length scores2)) in
    let tStatistic := numerator / denominator in
    let s1Sq := cm_variance metrics1 / INR (length scores1) in
    let s2Sq := cm_variance metrics2 / INR (length scores2) in
    let df :=
      (s1Sq + s2Sq) ^ 2 /
      (s1Sq ^ 2 / (INR (length scores1) - 1)
       + s2Sq ^ 2 / (INR (length scores2) - 1)) in
    let pValue := 2 * (1 - approximateCDF (Rabs tStatistic) df) in
    mkTTest tStatistic pValue (if Rlt_dec pValue 0.05 then true else false).

End Statistics.

(** * JavaScript strings

    The operations of [String.prototype] the sources use, on [string]. *)

Module JsString.

Local Open Scope string_scope.
Local Open Scope nat_scope.

(** White space of [trim] among 8-bit characters: TAB, LF, VT, FF, CR, SP and
    NBSP. *)
Definition is_whitespace (c : ascii) : bool :=
  let n := nat_of_ascii c in
  ((9 <=? n) && (n <=? 13)) || (n =? 32) || (n =? 160).

Fixpoint trimStart (s : string) : string :=
  match s with
  | EmptyString => EmptyString
  | String c s' => if is_whitespace c then trimStart s' else s
  end.

Fixpoint trimEnd (s : string) : string :=
  match s with
  | EmptyString => EmptyString
  | String c s' =>
      match trimEnd s' with
      | EmptyString => if is_whitespace c then EmptyString else String c EmptyString
      | t => String c t
      end
  end.

Definition trim (s : string) : string := trimEnd (trimStart s).

(** [s.indexOf(needle, from)]: the first position at or after [from] where
    [needle] occurs, or [-1]. *)
Definition indexOf (s needle : string) (from : nat) : Z :=
  match String.index from needle s with
  | Some i => Z.of_nat i
  | None => (-1)%Z
  end.

Definition includes (s needle : string) : bool :=
  negb (indexOf s needle 0 =? -1)%Z.

(** [s.substring(start, end)]: both arguments are clamped to
    [[0, s.length]] and swapped when [start > end]. *)
Definition substring (s : string) (start end_ : Z) : string :=
  let clamp (i : Z) := Z.to_nat (Z.min (Z.max i 0) (Z.of_nat (String.length s))) in
  let a := Nat.min (clamp start) (clamp end_) in
  let b := Nat.max (clamp start) (clamp end_) in
  String.substring a (b - a) s.

Definition is_digit (c : ascii) : bool :=
  let n := nat_of_ascii c in (48 <=? n) && (n <=? 57).

Definition toLowerCase_char (c : ascii) : ascii :=
  let n := nat_of_ascii c in
  if (65 <=? n) && (n <=? 90) then ascii_of_nat (n + 32) else c.

(** ** Regular expressions

    The fragment the sources use: literals, classes, sequence, alternation,
    greedy [?], [*] and [+], and one capturing group; all patterns carry the
    [i] flag, so literals compare case-insensitively. *)

Inductive regex : Type :=
| Eps
| Chr (c : ascii)
| Class (p : ascii -> bool)
| Seq (r1 r2 : regex)
| Alt (r1 r2 : regex)
| Opt (r : regex)
| Star (r : regex)
| Group (r : regex).

Definition Plus (r : regex) : regex := Seq r (Star r).

Fixpoint Lit (s : string) : regex :=
  match s with
  | EmptyString => Eps
  | String c EmptyString => Chr c
  | String c s' => Seq (Chr c) (Lit s')
  end.

Section Matcher.

Context {A : Type}.

(** Backtracking matcher in continuation-passing style: [rmatch r s cap k]
    tries the ways [r] can consume a prefix of [s], in the priority order
    of ECMAScript (left alternative first, greedy quantifiers), and hands
    the remaining input and the text of the capturing group to [k]; the
    first way that [k] accepts wins.  An iteration of [*] that consumes
    nothing is rejected, so [String.length s] iterations are enough. *)
Fixpoint rmatch (r : regex) (s : string) (cap : option string)
    (k : string -> option string -> option A) {struct r} : option A :=
  match r with
  | Eps => k s cap
  | Chr c =>
      match s with
      | String c' s' =>
          if Ascii.eqb (toLowerCase_char c) (toLowerCase_char c')
          then k s' cap else None
      | EmptyString => None
      end
  | Class p =>
      match s with
      | String c' s' => if p c' then k s' cap else None
      | EmptyString => None
      end
  | Seq r1 r2 => rmatch r1 s cap (fun s' cap' => rmatch r2 s' cap' k)
  | Alt r1 r2 =>
      match rmatch r1 s cap k with
      | Some a => Some a
      | None => rmatch r2 s cap k
      end
  | Opt r1 =>
      match rmatch r1 s cap k with
      | Some a => Some a
      | None => k s cap
      end
  | Star r1 =>
      (fix iterate (n : nat) (s : string) (cap : option string) : option A :=
         match n with
         | O => k s cap
         | S n' =>
             match
               rmatch r1 s cap
                 (fun s' cap' =>
                    if String.length s' <? String.length s
                    then iterate n' s' cap' else None)
             with
             | Some a => Some a
             | None => k s cap
             end
         end) (String.length s) s cap
  | Group r1 =>
      rmatch r1 s cap
        (fun s' _ =>
           k s' (Some (String.substring 0
                         (String.length s - String.length s') s)))
  end.

End Matcher.

(** [s.match(r)[1]] for a pattern without the [g] flag: the capturing group
    of the leftmost match, [None] when [r] matches nowhere ([match] returns
    [null]). *)
Fixpoint match_group1 (r : regex) (s : string) : option (option string) :=
  match rmatch r s None (fun _ cap => Some cap) with
  | Some cap => Some cap
  | None =>
      match s with
      | EmptyString => None
      | String _ s' => match_group1 r s'
      end
  end.

End JsString.

(** * JavaScript values *)

Module Js.

(** What [JSON.parse] can return, with [undefined] (a missing property) and
    [NaN] besides. *)
Inductive JsValue : Type :=
| JsUndefined
| JsNull
| JsBoolean (b : bool)
| JsNaN
| JsNumber (x : R)
| JsStr (s : string)
| JsArray (items : list JsValue)
| JsObject (fields : list (string * JsValue)).

Inductive Error : Type :=
| SyntaxError (message : string)
| TypeError (message : string).

Definition Exn (A : Type) : Type := (Error + A)%type.

Definition ret {A} (a : A) : Exn A := inr a.
Definition bind {A B} (m : Exn A) (f : A -> Exn B) : Exn B :=
  match m with
  | inr a => f a
  | inl e => inl e
  end.
Definition try_catch {A} (m : Exn A) (handler : Error -> Exn A) : Exn A :=
  match m with
  | inr a => inr a
  | inl e => handler e
  end.

Fixpoint assoc (name : string) (fields : list (string * JsValue))
  : option JsValue :=
  match fields with
  | [] => None
  | (k, v) :: fields' => if String.eqb k name then Some v else assoc name fields'
  end.

(** [v.name] for a property that no prototype defines: a [TypeError] on
    [null] and [undefined], the field of an object, [undefined] otherwise. *)
Definition get_property (v : JsValue) (name : string) : Exn JsValue :=
  match v with
  | JsNull | JsUndefined =>
      inl (TypeError "Cannot read properties of null or undefined")
  | JsObject fields =>
      match assoc name fields with
      | Some x => ret x
      | None => ret JsUndefined
      end
  | _ => ret JsUndefined
  end.

Local Open Scope string_scope.

Fixpoint take_digits (s : string) : list Z * string :=
  match s with
  | String c s' =>
      if JsString.is_digit c then
        let (ds, rest) := take_digits s' in
        ((Z.of_nat (nat_of_ascii c) - 48)%Z :: ds, rest)
      else ([], s)
  | EmptyString => ([], s)
  end.

Definition digits_value (ds : list Z) : Z :=
  fold_left (fun acc d => (10 * acc + d)%Z) ds 0%Z.

(** The decimal literal at the head of [s]: sign, the digits read as one
    integer, and the number of digits after the point; [None] when no digit
    is found. *)
Definition parse_decimal (s : string) : option (Z * Z * nat) :=
  let s := JsString.trimStart s in
  let (sign, s) :=
    match s with
    | String "-" s' => ((-1)%Z, s')
    | String "+" s' => (1%Z, s')
    | _ => (1%Z, s)
    end in
  let (int_digits, rest) := take_digits s in
  let frac_digits :=
    match rest with
    | String "." rest' => fst (take_digits rest')
    | _ => []
    end in
  match int_digits, frac_digits with
  | [], [] => None
  | _, _ =>
      Some (sign, digits_value (int_digits ++ frac_digits), length frac_digits)
  end.

(** [parseFloat(s)] on the decimal literals [digits], [digits.digits] and
    [.digits] with an optional sign (exponents and [Infinity] do not occur
    in what the sources pass); [NaN] when no digit is found. *)
Definition parseFloat (s : string) : JsValue :=
  match parse_decimal s with
  | Some (sign, digits, scale) =>
      JsNumber (IZR sign * IZR digits / 10 ^ scale)
  | None => JsNaN
  end.

End Js.

(** * Judge (judge.ts) *)

Module Judge.
Import Js.

Local Open Scope string_scope.

Record RubricCriterion : Type := mkCriterion {
  name : string;
  weight : R;
  required : bool
}.

Record Rubric : Type := mkRubric {
  max_score : R;
  criteria : list RubricCriterion
}.

(** The cast [as JudgeResponseSchema] checks nothing, so the fields copied
    from the parsed value are arbitrary JavaScript values. *)
Record JudgmentResult : Type := mkJudgment {
  jr_score : JsValue;
  jr_max_score : R;
  jr_reasoning : JsValue;
  jr_criteria_scores : JsValue
}.

Definition whitespace : ascii -> bool := JsString.is_whitespace.
Definition digit : ascii -> bool := JsString.is_digit.

Import JsString.

(** [\d+(?:\.\d+)?], captured *)
Definition number_group : regex :=
  Group (Seq (Plus (Class digit)) (Opt (Seq (Chr ".") (Plus (Class digit))))).

(** [(?:out of|\/)] *)
Definition out_of : regex := Alt (Lit "out of") (Chr "/").

Definition scorePatterns : list regex :=
  [ (* /final[_\s]score[:\s]+(\d+(?:\.\d+)?)/i *)
    Seq (Lit "final")
      (Seq (Class (fun c => Ascii.eqb c "_" || whitespace c))
         (Seq (Lit "score")
            (Seq (Plus (Class (fun c => Ascii.eqb c ":" || whitespace c)))
               number_group)));
    (* /score[:\s]+(\d+(?:\.\d+)?)\s*(?:out of|\/)/i *)
    Seq (Lit "score")
      (Seq (Plus (Class (fun c => Ascii.eqb c ":" || whitespace c)))
         (Seq number_group (Seq (Star (Class whitespace)) out_of)));
    (* /(\d+(?:\.\d+)?)\s*(?:out of|\/)\s*\d+/i *)
    Seq number_group
      (Seq (Star (Class whitespace))
         (Seq out_of (Seq (Star (Class whitespace)) (Plus (Class digit)))));
    (* /receives?\s+(\d+(?:\.\d+)?)\s+points/i *)
    Seq (Lit "receive")
      (Seq (Opt (Chr "s"))
         (Seq (Plus (Class whitespace))
            (Seq number_group
               (Seq (Plus (Class whitespace)) (Lit "points"))))) ].

(** Lines 129-140: the text handed to [JSON.parse]. *)
Definition extract_json (judgmentText : string) : string :=
  if includes judgmentText "```json" then
    let jsonStart := (indexOf judgmentText "```json" 0 + 7)%Z in
    let jsonEnd := indexOf judgmentText "```" (Z.to_nat jsonStart) in
    trim (substring judgmentText jsonStart jsonEnd)
  else if includes judgmentText "```" then
    let jsonStart := (indexOf judgmentText "```" 0 + 3)%Z in
    let jsonEnd := indexOf judgmentText "```" (Z.to_nat jsonStart) in
    trim (substring judgmentText jsonStart jsonEnd)
  else judgmentText.

(** Lines 161-170: the loop over [scorePatterns], left at the first match. *)
Fixpoint extract_score (patterns : list regex) (judgmentText : string)
  : JsValue :=
  match patterns with
  | [] => JsNumber 0
  | pattern :: patterns' =>
      match match_group1 pattern judgmentText with
      | Some (Some captured) => parseFloat captured
      | Some None => JsNaN
      | None => extract_score patterns' judgmentText
      end
  end.

Section Parser.

(** [JSON.parse], which returns a value or throws a [SyntaxError]. *)
Variable JSON_parse : string -> Exn JsValue.

(** The [try] block of [parseJudgment]. *)
Definition parse_structured (judgmentText : string) (rubric : Rubric)
  : Exn JudgmentResult :=
  let jsonStr := extract_json judgmentText in
  bind (JSON_parse jsonStr) (fun judgment =>
  bind (get_property judgment "final_score") (fun final_score =>
  bind (get_property judgment "overall_reasoning") (fun overall_reasoning =>
  bind (get_property judgment "criteria_evaluations")
    (fun criteria_evaluations =>
  ret (mkJudgment final_score (max_score rubric) overall_reasoning
         criteria_evaluations))))).

(** The [catch] block of [parseJudgment]. *)
Definition parse_fallback (judgmentText : string) (rubric : Rubric)
  : Exn JudgmentResult :=
  let extractedScore := extract_score scorePatterns judgmentText in
  ret (mkJudgment extractedScore (max_score rubric)
         (JsStr ("[JSON parsing failed] " ++ substring judgmentText 0 300))
         (JsArray [])).

Definition parseJudgment (judgmentText : string) (rubric : Rubric)
  : Exn JudgmentResult :=
  try_catch (parse_structured judgmentText rubric)
    (fun error => parse_fallback judgmentText rubric).

End Parser.

End Judge.

(** * Generation client (openrouter.ts) *)

Module OpenRouter.

Local Open Scope Z_scope.

Record OpenRouterMessage : Type := mkMessage {
  role : string;
  content : string
}.

(** The body of the POST request. *)
Record Payload : Type := mkPayload {
  model : string;
  messages : list OpenRouterMessage;
  max_tokens : Z;
  temperature : R;
  seed : option Z
}.

(** A parsed response body.  [choices] is absent in a malformed payload, and
    the [content] of a message can be [null]. *)
Record OpenRouterResponse : Type := mkResponse {
  choices : option (list (option string))
}.

(** What the network does with one [fetch] and the [response.json()] after
    it. *)
Inductive FetchOutcome : Type :=
| FetchRejects (reason : string)
| NotOk (status : Z) (errorText : string)
| JsonRejects (reason : string)
| Json (data : OpenRouterResponse).

(** The exceptions of [generate], one constructor per [throw] site and per
    runtime error. *)
Inductive Error : Type :=
| FetchError (reason : string)
| ApiError (status : Z) (errorText : string)
| JsonError (reason : string)
| TypeError
| UnexpectedResponseFormat (data : OpenRouterResponse)
| FailedAfterAttempts (maxRetries : nat) (cause : Error)
| RequestFailed.

(** The [GenerationError] of the specification: retries are exhausted. *)
Definition GenerationError (e : Error) : Prop :=
  exists n cause, e = FailedAfterAttempts n cause.

Inductive Event : Type :=
| Fetch (payload : Payload)
| Sleep (ms : Z).

Definition Trace : Type := list Event.

(** Number of requests issued so far. *)
Fixpoint fetches (tr : Trace) : nat :=
  match tr with
  | [] => O
  | Fetch _ :: tr' => S (fetches tr')
  | Sleep _ :: tr' => fetches tr'
  end.

(** A computation appends to the trace of the client's effects and returns
    or throws. *)
Definition IO (A : Type) : Type := Trace -> (Error + A) * Trace.

Definition ret {A} (a : A) : IO A := fun tr => (inr a, tr).
Definition throw {A} (e : Error) : IO A := fun tr => (inl e, tr).
Definition bind {A B} (m : IO A) (f : A -> IO B) : IO B :=
  fun tr =>
    match m tr with
    | (inr a, tr') => f a tr'
    | (inl e, tr') => (inl e, tr')
    end.
Definition try_catch {A} (m : IO A) (handler : Error -> IO A) : IO A :=
  fun tr =>
    match m tr with
    | (inr a, tr') => (inr a, tr')
    | (inl e, tr') => handler e tr'
    end.

Local Notation "'let*' x ':=' m 'in' f" := (bind m (fun x => f))
  (at level 10, x name, m at level 100, f at level 200).
Local Notation "m ';;' f" := (bind m (fun _ => f))
  (at level 100, f at level 200, right associativity).

Definition maxRetries : nat := 3.
Definition retryDelay : Z := 2000.

(** Lines 103-114: what one response yields. *)
Definition read_response (o : FetchOutcome) : Error + string :=
  match o with
  | FetchRejects reason => inl (FetchError reason)
  | NotOk status errorText => inl (ApiError status errorText)
  | JsonRejects reason => inl (JsonError reason)
  | Json data =>
      match choices data with
      | Some (Some text :: _) => inr (JsString.trim text)
      | Some (None :: _) => inl TypeError
      | Some [] | None => inl (UnexpectedResponseFormat data)
      end
  end.

Section Client.

Variable modelName : string.

(** [network n payload]: the outcome of the [n]-th request of the run. *)
Variable network : nat -> Payload -> FetchOutcome.

Definition fetch (payload : Payload) : IO string :=
  fun tr =>
    (read_response (network (fetches tr) payload), tr ++ [Fetch payload]).

Definition setTimeout (ms : Z) : IO unit :=
  fun tr => (inr tt, tr ++ [Sleep ms]).

Definition build_payload
    (prompt : string) (maxTokens : Z) (temperature : R)
    (systemMessage : option string) (seed : option Z) : Payload :=
  let messages :=
    match systemMessage with
    | Some m => if String.eqb m "" then [] else [mkMessage "system" m]
    | None => []
    end ++ [mkMessage "user" prompt] in
  mkPayload modelName messages maxTokens temperature seed.

(** The [for (let attempt = 0; attempt < maxRetries; attempt++)] loop, with
    [remaining = maxRetries - attempt] iterations to go. *)
Fixpoint attempts (payload : Payload) (remaining attempt : nat) : IO string :=
  match remaining with
  | O => throw RequestFailed
  | S remaining' =>
      try_catch (fetch payload)
        (fun error =>
           if (attempt <? maxRetries - 1)%nat then
             let delay := retryDelay * (Z.of_nat attempt + 1) in
             setTimeout delay ;;
             attempts payload remaining' (S attempt)
           else
             throw (FailedAfterAttempts maxRetries error))
  end.

Definition generate
    (prompt : string) (maxTokens : Z) (temperature : R)
    (systemMessage : option string) (seed : option Z) : IO string :=
  attempts (build_payload prompt maxTokens temperature systemMessage seed)
           maxRetries 0.

End Client.

End OpenRouter.

(** * Rate limiter (rate-limiter.ts)

    [throttle] is an [async] function on a single-threaded event loop: a
    call runs without interruption up to its [await], where it registers a
    timer and yields; the rest of the call runs when the timer fires.  The
    state below is what the calls share: the clock, the arrays of
    timestamps (by reference, since [filter] allocates a new array while a
    suspended call keeps the one it holds), the [requestHistory] map and the
    pending timers. *)

Module RateLimiter.

Local Open Scope Z_scope.

(** A suspended call of [throttle]: what remains is
    [recentRequests.push(...); return fn()]. *)
Record Timer : Type := mkTimer {
  wake_at : Z;
  caller : nat;
  provider_of : string;
  recentRequests_ref : nat
}.

(** One invocation of [fn]. *)
Record Invocation : Type := mkInvocation {
  inv_caller : nat;
  inv_provider : string;
  inv_time : Z
}.

Record State : Type := mkState {
  now : Z;
  heap : list (list Z);
  requestHistory : gmap string nat;
  timers : list Timer;
  invocations : list Invocation
}.

Definition initial : State := mkState 0 [] ∅ [] [].

Definition windowMs : Z := 60 * 1000.

(** [setTimeout(resolve, waitTime)]: the delay is truncated to an integer
    number of milliseconds and is at least 1. *)
Definition timer_delay (waitTime : Q) : Z := Z.max 1 (Qfloor waitTime).

(** [new Array], returning the reference. *)
Definition alloc (a : list Z) (st : State) : nat * State :=
  (length (heap st),
   mkState (now st) (heap st ++ [a]) (requestHistory st) (timers st)
           (invocations st)).

Definition deref (st : State) (ref : nat) : list Z :=
  default [] (heap st !! ref).

(** Lines 67-71: [recentRequests.push({ timestamp: Date.now() }); return
    fn()]. *)
Definition record_and_invoke
    (provider : string) (who : nat) (ref : nat) (st : State) : State :=
  mkState (now st)
          (alter (fun a => a ++ [now st]) ref (heap st))
          (requestHistory st) (timers st)
          (invocations st ++ [mkInvocation who provider (now st)]).

(** [await new Promise((resolve) => setTimeout(resolve, waitTime))] followed
    by the rest of the call. *)
Definition suspend
    (waitTime : Q) (provider : string) (who : nat) (ref : nat) (st : State)
  : State :=
  mkState (now st) (heap st) (requestHistory st)
          (timers st ++
             [mkTimer (now st + timer_delay waitTime) who provider ref])
          (invocations st).

(** Lines 26-39: the history of [provider], created if absent, is pruned
    into a new array, which replaces it in [requestHistory]; the result is
    the reference to that array, [recentRequests]. *)
Definition prune (provider : string) (st : State) : nat * State :=
  let st :=
    match requestHistory st !! provider with
    | Some _ => st
    | None =>
        let (ref, st') := alloc [] st in
        mkState (now st') (heap st') (<[provider := ref]> (requestHistory st'))
                (timers st') (invocations st')
    end in
  let history :=
    match requestHistory st !! provider with
    | Some ref => deref st ref
    | None => []
    end in
  let cutoff := now st - windowMs in
  let (ref, st) :=
    alloc (List.filter (fun timestamp => cutoff <? timestamp) history) st in
  (ref,
   mkState (now st) (heap st) (<[provider := ref]> (requestHistory st))
           (timers st) (invocations st)).

(** Lines 41-71: wait for the window or for the spacing, then record the
    request and invoke [fn]. *)
Definition wait_then_invoke
    (provider : string) (limitRPM : Z) (who : nat) (ref : nat) (st : State)
  : State :=
  let minSpacingMs : Q := (inject_Z windowMs / inject_Z limitRPM)%Q in
  let recentRequests := deref st ref in
  if Z.of_nat (length recentRequests) >=? limitRPM then
    let oldestRequest := List.hd 0 recentRequests in
    let waitTime := oldestRequest + windowMs - now st in
    if 0 <? waitTime then suspend (inject_Z waitTime) provider who ref st
    else record_and_invoke provider who ref st
  else if (0 <? length recentRequests)%nat then
    let lastRequest := List.last recentRequests 0 in
    let timeSinceLastRequest := now st - lastRequest in
    let waitTime : Q := (minSpacingMs - inject_Z timeSinceLastRequest)%Q in
    if negb (Qle_bool waitTime 0) then suspend waitTime provider who ref st
    else record_and_invoke provider who ref st
  else record_and_invoke provider who ref st.

(** The part of [throttle] that runs at the call. *)
Definition throttle
    (provider : string) (limitRPM : Z) (who : nat) (st : State) : State :=
  if limitRPM <=? 0 then
    mkState (now st) (heap st) (requestHistory st) (timers st)
            (invocations st ++ [mkInvocation who provider (now st)])
  else
    let (ref, st) := prune provider st in
    wait_then_invoke provider limitRPM who ref st.

(** ** The event loop *)

(** The pending timer that fires next, with the others: the earliest
    expiry, and among equal expiries the one registered first. *)
Fixpoint next_timer (ts : list Timer) : option (Timer * list Timer) :=
  match ts with
  | [] => None
  | t :: ts' =>
      match next_timer ts' with
      | Some (t', rest) =>
          if wake_at t' <? wake_at t then Some (t', t :: rest)
          else Some (t, ts')
      | None => Some (t, [])
      end
  end.

Definition fire (t : Timer) (rest : list Timer) (st : State) : State :=
  record_and_invoke (provider_of t) (caller t) (recentRequests_ref t)
    (mkState (Z.max (now st) (wake_at t)) (heap st) (requestHistory st) rest
             (invocations st)).

(** Fire the timers that expire no later than [deadline] ([None]: all of
    them); firing registers no timer, so [fuel = length (timers st)]
    suffices. *)
Fixpoint run_timers (fuel : nat) (deadline : option Z) (st : State) : State :=
  match fuel with
  | O => st
  | S fuel' =>
      match next_timer (timers st) with
      | Some (t, rest) =>
          if match deadline with
             | Some d => wake_at t <=? d
             | None => true
             end
          then run_timers fuel' deadline (fire t rest st)
          else st
      | None => st
      end
  end.

Record Call : Type := mkCall {
  call_time : Z;
  call_provider : string;
  call_limitRPM : Z
}.

(** The calls arrive in the order of the list; the [i]-th caller is
    numbered [i]. *)
Fixpoint run_calls (calls : list Call) (who : nat) (st : State) : State :=
  match calls with
  | [] => run_timers (length (timers st)) None st
  | c :: calls' =>
      let st := run_timers (length (timers st)) (Some (call_time c)) st in
      let st :=
        mkState (Z.max (now st) (call_time c)) (heap st) (requestHistory st)
                (timers st) (invocations st) in
      run_calls calls' (S who)
        (throttle (call_provider c) (call_limitRPM c) who st)
  end.

Definition run (calls : list Call) : list Invocation :=
  invocations (run_calls calls 0 initial).

(** A caller that awaits each call before making the next, as the retry
    loop of a client does: the call enters, and its timer, if any, fires
    before anything else happens. *)
Definition call_and_wait (c : Call) (who : nat) (st : State) : State :=
  let st :=
    mkState (Z.max (now st) (call_time c)) (heap st) (requestHistory st)
            (timers st) (invocations st) in
  let st := throttle (call_provider c) (call_limitRPM c) who st in
  run_timers (length (timers st)) None st.

Fixpoint run_sequential (calls : list Call) (who : nat) (st : State) : State :=
  match calls with
  | [] => st
  | c :: calls' => run_sequential calls' (S who) (call_and_wait c who st)
  end.

(** Six trials of one question start together against the Magisterium
    client (magisterium.ts), whose limit is 5 requests per minute. *)
Definition MAGISTERIUM_RPM_LIMIT : Z := 5.
Definition magisterium_burst : list Call :=
  repeat (mkCall 0 "magisterium" MAGISTERIUM_RPM_LIMIT) 6.

(** The history [throttle] finds for [provider]. *)
Definition history_of (provider : string) (st : State) : list Z :=
  match requestHistory st !! provider with
  | Some ref => deref st ref
  | None => []
  end.

(** ** Sequential callers *)

Definition times (log : list Invocation) : list Z := map inv_time log.

Definition in_window (t : Z) (x : Z) : bool := (t <=? x) && (x <? t + windowMs).

(** The state between two awaited calls for [provider]: no timer is pending,
    the invocations are in time order and in the past, the stored history
    is the part of them after some cutoff at least a window old, and no
    window holds more than [limitRPM] of them. *)
Definition settled (provider : string) (limitRPM : Z) (st : State) : Prop :=
  timers st = [] /\
  Forall (fun i => inv_provider i = provider) (invocations st) /\
  StronglySorted Z.le (times (invocations st)) /\
  Forall (fun x => x <= now st) (times (invocations st)) /\
  (exists cutoff,
      cutoff <= now st - windowMs /\
      history_of provider st
      = List.filter (fun x => cutoff <? x) (times (invocations st))) /\
  (forall t,
      Z.of_nat (length (List.filter (in_window t) (times (invocations st))))
      <= limitRPM).

(** ** The guarantee, as the specification words it *)

(** Invocations for [provider] that start within [[t, t + 60s)]. *)
Definition started_within (provider : string) (t : Z) (log : list Invocation)
  : nat :=
  length (List.filter
            (fun i => String.eqb (inv_provider i) provider
                      && (t <=? inv_time i) && (inv_time i <? t + windowMs))
            log).

Definition respects_limit (provider : string) (limitRPM : Z)
    (log : list Invocation) : Prop :=
  forall t : Z, Z.of_nat (started_within provider t log) <= limitRPM.

(** Callers are served in the order of their arrival. *)
Definition served_fifo (log : list Invocation) : Prop :=
  Sorted.StronglySorted (fun i j => (inv_caller i <= inv_caller j)%nat) log.

(** ** Clearing the history *)

(** [this.requestHistory.delete(provider)] *)
Definition clearHistory (provider : string) (st : State) : State :=
  mkState (now st) (heap st) (delete provider (requestHistory st)) (timers st)
          (invocations st).

(** [this.requestHistory.clear()] *)
Definition clearAllHistory (st : State) : State :=
  mkState (now st) (heap st) ∅ (timers st) (invocations st).

(** Every array that [requestHistory] refers to exists. *)
Definition well_formed (st : State) : Prop :=
  forall provider ref,
    requestHistory st !! provider = Some ref -> (ref < length (heap st))%nat.

End RateLimiter.

(** * Evaluation runner (runner.ts) *)

Module Runner.
Import Statistics.

Local Open Scope string_scope.

(** ** Data *)

Inductive Variant : Type := explicit | implicit.

Definition variant_name (v : Variant) : string :=
  match v with
  | explicit => "explicit"
  | implicit => "implicit"
  end.

Record Question : Type := mkQuestion {
  q_id : string;
  q_pillar_id : Z;
  q_truth_hierarchy : Z;
  q_weight : R;
  q_explicit_text : string;
  q_implicit_text : string;
  q_reference_answer : option string;
  q_rubric_explicit : Judge.Rubric;
  q_rubric_implicit : Judge.Rubric
}.

Definition getRubricForVariant (question : Question) (variant : Variant)
  : Judge.Rubric :=
  match variant with
  | explicit => q_rubric_explicit question
  | implicit => q_rubric_implicit question
  end.

Record ModelConfig : Type := mkModelConfig {
  mc_name : string;
  mc_version : string;
  mc_provider : string
}.

(** The text [x.toFixed(d)], which is also how a [decimal] column reads:
    an integer number of units of [10^-d]. *)
Record Decimal : Type := mkDecimal {
  dec_units : Z;
  dec_scale : nat
}.

(** Nearest integer, ties away from zero. *)
Definition round_half_away (x : R) : Z :=
  if Rle_dec 0 x then Zfloor (x + / 2) else (- Zfloor (- x + / 2))%Z.

Definition toFixed (d : nat) (x : R) : Decimal :=
  mkDecimal (round_half_away (x * 10 ^ d)) d.

(** [parseFloat] of a decimal column. *)
Definition decimal_value (s : Decimal) : R :=
  IZR (dec_units s) / 10 ^ dec_scale s.

(** [Math.round]: nearest integer, ties upwards. *)
Definition Math_round (x : R) : Z := Zfloor (x + / 2).

(** ** Tables (schema.ts); identifiers generated by the database are
    numbers *)

Record ModelRow : Type := mkModelRow {
  model_id : nat;
  model_name : string;
  model_version : string;
  model_provider : string
}.

Record EvaluationRun : Type := mkEvaluationRun {
  run_id : nat;
  run_modelId : nat;
  run_startedAt : option Z;
  run_completedAt : option Z;
  run_status : string;
  run_totalQuestions : Z;
  run_currentQuestion : Z;
  run_currentQuestionId : option string;
  run_currentVariant : option Variant;
  run_responsesCompleted : option Z;
  run_averageScore : option Decimal;
  run_estimatedTimeRemaining : option Z
}.

Record ResponseRow : Type := mkResponseRow {
  resp_id : nat;
  resp_evaluationRunId : nat;
  resp_questionId : string;
  resp_modelId : nat;
  resp_questionVariant : string;
  resp_responseText : string;
  resp_runCount : Z;
  resp_meanScore : Decimal;
  resp_stdDev : Decimal;
  resp_minScore : Decimal;
  resp_maxScore : Decimal;
  resp_coefficientOfVariation : Decimal;
  resp_judgeReasoning : string
}.

Record ResponseRunRow : Type := mkResponseRunRow {
  rr_responseId : nat;
  rr_runNumber : Z;
  rr_responseText : string;
  rr_score : Decimal;
  rr_maxScore : Decimal;
  rr_judgeReasoning : string
}.

Record PillarScoreRow : Type := mkPillarScoreRow {
  ps_evaluationRunId : nat;
  ps_modelId : nat;
  ps_pillarId : Z;
  ps_avgScore : Decimal;
  ps_avgScoreCiLower : Decimal;
  ps_avgScoreCiUpper : Decimal;
  ps_sampleVariance : Decimal;
  ps_questionCount : Z
}.

Record ModelScoreRow : Type := mkModelScoreRow {
  ms_modelId : nat;
  ms_evaluationRunId : nat;
  ms_overallScore : Decimal;
  ms_overallScoreCiLower : Decimal;
  ms_overallScoreCiUpper : Decimal;
  ms_weightedScore : Decimal;
  ms_weightedScoreCiLower : Decimal;
  ms_weightedScoreCiUpper : Decimal;
  ms_scoreVariance : Decimal;
  ms_consistencyScore : Decimal;
  ms_totalQuestions : Z
}.

Record Database : Type := mkDatabase {
  next_id : nat;
  models : list ModelRow;
  evaluationRuns : list EvaluationRun;
  responses : list ResponseRow;
  responseRuns : list ResponseRunRow;
  pillarScores : list PillarScoreRow;
  modelScores : list ModelScoreRow
}.

(** ** Calls to the collaborators *)

(** [testModel.generate(prompt, maxTokens, temperature, systemMessage,
    seed)] *)
Record GenerateCall : Type := mkGenerateCall {
  gc_prompt : string;
  gc_maxTokens : Z;
  gc_temperature : R;
  gc_systemMessage : option string;
  gc_seed : option Z
}.

(** [judge.grade(question, response, rubric, referenceAnswer)] *)
Record GradeCall : Type := mkGradeCall {
  grade_question : string;
  grade_response : string;
  grade_rubric : Judge.Rubric;
  grade_referenceAnswer : option string
}.

(** A judgment whose score is a number. *)
Record Judgment : Type := mkJudgment {
  j_score : R;
  j_max_score : R;
  j_reasoning : string
}.

Record EvaluationProgress : Type := mkProgress {
  p_evaluationRunId : nat;
  p_modelId : nat;
  p_status : string;
  p_currentQuestion : Z;
  p_totalQuestions : Z;
  p_currentQuestionId : option string;
  p_currentVariant : option Variant;
  p_totalRuns : Z;
  p_responsesCompleted : Z;
  p_averageScore : R;
  p_startedAt : Z;
  p_estimatedTimeRemaining : Z
}.

Record EvaluationResult : Type := mkResult {
  res_eval_run_id : nat;
  res_model_id : nat;
  res_overall_score : R;
  res_overall_score_ci : option R * option R;
  res_weighted_score : R;
  res_weighted_score_ci : option R * option R;
  res_consistency_score : R;
  res_total_responses : Z
}.

(** ** The world of a run: the database and what the run has done so far *)

Record World : Type := mkWorld {
  db : Database;
  generate_log : list GenerateCall;
  grade_log : list GradeCall;
  progress_log : list EvaluationProgress;
  skip_log : list string;
  clock_reads : nat;
  random_draws : nat
}.

Inductive Error : Type :=
| RunNotFound (evalRunId : nat)
| RunAlreadyCompleted (evalRunId : nat)
| TypeError (message : string)
| GenerationError (message : string)
| JudgeError (message : string).

Definition M (A : Type) : Type := World -> (Error + A) * World.

Definition ret {A} (a : A) : M A := fun w => (inr a, w).
Definition throw {A} (e : Error) : M A := fun w => (inl e, w).
Definition bind {A B} (m : M A) (f : A -> M B) : M B :=
  fun w =>
    match m w with
    | (inr a, w') => f a w'
    | (inl e, w') => (inl e, w')
    end.

Local Notation "'let*' x ':=' m 'in' f" := (bind m (fun x => f))
  (at level 10, x name, m at level 100, f at level 200).
Local Notation "m ';;' f" := (bind m (fun _ => f))
  (at level 100, f at level 200, right associativity).

(** [for (const x of xs) { body }] *)
Fixpoint for_each {A} (xs : list A) (body : A -> M unit) : M unit :=
  match xs with
  | [] => ret tt
  | x :: xs' => body x ;; for_each xs' body
  end.

Definition get_db : M Database := fun w => (inr (db w), w).
Definition modify_db (f : Database -> Database) : M unit :=
  fun w =>
    (inr tt,
     mkWorld (f (db w)) (generate_log w) (grade_log w) (progress_log w)
             (skip_log w) (clock_reads w) (random_draws w)).

(** [console.log] of a skipped pair. *)
Definition log_skip (variantKey : string) : M unit :=
  fun w =>
    (inr tt,
     mkWorld (db w) (generate_log w) (grade_log w) (progress_log w)
             (skip_log w ++ [variantKey]) (clock_reads w) (random_draws w)).

Definition progressCallback (progress : EvaluationProgress) : M unit :=
  fun w =>
    (inr tt,
     mkWorld (db w) (generate_log w) (grade_log w)
             (progress_log w ++ [progress]) (skip_log w) (clock_reads w)
             (random_draws w)).

(** A computation of the statistics module that draws random numbers. *)
Definition with_random {A} (m : Rand A) : M A :=
  fun w =>
    let (a, k) := m (random_draws w) in
    (inr a,
     mkWorld (db w) (generate_log w) (grade_log w) (progress_log w)
             (skip_log w) (clock_reads w) k).

(** ** Database operations (drizzle queries) *)

Definition fresh_id : M nat :=
  fun w =>
    let d := db w in
    (inr (next_id d),
     mkWorld (mkDatabase (S (next_id d)) (models d) (evaluationRuns d)
                (responses d) (responseRuns d) (pillarScores d)
                (modelScores d))
             (generate_log w) (grade_log w) (progress_log w) (skip_log w)
             (clock_reads w) (random_draws w)).

Definition select_run (evalRunId : nat) : M (option EvaluationRun) :=
  let* d := get_db in
  ret (List.find (fun r => Nat.eqb (run_id r) evalRunId) (evaluationRuns d)).

(** The rows of a run and the trial rows of a response, as the queries
    return them. *)
Definition responses_of (evalRunId : nat) (d : Database) : list ResponseRow :=
  List.filter (fun r => Nat.eqb (resp_evaluationRunId r) evalRunId)
    (responses d).

Definition responseRuns_of (responseId : nat) (d : Database)
  : list ResponseRunRow :=
  List.filter (fun r => Nat.eqb (rr_responseId r) responseId)
    (responseRuns d).

Definition select_responses (evalRunId : nat) : M (list ResponseRow) :=
  let* d := get_db in
  ret (responses_of evalRunId d).

Definition select_responseRuns (responseId : nat) : M (list ResponseRunRow) :=
  let* d := get_db in
  ret (responseRuns_of responseId d).

Definition select_model (name : string) : M (option ModelRow) :=
  let* d := get_db in
  ret (List.find (fun m => String.eqb (model_name m) name) (models d)).

Definition insert_model (name version provider : string) : M ModelRow :=
  let* id := fresh_id in
  let row := mkModelRow id name version provider in
  modify_db (fun d =>
    mkDatabase (next_id d) (models d ++ [row]) (evaluationRuns d)
      (responses d) (responseRuns d) (pillarScores d) (modelScores d)) ;;
  ret row.

Definition insert_run (row : nat -> EvaluationRun) : M EvaluationRun :=
  let* id := fresh_id in
  modify_db (fun d =>
    mkDatabase (next_id d) (models d) (evaluationRuns d ++ [row id])
      (responses d) (responseRuns d) (pillarScores d) (modelScores d)) ;;
  ret (row id).

Definition update_run (evalRunId : nat) (set : EvaluationRun -> EvaluationRun)
  : M unit :=
  modify_db (fun d =>
    mkDatabase (next_id d) (models d)
      (map (fun r => if Nat.eqb (run_id r) evalRunId then set r else r)
         (evaluationRuns d))
      (responses d) (responseRuns d) (pillarScores d) (modelScores d)).

Definition insert_response (row : nat -> ResponseRow) : M ResponseRow :=
  let* id := fresh_id in
  modify_db (fun d =>
    mkDatabase (next_id d) (models d) (evaluationRuns d)
      (responses d ++ [row id]) (responseRuns d) (pillarScores d)
      (modelScores d)) ;;
  ret (row id).

Definition insert_responseRun (row : ResponseRunRow) : M unit :=
  modify_db (fun d =>
    mkDatabase (next_id d) (models d) (evaluationRuns d) (responses d)
      (responseRuns d ++ [row]) (pillarScores d) (modelScores d)).

Definition insert_pillarScore (row : PillarScoreRow) : M unit :=
  modify_db (fun d =>
    mkDatabase (next_id d) (models d) (evaluationRuns d) (responses d)
      (responseRuns d) (pillarScores d ++ [row]) (modelScores d)).

Definition insert_modelScore (row : ModelScoreRow) : M unit :=
  modify_db (fun d =>
    mkDatabase (next_id d) (models d) (evaluationRuns d) (responses d)
      (responseRuns d) (pillarScores d) (modelScores d ++ [row])).

(** ** The runner *)

Record RunResult : Type := mkRunResult {
  run_responseText : string;
  run_score : R;
  run_maxScore : R;
  run_judgeReasoning : string
}.

Record ResponseStat : Type := mkResponseStat {
  mean_score : R;
  max_score : R;
  stat_pillar_id : Z;
  stat_cv : R
}.

(** The variables of [runEvaluation] that the loop over the pairs
    updates. *)
Record LoopState : Type := mkLoopState {
  completedVariants : Z;
  allResponseStats : list ResponseStat
}.

(** [`${questionId}:${variant}`] *)
Definition variantKey_of (questionId variant : string) : string :=
  questionId ++ ":" ++ variant.

(** [allResponseStats.reduce((sum, r) => sum + r.mean_score, 0) /
     allResponseStats.reduce((sum, r) => sum + r.max_score, 0)] *)
Definition currentScore_of (allResponseStats : list ResponseStat) : R :=
  fold_left (fun sum r => sum + mean_score r) allResponseStats 0
  / fold_left (fun sum r => sum + max_score r) allResponseStats 0.

(** An insertion-ordered [Map<number, number[]>]: push [x] under [key]. *)
Fixpoint map_push (key : Z) (x : R) (m : list (Z * list R))
  : list (Z * list R) :=
  match m with
  | [] => [(key, [x])]
  | (k, xs) :: m' =>
      if (k =? key)%Z then (k, (xs ++ [x])%list) :: m'
      else (k, xs) :: map_push key x m'
  end.

(** [slots] filled, as [Promise.all] requires before it resolves. *)
Fixpoint all_settled {A} (slots : list (option A)) : option (list A) :=
  match slots with
  | [] => Some []
  | Some a :: slots' =>
      match all_settled slots' with
      | Some l => Some (a :: l)
      | None => None
      end
  | None :: _ => None
  end.

Fixpoint indexed_from {A} (i : nat) (xs : list A) : list (nat * A) :=
  match xs with
  | [] => []
  | x :: xs' => (i, x) :: indexed_from (S i) xs'
  end.

Fixpoint map_each {A B} (xs : list A) (body : A -> M B) : M (list B) :=
  match xs with
  | [] => ret []
  | x :: xs' =>
      let* y := body x in
      let* ys := map_each xs' body in
      ret (y :: ys)
  end.

Section EvalRunner.

(** The collaborators of a run.  [testModel_generate n call] is what the
    [n]-th call of the run to the generation client yields, an error
    message or a text; the judge, called at temperature 0, is a function
    of its call; [schedule idx variant] is the order in which the trials
    of a pair complete; [clock n] is the [n]-th reading of [Date.now()]. *)
Variable testModel_generate : nat -> GenerateCall -> string + string.
Variable judge_grade : GradeCall -> string + Judgment.
Variable schedule : nat -> Variant -> list nat.
Variable clock : nat -> Z.
Variable random : nat -> R.

Variable modelConfig : ModelConfig.
Variable runsPerQuestion : nat.

Definition Date_now : M Z :=
  fun w =>
    (inr (clock (clock_reads w)),
     mkWorld (db w) (generate_log w) (grade_log w) (progress_log w)
             (skip_log w) (S (clock_reads w)) (random_draws w)).

(** Lines 277-290: the part of trial [idx] that runs at once, up to the
    call of the generation client; the result is what that call will
    yield. *)
Definition trial_call (questionText : string) (idx : nat) : GenerateCall :=
  let runNum := (idx + 1)%nat in
  let isDeterministicRun := (runNum =? 1)%nat in
  let temperature := if isDeterministicRun then 0 else 0.7 in
  let seed := if isDeterministicRun then Some 0%Z else None in
  mkGenerateCall questionText 2000 temperature None seed.

Definition start_trial (questionText : string) (idx : nat)
  : M (string + string) :=
  fun w =>
    let call := trial_call questionText idx in
    (inr (testModel_generate (length (generate_log w)) call),
     mkWorld (db w) (generate_log w ++ [call]) (grade_log w)
             (progress_log w) (skip_log w) (clock_reads w)
             (random_draws w)).

Definition grade (call : GradeCall) : M Judgment :=
  fun w =>
    let w' :=
      mkWorld (db w) (generate_log w) (grade_log w ++ [call])
              (progress_log w) (skip_log w) (clock_reads w)
              (random_draws w) in
    match judge_grade call with
    | inr judgment => (inr judgment, w')
    | inl message => (inl (JudgeError message), w')
    end.

(** Lines 292-313: the rest of a trial, once its generation has
    settled. *)
Definition finish_trial
    (question : Question) (questionText : string) (rubric : Judge.Rubric)
    (generated : string + string) : M RunResult :=
  match generated with
  | inl message => throw (GenerationError message)
  | inr responseText =>
      let* judgment :=
        grade (mkGradeCall questionText responseText rubric
                 (q_reference_answer question)) in
      ret (mkRunResult responseText (j_score judgment)
             (j_max_score judgment) (j_reasoning judgment))
  end.

(** The trials complete in the order [order]; each stores its result in
    the slot of its index. *)
Fixpoint settle
    (question : Question) (questionText : string) (rubric : Judge.Rubric)
    (order : list nat) (pending : list (string + string))
    (slots : list (option RunResult)) : M (list (option RunResult)) :=
  match order with
  | [] => ret slots
  | idx :: order' =>
      match pending !! idx with
      | Some generated =>
          let* result := finish_trial question questionText rubric generated in
          settle question questionText rubric order' pending
                 (<[idx := Some result]> slots)
      | None => settle question questionText rubric order' pending slots
      end
  end.

(** [Array.from({ length: runsPerQuestion }, async (_, idx) => ...)]
    followed by [await Promise.all(runPromises)].  A completion order that
    leaves a trial out never resolves the promise; the run is then stuck,
    which [throw (TypeError ...)] stands for. *)
Definition run_trials
    (idx : nat) (question : Question) (variant : Variant)
    (questionText : string) (rubric : Judge.Rubric) : M (list RunResult) :=
  let* pending :=
    map_each (seq 0 runsPerQuestion) (start_trial questionText) in
  let* slots :=
    settle question questionText rubric (schedule idx variant) pending
           (replicate runsPerQuestion None) in
  match all_settled slots with
  | Some runResults => ret runResults
  | None => throw (TypeError "Promise.all never settles")
  end.

(** Lines 255-422: one question-variant pair that is not yet completed. *)
Definition evaluate_variant
    (evalRunId modelId : nat) (startTime : Z) (questions_length : nat)
    (idx : nat) (question : Question) (variant : Variant) (ls : LoopState)
  : M LoopState :=
  let totalVariants := (Z.of_nat questions_length * 2)%Z in
  let questionText :=
    match variant with
    | explicit => q_explicit_text question
    | implicit => q_implicit_text question
    end in
  let rubric := getRubricForVariant question variant in
  let* runs := run_trials idx question variant questionText rubric in
  let scores := map run_score runs in
  let stats := calculateConsistencyMetrics scores in
  match runs with
  | [] => throw (TypeError "Cannot read properties of undefined")
  | deterministic :: _ =>
      let* response :=
        insert_response (fun id =>
          mkResponseRow id evalRunId (q_id question) modelId
            (variant_name variant)
            (run_responseText deterministic)
            (Z.of_nat runsPerQuestion)
            (toFixed 2 (cm_mean stats))
            (toFixed 2 (cm_stdDev stats))
            (toFixed 2 (cm_min stats))
            (toFixed 2 (cm_max stats))
            (toFixed 4 (cm_coefficientOfVariation stats))
            (run_judgeReasoning deterministic)) in
      for_each (indexed_from 0 runs) (fun ir =>
        insert_responseRun
          (mkResponseRunRow (resp_id response)
             (Z.of_nat (fst ir) + 1)
             (run_responseText (snd ir))
             (toFixed 2 (run_score (snd ir)))
             (toFixed 2 (run_maxScore (snd ir)))
             (run_judgeReasoning (snd ir)))) ;;
      let allResponseStats :=
        (allResponseStats ls ++
         [mkResponseStat (cm_mean stats) (run_maxScore deterministic)
            (q_pillar_id question) (cm_coefficientOfVariation stats)])%list in
      let completedVariants := (completedVariants ls + 1)%Z in
      let* now := Date_now in
      let elapsedSeconds := IZR (now - startTime) / 1000 in
      let avgSecondsPerVariant := elapsedSeconds / IZR completedVariants in
      let remainingVariants := (totalVariants - completedVariants)%Z in
      let estimatedTimeRemaining :=
        Math_round (avgSecondsPerVariant * IZR remainingVariants) in
      let currentScore := currentScore_of allResponseStats in
      let averageScorePercent := currentScore * 100 in
      update_run evalRunId (fun r =>
        mkEvaluationRun (run_id r) (run_modelId r) (run_startedAt r)
          (run_completedAt r) (run_status r) (run_totalQuestions r)
          (Z.of_nat idx + 1) (Some (q_id question)) (Some variant)
          (Some completedVariants)
          (Some (toFixed 2 averageScorePercent))
          (Some estimatedTimeRemaining)) ;;
      progressCallback
        (mkProgress evalRunId modelId "running" (Z.of_nat idx + 1)
           (Z.of_nat questions_length) (Some (q_id question))
           (Some variant) (Z.of_nat runsPerQuestion) completedVariants
           averageScorePercent startTime estimatedTimeRemaining) ;;
      ret (mkLoopState completedVariants allResponseStats)
  end.

(** Lines 248-254 and the body above: the [continue] of a completed
    pair. *)
Definition process_variant
    (evalRunId modelId : nat) (startTime : Z) (questions_length : nat)
    (completedPairs : gset string)
    (idx : nat) (question : Question) (variant : Variant) (ls : LoopState)
  : M LoopState :=
  let variantKey := variantKey_of (q_id question) (variant_name variant) in
  if decide (variantKey ∈ completedPairs) then
    log_skip variantKey ;; ret ls
  else
    evaluate_variant evalRunId modelId startTime questions_length
      idx question variant ls.

(** Lines 242-424: [for (let idx = 0; idx < questions.length; idx++)] over
    [for (const variant of ['explicit', 'implicit'])]. *)
Fixpoint process_questions
    (evalRunId modelId : nat) (startTime : Z) (questions_length : nat)
    (completedPairs : gset string)
    (idx : nat) (questions : list Question) (ls : LoopState)
  : M LoopState :=
  match questions with
  | [] => ret ls
  | question :: questions' =>
      let* ls :=
        process_variant evalRunId modelId startTime questions_length
          completedPairs idx question explicit ls in
      let* ls :=
        process_variant evalRunId modelId startTime questions_length
          completedPairs idx question implicit ls in
      process_questions evalRunId modelId startTime questions_length
        completedPairs (S idx) questions' ls
  end.

(** Lines 82-126. *)
Definition loadPartialEvaluation (evalRunId : nat)
  : M (EvaluationRun * list ResponseRow * list (nat * list ResponseRunRow)) :=
  let* found := select_run evalRunId in
  match found with
  | None => throw (RunNotFound evalRunId)
  | Some evalRun =>
      if String.eqb (run_status evalRun) "completed" then
        throw (RunAlreadyCompleted evalRunId)
      else
        let* completedResponses := select_responses evalRunId in
        let* allResponseRuns :=
          map_each completedResponses (fun response =>
            let* runs := select_responseRuns (resp_id response) in
            ret (resp_id response, runs)) in
        ret (evalRun, completedResponses, allResponseRuns)
  end.

(** Lines 219-237: the statistics of the pairs completed before the
    resume, from their rows. *)
Definition load_existing_stats (evalRunId : nat) (questions : list Question)
  : M (list ResponseStat) :=
  let* existingResponses := select_responses evalRunId in
  map_each existingResponses (fun response =>
    let* runs := select_responseRuns (resp_id response) in
    match runs with
    | [] => throw (TypeError "Cannot read properties of undefined")
    | first :: _ =>
        match List.find (fun q => String.eqb (q_id q) (resp_questionId response))
                questions with
        | None => throw (TypeError "Cannot read properties of undefined")
        | Some q =>
            ret (mkResponseStat
                   (decimal_value (resp_meanScore response))
                   (decimal_value (rr_maxScore first))
                   (q_pillar_id q)
                   (decimal_value (resp_coefficientOfVariation response)))
        end
    end).

(** [x.toFixed(2)] where [x] may be [undefined]. *)
Definition toFixed_defined (d : nat) (x : option R) : M Decimal :=
  match x with
  | Some v => ret (toFixed d v)
  | None => throw (TypeError "Cannot read properties of undefined")
  end.

(** Lines 449-467: the score of one pillar, with its confidence interval. *)
Definition persist_pillar_score (evalRunId modelId : nat)
    (entry : Z * list R) : M unit :=
  let pillarId := fst entry in
  let normalizedScores := snd entry in
  let* ci :=
    with_random (calculateBootstrapCI random normalizedScores 0.95 10000) in
  let variance :=
    cm_variance (calculateConsistencyMetrics normalizedScores) in
  let* lower := toFixed_defined 2 (ci_lower ci) in
  let* upper := toFixed_defined 2 (ci_upper ci) in
  insert_pillarScore
    (mkPillarScoreRow evalRunId modelId pillarId
       (toFixed 2 (ci_mean ci)) lower upper (toFixed 2 variance)
       (Z.of_nat (length normalizedScores))).

(** Lines 426-563: aggregate scores, completion. *)
Definition finalize
    (evalRunId modelId : nat) (startTime : Z) (questions_length : nat)
    (ls : LoopState) : M EvaluationResult :=
  let allResponseStats := allResponseStats ls in
  let pillarScoreMap :=
    fold_left
      (fun m response =>
         map_push (stat_pillar_id response)
           (mean_score response / max_score response * 100) m)
      allResponseStats [] in
  for_each pillarScoreMap (persist_pillar_score evalRunId modelId) ;;
  let normalizedScores :=
    map (fun r => mean_score r / max_score r * 100) allResponseStats in
  let* overallCI :=
    with_random (calculateBootstrapCI random normalizedScores 0.95 10000) in
  let overallScore := ci_mean overallCI in
  let consistencyScore :=
    calculateAverageConsistencyScore (map stat_cv allResponseStats) in
  let scoreVariance :=
    cm_variance (calculateConsistencyMetrics normalizedScores) in
  let weightedScore := overallScore in
  let weightedCI := overallCI in
  let* lower := toFixed_defined 2 (ci_lower overallCI) in
  let* upper := toFixed_defined 2 (ci_upper overallCI) in
  let* wlower := toFixed_defined 2 (ci_lower weightedCI) in
  let* wupper := toFixed_defined 2 (ci_upper weightedCI) in
  insert_modelScore
    (mkModelScoreRow modelId evalRunId (toFixed 2 overallScore) lower upper
       (toFixed 2 weightedScore) wlower wupper (toFixed 2 scoreVariance)
       (toFixed 2 consistencyScore)
       (Z.of_nat (length allResponseStats))) ;;
  let* completedAt := Date_now in
  update_run evalRunId (fun r =>
    mkEvaluationRun (run_id r) (run_modelId r) (run_startedAt r)
      (Some completedAt) "completed" (run_totalQuestions r)
      (run_currentQuestion r) (run_currentQuestionId r)
      (run_currentVariant r) (run_responsesCompleted r)
      (run_averageScore r) (run_estimatedTimeRemaining r)) ;;
  progressCallback
    (mkProgress evalRunId modelId "completed" (Z.of_nat questions_length)
       (Z.of_nat questions_length) None None (Z.of_nat runsPerQuestion)
       (Z.of_nat (length allResponseStats)) overallScore startTime 0) ;;
  ret (mkResult evalRunId modelId overallScore
         (ci_lower overallCI, ci_upper overallCI)
         weightedScore (ci_lower weightedCI, ci_upper weightedCI)
         consistencyScore (Z.of_nat (length allResponseStats))).

(** Lines 134-568.  The [catch] at the end rethrows, so errors simply
    propagate. *)
Definition runEvaluation
    (questions : list Question) (resumeEvalRunId : option nat)
  : M EvaluationResult :=
  let* startTime := Date_now in
  let* started :=
    match resumeEvalRunId with
    | Some evalRunId =>
        let* partialState := loadPartialEvaluation evalRunId in
        let evalRun := fst (fst partialState) in
        let completedResponses := snd (fst partialState) in
        let modelId := run_modelId evalRun in
        let completedVariants :=
          match run_responsesCompleted evalRun with
          | Some n => n
          | None => 0%Z
          end in
        let completedPairs : gset string :=
          list_to_set
            (map (fun response =>
                    variantKey_of (resp_questionId response)
                      (resp_questionVariant response))
               completedResponses) in
        let startTime :=
          match run_startedAt evalRun with
          | Some t => t
          | None => startTime
          end in
        ret (modelId, evalRunId, completedVariants, completedPairs,
             startTime)
    | None =>
        let* existingModel := select_model (mc_name modelConfig) in
        let* modelId :=
          match existingModel with
          | Some m => ret (model_id m)
          | None =>
              let* newModel :=
                insert_model (mc_name modelConfig) (mc_version modelConfig)
                  (mc_provider modelConfig) in
              ret (model_id newModel)
          end in
        let* evalRun :=
          insert_run (fun id =>
            mkEvaluationRun id modelId (Some startTime) None "running"
              (Z.of_nat (length questions)) 0 None None (Some 0%Z) None
              None) in
        ret (modelId, run_id evalRun, 0%Z, (∅ : gset string), startTime)
    end in
  let modelId := fst (fst (fst (fst started))) in
  let evalRunId := snd (fst (fst (fst started))) in
  let completedVariants := snd (fst (fst started)) in
  let completedPairs := snd (fst started) in
  let startTime := snd started in
  let* allResponseStats :=
    match resumeEvalRunId with
    | Some _ => load_existing_stats evalRunId questions
    | None => ret []
    end in
  let* ls :=
    process_questions evalRunId modelId startTime (length questions)
      completedPairs 0 questions
      (mkLoopState completedVariants allResponseStats) in
  finalize evalRunId modelId startTime (length questions) ls.

End EvalRunner.

(** ** What the trials of a pair yield when every call is answered

    [generated n call] is the text of the [n]-th generation of the run and
    [judged call] the judgment of a grading. *)

Section Answers.

Variable generated : nat -> GenerateCall -> string.
Variable judged : GradeCall -> Judgment.

Variable question : Question.
Variable questionText : string.
Variable rubric : Judge.Rubric.

Definition grade_call_for (responseText : string) : GradeCall :=
  mkGradeCall questionText responseText rubric (q_reference_answer question).

Definition result_for (responseText : string) : RunResult :=
  let judgment := judged (grade_call_for responseText) in
  mkRunResult responseText (j_score judgment) (j_max_score judgment)
    (j_reasoning judgment).

(** The texts of trials [1..n], the first of which is generation number
    [n0] of the run. *)
Definition trial_texts (n n0 : nat) : list string :=
  map (fun i => generated (n0 + i)%nat (trial_call questionText i))
      (seq 0 n).

End Answers.

Definition text_of (question : Question) (variant : Variant) : string :=
  match variant with
  | explicit => q_explicit_text question
  | implicit => q_implicit_text question
  end.

(** The results of the trials of a pair, in the order of the trial
    numbers. *)
Definition pair_runs
    (generated : nat -> GenerateCall -> string) (judged : GradeCall -> Judgment)
    (question : Question) (variant : Variant) (n n0 : nat) : list RunResult :=
  map (result_for judged question (text_of question variant)
         (getRubricForVariant question variant))
      (trial_texts generated (text_of question variant) n n0).


End Runner.

(** ** The statistics as the specification words them

    These follow the words of the specification, not the code, and are what
    [calculateConsistencyMetrics] is compared with. *)

Module StatisticsSpec.

Fixpoint total (xs : list R) : R :=
  match xs with
  | [] => 0
  | x :: xs' => x + total xs'
  end.

Definition arithmetic_mean (xs : list R) : R := total xs / INR (length xs).

(** Bessel-corrected sample variance: squared deviations over [n - 1],
    and [0] for [n <= 1]. *)
Definition sample_variance (xs : list R) : R :=
  if (length xs <=? 1)%nat then 0
  else total (map (fun x => (x - arithmetic_mean xs) ^ 2) xs)
       / (INR (length xs) - 1).

Definition is_minimum_of (m : R) (xs : list R) : Prop :=
  In m xs /\ forall x, In x xs -> m <= x.

Definition is_maximum_of (m : R) (xs : list R) : Prop :=
  In m xs /\ forall x, In x xs -> x <= m.

End StatisticsSpec.

(** ** The running average as the specification words it *)

Module RunnerSpec.
Import Runner StatisticsSpec.

(** Sum of the pairs' mean scores over sum of their maximal scores, as a
    percentage. *)
Definition weighted_average (stats : list ResponseStat) : R :=
  total (map mean_score stats) / total (map max_score stats) * 100.

(** A restored pair contributes the mean of its row and the maximal score
    of its first trial row. *)
Definition restored_from (d : Database) (row : ResponseRow)
    (stat : ResponseStat) : Prop :=
  mean_score stat = decimal_value (resp_meanScore row) /\
  stat_cv stat = decimal_value (resp_coefficientOfVariation row) /\
  exists first rest,
    responseRuns_of (resp_id row) d = first :: rest /\
    max_score stat = decimal_value (rr_maxScore first).

(** The keys of the pairs of a question list, in the order the runner
    visits them, and the key of a response row. *)
Definition pair_keys (questions : list Question) : list string :=
  flat_map (fun q => [variantKey_of (q_id q) (variant_name explicit);
                      variantKey_of (q_id q) (variant_name implicit)])
           questions.

Definition response_key (row : ResponseRow) : string :=
  variantKey_of (resp_questionId row) (resp_questionVariant row).

(** A response row that belongs to a pair of the question list. *)
Definition is_pair_of (questions : list Question) (row : ResponseRow) : Prop :=
  exists q v,
    In q questions /\ resp_questionId row = q_id q /\
    resp_questionVariant row = variant_name v.

(** Rows are only added to the trial table. *)
Definition responseRuns_prefix (w w' : World) : Prop :=
  exists added, responseRuns (db w') = (responseRuns (db w) ++ added)%list.

(** The run row agrees with the counter of the loop. *)
Definition counter_synced (evalRunId : nat) (ls : LoopState) (w : World)
  : Prop :=
  (exists r, In r (evaluationRuns (db w)) /\ run_id r = evalRunId) /\
  forall r, In r (evaluationRuns (db w)) -> run_id r = evalRunId ->
    run_responsesCompleted r = Some (completedVariants ls).

(** The run row holds the running average of the accumulated pairs. *)
Definition average_synced (evalRunId : nat) (ls : LoopState) (w : World)
  : Prop :=
  forall r, In r (evaluationRuns (db w)) -> run_id r = evalRunId ->
    run_averageScore r
    = Some (toFixed 2 (weighted_average (allResponseStats ls))).

(** What visiting the pairs [keys] changes, for [n] trials per pair. *)
Definition loop_effect (n : nat) (completedPairs : gset string)
    (keys : list string) (ls : LoopState) (w : World)
    (ls' : LoopState) (w' : World) : Prop :=
  let skipped := filter (fun k => k ∈ completedPairs) keys in
  let processed := filter (fun k => k ∉ completedPairs) keys in
  skip_log w' = (skip_log w ++ skipped)%list /\
  completedVariants ls'
  = (completedVariants ls + Z.of_nat (length processed))%Z /\
  length (allResponseStats ls')
  = (length (allResponseStats ls) + length processed)%nat /\
  length (generate_log w')
  = (length (generate_log w) + n * length processed)%nat /\
  length (grade_log w')
  = (length (grade_log w) + n * length processed)%nat /\
  map response_key (responses (db w'))
  = (map response_key (responses (db w)) ++ processed)%list /\
  responseRuns_prefix w w' /\
  random_draws w' = random_draws w.

(** The run row once the run is marked completed. *)
Definition completed_row (completedAt : Z) (r : EvaluationRun)
  : EvaluationRun :=
  mkEvaluationRun (run_id r) (run_modelId r) (run_startedAt r)
    (Some completedAt) "completed" (run_totalQuestions r)
    (run_currentQuestion r) (run_currentQuestionId r) (run_currentVariant r)
    (run_responsesCompleted r) (run_averageScore r)
    (run_estimatedTimeRemaining r).

(** The call of the generation client that the specification gives to trial
    number [k + 1]. *)
Definition expected_call (questionText : string) (k : nat) : GenerateCall :=
  match k with
  | O => mkGenerateCall questionText 2000 0 None (Some 0%Z)
  | S _ => mkGenerateCall questionText 2000 0.7 None None
  end.

(** The identifier and the status of every run, in table order. *)
Definition run_statuses (d : Database) : list (nat * string) :=
  map (fun r => (run_id r, run_status r)) (evaluationRuns d).

(** From [w] to [w'] the models and the scores are the same rows and no
    run was added or changed its status. *)
Definition tables_same (w w' : World) : Prop :=
  models (db w') = models (db w) /\
  pillarScores (db w') = pillarScores (db w) /\
  modelScores (db w') = modelScores (db w) /\
  run_statuses (db w') = run_statuses (db w).

(** From [w] to [w'] no score row was written and no run changed its
    status; runs that were added are running. *)
Definition scores_untouched (w w' : World) : Prop :=
  pillarScores (db w') = pillarScores (db w) /\
  modelScores (db w') = modelScores (db w) /\
  exists added,
    run_statuses (db w') = (run_statuses (db w) ++ added)%list /\
    Forall (fun p => snd p = "running") added.

(** [m] relates the world it starts in to the world it ends in, whether
    it returns or throws. *)
Definition keeps (I : World -> World -> Prop) {A} (m : M A) : Prop :=
  forall w, I w (snd (m w)).

(** The mean score of a pair over its maximal score, as a percentage. *)
Definition percentage (r : ResponseStat) : R :=
  mean_score r / max_score r * 100.

(** The percentages of the pairs of one pillar, in the order the pairs
    were completed. *)
Definition pillar_percentages (pillarId : Z) (stats : list ResponseStat)
  : list R :=
  map percentage
    (List.filter (fun r => (stat_pillar_id r =? pillarId)%Z) stats).

(** The score row of a pillar whose percentages are [group]. *)
Definition is_pillar_row
    (evalRunId modelId : nat) (pillarId : Z) (group : list R)
    (row : PillarScoreRow) : Prop :=
  ps_evaluationRunId row = evalRunId /\
  ps_modelId row = modelId /\
  ps_pillarId row = pillarId /\
  ps_avgScore row = toFixed 2 (arithmetic_mean group) /\
  ps_sampleVariance row = toFixed 2 (sample_variance group) /\
  ps_questionCount row = Z.of_nat (length group).

End RunnerSpec.

(** ** A small run, used to exercise the statements

    One question, two trials per pair that complete in reverse order, and a
    run interrupted after the explicit variant. *)

Module Sample.
Import Runner.

Local Open Scope string_scope.

Definition rubric : Judge.Rubric :=
  Judge.mkRubric 100 [Judge.mkCriterion "doctrine" 1 true].

Definition question : Question :=
  mkQuestion "q1" 1 1 1 "What is grace?" "Why do good works matter?" None
    rubric rubric.

Definition generated (n : nat) (call : GenerateCall) : string :=
  match gc_seed call with
  | Some _ => "deterministic answer"
  | None => "sampled answer"
  end.

Definition judged (call : GradeCall) : Judgment :=
  if String.eqb (grade_response call) "deterministic answer"
  then mkJudgment 90 100 "precise"
  else mkJudgment 70 100 "vague".

Definition testModel_generate (n : nat) (call : GenerateCall)
  : string + string := inr (generated n call).

Definition judge_grade (call : GradeCall) : string + Judgment :=
  inr (judged call).

Definition schedule (idx : nat) (variant : Variant) : list nat := [1; 0]%nat.

Definition clock (n : nat) : Z := 1000 * Z.of_nat n.

Definition random (n : nat) : R := 0.

Definition modelConfig : ModelConfig := mkModelConfig "model" "v1" "lab".

Definition run_row : EvaluationRun :=
  mkEvaluationRun 7 3 (Some 0%Z) None "running" 1 1 (Some "q1")
    (Some explicit) (Some 1%Z) (Some (mkDecimal 9000 2)) (Some 60%Z).

Definition explicit_row : ResponseRow :=
  mkResponseRow 8 7 "q1" 3 "explicit" "deterministic answer" 2
    (mkDecimal 8000 2) (mkDecimal 1414 2) (mkDecimal 7000 2)
    (mkDecimal 9000 2) (mkDecimal 1768 4) "precise".

Definition explicit_runs : list ResponseRunRow :=
  [ mkResponseRunRow 8 1 "deterministic answer" (mkDecimal 9000 2)
      (mkDecimal 10000 2) "precise";
    mkResponseRunRow 8 2 "sampled answer" (mkDecimal 7000 2)
      (mkDecimal 10000 2) "vague" ].

Definition interrupted : World :=
  mkWorld
    (mkDatabase 9 [mkModelRow 3 "model" "v1" "lab"] [run_row] [explicit_row]
       explicit_runs [] [])
    [] [] [] [] 0 0.

End Sample.

(** * The judge's client (judge.ts, [grade]) *)

Module JudgeClient.
Import Js Judge OpenRouter.

Local Open Scope string_scope.

(** [throw new Error(`Judge API call failed: ${error}`)], around whatever
    the [try] block threw. *)
Inductive GradeError : Type :=
| JudgeApiCallFailed (cause : OpenRouter.Error + Js.Error).

Definition judgeModel : string := "anthropic/claude-opus-4.1".

Definition judgeSystemMessage : string :=
  "You are a precise grading assistant. You MUST respond with valid JSON only, following the exact schema provided. Do not include any text outside the JSON structure.".

Section Grade.

Variable network : nat -> Payload -> FetchOutcome.
Variable JSON_parse : string -> Exn JsValue.

(** [buildJudgePrompt] is a template over its four arguments; how it
    prints the numbers of the rubric is not modelled. *)
Variable buildJudgePrompt :
  string -> string -> Rubric -> option string -> string.

Definition grade
    (question response : string) (rubric : Rubric)
    (referenceAnswer : option string)
  : Trace -> (GradeError + JudgmentResult) * Trace :=
  fun tr =>
    let prompt := buildJudgePrompt question response rubric referenceAnswer in
    match
      generate judgeModel network prompt 2000 0 (Some judgeSystemMessage)
        None tr
    with
    | (inr judgmentText, tr') =>
        match parseJudgment JSON_parse judgmentText rubric with
        | inr result => (inr result, tr')
        | inl error => (inl (JudgeApiCallFailed (inr error)), tr')
        end
    | (inl error, tr') => (inl (JudgeApiCallFailed (inl error)), tr')
    end.

End Grade.

End JudgeClient.

(** * Magisterium client (magisterium.ts) *)

Module Magisterium.

Local Open Scope string_scope.

Record MagisteriumMessage : Type := mkMessage {
  role : string;
  content : string
}.

Record Payload : Type := mkPayload {
  model : string;
  messages : list MagisteriumMessage;
  max_tokens : Z;
  temperature : R;
  seed : option Z
}.

(** [citation.cited_text], absent in [None]. *)
Record Citation : Type := mkCitation {
  cited_text : option string
}.

(** What [chat.completions.create] resolves to: the [content] of each
    choice, [None] when it is [null] or [undefined], and the citations,
    [None] when the field is absent or not an array. *)
Record Completion : Type := mkCompletion {
  choices : option (list (option string));
  citations : option (list Citation)
}.

Inductive CreateOutcome : Type :=
| CreateRejects (reason : string)
| Created (result : Completion).

Inductive Error : Type :=
| CreateError (reason : string)
| EmptyResponseContent (result : Completion)
| UnexpectedResponseFormat (result : Completion)
| FailedAfterAttempts (maxRetries : nat) (cause : Error)
| RequestFailed.

(** [rateLimiter.throttle(provider, limitRPM, fn)] where [fn] sends
    [payload], and the waits between the attempts. *)
Inductive Event : Type :=
| Throttled (provider : string) (limitRPM : Z) (payload : Payload)
| Sleep (ms : Z).

Definition Trace : Type := list Event.

Fixpoint requests (tr : Trace) : nat :=
  match tr with
  | [] => O
  | Throttled _ _ _ :: tr' => S (requests tr')
  | Sleep _ :: tr' => requests tr'
  end.

Definition IO (A : Type) : Type := Trace -> (Error + A) * Trace.

Definition ret {A} (a : A) : IO A := fun tr => (inr a, tr).
Definition throw {A} (e : Error) : IO A := fun tr => (inl e, tr).
Definition bind {A B} (m : IO A) (f : A -> IO B) : IO B :=
  fun tr =>
    match m tr with
    | (inr a, tr') => f a tr'
    | (inl e, tr') => (inl e, tr')
    end.
Definition try_catch {A} (m : IO A) (handler : Error -> IO A) : IO A :=
  fun tr =>
    match m tr with
    | (inr a, tr') => (inr a, tr')
    | (inl e, tr') => handler e tr'
    end.

Local Notation "m ';;' f" := (bind m (fun _ => f))
  (at level 100, f at level 200, right associativity).

Definition maxRetries : nat := 3.
Definition retryDelay : Z := 2000.

(** [texts.join(separator)] *)
Fixpoint join (separator : string) (texts : list string) : string :=
  match texts with
  | [] => ""
  | [text] => text
  | text :: texts' => text ++ separator ++ join separator texts'
  end.

(** [text.trim().length > 0] *)
Definition not_blank (text : string) : bool :=
  (0 <? String.length (JsString.trim text))%nat.

Definition two_newlines : string :=
  String (ascii_of_nat 10) (String (ascii_of_nat 10) "").

(** Lines 414-417: the cited texts that are not blank, joined by an empty
    line. *)
Definition extractedText (cs : list Citation) : string :=
  join two_newlines
    (List.filter not_blank
       (map (fun citation =>
               match cited_text citation with
               | Some text => text
               | None => ""
               end) cs)).

(** Lines 402-433: what one completion yields. *)
Definition read_result (result : Completion) : Error + string :=
  match choices result with
  | Some (content :: _) =>
      let from_citations :=
        match citations result with
        | Some (c :: cs) =>
            let extracted := extractedText (c :: cs) in
            if not_blank extracted then inr (JsString.trim extracted)
            else inl (EmptyResponseContent result)
        | Some [] | None => inl (EmptyResponseContent result)
        end in
      match content with
      | Some text =>
          if not_blank text then inr (JsString.trim text) else from_citations
      | None => from_citations
      end
  | Some [] | None => inl (UnexpectedResponseFormat result)
  end.

Definition read_outcome (o : CreateOutcome) : Error + string :=
  match o with
  | CreateRejects reason => inl (CreateError reason)
  | Created result => read_result result
  end.

Section Client.

Variable modelName : string.

(** [service n payload]: the outcome of the [n]-th request of the run. *)
Variable service : nat -> Payload -> CreateOutcome.

(** Lines 371-400: one request through the rate limiter. *)
Definition throttled_create (payload : Payload) : IO string :=
  fun tr =>
    (read_outcome (service (requests tr) payload),
     (tr ++ [Throttled "magisterium" RateLimiter.MAGISTERIUM_RPM_LIMIT
               payload])%list).

Definition setTimeout (ms : Z) : IO unit :=
  fun tr => (inr tt, (tr ++ [Sleep ms])%list).

Definition build_payload
    (prompt : string) (maxTokens : Z) (temperature : R)
    (systemMessage : option string) (seed : option Z) : Payload :=
  let messages :=
    (match systemMessage with
     | Some m => if String.eqb m "" then [] else [mkMessage "system" m]
     | None => []
     end ++ [mkMessage "user" prompt])%list in
  mkPayload modelName messages maxTokens temperature seed.

Fixpoint attempts (payload : Payload) (remaining attempt : nat) : IO string :=
  match remaining with
  | O => throw RequestFailed
  | S remaining' =>
      try_catch (throttled_create payload)
        (fun error =>
           if (attempt <? maxRetries - 1)%nat then
             let delay := (retryDelay * (Z.of_nat attempt + 1))%Z in
             setTimeout delay ;;
             attempts payload remaining' (S attempt)
           else
             throw (FailedAfterAttempts maxRetries error))
  end.

Definition generate
    (prompt : string) (maxTokens : Z) (temperature : R)
    (systemMessage : option string) (seed : option Z) : IO string :=
  attempts (build_payload prompt maxTokens temperature systemMessage seed)
           maxRetries 0.

End Client.

End Magisterium.

(** * Published results (evaluations-loader.ts)

    The functions of [EvaluationsLoader] that compute on validated data.  Of
    a question result and an evaluation the fields these functions read are
    kept. *)

Module EvaluationsLoader.

Import Runner.

Local Open Scope string_scope.

Record QuestionResult : Type := mkQuestionResult {
  qr_id : string;
  qr_pillar_id : R;
  qr_truth_hierarchy : R;
  qr_weight : R;
  qr_score : R;
  qr_max_score : R
}.

Record PillarScores : Type := mkPillarScores {
  pillar_1 : R;
  pillar_2 : R;
  pillar_3 : R;
  pillar_4 : R
}.

Record EvaluationResult : Type := mkEvaluationResult {
  er_model : string;
  er_model_version : string;
  er_provider : string;
  er_evaluated_at : string;
  er_total_score : R;
  er_pillar_scores : PillarScores;
  er_questions : list QuestionResult
}.

Record EvaluationsData : Type := mkEvaluationsData {
  ed_version : string;
  ed_last_updated : string;
  ed_benchmark_questions : string;
  ed_evaluations : list EvaluationResult
}.

Definition calculateWeightedScore (evaluation : EvaluationResult) : R :=
  let '(totalWeightedScore, totalWeight) :=
    fold_left
      (fun '(totalWeightedScore, totalWeight) question =>
         let weight := qr_weight question * qr_truth_hierarchy question in
         (totalWeightedScore
            + (qr_score question / qr_max_score question) * 100 * weight,
          totalWeight + weight))
      (er_questions evaluation) (0, 0) in
  if Rlt_dec 0 totalWeight then totalWeightedScore / totalWeight else 0.

(** [new Date(text)] *)
Inductive Date : Type := new_Date (text : string).

Record LeaderboardEntry : Type := mkLeaderboardEntry {
  le_id : string;
  le_name : string;
  le_version : string;
  le_provider : string;
  le_overallScore : Decimal;
  le_weightedScore : Decimal;
  le_totalQuestions : nat;
  le_testedAt : Date
}.

(** [`eval-${idx}`] *)
Definition eval_id (idx : nat) : string :=
  "eval-" ++ NilEmpty.string_of_uint (Nat.to_uint idx).

Definition leaderboard_entry (idx : nat) (evaluation : EvaluationResult)
  : LeaderboardEntry :=
  mkLeaderboardEntry
    (eval_id idx)
    (er_model evaluation)
    (er_model_version evaluation)
    (er_provider evaluation)
    (toFixed 1 (er_total_score evaluation))
    (toFixed 1 (calculateWeightedScore evaluation))
    (length (er_questions evaluation))
    (new_Date (er_evaluated_at evaluation)).

(** [Array.prototype.sort] with a comparison function is a stable sort: [a]
    stays before a later [b] unless [compare a b] is positive.  Insertion
    from the right is that sort. *)
Fixpoint sort_insert {A} (compare : A -> A -> R) (a : A) (sorted : list A)
  : list A :=
  match sorted with
  | [] => [a]
  | b :: rest =>
      if Rle_dec (compare a b) 0 then a :: b :: rest
      else b :: sort_insert compare a rest
  end.

Definition Array_sort {A} (compare : A -> A -> R) (xs : list A) : list A :=
  fold_right (sort_insert compare) [] xs.

Definition by_weighted_score (a b : LeaderboardEntry) : R :=
  decimal_value (le_weightedScore b) - decimal_value (le_weightedScore a).

Definition getLeaderboard (data : EvaluationsData) : list LeaderboardEntry :=
  Array_sort by_weighted_score
    (map (fun ie => leaderboard_entry (fst ie) (snd ie))
       (indexed_from 0 (ed_evaluations data))).

Record PillarScoreEntry : Type := mkPillarScoreEntry {
  pe_modelId : string;
  pe_pillarId : R;
  pe_avgScore : Decimal;
  pe_questionCount : nat
}.

(** A [Record<number, number>]: the value under a key, if any. *)
Definition Counts : Type := R -> option nat.

Definition no_counts : Counts := fun _ => None.

Definition set_count (counts : Counts) (key : R) (value : nat) : Counts :=
  fun k => if Req_dec_T k key then Some value else counts k.

(** [counts[key] || 0] *)
Definition count_or_0 (counts : Counts) (key : R) : nat :=
  match counts key with
  | Some n => n
  | None => 0%nat
  end.

Definition count_question (counts : Counts) (q : QuestionResult) : Counts :=
  set_count counts (qr_pillar_id q)
    (count_or_0 counts (qr_pillar_id q) + 1)%nat.

Definition pillar_entries (idx : nat) (evaluation : EvaluationResult)
  : list PillarScoreEntry :=
  let modelId := eval_id idx in
  let pillarQuestionCounts :=
    fold_left count_question (er_questions evaluation) no_counts in
  [ mkPillarScoreEntry modelId 1
      (toFixed 1 (pillar_1 (er_pillar_scores evaluation)))
      (count_or_0 pillarQuestionCounts 1);
    mkPillarScoreEntry modelId 2
      (toFixed 1 (pillar_2 (er_pillar_scores evaluation)))
      (count_or_0 pillarQuestionCounts 2);
    mkPillarScoreEntry modelId 3
      (toFixed 1 (pillar_3 (er_pillar_scores evaluation)))
      (count_or_0 pillarQuestionCounts 3);
    mkPillarScoreEntry modelId 4
      (toFixed 1 (pillar_4 (er_pillar_scores evaluation)))
      (count_or_0 pillarQuestionCounts 4) ].

Definition getPillarScores (data : EvaluationsData) : list PillarScoreEntry :=
  fold_left
    (fun scores ie => (scores ++ pillar_entries (fst ie) (snd ie))%list)
    (indexed_from 0 (ed_evaluations data)) [].

(** The questions of an evaluation filed under a pillar, and the share of
    its marks a question obtained, in percent. *)
Fixpoint questions_of_pillar (pillar : R) (qs : list QuestionResult) : nat :=
  match qs with
  | [] => 0
  | q :: qs' =>
      ((if Req_dec_T (qr_pillar_id q) pillar then 1 else 0)
       + questions_of_pillar pillar qs')%nat
  end.

Definition question_percent (q : QuestionResult) : R :=
  qr_score q / qr_max_score q * 100.

Definition question_weight (q : QuestionResult) : R :=
  qr_weight q * qr_truth_hierarchy q.

Definition well_scored (e : EvaluationResult) : Prop :=
  Forall (fun q => qr_max_score q <> 0) (er_questions e).

(** Two entries in board order: the second does not show more. *)
Definition shows_at_least (a b : LeaderboardEntry) : Prop :=
  decimal_value (le_weightedScore b) <= decimal_value (le_weightedScore a).

#[global] Instance Decimal_eq_dec : EqDecision Decimal.
Proof. solve_decision. Defined.

(** A file of two evaluations with the same weighted score. *)
Definition two_answers : EvaluationResult :=
  mkEvaluationResult "model-a" "1" "lab" "2025-01-01T00:00:00Z" 65
    (mkPillarScores 80 50 0 0)
    [ mkQuestionResult "q1" 1 2 1 8 10; mkQuestionResult "q2" 2 1 1 5 10 ].

Definition three_answers : EvaluationResult :=
  mkEvaluationResult "model-b" "2" "lab" "2025-02-01T00:00:00Z" 70
    (mkPillarScores 70 70 70 0)
    [ mkQuestionResult "q1" 1 2 1 7 10; mkQuestionResult "q2" 2 1 1 7 10;
      mkQuestionResult "q3" 3 1 1 7 10 ].

Definition two_models : EvaluationsData :=
  mkEvaluationsData "alpha" "2025-02-01T00:00:00Z" "questions-alpha.yaml"
    [ two_answers; three_answers ].

End EvaluationsLoader.

(** * Question loader (loader.ts) and command line (scripts/run-eval.ts) *)

Module RunEval.

Import Runner.

Local Open Scope string_scope.

(** ** loader.ts *)

(** Lines 79-100.  The warning printed for a rubric out of tolerance is not
    modelled. *)
Definition validateRubricWeights (question : Question) : bool :=
  fold_left
    (fun allValid rubric =>
       let totalWeight :=
         fold_left (fun sum c => sum + Judge.weight c) (Judge.criteria rubric) 0 in
       if Rlt_dec totalWeight 0.99 then false
       else if Rgt_dec totalWeight 1.01 then false
       else allValid)
    [ q_rubric_explicit question; q_rubric_implicit question ] true.

(** ** The model tables (openrouter.ts, magisterium.ts) *)

Record ConfigEntry : Type := mkConfigEntry {
  ce_name : string;
  ce_version : string;
  ce_provider : string;
  ce_openrouter_model : option string;
  ce_magisterium_model : option string
}.

Definition openrouter_entry (name version provider model : string)
  : ConfigEntry :=
  mkConfigEntry name version provider (Some model) None.

Definition MODEL_CONFIGS : list (string * ConfigEntry) :=
  [ ("gpt-4", openrouter_entry "GPT-4" "gpt-4" "openai" "openai/gpt-4");
    ("gpt-4-turbo",
     openrouter_entry "GPT-4 Turbo" "gpt-4-turbo" "openai" "openai/gpt-4-turbo");
    ("claude-3-haiku",
     openrouter_entry "Claude 3 Haiku" "claude-3-haiku" "anthropic"
       "anthropic/claude-3-haiku");
    ("claude-3.5-haiku",
     openrouter_entry "Claude 3.5 Haiku" "claude-3.5-haiku" "anthropic"
       "anthropic/claude-3.5-haiku");
    ("claude-haiku-4.5",
     openrouter_entry "Claude Haiku 4.5" "claude-haiku-4.5" "anthropic"
       "anthropic/claude-haiku-4.5");
    ("claude-3-sonnet",
     openrouter_entry "Claude 3 Sonnet" "claude-3-sonnet" "anthropic"
       "anthropic/claude-3-sonnet");
    ("claude-sonnet-4",
     openrouter_entry "Claude Sonnet 4" "claude-sonnet-4" "anthropic"
       "anthropic/claude-sonnet-4");
    ("claude-sonnet-4.5",
     openrouter_entry "Claude Sonnet 4.5" "claude-sonnet-4.5" "anthropic"
       "anthropic/claude-sonnet-4.5");
    ("grok-4-fast",
     openrouter_entry "Grok 4 Fast" "grok-4-fast" "xai" "x-ai/grok-4-fast");
    ("grok-4", openrouter_entry "Grok 4" "grok-4" "xai" "x-ai/grok-4");
    ("grok-3-mini",
     openrouter_entry "Grok 3 Mini" "grok-3-mini" "xai" "x-ai/grok-3-mini");
    ("hermes-4-70b",
     openrouter_entry "Hermes 4 70B" "hermes-4-70b" "nousresearch"
       "nousresearch/hermes-4-70b");
    ("hermes-4-405b",
     openrouter_entry "Hermes 4 405B" "hermes-4-405b" "nousresearch"
       "nousresearch/hermes-4-405b");
    ("deepseek-r1-free",
     openrouter_entry "DeepSeek R1 (Free)" "deepseek-r1-free" "deepseek"
       "deepseek/deepseek-r1:free") ].

Definition MAGISTERIUM_MODEL_CONFIGS : list (string * ConfigEntry) :=
  [ ("magisterium-1",
     mkConfigEntry "Magisterium 1" "magisterium-1" "magisterium" None
       (Some "magisterium-1")) ].

(** ** Objects as the command line uses them *)

Fixpoint own_property {A} (key : string) (object : list (string * A))
  : option A :=
  match object with
  | [] => None
  | (k, v) :: object' => if k =? key then Some v else own_property key object'
  end.

(** [object[key] = value]: an own property keeps its place. *)
Fixpoint set_property {A} (key : string) (value : A)
    (object : list (string * A)) : list (string * A) :=
  match object with
  | [] => [(key, value)]
  | (k, v) :: object' =>
      if k =? key then (k, value) :: object'
      else (k, v) :: set_property key value object'
  end.

(** [{ ...a, ...b }] *)
Definition spread {A} (a b : list (string * A)) : list (string * A) :=
  fold_left (fun object kv => set_property (fst kv) (snd kv) object)
    (a ++ b)%list [].

(** The properties every object literal inherits from [Object.prototype]. *)
Definition Object_prototype : list string :=
  [ "constructor"; "__defineGetter__"; "__defineSetter__"; "hasOwnProperty";
    "__lookupGetter__"; "__lookupSetter__"; "isPrototypeOf";
    "propertyIsEnumerable"; "toString"; "valueOf"; "__proto__";
    "toLocaleString" ].

(** What [object[key]] yields for an object literal of configurations: an
    entry, or a member of [Object.prototype], which has neither an
    [openrouter_model] nor a [magisterium_model]. *)
Inductive PropertyValue : Type :=
| Config (entry : ConfigEntry)
| Inherited (key : string).

Definition inherits (key : string) : bool :=
  existsb (String.eqb key) Object_prototype.

(** [key in object] *)
Definition has_property {A} (key : string) (object : list (string * A))
  : bool :=
  match own_property key object with
  | Some _ => true
  | None => inherits key
  end.

(** [object[key]]; [None] is [undefined]. *)
Definition get_property (key : string) (object : list (string * ConfigEntry))
  : option PropertyValue :=
  match own_property key object with
  | Some entry => Some (Config entry)
  | None => if inherits key then Some (Inherited key) else None
  end.

Definition openrouter_model (v : PropertyValue) : option string :=
  match v with
  | Config entry => ce_openrouter_model entry
  | Inherited _ => None
  end.

Definition magisterium_model (v : PropertyValue) : option string :=
  match v with
  | Config entry => ce_magisterium_model entry
  | Inherited _ => None
  end.

(** ** Numbers and truthiness *)

(** What [parseInt] returns (the sign of a zero is not kept). *)
Inductive Number : Type :=
| NaN
| Int (z : Z).

(** [parseInt(s, 10)]: white space, a sign, then the longest run of
    digits. *)
Definition parseInt (s : string) : Number :=
  let s := JsString.trimStart s in
  let (sign, s) :=
    match s with
    | String "-" s' => ((-1)%Z, s')
    | String "+" s' => (1%Z, s')
    | _ => (1%Z, s)
    end in
  match fst (Js.take_digits s) with
  | [] => NaN
  | digits => Int (sign * Js.digits_value digits)
  end.

Definition Number_times (n : Number) (k : Z) : Number :=
  match n with
  | NaN => NaN
  | Int z => Int (z * k)
  end.

Definition isNaN (n : Number) : bool :=
  match n with
  | NaN => true
  | Int _ => false
  end.

Definition Number_lt (n : Number) (k : Z) : bool :=
  match n with
  | NaN => false
  | Int z => (z <? k)%Z
  end.

Definition Number_gt (n : Number) (k : Z) : bool :=
  match n with
  | NaN => false
  | Int z => (k <? z)%Z
  end.

(** Truthiness of a string or number that may be [undefined]. *)
Definition truthy_string (s : option string) : bool :=
  match s with
  | Some (String _ _) => true
  | _ => false
  end.

Definition truthy_number (n : option Number) : bool :=
  match n with
  | Some (Int z) => negb (z =? 0)%Z
  | _ => false
  end.

(** ** scripts/run-eval.ts *)

Record Options : Type := mkOptions {
  modelName : option string;
  runsPerQuestion : option Number;
  benchmarkVersion : string;
  questionsPath : string;
  timeoutMs : Number;
  resumeEvalRunId : option string
}.

(** [args[i + 1]] and the rest of the arguments after [i++]. *)
Definition next_arg (rest : list string) : option string := head rest.

Definition after_next (rest : list string) : list string :=
  match rest with
  | [] => rest
  | _ :: rest' => rest'
  end.

Definition text_of (s : option string) : string :=
  match s with
  | Some s => s
  | None => ""
  end.

(** The constructor of [EvalRunner] (runner.ts, lines 47-75). *)
Inductive Client : Type :=
| MagisteriumClient (apiKey model : string) (timeoutMs : Number)
| OpenRouterClient (apiKey model : string) (timeoutMs : Number).

Record EvalRunner : Type := mkEvalRunner {
  testModel : Client;
  judge_apiKey : string;
  judge_timeoutMs : Number;
  runner_benchmarkVersion : string;
  runner_modelConfig : PropertyValue;
  runner_runsPerQuestion : option Number;
  runner_timeoutMs : Number
}.

Definition new_EvalRunner
    (openrouterApiKey : string) (modelConfig : PropertyValue)
    (runsPerQuestion : option Number) (benchmarkVersion : string)
    (magisteriumApiKey : option string) (timeoutMs : Number)
  : string + EvalRunner :=
  let finish testModel :=
    inr (mkEvalRunner testModel openrouterApiKey timeoutMs benchmarkVersion
           modelConfig runsPerQuestion timeoutMs) in
  if truthy_string (magisterium_model modelConfig) then
    if negb (truthy_string magisteriumApiKey) then
      inl "Magisterium API key is required for Magisterium models"
    else
      finish (MagisteriumClient (text_of magisteriumApiKey)
                (text_of (magisterium_model modelConfig)) timeoutMs)
  else if truthy_string (openrouter_model modelConfig) then
    finish (OpenRouterClient openrouterApiKey
              (text_of (openrouter_model modelConfig)) timeoutMs)
  else
    inl "Model config must specify either openrouter_model or magisterium_model".

(** How [main] ends: with an exit code, or by awaiting
    [runner.runEvaluation(questions, resumeEvalRunId)], whose outcome decides
    between the codes 0 and 1. *)
Inductive Outcome : Type :=
| Exit (code : Z)
| Evaluate (runner : EvalRunner) (questions : list Question)
    (resumeEvalRunId : option string).

Section Main.

(** The environment of the process: the path of the default questions file,
    [path.resolve], the two keys, and the questions file as
    [QuestionLoader.load] reads it (an error message or the questions). *)
Variable default_questionsPath : string.
Variable resolve : string -> string.
Variable OPENROUTER_API_KEY : option string.
Variable MAGISTERIUM_API_KEY : option string.
Variable QuestionLoader_load : string -> string + list Question.

Definition defaults : Options :=
  mkOptions None None "alpha" default_questionsPath (Int 300000) None.

(** Lines 40-63; [None] when the help is printed. *)
Fixpoint parse_args (args : list string) (o : Options) : option Options :=
  match args with
  | [] => Some o
  | a :: rest =>
      let next := next_arg rest in
      if (a =? "--model") && truthy_string next then
        parse_args (after_next rest)
          (mkOptions (Some (text_of next)) (runsPerQuestion o)
             (benchmarkVersion o) (questionsPath o) (timeoutMs o)
             (resumeEvalRunId o))
      else if (a =? "--runs") && truthy_string next then
        parse_args (after_next rest)
          (mkOptions (modelName o) (Some (parseInt (text_of next)))
             (benchmarkVersion o) (questionsPath o) (timeoutMs o)
             (resumeEvalRunId o))
      else if (a =? "--version") && truthy_string next then
        parse_args (after_next rest)
          (mkOptions (modelName o) (runsPerQuestion o)
             (text_of next) (questionsPath o) (timeoutMs o)
             (resumeEvalRunId o))
      else if (a =? "--questions") && truthy_string next then
        parse_args (after_next rest)
          (mkOptions (modelName o) (runsPerQuestion o)
             (benchmarkVersion o) (resolve (text_of next)) (timeoutMs o)
             (resumeEvalRunId o))
      else if (a =? "--timeout") && truthy_string next then
        parse_args (after_next rest)
          (mkOptions (modelName o) (runsPerQuestion o)
             (benchmarkVersion o) (questionsPath o)
             (Number_times (parseInt (text_of next)) 1000)
             (resumeEvalRunId o))
      else if (a =? "--resume") && truthy_string next then
        parse_args (after_next rest)
          (mkOptions (modelName o) (runsPerQuestion o)
             (benchmarkVersion o) (questionsPath o) (timeoutMs o)
             (Some (text_of next)))
      else if (a =? "--help") || (a =? "-h") then None
      else parse_args rest o
  end.

Definition allModelConfigs : list (string * ConfigEntry) :=
  spread MODEL_CONFIGS MAGISTERIUM_MODEL_CONFIGS.

(** Lines 97-173, the body of [try]; an exception is its message. *)
Definition start (o : Options) : string + Outcome :=
  match QuestionLoader_load (questionsPath o) with
  | inl message => inl message
  | inr questions =>
      let validated := map validateRubricWeights questions in
      let selected : string + (option PropertyValue * option Number) :=
        if truthy_string (resumeEvalRunId o) then
          if negb (truthy_string (modelName o)) then
            inl "When using --resume, you must still specify --model to ensure consistency"
          else
            inr (get_property (text_of (modelName o)) allModelConfigs,
                 if negb (truthy_number (runsPerQuestion o))
                 then Some (Int 3) else runsPerQuestion o)
        else
          inr (get_property (text_of (modelName o)) allModelConfigs,
               runsPerQuestion o) in
      match selected with
      | inl message => inl message
      | inr (None, _) => inl "Cannot read properties of undefined"
      | inr (Some modelConfig, runs) =>
          if truthy_string (magisterium_model modelConfig)
             && negb (truthy_string MAGISTERIUM_API_KEY) then
            inl "MAGISTERIUM_API_KEY not found in environment"
          else if truthy_string (openrouter_model modelConfig)
                  && negb (truthy_string OPENROUTER_API_KEY) then
            inl "OPENROUTER_API_KEY not found in environment"
          else
            match
              new_EvalRunner
                (if truthy_string OPENROUTER_API_KEY
                 then text_of OPENROUTER_API_KEY else "")
                modelConfig runs (benchmarkVersion o) MAGISTERIUM_API_KEY
                (timeoutMs o)
            with
            | inl message => inl message
            | inr runner =>
                inr (Evaluate runner questions (resumeEvalRunId o))
            end
      end
  end.

(** Lines 65-174 *)
Definition run (o : Options) : Outcome :=
  if negb (truthy_string (resumeEvalRunId o))
     && negb (truthy_string (modelName o)) then Exit 1
  else if negb (truthy_string (resumeEvalRunId o))
          && negb (truthy_number (runsPerQuestion o)) then Exit 1
  else if truthy_number (runsPerQuestion o)
          && (match runsPerQuestion o with
              | Some n => isNaN n || Number_lt n 1 || Number_gt n 10
              | None => false
              end) then Exit 1
  else if truthy_string (modelName o)
          && negb (has_property (text_of (modelName o)) allModelConfigs)
  then Exit 1
  else
    match start o with
    | inl _ => Exit 1
    | inr outcome => outcome
    end.

Definition main (args : list string) : Outcome :=
  match parse_args args defaults with
  | None => Exit 0
  | Some o => run o
  end.

End Main.

(** An argument list holds [flag] directly followed by [value]. *)
Definition follows (flag value : string) (args : list string) : Prop :=
  exists before after, args = (before ++ flag :: value :: after)%list.

(** What the loop over the arguments leaves in [modelName] and
    [runsPerQuestion]. *)
Definition set_by (args : list string) (o o' : Options) : Prop :=
  (modelName o' = modelName o \/
   exists value, follows "--model" value args /\
                 truthy_string (Some value) = true /\
                 modelName o' = Some value) /\
  (runsPerQuestion o' = runsPerQuestion o \/
   exists value, follows "--runs" value args /\
                 runsPerQuestion o' = Some (parseInt value)).

(** A process with both keys and an empty questions file. *)
Definition sample_main : list string -> Outcome :=
  main "questions-alpha.yaml" (fun path => path) (Some "sk-or") (Some "sk-mag")
    (fun _ => inr []).

Definition sample_runner : EvalRunner :=
  mkEvalRunner (OpenRouterClient "sk-or" "openai/gpt-4" (Int 300000))
    "sk-or" (Int 300000) "alpha"
    (Config (openrouter_entry "GPT-4" "gpt-4" "openai" "openai/gpt-4"))
    (Some (Int 3)) (Int 300000).

End RunEval.

(** * IEEE 754 binary64 numbers

    Where a property turns on rounding, a JavaScript [number] is a double: a
    rational that the format holds, an infinity, or NaN.  An operation
    returns the exact result rounded to the nearest double, ties to the even
    significand; 53 bits of precision, units in the last place no smaller
    than [2^-1074], overflow at [2^1024].  The sign of a zero is not kept. *)

Module Float64.

Local Open Scope Q_scope.

Definition pow2 (e : Z) : Q := 2 ^ e.

(** [floor (log2 a)] for a positive [a]. *)
Definition ilog2 (a : Q) : Z :=
  let k := (Z.log2 (Qnum a) - Z.log2 (Zpos (Qden a)))%Z in
  if Qle_bool (pow2 k) a then k else (k - 1)%Z.

(** The nearest integer, ties to the even one. *)
Definition round_even (q : Q) : Z :=
  let f := Qfloor q in
  match Qcompare (q - inject_Z f) (1 # 2) with
  | Lt => f
  | Gt => (f + 1)%Z
  | Eq => if Z.even f then f else (f + 1)%Z
  end.

(** The exponent of the unit in the last place of the doubles next to
    [q]. *)
Definition ulp_exponent (q : Q) : Z :=
  Z.max (ilog2 (Qabs q) - 52) (-1074).

(** Rounding to the format with no largest exponent. *)
Definition rnd (q : Q) : Q :=
  let e := ulp_exponent q in
  Qred (inject_Z (round_even (q / pow2 e)) * pow2 e).

(** What the format holds, its largest exponent aside: [m * 2^e] with a
    significand of at most 53 bits. *)
Definition format (q : Q) : Prop :=
  exists m e : Z,
    (-1074 <= e)%Z /\ (Z.abs m < 2 ^ 53)%Z /\ q == inject_Z m * pow2 e.

Inductive float64 : Type :=
| Finite (value : Q)
| Infinity (negative : bool)
| NaN.

Definition is_negative (q : Q) : bool := negb (Qle_bool 0 q).

Definition round (q : Q) : float64 :=
  let v := rnd q in
  if Qle_bool (pow2 1024) (Qabs v) then Infinity (is_negative v)
  else Finite v.

(** Literals: an integer, and a decimal [mantissa / 10^digits]. *)
Definition of_Z (z : Z) : float64 := round (inject_Z z).
Definition of_nat (n : nat) : float64 := of_Z (Z.of_nat n).
Definition decimal (mantissa : Z) (digits : nat) : float64 :=
  round (inject_Z mantissa / inject_Z (10 ^ Z.of_nat digits)).

Definition fneg (x : float64) : float64 :=
  match x with
  | Finite a => Finite (Qred (- a))
  | Infinity s => Infinity (negb s)
  | NaN => NaN
  end.

Definition fadd (x y : float64) : float64 :=
  match x, y with
  | NaN, _ | _, NaN => NaN
  | Finite a, Finite b => round (a + b)
  | Infinity s, Infinity t => if Bool.eqb s t then Infinity s else NaN
  | Infinity s, Finite _ | Finite _, Infinity s => Infinity s
  end.

Definition fsub (x y : float64) : float64 := fadd x (fneg y).

Definition fmul (x y : float64) : float64 :=
  match x, y with
  | NaN, _ | _, NaN => NaN
  | Finite a, Finite b => round (a * b)
  | Infinity s, Infinity t => Infinity (xorb s t)
  | Infinity s, Finite b | Finite b, Infinity s =>
      if Qeq_bool b 0 then NaN else Infinity (xorb s (is_negative b))
  end.

(** A quotient by zero is taken as a quotient by [+0]. *)
Definition fdiv (x y : float64) : float64 :=
  match x, y with
  | NaN, _ | _, NaN => NaN
  | Finite a, Finite b =>
      if Qeq_bool b 0 then
        if Qeq_bool a 0 then NaN else Infinity (is_negative a)
      else round (a / b)
  | Infinity _, Infinity _ => NaN
  | Infinity s, Finite b => Infinity (xorb s (is_negative b))
  | Finite _, Infinity _ => Finite 0
  end.

(** [x < y] and [x <= y]: false when either is NaN. *)
Definition flt (x y : float64) : bool :=
  match x, y with
  | NaN, _ | _, NaN => false
  | Finite a, Finite b => negb (Qle_bool b a)
  | Infinity s, Infinity t => s && negb t
  | Infinity s, Finite _ => s
  | Finite _, Infinity t => negb t
  end.

Definition fle (x y : float64) : bool :=
  match x, y with
  | NaN, _ | _, NaN => false
  | Finite a, Finite b => Qle_bool a b
  | Infinity s, Infinity t => s || negb t
  | Infinity s, Finite _ => s
  | Finite _, Infinity t => negb t
  end.

Definition feq (x y : float64) : bool := fle x y && fle y x.

Definition is_NaN (x : float64) : bool :=
  match x with
  | NaN => true
  | _ => false
  end.

(** [Math.min(x, y)], [Math.max(x, y)], [Math.floor(x)], [Math.abs(x)] *)
Definition Math_min (x y : float64) : float64 :=
  if is_NaN x || is_NaN y then NaN else if flt y x then y else x.

Definition Math_max (x y : float64) : float64 :=
  if is_NaN x || is_NaN y then NaN else if flt x y then y else x.

Definition Math_floor (x : float64) : float64 :=
  match x with
  | Finite a => Finite (inject_Z (Qfloor a))
  | _ => x
  end.

Definition Math_abs (x : float64) : float64 :=
  match x with
  | Finite a => Finite (Qred (Qabs a))
  | Infinity _ => Infinity false
  | NaN => NaN
  end.

(** ** [Math.exp] as V8 computes it

    The algorithm of fdlibm's [e_exp.c] in V8's [base/ieee754.cc]:
    thresholds for overflow and underflow, reduction of the argument to
    [r = x - k ln 2] with [|r| <= 0.5 ln 2], a rational approximation of
    [exp r], and scaling by [2^k].  The comparisons of the high word of [x]
    are comparisons of [|x|] with the double of that high word. *)

Definition truncate (x : float64) : Z :=
  match x with
  | Finite a => if Qle_bool 0 a then Qfloor a else Qceiling a
  | _ => 0%Z
  end.

Definition one : float64 := of_Z 1.
Definition two : float64 := of_Z 2.
Definition huge : float64 := round (inject_Z (10 ^ 300)).
Definition twom1000 : float64 := round (pow2 (-1000)).
Definition two1023 : float64 := round (pow2 1023).
Definition o_threshold : float64 := decimal 709782712893383973096 18.
Definition u_threshold : float64 := decimal (-745133219101941108420) 18.
Definition ln2HI : float64 := decimal 693147180369123816490 21.
Definition ln2LO : float64 := decimal 190821492927058770002 30.
Definition invln2 : float64 := decimal 144269504088896338700 20.
Definition P1 : float64 := decimal 166666666666666019037 21.
Definition P2 : float64 := decimal (-277777777770155933842) 23.
Definition P3 : float64 := decimal 661375632143793436117 25.
Definition P4 : float64 := decimal (-165339022054652515390) 26.
Definition P5 : float64 := decimal 413813679705723846039 28.
Definition E : float64 := decimal 2718281828459045 15.

(** The doubles whose high words are [0x40862E42], [0x3FD62E43],
    [0x3FF0A2B2] and [0x3E300000], the low words being zero. *)
Definition hx_40862E42 : Q := inject_Z 512 * (1 + (405058 # 1048576)).
Definition hx_3FD62E43 : Q := (1 # 4) * (1 + (405059 # 1048576)).
Definition hx_3FF0A2B2 : Q := 1 + (41650 # 1048576).
Definition hx_3E300000 : Q := pow2 (-28).

(** The part after the reduction: [r = hi - lo] is the reduced argument
    and the result is [2^k * exp r]. *)
Definition exp_kernel (r hi lo : float64) (k : Z) : float64 :=
  let t := fmul r r in
  let twopk :=
    if (-1021 <=? k)%Z then round (pow2 k) else round (pow2 (k + 1000)) in
  let c :=
    fsub r
      (fmul t
         (fadd P1
            (fmul t
               (fadd P2 (fmul t (fadd P3 (fmul t (fadd P4 (fmul t P5))))))))) in
  if (k =? 0)%Z then fsub one (fsub (fdiv (fmul r c) (fsub c two)) r)
  else
    let y := fsub one (fsub (fsub lo (fdiv (fmul r c) (fsub two c))) hi) in
    if (-1021 <=? k)%Z then
      if (k =? 1024)%Z then fmul (fmul y two) two1023 else fmul y twopk
    else fmul (fmul y twopk) twom1000.

Definition Math_exp (x : float64) : float64 :=
  match x with
  | NaN => NaN
  | Infinity negative => if negative then Finite 0 else x
  | Finite q =>
      let xsb := is_negative q in
      let ax := Qabs q in
      if Qle_bool hx_40862E42 ax && flt o_threshold x then fmul huge huge
      else if Qle_bool hx_40862E42 ax && flt x u_threshold then
        fmul twom1000 twom1000
      else if Qle_bool hx_3FD62E43 ax then
        if negb (Qle_bool hx_3FF0A2B2 ax) then
          if feq x one then E
          else
            let hi := fsub x (if xsb then fneg ln2HI else ln2HI) in
            let lo := if xsb then fneg ln2LO else ln2LO in
            exp_kernel (fsub hi lo) hi lo (if xsb then (-1)%Z else 1%Z)
        else
          let k :=
            truncate (fadd (fmul invln2 x)
                        (if xsb then decimal (-5) 1 else decimal 5 1)) in
          let t := of_Z k in
          let hi := fsub x (fmul t ln2HI) in
          let lo := fmul t ln2LO in
          exp_kernel (fsub hi lo) hi lo k
      else if negb (Qle_bool hx_3E300000 ax) && flt one (fadd huge x) then
        fadd one x
      else exp_kernel x (Finite 0) (Finite 0) 0
  end.

End Float64.

(** * Statistics in double arithmetic (statistics.ts)

    The functions whose properties turn on rounding, with their numbers as
    doubles.  In the bootstrap the confidence level and the two indices are
    doubles; the scores and the resample means stay real numbers, since
    which elements are read does not depend on them. *)

Module Statistics64.

Import Float64.

(** [Math.max(0, Math.min(100, 100 * Math.exp(-3 * cv)))], for a given
    [Math.exp]. *)
Definition calculateConsistencyScore
    (Math_exp : float64 -> float64) (coefficientOfVariation : float64)
  : float64 :=
  let score :=
    fmul (of_Z 100) (Math_exp (fmul (of_Z (-3)) coefficientOfVariation)) in
  Math_max (of_Z 0) (Math_min (of_Z 100) score).

(** [array[i]] for a number [i]: an element when [i] is an index of the
    array, [undefined] otherwise. *)
Definition js_get (array : list R) (i : float64) : option R :=
  match i with
  | Finite a =>
      if Qeq_bool a (inject_Z (Qfloor a))
      then Statistics.js_get array (Qfloor a)
      else None
  | _ => None
  end.

(** [Math.floor(bootstrapMeans.length * (alpha / 2))] and
    [Math.floor(bootstrapMeans.length * (1 - alpha / 2))] with
    [alpha = 1 - confidenceLevel]. *)
Definition lowerIndex (len : nat) (confidenceLevel : float64) : float64 :=
  let alpha := fsub (of_Z 1) confidenceLevel in
  Math_floor (fmul (of_nat len) (fdiv alpha (of_Z 2))).

Definition upperIndex (len : nat) (confidenceLevel : float64) : float64 :=
  let alpha := fsub (of_Z 1) confidenceLevel in
  Math_floor (fmul (of_nat len) (fsub (of_Z 1) (fdiv alpha (of_Z 2)))).

Definition calculateBootstrapCI
    (random : nat -> R) (scores : list R) (confidenceLevel : float64)
    (iterations : nat)
  : Statistics.Rand Statistics.ConfidenceInterval :=
  match scores with
  | [] => Statistics.ret (Statistics.mkCI (Some 0) (Some 0) 0)
  | [s0] => Statistics.ret (Statistics.mkCI (Some s0) (Some s0) s0)
  | _ =>
      Statistics.bind
        (Statistics.sortedBootstrapMeans random scores iterations)
        (fun bootstrapMeans =>
           let mean :=
             Statistics.reduce_sum scores / INR (length scores) in
           Statistics.ret
             (Statistics.mkCI
                (js_get bootstrapMeans
                   (lowerIndex (length bootstrapMeans) confidenceLevel))
                (js_get bootstrapMeans
                   (upperIndex (length bootstrapMeans) confidenceLevel))
                mean))
  end.

(** The confidence levels next to 1: the literals [0.9999999999999998] and
    [0.9999999999999999] are [1 - 2^-52] and [1 - 2^-53]. *)
Definition below_one : float64 := decimal 9999999999999998 16.
Definition last_below_one : float64 := decimal 9999999999999999 16.

End Statistics64.

(** * A trial and the judgment it receives (runner.ts, lines 277-316)

    The trial as JavaScript runs it: the judgment is the object that
    [LLMJudge.grade] returns, whose [score] is whatever value the judge's
    JSON held. *)

Module JudgedTrial.
Import Js Judge JudgeClient.

Local Open Scope string_scope.

(** Why the promise of a trial rejects. *)
Inductive Rejection : Type :=
| GenerationRejected (message : string)
| GradeRejected (e : GradeError)
| Thrown (e : Js.Error).

Record RunResult : Type := mkRunResult {
  responseText : string;
  score : JsValue;
  maxScore : R;
  judgeReasoning : JsValue
}.

(** [score.toFixed(1)], called for the log line of the trial: a string for
    a number (also for NaN), a [TypeError] for [undefined] and [null], which
    have no properties, and for every other value, which has no [toFixed]
    method. *)
Definition call_toFixed (score : JsValue) : Exn unit :=
  match score with
  | JsNumber _ | JsNaN => ret tt
  | JsUndefined | JsNull =>
      inl (TypeError "Cannot read properties of undefined (reading 'toFixed')")
  | _ => inl (TypeError "score.toFixed is not a function")
  end.

(** Lines 283-313: one trial, given what [testModel.generate] and
    [judge.grade] settle with. *)
Definition trial
    (generated : string + string) (graded : GradeError + JudgmentResult)
  : Rejection + RunResult :=
  match generated with
  | inl message => inl (GenerationRejected message)
  | inr responseText =>
      match graded with
      | inl e => inl (GradeRejected e)
      | inr judgment =>
          let score := jr_score judgment in
          let maxScore := jr_max_score judgment in
          match call_toFixed score with
          | inl e => inl (Thrown e)
          | inr _ =>
              inr (mkRunResult responseText score maxScore
                     (jr_reasoning judgment))
          end
      end
  end.

(** The first promise to reject, when the promises settle in the order
    [order]. *)
Fixpoint first_rejection {A}
    (order : list nat) (promises : list (Rejection + A)) : option Rejection :=
  match order with
  | [] => None
  | idx :: order' =>
      match nth_error promises idx with
      | Some (inl rejection) => Some rejection
      | _ => first_rejection order' promises
      end
  end.

Fixpoint fulfilled {A} (promises : list (Rejection + A)) : list A :=
  match promises with
  | [] => []
  | inr a :: promises' => a :: fulfilled promises'
  | inl _ :: promises' => fulfilled promises'
  end.

(** [await Promise.all(runPromises)] (line 316), [order] listing every
    index once: the first rejection, or the results by index.  The [await]
    stands in the [try] block of [runEvaluation], whose [catch] (lines
    589-592) logs the error and throws it again. *)
Definition Promise_all {A}
    (order : list nat) (promises : list (Rejection + A))
  : Rejection + list A :=
  match first_rejection order promises with
  | Some rejection => inl rejection
  | None => inr (fulfilled promises)
  end.

(** A judge that answers every request with the text [{}]. *)
Definition empty_object_judge
  : nat -> OpenRouter.Payload -> OpenRouter.FetchOutcome :=
  fun _ _ => OpenRouter.Json (OpenRouter.mkResponse (Some [Some "{}"])).

End JudgedTrial.

(** * The running average of a run (runner.ts, lines 219-237 and 366-404) *)

Module RunningAverage.
Import Statistics Runner RunnerSpec.

(** The pairs of a question list in the order the runner visits them, the
    key of a pair, and the pairs that have no response row yet. *)
Definition pairs_of (questions : list Question) : list (Question * Variant) :=
  flat_map (fun q => [(q, explicit); (q, implicit)]) questions.

Definition pair_key (entry : Question * Variant) : string :=
  variantKey_of (q_id (fst entry)) (variant_name (snd entry)).

Definition pending (completedPairs : gset string)
    (pairs : list (Question * Variant)) : list (Question * Variant) :=
  filter (fun entry => pair_key entry ∉ completedPairs) pairs.

(** The running average after each of the pairs [fresh], added one by one
    to the pairs [acc]. *)
Fixpoint running_averages (acc fresh : list ResponseStat) : list R :=
  match fresh with
  | [] => []
  | stat :: fresh' =>
      weighted_average (acc ++ [stat])
      :: running_averages (acc ++ [stat]) fresh'
  end.

Section Evaluated.

Variable generated : nat -> GenerateCall -> string.
Variable judged : GradeCall -> Judgment.
Variable runsPerQuestion : nat.

(** Lines 321-322 and 366-371: what a pair evaluated in this run adds to
    [allResponseStats], the mean of its trial scores and the maximal score
    of its first trial; [n0] generations were made before the pair. *)
Definition evaluated_stat (entry : Question * Variant) (n0 : nat)
  : ResponseStat :=
  let runs := pair_runs generated judged (fst entry) (snd entry)
                runsPerQuestion n0 in
  let stats := calculateConsistencyMetrics (map run_score runs) in
  mkResponseStat (cm_mean stats)
    (match runs with
     | deterministic :: _ => run_maxScore deterministic
     | [] => 0
     end)
    (q_pillar_id (fst entry)) (cm_coefficientOfVariation stats).

Fixpoint evaluated_stats (pairs : list (Question * Variant)) (n0 : nat)
  : list ResponseStat :=
  match pairs with
  | [] => []
  | entry :: pairs' =>
      evaluated_stat entry n0
      :: evaluated_stats pairs' (n0 + runsPerQuestion)
  end.

(** What the visit of the pairs [pairs] adds to the accumulated pairs and
    reports, and what it leaves in the run row. *)
Definition visit_effect (evalRunId : nat) (completedPairs : gset string)
    (pairs : list (Question * Variant)) (ls : LoopState) (w : World)
    (ls' : LoopState) (w' : World) : Prop :=
  let fresh :=
    evaluated_stats (pending completedPairs pairs) (length (generate_log w)) in
  allResponseStats ls' = (allResponseStats ls ++ fresh)%list /\
  (exists events,
     progress_log w' = (progress_log w ++ events)%list /\
     map p_averageScore events
     = running_averages (allResponseStats ls) fresh) /\
  length (generate_log w')
  = (length (generate_log w)
     + runsPerQuestion * length (pending completedPairs pairs))%nat /\
  map run_id (evaluationRuns (db w')) = map run_id (evaluationRuns (db w)) /\
  (pending completedPairs pairs <> [] \/ average_synced evalRunId ls w ->
   average_synced evalRunId ls' w').

End Evaluated.

End RunningAverage.

(** ** A run interrupted after a pair whose mean is not a decimal

    One question graded out of 10, three trials per pair: the deterministic
    answer scores 2 and the sampled answers score 1, so the mean of a pair
    is 4/3.  The first session evaluates the explicit variant; the run is
    then resumed by a new process. *)

Module RoundedSample.
Import Runner.

Local Open Scope string_scope.

Definition rubric : Judge.Rubric :=
  Judge.mkRubric 10 [Judge.mkCriterion "doctrine" 1 true].

Definition question : Question :=
  mkQuestion "q1" 1 1 1 "What is grace?" "Why do good works matter?" None
    rubric rubric.

Definition generated (n : nat) (call : GenerateCall) : string :=
  match gc_seed call with
  | Some _ => "deterministic answer"
  | None => "sampled answer"
  end.

Definition judged (call : GradeCall) : Judgment :=
  if String.eqb (grade_response call) "deterministic answer"
  then mkJudgment 2 10 "partly right"
  else mkJudgment 1 10 "mostly wrong".

Definition testModel_generate (n : nat) (call : GenerateCall)
  : string + string := inr (generated n call).

Definition judge_grade (call : GradeCall) : string + Judgment :=
  inr (judged call).

Definition schedule (idx : nat) (variant : Variant) : list nat :=
  [2; 0; 1]%nat.

Definition clock (n : nat) : Z := 1000 * Z.of_nat n.

Definition random (n : nat) : R := 0.

Definition modelConfig : ModelConfig := mkModelConfig "model" "v1" "lab".

Definition run_row : EvaluationRun :=
  mkEvaluationRun 7 3 (Some 0%Z) None "running" 1 0 None None (Some 0%Z)
    None None.

Definition started : World :=
  mkWorld
    (mkDatabase 8 [mkModelRow 3 "model" "v1" "lab"] [run_row] [] [] [] [])
    [] [] [] [] 1 0.

Definition first_session : (Error + LoopState) * World :=
  evaluate_variant testModel_generate judge_grade schedule clock 3 7 3 0 1 0
    question explicit (mkLoopState 0 []) started.

Definition resumed : World :=
  mkWorld (db (snd first_session)) [] [] [] [] 0 0.

End RoundedSample.

(** ** The order of the pillar rows *)

Module PillarSpec.

(** The keys of a list without repetition, each at the place of its first
    occurrence. *)
Definition first_occurrences (keys : list Z) : list Z :=
  fold_left
    (fun seen key => if decide (key ∈ seen) then seen else (seen ++ [key])%list)
    keys [].

End PillarSpec.

(** * Properties *)

Module StatisticsFacts.
Import Statistics.

(** ** Consistency score *)

Lemma score_unclamped (cv : R) :
  0 <= cv -> calculateConsistencyScore cv = 100 * exp (-3 * cv).
Proof.
  intros Hcv. unfold calculateConsistencyScore.
  assert (Hpos : 0 < exp (-3 * cv)) by apply exp_pos.
  assert (Hle : exp (-3 * cv) <= 1).
  { rewrite <- exp_0. destruct (Req_dec cv 0) as [->|Hne].
    - rewrite Rmult_0_r. lra.
    - left. apply exp_increasing. lra. }
  rewrite Rmin_right by lra. rewrite Rmax_right by lra. reflexivity.
Qed.

(** ** Descriptive statistics *)


Import StatisticsSpec.

Lemma fold_left_add_total {A} (f : A -> R) (xs : list A) (acc : R) :
  fold_left (fun sum score => sum + f score) xs acc = acc + total (map f xs).
Proof.
  revert acc. induction xs as [|x xs IH]; intros acc; simpl.
  - lra.
  - rewrite IH. lra.
Qed.

Lemma reduce_sum_total (xs : list R) : reduce_sum xs = total xs.
Proof.
  unfold reduce_sum.
  rewrite (fold_left_add_total (fun x => x)), map_id. lra.
Qed.

Lemma reduce_sqdev_total (m : R) (xs : list R) :
  reduce_sqdev m xs = total (map (fun x => (x - m) ^ 2) xs).
Proof.
  unfold reduce_sqdev. rewrite (fold_left_add_total (fun x => (x - m) ^ 2)).
  lra.
Qed.

Lemma Math_min_is_minimum (s0 : R) (rest : list R) :
  is_minimum_of (Math_min s0 rest) (s0 :: rest).
Proof.
  unfold Math_min. revert s0.
  induction rest as [|x rest IH]; intros s0; simpl.
  - split; [now left|]. intros y [<-|[]]. lra.
  - destruct (IH (Rmin s0 x)) as [Hin Hlb]. split.
    + destruct Hin as [Heq|Hin].
      * rewrite <- Heq. unfold Rmin. destruct (Rle_dec s0 x); simpl; auto.
      * simpl. auto.
    + intros y Hy.
      assert (Hm : fold_left Rmin rest (Rmin s0 x) <= Rmin s0 x)
        by (apply Hlb; now left).
      destruct Hy as [<-|[<-|Hy]].
      * pose proof (Rmin_l s0 x). lra.
      * pose proof (Rmin_r s0 x). lra.
      * apply Hlb. now right.
Qed.

Lemma Math_max_is_maximum (s0 : R) (rest : list R) :
  is_maximum_of (Math_max s0 rest) (s0 :: rest).
Proof.
  unfold Math_max. revert s0.
  induction rest as [|x rest IH]; intros s0; simpl.
  - split; [now left|]. intros y [<-|[]]. lra.
  - destruct (IH (Rmax s0 x)) as [Hin Hub]. split.
    + destruct Hin as [Heq|Hin].
      * rewrite <- Heq. unfold Rmax. destruct (Rle_dec s0 x); simpl; auto.
      * simpl. auto.
    + intros y Hy.
      assert (Hm : Rmax s0 x <= fold_left Rmax rest (Rmax s0 x))
        by (apply Hub; now left).
      destruct Hy as [<-|[<-|Hy]].
      * pose proof (Rmax_l s0 x). lra.
      * pose proof (Rmax_r s0 x). lra.
      * apply Hub. now right.
Qed.

(** Taylor bounds of [exp (- x)] on [x >= 0], each obtained from the
    previous one through the sign of a derivative. *)

Lemma nonneg_by_derivative (h h' : R -> R) :
  (forall c, 0 <= c -> derivable_pt_lim h c (h' c)) ->
  (forall c, 0 <= c -> 0 <= h' c) ->
  h 0 = 0 -> forall x, 0 <= x -> 0 <= h x.
Proof.
  intros Hd Hpos H0 x Hx.
  destruct (Req_dec x 0) as [->|Hne]; [lra|].
  destruct (MVT_cor2 h h' 0 x) as (c & Heq & Hc); [lra| |].
  - intros c Hc. apply Hd. lra.
  - assert (0 <= h' c) by (apply Hpos; lra).
    assert (0 <= h' c * (x - 0)) by (apply Rmult_le_pos; lra).
    lra.
Qed.

Lemma deriv_exp_neg c : derivable_pt_lim (fun x => exp (- x)) c (- exp (- c)).
Proof.
  replace (- exp (- c)) with (exp (- c) * -1) by ring.
  apply (derivable_pt_lim_comp (fun x => - x) exp).
  - apply (derivable_pt_lim_opp id c 1). apply derivable_pt_lim_id.
  - apply derivable_pt_lim_exp.
Qed.

Lemma deriv_monomial (k : nat) (a c : R) :
  derivable_pt_lim (fun x => x ^ S k * a) c (INR (S k) * c ^ k * a).
Proof.
  apply (derivable_pt_lim_scal_right (fun x => x ^ S k) c (INR (S k) * c ^ k) a).
  apply (derivable_pt_lim_pow c (S k)).
Qed.

Lemma exp_neg_lower1 x : 1 - x <= exp (- x).
Proof. pose proof (exp_ineq1_le (- x)). lra. Qed.

Lemma exp_neg_upper2 x : 0 <= x -> exp (- x) <= 1 - x + x ^ 2 * / 2.
Proof.
  intros Hx.
  enough (0 <= (1 - x + x ^ 2 * / 2) - exp (- x)) by lra.
  apply (nonneg_by_derivative
           (fun x => (1 - x + x ^ 2 * / 2) - exp (- x))
           (fun c => (0 - 1 + INR 2 * c ^ 1 * / 2) - - exp (- c))); auto.
  - intros c _.
    apply (derivable_pt_lim_minus (fun x => 1 - x + x ^ 2 * / 2) (fun x => exp (- x)));
      [|apply deriv_exp_neg].
    apply (derivable_pt_lim_plus (fun x => 1 - x) (fun x => x ^ 2 * / 2));
      [|apply deriv_monomial].
    apply (derivable_pt_lim_minus (fun _ => 1) id);
      [apply derivable_pt_lim_const | apply derivable_pt_lim_id].
  - intros c _. pose proof (exp_neg_lower1 c). simpl. lra.
  - rewrite Ropp_0, exp_0. simpl. lra.
Qed.

Lemma exp_neg_lower3 x :
  0 <= x -> 1 - x + x ^ 2 * / 2 - x ^ 3 * / 6 <= exp (- x).
Proof.
  intros Hx.
  enough (0 <= exp (- x) - (1 - x + x ^ 2 * / 2 - x ^ 3 * / 6)) by lra.
  apply (nonneg_by_derivative
           (fun x => exp (- x) - (1 - x + x ^ 2 * / 2 - x ^ 3 * / 6))
           (fun c => - exp (- c)
                     - (0 - 1 + INR 2 * c ^ 1 * / 2 - INR 3 * c ^ 2 * / 6))); auto.
  - intros c _.
    apply (derivable_pt_lim_minus (fun x => exp (- x))
             (fun x => 1 - x + x ^ 2 * / 2 - x ^ 3 * / 6));
      [apply deriv_exp_neg|].
    apply (derivable_pt_lim_minus (fun x => 1 - x + x ^ 2 * / 2)
             (fun x => x ^ 3 * / 6)); [|apply deriv_monomial].
    apply (derivable_pt_lim_plus (fun x => 1 - x) (fun x => x ^ 2 * / 2));
      [|apply deriv_monomial].
    apply (derivable_pt_lim_minus (fun _ => 1) id);
      [apply derivable_pt_lim_const | apply derivable_pt_lim_id].
  - intros c Hc. pose proof (exp_neg_upper2 c Hc). simpl in *. lra.
  - rewrite Ropp_0, exp_0. simpl. lra.
Qed.

Lemma exp_neg_upper4 x :
  0 <= x -> exp (- x) <= 1 - x + x ^ 2 * / 2 - x ^ 3 * / 6 + x ^ 4 * / 24.
Proof.
  intros Hx.
  enough (0 <= (1 - x + x ^ 2 * / 2 - x ^ 3 * / 6 + x ^ 4 * / 24) - exp (- x))
    by lra.
  apply (nonneg_by_derivative
           (fun x => (1 - x + x ^ 2 * / 2 - x ^ 3 * / 6 + x ^ 4 * / 24)
                     - exp (- x))
           (fun c => (0 - 1 + INR 2 * c ^ 1 * / 2 - INR 3 * c ^ 2 * / 6
                      + INR 4 * c ^ 3 * / 24) - - exp (- c))); auto.
  - intros c _.
    apply (derivable_pt_lim_minus
             (fun x => 1 - x + x ^ 2 * / 2 - x ^ 3 * / 6 + x ^ 4 * / 24)
             (fun x => exp (- x))); [|apply deriv_exp_neg].
    apply (derivable_pt_lim_plus (fun x => 1 - x + x ^ 2 * / 2 - x ^ 3 * / 6)
             (fun x => x ^ 4 * / 24)); [|apply deriv_monomial].
    apply (derivable_pt_lim_minus (fun x => 1 - x + x ^ 2 * / 2)
             (fun x => x ^ 3 * / 6)); [|apply deriv_monomial].
    apply (derivable_pt_lim_plus (fun x => 1 - x) (fun x => x ^ 2 * / 2));
      [|apply deriv_monomial].
    apply (derivable_pt_lim_minus (fun _ => 1) id);
      [apply derivable_pt_lim_const | apply derivable_pt_lim_id].
  - intros c Hc. pose proof (exp_neg_lower3 c Hc). simpl in *. lra.
  - rewrite Ropp_0, exp_0. simpl. lra.
Qed.


(** C7. Descriptive statistics of a score list: arithmetic mean,
    Bessel-corrected sample variance (denominator [n - 1], and [0] for
    [n <= 1]), standard deviation as its square root, coefficient of
    variation [stdDev / mean] with [0] when the mean is [0], and the least
    and greatest element; on [[80; 85; 90]] the mean is [85], the standard
    deviation [5], the coefficient of variation about [0.0588] and the
    consistency score about [83.8]. *)
Theorem descriptive_statistics (scores : list R) :
  let m := calculateConsistencyMetrics scores in
  let example := calculateConsistencyMetrics [80; 85; 90] in
  (match scores with
   | [] => cm_mean m = 0 /\ cm_min m = 0 /\ cm_max m = 0
   | _ :: _ =>
       cm_mean m = arithmetic_mean scores /\
       is_minimum_of (cm_min m) scores /\
       is_maximum_of (cm_max m) scores
   end) /\
  cm_variance m = sample_variance scores /\
  cm_stdDev m = sqrt (cm_variance m) /\
  cm_coefficientOfVariation m =
    (if Req_dec_T (cm_mean m) 0 then 0 else cm_stdDev m / cm_mean m) /\
  (cm_mean example = 85 /\
   cm_stdDev example = 5 /\
   Rabs (cm_coefficientOfVariation example - 0.0588) < 0.0001 /\
   Rabs (calculateConsistencyScore (cm_coefficientOfVariation example) - 83.8)
     < 0.05).
Proof.
  cbv zeta. split; [|split; [|split; [|split]]].
  - destruct scores as [|s0 [|s1 rest]]; cbn [calculateConsistencyMetrics].
    + cbn. auto.
    + cbn [cm_mean cm_min cm_max]. unfold arithmetic_mean.
      rewrite reduce_sum_total. split; [reflexivity|].
      split; [apply (Math_min_is_minimum s0 []) | apply (Math_max_is_maximum s0 [])].
    + cbn [cm_mean cm_min cm_max]. unfold arithmetic_mean.
      rewrite reduce_sum_total. split; [reflexivity|].
      split; [apply Math_min_is_minimum | apply Math_max_is_maximum].
  - destruct scores as [|s0 [|s1 rest]]; cbn [calculateConsistencyMetrics].
    + reflexivity.
    + reflexivity.
    + cbn [cm_variance]. unfold sample_variance.
      cbn [length Nat.leb]. unfold arithmetic_mean.
      rewrite reduce_sqdev_total, reduce_sum_total. reflexivity.
  - destruct scores as [|s0 [|s1 rest]]; cbn [calculateConsistencyMetrics];
      cbn [cm_stdDev cm_variance]; try (symmetry; apply sqrt_0); reflexivity.
  - destruct scores as [|s0 [|s1 rest]]; cbn [calculateConsistencyMetrics];
      cbn [cm_coefficientOfVariation cm_stdDev cm_mean].
    + destruct (Req_dec_T 0 0); lra.
    + destruct (Req_dec_T _ 0); [reflexivity|]. unfold Rdiv. lra.
    + reflexivity.
  - assert (Hmean : reduce_sum [80; 85; 90] / INR (length [80; 85; 90]) = 85).
    { unfold reduce_sum. simpl. lra. }
    assert (Hvar : reduce_sqdev 85 [80; 85; 90]
                   / (INR (length [80; 85; 90]) - 1) = 5 * 5).
    { unfold reduce_sqdev. simpl. lra. }
    cbn [calculateConsistencyMetrics cm_mean cm_stdDev cm_coefficientOfVariation].
    rewrite Hmean, Hvar, sqrt_square by lra.
    destruct (Req_dec_T 85 0) as [Habs|_]; [lra|].
    split; [reflexivity|]. split; [reflexivity|]. split.
    + apply Rabs_def1; lra.
    + rewrite score_unclamped by lra.
      replace (-3 * (5 / 85)) with (- (3 / 17)) by lra.
      pose proof (exp_neg_lower3 (3 / 17)) as Hlo.
      pose proof (exp_neg_upper4 (3 / 17)) as Hhi.
      simpl in Hlo, Hhi. apply Rabs_def1; lra.
Qed.

(** ** Bootstrap confidence interval *)

Lemma for_push_length {A} (n : nat) (body : Rand A) (k : nat) :
  length (fst (for_push n body k)) = n.
Proof.
  revert k. induction n as [|n IH]; intros k; simpl; [reflexivity|].
  unfold bind. destruct (body k) as [x k1].
  specialize (IH k1). destruct (for_push n body k1) as [xs k2].
  simpl in *. now rewrite IH.
Qed.

Lemma sort_ascending_length (l : list R) :
  length (sort_ascending l) = length l.
Proof.
  unfold sort_ascending. symmetry.
  apply Permutation_length, RSort.Permuted_sort.
Qed.

Lemma sort_ascending_sorted (l : list R) :
  StronglySorted Rle (sort_ascending l).
Proof.
  unfold sort_ascending.
  assert (Htrans : Transitive
            (fun x y : R => is_true (if Rle_dec x y then true else false))).
  { intros x y z. destruct (Rle_dec x y), (Rle_dec y z), (Rle_dec x z);
      simpl; intros; try easy. lra. }
  pose proof (RSort.StronglySorted_sort l Htrans) as Hs.
  induction Hs as [|a l' Hs IH Hall]; constructor; [assumption|].
  eapply Forall_impl; [exact Hall|].
  intros b Hb. simpl in Hb. now destruct (Rle_dec a b).
Qed.

Lemma sorted_nth_error_le (l : list R) (i j : nat) (a b : R) :
  StronglySorted Rle l -> (i <= j)%nat ->
  nth_error l i = Some a -> nth_error l j = Some b -> a <= b.
Proof.
  intros Hs. revert i j.
  induction Hs as [|x l Hs IH Hall]; intros i j Hij Hi Hj.
  - destruct i; discriminate.
  - destruct i as [|i], j as [|j]; simpl in *.
    + injection Hi as <-. injection Hj as <-. lra.
    + injection Hi as <-. rewrite List.Forall_forall in Hall.
      apply Hall. eapply nth_error_In; eassumption.
    + lia.
    + apply (IH i j); [lia|assumption..].
Qed.

Lemma js_get_in_range (l : list R) (i : Z) :
  (0 <= i < Z.of_nat (length l))%Z -> exists x, js_get l i = Some x.
Proof.
  intros Hi. unfold js_get.
  destruct (Z.ltb_spec i 0) as [Hneg|_]; [lia|].
  destruct (nth_error l (Z.to_nat i)) as [x|] eqn:Hnth; [now exists x|].
  apply nth_error_None in Hnth. lia.
Qed.

Lemma js_get_at_length (l : list R) : js_get l (Z.of_nat (length l)) = None.
Proof.
  unfold js_get. destruct (Z.ltb_spec (Z.of_nat (length l)) 0); [reflexivity|].
  apply nth_error_None. lia.
Qed.

Lemma js_get_sorted_le (l : list R) (i j : Z) (a b : R) :
  StronglySorted Rle l -> (i <= j)%Z ->
  js_get l i = Some a -> js_get l j = Some b -> a <= b.
Proof.
  unfold js_get. intros Hs Hij.
  destruct (Z.ltb_spec i 0); [discriminate|].
  destruct (Z.ltb_spec j 0); [discriminate|].
  apply sorted_nth_error_le; [assumption|lia].
Qed.

(** The index drawn by [resampleWithReplacement] is within the array for a
    draw in [[0, 1)]. *)
Lemma randomIndex_in_range (r : R) (n : nat) :
  0 <= r < 1 -> (0 < n)%nat ->
  (0 <= Zfloor (r * INR n) < Z.of_nat n)%Z.
Proof.
  intros Hr Hn.
  assert (HINR : 0 < INR n) by (apply lt_0_INR; lia).
  pose proof (Zfloor_bound (r * INR n)) as [Hlo Hhi].
  split.
  - apply (Zfloor_lub 0). apply Rmult_le_pos; lra.
  - apply lt_IZR. rewrite <- INR_IZR_INZ. nra.
Qed.

Lemma lowerIndex_range (len : nat) (cl : R) :
  0 <= cl <= 1 -> (0 < len)%nat ->
  (0 <= lowerIndex len cl < Z.of_nat len)%Z.
Proof.
  intros Hcl Hlen. unfold lowerIndex.
  assert (HINR : 0 < INR len) by (apply lt_0_INR; lia).
  pose proof (Zfloor_bound (INR len * ((1 - cl) / 2))) as [Hlo Hhi].
  split.
  - apply (Zfloor_lub 0). apply Rmult_le_pos; lra.
  - apply lt_IZR. rewrite <- INR_IZR_INZ. nra.
Qed.

Lemma upperIndex_range (len : nat) (cl : R) :
  0 <= cl < 1 -> (0 < len)%nat ->
  (0 <= upperIndex len cl < Z.of_nat len)%Z.
Proof.
  intros Hcl Hlen. unfold upperIndex.
  assert (HINR : 0 < INR len) by (apply lt_0_INR; lia).
  pose proof (Zfloor_bound (INR len * (1 - (1 - cl) / 2))) as [Hlo Hhi].
  split.
  - apply (Zfloor_lub 0). apply Rmult_le_pos; lra.
  - apply lt_IZR. rewrite <- INR_IZR_INZ. nra.
Qed.

Lemma lowerIndex_le_upperIndex (len : nat) (cl : R) :
  0 <= cl -> (lowerIndex len cl <= upperIndex len cl)%Z.
Proof.
  intros Hcl. unfold lowerIndex, upperIndex. apply Zfloor_le.
  apply Rmult_le_compat_l; [apply pos_INR | lra].
Qed.

Lemma upperIndex_at_one (len : nat) : upperIndex len 1 = Z.of_nat len.
Proof.
  unfold upperIndex.
  replace (INR len * (1 - (1 - 1) / 2)) with (INR len) by lra.
  rewrite INR_IZR_INZ. apply ZfloorZ.
Qed.

Lemma sortedBootstrapMeans_length random scores iterations k :
  length (fst (sortedBootstrapMeans random scores iterations k)) = iterations.
Proof.
  unfold sortedBootstrapMeans, bind.
  pose proof (for_push_length iterations
                (bootstrap_iteration random scores) k) as Hlen.
  destruct (for_push iterations _ k) as [means k'].
  cbn [fst ret] in *. now rewrite sort_ascending_length.
Qed.

Lemma sortedBootstrapMeans_sorted random scores iterations k :
  StronglySorted Rle (fst (sortedBootstrapMeans random scores iterations k)).
Proof.
  unfold sortedBootstrapMeans, bind.
  destruct (for_push iterations _ k) as [means k'].
  cbn [fst ret]. apply sort_ascending_sorted.
Qed.

Lemma calculateBootstrapCI_reads random s0 s1 rest cl iterations k :
  let scores := s0 :: s1 :: rest in
  let sorted := fst (sortedBootstrapMeans random scores iterations k) in
  fst (calculateBootstrapCI random scores cl iterations k) =
  mkCI (js_get sorted (lowerIndex iterations cl))
       (js_get sorted (upperIndex iterations cl))
       (reduce_sum scores / INR (length scores)).
Proof.
  cbv zeta. cbn [calculateBootstrapCI]. unfold bind at 1.
  pose proof (sortedBootstrapMeans_length random (s0 :: s1 :: rest)
                iterations k) as Hlen.
  destruct (sortedBootstrapMeans random _ iterations k) as [means k'].
  cbn [fst ret] in *. now rewrite Hlen.
Qed.

Lemma bootstrap_bounds_ordered
    (random : nat -> R) (scores : list R) (confidenceLevel : R)
    (iterations k : nat) :
  0 <= confidenceLevel < 1 -> (1 <= iterations)%nat ->
  exists lower upper : R,
    let ci :=
      fst (calculateBootstrapCI random scores confidenceLevel iterations k) in
    ci_lower ci = Some lower /\ ci_upper ci = Some upper /\ lower <= upper.
Proof.
  intros Hcl Hit.
  destruct scores as [|s0 [|s1 rest]].
  - exists 0, 0. cbn. repeat split; lra.
  - exists s0, s0. cbn. repeat split; lra.
  - pose proof (calculateBootstrapCI_reads random s0 s1 rest confidenceLevel
                  iterations k) as Hreads.
    cbv zeta in Hreads. rewrite Hreads. cbn [ci_lower ci_upper].
    set (sorted := fst (sortedBootstrapMeans random (s0 :: s1 :: rest)
                          iterations k)).
    assert (Hlen : length sorted = iterations)
      by apply sortedBootstrapMeans_length.
    destruct (js_get_in_range sorted (lowerIndex iterations confidenceLevel))
      as [lo Hlo].
    { rewrite Hlen. apply lowerIndex_range; [lra|lia]. }
    destruct (js_get_in_range sorted (upperIndex iterations confidenceLevel))
      as [hi Hhi].
    { rewrite Hlen. apply upperIndex_range; [lra|lia]. }
    exists lo, hi. repeat split; [assumption..|].
    eapply js_get_sorted_le; [apply sortedBootstrapMeans_sorted| |eassumption..].
    apply lowerIndex_le_upperIndex. lra.
Qed.

(** ** Descriptive statistics: bounds *)

Lemma total_bounds (xs : list R) (lo hi : R) :
  (forall x, In x xs -> lo <= x <= hi) ->
  INR (length xs) * lo <= total xs <= INR (length xs) * hi.
Proof.
  induction xs as [|x xs IH]; intros H.
  - simpl. lra.
  - cbn [total]. change (length (x :: xs)) with (S (length xs)).
    rewrite S_INR.
    assert (Hx := H x (or_introl eq_refl)).
    assert (IH' := IH (fun y Hy => H y (or_intror Hy))). lra.
Qed.

Lemma total_sq_nonneg (m : R) (xs : list R) :
  0 <= total (map (fun x => (x - m) ^ 2) xs).
Proof.
  induction xs as [|x xs IH]; simpl; [lra|].
  pose proof (pow2_ge_0 (x - m)). simpl in *. lra.
Qed.



(** ** Normalised scores *)

(** X3.  [normalizeScores] and [denormalizeScores] keep the number of
    scores; for a positive [maxScore], normalizing scores within
    [[0, maxScore]] gives values within [[0, 1]], and denormalizing values
    within [[0, 1]] gives scores within [[0, maxScore]]. *)
Theorem normalized_scores_range (scores : list R) (maxScore : R) :
  0 < maxScore ->
  length (normalizeScores scores maxScore) = length scores /\
  length (denormalizeScores scores maxScore) = length scores /\
  (Forall (fun score => 0 <= score <= maxScore) scores ->
   Forall (fun score => 0 <= score <= 1) (normalizeScores scores maxScore)) /\
  (Forall (fun score => 0 <= score <= 1) scores ->
   Forall (fun score => 0 <= score <= maxScore)
     (denormalizeScores scores maxScore)).
Proof.
  intros Hmax. unfold denormalizeScores, normalizeScores.
  rewrite !length_map. split; [reflexivity|]. split; [reflexivity|].
  assert (Hinv : 0 < / maxScore) by now apply Rinv_0_lt_compat.
  split; intros Hall; apply List.Forall_map;
    (eapply Forall_impl; [exact Hall|]); intros score [H0 H1]; cbv beta.
  - split.
    + apply Rmult_le_pos; lra.
    + apply Rmult_le_reg_r with maxScore; [assumption|].
      unfold Rdiv. rewrite Rmult_assoc, Rinv_l by lra. lra.
  - split; [apply Rmult_le_pos; lra|].
    replace maxScore with (1 * maxScore) at 2 by ring.
    apply Rmult_le_compat_r; lra.
Qed.

Lemma normalized_scores_range_witness :
  0 < 100 /\
  Forall (fun score => 0 <= score <= 1) (normalizeScores [80; 85; 90] 100).
Proof.
  split; [lra|].
  apply (normalized_scores_range [80; 85; 90] 100); [lra|].
  repeat constructor; lra.
Defined.

(** ** Consistency score outside [cv >= 0] and averaged *)

Lemma consistency_score_range_aux (cv : R) :
  0 < calculateConsistencyScore cv <= 100.
Proof.
  unfold calculateConsistencyScore.
  assert (Hpos : 0 < exp (-3 * cv)) by apply exp_pos.
  unfold Rmax, Rmin.
  destruct (Rle_dec 100 (100 * exp (-3 * cv)));
    destruct (Rle_dec 0 _); lra.
Qed.


Lemma total_map_bounds {A} (f : A -> R) (xs : list A) (lo hi : R) :
  (forall x, lo <= f x <= hi) ->
  INR (length xs) * lo <= total (map f xs) <= INR (length xs) * hi.
Proof.
  intros H. rewrite <- (length_map f xs). apply total_bounds.
  intros y Hy. apply in_map_iff in Hy. destruct Hy as (x & <- & _). apply H.
Qed.


(** ** Resampling *)

Lemma for_push_spec {A} (P : A -> Prop) (c n : nat) (body : Rand A) :
  (forall k, P (fst (body k)) /\ snd (body k) = (k + c)%nat) ->
  forall k,
    Forall P (fst (for_push n body k)) /\
    snd (for_push n body k) = (k + n * c)%nat.
Proof.
  intros Hbody. induction n as [|n IH]; intros k; simpl.
  - split; [constructor|lia].
  - unfold bind. destruct (Hbody k) as [HP Hk].
    destruct (body k) as [x k1]. cbn [fst snd] in *.
    destruct (IH k1) as [Hall Hk2].
    destruct (for_push n body k1) as [xs k2]. cbn [fst snd ret] in *.
    split; [now constructor|lia].
Qed.

Lemma resampleWithReplacement_spec (random : nat -> R) (array : list R) (k : nat) :
  (forall i, 0 <= random i < 1) ->
  let out := resampleWithReplacement random array k in
  length (fst out) = length array /\
  Forall (fun x => In x array) (fst out) /\
  snd out = (k + length array)%nat.
Proof.
  intros Hrandom. cbv zeta. unfold resampleWithReplacement.
  split; [apply for_push_length|].
  destruct array as [|a array]; [cbn; split; [constructor|lia]|].
  set (arr := a :: array).
  replace (k + length arr)%nat with (k + length arr * 1)%nat by lia.
  apply for_push_spec. intros j. unfold bind, Math_random, ret. cbn [fst snd].
  split; [|lia].
  destruct (randomIndex_in_range (random j) (length arr) (Hrandom j)) as [Hlo Hhi];
    [simpl; lia|].
  apply nth_In. lia.
Qed.

(** X6.  For draws in [[0, 1)], a resample has the length of the array, consists
    of elements of the array, and consumes one draw per element. *)
Theorem resample_from_array (random : nat -> R) (array : list R) (k : nat) :
  (forall i, 0 <= random i < 1) ->
  let out := resampleWithReplacement random array k in
  length (fst out) = length array /\
  (forall x, In x (fst out) -> In x array) /\
  snd out = (k + length array)%nat.
Proof.
  intros Hrandom. cbv zeta.
  destruct (resampleWithReplacement_spec random array k Hrandom)
    as (Hlen & Hall & Hk).
  split; [assumption|]. split; [|assumption].
  rewrite List.Forall_forall in Hall. exact Hall.
Qed.

Lemma resample_from_array_witness :
  (forall i : nat, 0 <= (fun _ : nat => / 2) i < 1) /\
  let out := resampleWithReplacement (fun _ => / 2) [70; 90] 0%nat in
  length (fst out) = length [70; 90] /\
  (forall x, In x (fst out) -> In x [70; 90]) /\
  snd out = (0 + length [70; 90])%nat.
Proof.
  split; [intros _; lra|].
  apply (resample_from_array (fun _ => / 2) [70; 90] 0%nat). intros _. lra.
Defined.

(** ** Bootstrap interval: range and draws *)

Lemma js_get_In (l : list R) (i : Z) (x : R) : js_get l i = Some x -> In x l.
Proof.
  unfold js_get. destruct (i <? 0)%Z; [discriminate|]. apply nth_error_In.
Qed.

(** A bootstrap mean is the mean of a resample: of as many scores as the
    list has, each taken from the list. *)
Lemma bootstrap_iteration_resample (random : nat -> R) (scores : list R)
    (k : nat) :
  (forall i, 0 <= random i < 1) ->
  (exists resample,
     length resample = length scores /\
     Forall (fun x => In x scores) resample /\
     fst (bootstrap_iteration random scores k)
     = reduce_sum resample / INR (length resample)) /\
  snd (bootstrap_iteration random scores k) = (k + length scores)%nat.
Proof.
  intros Hrandom. unfold bootstrap_iteration, bind.
  destruct (resampleWithReplacement_spec random scores k Hrandom)
    as (Hlen & Hall & Hk).
  destruct (resampleWithReplacement random scores k) as [resample k1].
  cbn [fst snd ret] in *. split; [|assumption].
  exists resample. repeat split; assumption.
Qed.

(** X7.  For draws in [[0, 1)] and two scores or more, every defined bound
    of the bootstrap interval is the mean of a resample: of a list of as
    many scores as were given, each of them one of the given scores. *)
Theorem bootstrap_bounds_are_resample_means
    (random : nat -> R) (scores : list R) (confidenceLevel : R)
    (iterations k : nat) :
  (forall i, 0 <= random i < 1) -> (2 <= length scores)%nat ->
  let ci :=
    fst (calculateBootstrapCI random scores confidenceLevel iterations k) in
  forall b, ci_lower ci = Some b \/ ci_upper ci = Some b ->
    exists resample,
      length resample = length scores /\
      Forall (fun x => In x scores) resample /\
      b = reduce_sum resample / INR (length resample).
Proof.
  intros Hrandom Hlen. cbv zeta.
  destruct scores as [|s0 [|s1 rest]]; simpl in Hlen; [lia..|].
  pose proof (calculateBootstrapCI_reads random s0 s1 rest confidenceLevel
                iterations k) as Hreads.
  cbv zeta in Hreads. rewrite Hreads. cbn [ci_lower ci_upper].
  set (scores := s0 :: s1 :: rest).
  assert (Hmeans :
    Forall (fun b => exists resample,
                length resample = length scores /\
                Forall (fun x => In x scores) resample /\
                b = reduce_sum resample / INR (length resample))
      (fst (sortedBootstrapMeans random scores iterations k))).
  { unfold sortedBootstrapMeans, bind.
    destruct (for_push_spec
                (fun b => exists resample,
                     length resample = length scores /\
                     Forall (fun x => In x scores) resample /\
                     b = reduce_sum resample / INR (length resample))
                (length scores) iterations
                (bootstrap_iteration random scores)
                (fun j => bootstrap_iteration_resample random scores j
                            Hrandom) k) as [Hall _].
    destruct (for_push iterations _ k) as [means k1]. cbn [fst ret] in *.
    rewrite List.Forall_forall in Hall. apply List.Forall_forall.
    intros x Hx. apply Hall. unfold sort_ascending in Hx.
    eapply Permutation_in; [|exact Hx].
    apply Permutation_sym, RSort.Permuted_sort. }
  rewrite List.Forall_forall in Hmeans.
  intros b [Hb|Hb]; apply Hmeans; eapply js_get_In; exact Hb.
Qed.

Lemma bootstrap_bounds_are_resample_means_witness :
  (forall i : nat, 0 <= (fun _ : nat => / 2) i < 1) /\
  (2 <= length [70; 90])%nat /\
  let ci :=
    fst (calculateBootstrapCI (fun _ => / 2) [70; 90] 0.95 3 0%nat) in
  forall b, ci_lower ci = Some b \/ ci_upper ci = Some b ->
    exists resample,
      length resample = length [70; 90] /\
      Forall (fun x => In x [70; 90]) resample /\
      b = reduce_sum resample / INR (length resample).
Proof.
  split; [intros _; lra|]. split; [simpl; lia|].
  apply (bootstrap_bounds_are_resample_means (fun _ => / 2) [70; 90] 0.95 3
           0%nat); [intros _; lra | simpl; lia].
Defined.

Lemma bootstrap_iteration_draws (random : nat -> R) (scores : list R) (k : nat) :
  snd (bootstrap_iteration random scores k) = (k + length scores)%nat.
Proof.
  unfold bootstrap_iteration, bind, resampleWithReplacement.
  match goal with |- context [for_push _ ?body k] =>
    assert (Hbody : forall j, True /\ snd (body j) = (j + 1)%nat)
      by (intros j; split; [exact I|cbn; lia]);
    pose proof (for_push_spec (fun _ : R => True) 1 (length scores) body Hbody k)
      as [_ Hk];
    destruct (for_push (length scores) body k) as [resample k1]
  end.
  cbn [snd ret] in *. lia.
Qed.

Lemma sortedBootstrapMeans_draws (random : nat -> R) (scores : list R)
    (iterations k : nat) :
  snd (sortedBootstrapMeans random scores iterations k)
  = (k + iterations * length scores)%nat.
Proof.
  unfold sortedBootstrapMeans, bind.
  destruct (for_push_spec (fun _ : R => True) (length scores) iterations
              (bootstrap_iteration random scores)
              (fun j => conj I (bootstrap_iteration_draws random scores j)) k)
    as [_ Hk].
  destruct (for_push iterations _ k) as [means k1]. cbn [snd ret] in *.
  exact Hk.
Qed.

Lemma js_get_nil (i : Z) : js_get [] i = None.
Proof.
  unfold js_get. destruct (i <? 0)%Z; [reflexivity|].
  now destruct (Z.to_nat i).
Qed.

(** X8.  The edges of [calculateBootstrapCI]: no score gives the interval
    [(0, 0, 0)] without a draw; two scores or more cost
    [iterations * scores.length] draws, and with no iteration both bounds
    are undefined, read from an empty array. *)
Theorem bootstrap_edges
    (random : nat -> R) (scores : list R) (confidenceLevel : R)
    (iterations k : nat) :
  calculateBootstrapCI random [] confidenceLevel iterations k
  = (mkCI (Some 0) (Some 0) 0, k) /\
  ((2 <= length scores)%nat ->
   snd (calculateBootstrapCI random scores confidenceLevel iterations k)
   = (k + iterations * length scores)%nat /\
   (iterations = 0%nat ->
    let ci :=
      fst (calculateBootstrapCI random scores confidenceLevel iterations k) in
    ci_lower ci = None /\ ci_upper ci = None)).
Proof.
  split; [reflexivity|]. intros Hlen.
  destruct scores as [|s0 [|s1 rest]]; simpl in Hlen; [lia..|]. split.
  - cbn [calculateBootstrapCI]. unfold bind at 1.
    pose proof (sortedBootstrapMeans_draws random (s0 :: s1 :: rest)
                  iterations k) as Hk.
    destruct (sortedBootstrapMeans random _ iterations k) as [means k1].
    cbn [snd ret] in *. exact Hk.
  - intros ->.
    pose proof (calculateBootstrapCI_reads random s0 s1 rest confidenceLevel
                  0 k) as Hreads.
    cbv zeta in Hreads. cbv zeta. rewrite Hreads. cbn [ci_lower ci_upper].
    pose proof (sortedBootstrapMeans_length random (s0 :: s1 :: rest) 0 k)
      as Hsorted.
    destruct (fst (sortedBootstrapMeans random (s0 :: s1 :: rest) 0 k));
      [|discriminate].
    split; apply js_get_nil.
Qed.

(** ** Normal distribution and Welch's t-test *)

Lemma tail_polynomial_bounds (t : R) :
  0 < t <= 1 ->
  0 < t * (0.3193815 + t * (-0.3565638 + t * (1.781478 + t * (-1.821256 + t * 1.330274))))
  <= 1.2533137.
Proof.
  intros [Hpos Hle].
  split.
  - apply Rmult_lt_0_compat; [assumption|].
    assert (Hq : 1.15 <= 1.781478 + t * (-1.821256 + t * 1.330274)).
    { pose proof (pow2_ge_0 (t - 0.6845)) as Hsq.
      simpl in Hsq. lra. }
    pose proof (pow2_ge_0 (t - 0.155)) as Hsq.
    simpl in Hsq.
    assert (Hmul : t * t * 1.15 <= t * t * (1.781478 + t * (-1.821256 + t * 1.330274))).
    { apply Rmult_le_compat_l; [nra|exact Hq]. }
    lra.
  - assert (H2 : 0 <= t * t) by nra.
    assert (H3 : t * t * t <= t * t).
    { replace (t * t) with (t * t * 1) at 2 by ring.
      apply Rmult_le_compat_l; lra. }
    assert (H4 : 0 <= t * t * t * t).
    { replace (t * t * t * t) with ((t * t) * (t * t)) by ring.
      apply Rmult_le_pos; assumption. }
    assert (Hr : 0 <= 1.2533137 + 0.9339322 * t + 1.290496 * (t * t)
                    - 0.490982 * (t * t * t) + 1.330274 * (t * t * t * t)) by lra.
    assert (Heq : t * (0.3193815 + t * (-0.3565638 + t * (1.781478 + t * (-1.821256 + t * 1.330274))))
      = 1.2533137 - (1 - t) * (1.2533137 + 0.9339322 * t + 1.290496 * (t * t)
                    - 0.490982 * (t * t * t) + 1.330274 * (t * t * t * t))) by lra.
    rewrite Heq.
    assert (0 <= (1 - t) * (1.2533137 + 0.9339322 * t + 1.290496 * (t * t)
                    - 0.490982 * (t * t * t) + 1.330274 * (t * t * t * t))).
    { apply Rmult_le_pos; lra. }
    lra.
Qed.

Lemma normalCDF_tail (z : R) :
  exists p,
    0 < p < / 2 /\
    normalCDF z = (if Rlt_dec 0 z then 1 - p else p) /\
    normalCDF (- z) = (if Rlt_dec 0 (- z) then 1 - p else p).
Proof.
  unfold normalCDF. rewrite Rabs_Ropp.
  replace (- - z * - z) with (- z * z) by ring.
  set (t := 1 / (1 + 0.2316419 * Rabs z)).
  set (d := 0.3989423 * exp (- z * z / 2)).
  set (q := 0.3193815 + t * (-0.3565638 + t * (1.781478 + t * (-1.821256 + t * 1.330274)))).
  exists (d * t * q). split; [|split; reflexivity].
  assert (Ht : 0 < t <= 1).
  { unfold t. pose proof (Rabs_pos z) as Habs.
    assert (Hden : 1 <= 1 + 0.2316419 * Rabs z) by lra.
    split.
    - apply Rdiv_lt_0_compat; lra.
    - apply Rmult_le_reg_r with (1 + 0.2316419 * Rabs z); [lra|].
      unfold Rdiv. rewrite Rmult_assoc, Rinv_l by lra. lra. }
  assert (Hd : 0 < d <= 0.3989423).
  { unfold d. pose proof (exp_pos (- z * z / 2)) as Hpos.
    assert (Hle : exp (- z * z / 2) <= 1).
    { rewrite <- exp_0. destruct (Req_dec z 0) as [->|Hz].
      - replace (- 0 * 0 / 2) with 0 by lra. lra.
      - left. apply exp_increasing.
        assert (0 < z * z) by (destruct (Rtotal_order z 0) as [?|[?|?]]; nra).
        lra. }
    lra. }
  pose proof (tail_polynomial_bounds t Ht) as Hq. fold q in Hq.
  rewrite Rmult_assoc.
  assert (Hprod : d * (t * q) <= 0.3989423 * 1.2533137).
  { apply Rmult_le_compat; lra. }
  split; [apply Rmult_lt_0_compat; lra | lra].
Qed.


Lemma normalCDF_above_half (z : R) : 0 < z -> / 2 < normalCDF z < 1.
Proof.
  intros Hz. destruct (normalCDF_tail z) as (p & Hp & Heq & _).
  rewrite Heq. destruct (Rlt_dec 0 z); lra.
Qed.

Lemma normalCDF_at_0 : 0 < normalCDF 0 < / 2.
Proof.
  destruct (normalCDF_tail 0) as (p & Hp & Heq & _).
  rewrite Heq. destruct (Rlt_dec 0 0); lra.
Qed.

Lemma approximateCDF_above_half (t df : R) :
  0 < t -> 0 < df -> / 2 < approximateCDF t df < 1.
Proof.
  intros Ht Hdf. unfold approximateCDF.
  destruct (Rlt_dec 30 df); [now apply normalCDF_above_half|].
  apply normalCDF_above_half. apply Rdiv_lt_0_compat; [assumption|].
  apply sqrt_lt_R0.
  assert (0 < t * t / df) by (apply Rdiv_lt_0_compat; nra). lra.
Qed.

Lemma approximateCDF_at_0 (df : R) : 0 < approximateCDF 0 df < / 2.
Proof.
  unfold approximateCDF. destruct (Rlt_dec 30 df); [apply normalCDF_at_0|].
  replace (0 / sqrt (1 + 0 * 0 / df)) with 0 by (unfold Rdiv; ring).
  apply normalCDF_at_0.
Qed.

Lemma cm_variance_nonneg (scores : list R) :
  0 <= cm_variance (calculateConsistencyMetrics scores).
Proof.
  destruct scores as [|s0 [|s1 rest]];
    cbn [calculateConsistencyMetrics cm_variance]; try lra.
  rewrite reduce_sqdev_total. apply Rmult_le_pos.
  - apply total_sq_nonneg.
  - left. apply Rinv_0_lt_compat.
    change (length (s0 :: s1 :: rest)) with (S (S (length rest))).
    rewrite !S_INR. pose proof (pos_INR (length rest)). lra.
Qed.

Lemma welchTTest_unfold (scores1 scores2 : list R) :
  (1 <= length scores1)%nat -> (1 <= length scores2)%nat ->
  let s1Sq :=
    cm_variance (calculateConsistencyMetrics scores1) / INR (length scores1) in
  let s2Sq :=
    cm_variance (calculateConsistencyMetrics scores2) / INR (length scores2) in
  let t :=
    (cm_mean (calculateConsistencyMetrics scores1)
     - cm_mean (calculateConsistencyMetrics scores2)) / sqrt (s1Sq + s2Sq) in
  let df :=
    (s1Sq + s2Sq) ^ 2 /
    (s1Sq ^ 2 / (INR (length scores1) - 1)
     + s2Sq ^ 2 / (INR (length scores2) - 1)) in
  let p := 2 * (1 - approximateCDF (Rabs t) df) in
  welchTTest scores1 scores2
  = mkTTest t p (if Rlt_dec p 0.05 then true else false).
Proof.
  intros H1 H2. cbv zeta. unfold welchTTest.
  destruct scores1; [simpl in H1; lia|]. destruct scores2; [simpl in H2; lia|].
  reflexivity.
Qed.

Lemma welch_denominators (scores1 scores2 : list R) :
  (2 <= length scores1)%nat -> (2 <= length scores2)%nat ->
  0 < cm_variance (calculateConsistencyMetrics scores1)
      + cm_variance (calculateConsistencyMetrics scores2) ->
  let s1Sq :=
    cm_variance (calculateConsistencyMetrics scores1) / INR (length scores1) in
  let s2Sq :=
    cm_variance (calculateConsistencyMetrics scores2) / INR (length scores2) in
  0 < sqrt (s1Sq + s2Sq) /\
  0 < (s1Sq + s2Sq) ^ 2 /
      (s1Sq ^ 2 / (INR (length scores1) - 1)
       + s2Sq ^ 2 / (INR (length scores2) - 1)).
Proof.
  intros H1 H2 Hvar. cbv zeta.
  pose proof (cm_variance_nonneg scores1) as Hv1.
  pose proof (cm_variance_nonneg scores2) as Hv2.
  assert (Hn1 : 2 <= INR (length scores1)) by (apply (le_INR 2); lia).
  assert (Hn2 : 2 <= INR (length scores2)) by (apply (le_INR 2); lia).
  set (v1 := cm_variance (calculateConsistencyMetrics scores1)) in *.
  set (v2 := cm_variance (calculateConsistencyMetrics scores2)) in *.
  set (n1 := INR (length scores1)) in *.
  set (n2 := INR (length scores2)) in *.
  assert (Hi1 : 0 < / n1) by (apply Rinv_0_lt_compat; lra).
  assert (Hi2 : 0 < / n2) by (apply Rinv_0_lt_compat; lra).
  assert (Hs1 : 0 <= v1 / n1) by (apply Rmult_le_pos; lra).
  assert (Hs2 : 0 <= v2 / n2) by (apply Rmult_le_pos; lra).
  assert (Hsum : 0 < v1 / n1 + v2 / n2).
  { destruct (Req_dec v1 0) as [E1|E1].
    - assert (0 < v2 / n2) by (apply Rmult_lt_0_compat; lra). lra.
    - assert (0 < v1 / n1) by (apply Rmult_lt_0_compat; lra). lra. }
  split; [now apply sqrt_lt_R0|].
  apply Rdiv_lt_0_compat.
  - simpl. nra.
  - assert (Hj1 : 0 < / (n1 - 1)) by (apply Rinv_0_lt_compat; lra).
    assert (Hj2 : 0 < / (n2 - 1)) by (apply Rinv_0_lt_compat; lra).
    assert (Hq1 : 0 <= (v1 / n1) ^ 2 / (n1 - 1)).
    { apply Rmult_le_pos; [apply pow2_ge_0|lra]. }
    assert (Hq2 : 0 <= (v2 / n2) ^ 2 / (n2 - 1)).
    { apply Rmult_le_pos; [apply pow2_ge_0|lra]. }
    destruct (Req_dec (v1 / n1) 0) as [E1|E1].
    + assert (0 < (v2 / n2) ^ 2 / (n2 - 1)).
      { apply Rmult_lt_0_compat; [|lra]. simpl. nra. }
      lra.
    + assert (0 < (v1 / n1) ^ 2 / (n1 - 1)).
      { apply Rmult_lt_0_compat; [|lra]. simpl. nra. }
      lra.
Qed.


Lemma variance_80_85_90 :
  cm_variance (calculateConsistencyMetrics [80; 85; 90]) = 25.
Proof.
  cbn [calculateConsistencyMetrics cm_variance].
  assert (Hmean : reduce_sum [80; 85; 90] / INR (length [80; 85; 90]) = 85).
  { unfold reduce_sum. simpl. lra. }
  rewrite Hmean. unfold reduce_sqdev. simpl. lra.
Qed.

Lemma welch_sample_varies :
  0 < cm_variance (calculateConsistencyMetrics [80; 85; 90])
      + cm_variance (calculateConsistencyMetrics [70; 90]).
Proof.
  rewrite variance_80_85_90.
  pose proof (cm_variance_nonneg [70; 90]). lra.
Qed.


(** X11.  Exchanging the two samples negates the statistic and changes neither
    the p-value nor the verdict. *)
Theorem welchTTest_swap (scores1 scores2 : list R) :
  (2 <= length scores1)%nat -> (2 <= length scores2)%nat ->
  0 < cm_variance (calculateConsistencyMetrics scores1)
      + cm_variance (calculateConsistencyMetrics scores2) ->
  tStatistic (welchTTest scores2 scores1)
  = - tStatistic (welchTTest scores1 scores2) /\
  pValue (welchTTest scores2 scores1) = pValue (welchTTest scores1 scores2) /\
  significant (welchTTest scores2 scores1)
  = significant (welchTTest scores1 scores2).
Proof.
  intros H1 H2 Hvar.
  rewrite (welchTTest_unfold scores1 scores2) by lia.
  rewrite (welchTTest_unfold scores2 scores1) by lia.
  cbv zeta. cbn [tStatistic pValue significant].
  set (v1 := cm_variance (calculateConsistencyMetrics scores1) / INR (length scores1)).
  set (v2 := cm_variance (calculateConsistencyMetrics scores2) / INR (length scores2)).
  set (mean1 := cm_mean (calculateConsistencyMetrics scores1)).
  set (mean2 := cm_mean (calculateConsistencyMetrics scores2)).
  rewrite (Rplus_comm v2 v1).
  rewrite (Rplus_comm (v2 ^ 2 / _) (v1 ^ 2 / _)).
  assert (Ht : (mean2 - mean1) / sqrt (v1 + v2)
               = - ((mean1 - mean2) / sqrt (v1 + v2))).
  { unfold Rdiv. ring. }
  rewrite Ht, Rabs_Ropp. repeat split; reflexivity.
Qed.

Lemma welchTTest_swap_witness :
  (2 <= length [80; 85; 90])%nat /\ (2 <= length [70; 90])%nat /\
  0 < cm_variance (calculateConsistencyMetrics [80; 85; 90])
      + cm_variance (calculateConsistencyMetrics [70; 90]) /\
  tStatistic (welchTTest [70; 90] [80; 85; 90])
  = - tStatistic (welchTTest [80; 85; 90] [70; 90]) /\
  pValue (welchTTest [70; 90] [80; 85; 90])
  = pValue (welchTTest [80; 85; 90] [70; 90]) /\
  significant (welchTTest [70; 90] [80; 85; 90])
  = significant (welchTTest [80; 85; 90] [70; 90]).
Proof.
  split; [simpl; lia|]. split; [simpl; lia|].
  split; [exact welch_sample_varies|].
  apply (welchTTest_swap [80; 85; 90] [70; 90]);
    [simpl; lia | simpl; lia | exact welch_sample_varies].
Defined.

End StatisticsFacts.

(** * Generation client *)

Module OpenRouterFacts.
Import OpenRouter.

Local Open Scope Z_scope.

Lemma fetches_app (tr1 tr2 : Trace) :
  fetches (tr1 ++ tr2) = (fetches tr1 + fetches tr2)%nat.
Proof.
  induction tr1 as [|[p|ms] tr1 IH]; simpl; [reflexivity|now rewrite IH..].
Qed.

Lemma fetches_snoc_Fetch (tr : Trace) (p : Payload) :
  fetches (tr ++ [Fetch p]) = S (fetches tr).
Proof. rewrite fetches_app. simpl. lia. Qed.

Lemma fetches_snoc_Sleep (tr : Trace) (ms : Z) :
  fetches (tr ++ [Sleep ms]) = fetches tr.
Proof. rewrite fetches_app. simpl. lia. Qed.

Lemma read_response_text (o : FetchOutcome) (text : string) :
  read_response o = inr text ->
  exists data raw rest,
    o = Json data /\ choices data = Some (Some raw :: rest) /\
    text = JsString.trim raw.
Proof.
  destruct o as [r|st txt|r|data]; simpl; try discriminate.
  destruct (choices data) as [[|[raw|] rest]|] eqn:Hch; try discriminate.
  intros [= <-]. now exists data, raw, rest.
Qed.


(** ** The text returned *)

Lemma trimEnd_idempotent (s : string) :
  JsString.trimEnd (JsString.trimEnd s) = JsString.trimEnd s.
Proof.
  induction s as [|c s IH]; [reflexivity|].
  cbn [JsString.trimEnd].
  destruct (JsString.trimEnd s) as [|c' t] eqn:Hs.
  - destruct (JsString.is_whitespace c) eqn:Hc; [reflexivity|].
    cbn [JsString.trimEnd]. now rewrite Hc.
  - change (JsString.trimEnd (String c (String c' t)))
      with (match JsString.trimEnd (String c' t) with
            | EmptyString =>
                if JsString.is_whitespace c then EmptyString
                else String c EmptyString
            | String a b => String c (String a b)
            end).
    now rewrite IH.
Qed.

Lemma trimStart_head (s : string) :
  match JsString.trimStart s with
  | EmptyString => True
  | String c _ => JsString.is_whitespace c = false
  end.
Proof.
  induction s as [|c s IH]; [exact I|]. cbn [JsString.trimStart].
  destruct (JsString.is_whitespace c) eqn:Hc; [exact IH|exact Hc].
Qed.

Lemma trimStart_trimEnd (s : string) :
  match s with
  | EmptyString => True
  | String c _ => JsString.is_whitespace c = false
  end ->
  JsString.trimStart (JsString.trimEnd s) = JsString.trimEnd s.
Proof.
  destruct s as [|c s]; [reflexivity|]. intros Hc. cbn [JsString.trimEnd].
  destruct (JsString.trimEnd s); rewrite ?Hc; cbn [JsString.trimStart];
    now rewrite Hc.
Qed.

Lemma trim_idempotent (s : string) :
  JsString.trim (JsString.trim s) = JsString.trim s.
Proof.
  unfold JsString.trim.
  rewrite (trimStart_trimEnd _ (trimStart_head s)). apply trimEnd_idempotent.
Qed.

Lemma generate_unfold
    (modelName : string) (network : nat -> Payload -> FetchOutcome)
    (prompt : string) (maxTokens : Z) (temperature : R)
    (systemMessage : option string) (seed : option Z) (tr0 : Trace) :
  let payload :=
    build_payload modelName prompt maxTokens temperature systemMessage seed in
  generate modelName network prompt maxTokens temperature systemMessage
    seed tr0
  = match read_response (network (fetches tr0 + 0)%nat payload) with
    | inr text => (inr text, tr0 ++ [Fetch payload])
    | inl _ =>
        match read_response (network (fetches tr0 + 1)%nat payload) with
        | inr text =>
            (inr text,
             tr0 ++ [Fetch payload; Sleep (retryDelay * 1); Fetch payload])
        | inl _ =>
            match read_response (network (fetches tr0 + 2)%nat payload) with
            | inr text =>
                (inr text,
                 tr0 ++ [Fetch payload; Sleep (retryDelay * 1);
                         Fetch payload; Sleep (retryDelay * 2);
                         Fetch payload])
            | inl error =>
                (inl (FailedAfterAttempts 3 error),
                 tr0 ++ [Fetch payload; Sleep (retryDelay * 1);
                         Fetch payload; Sleep (retryDelay * 2);
                         Fetch payload])
            end
        end
    end.
Proof.
  cbv zeta.
  set (payload := build_payload modelName prompt maxTokens temperature
                    systemMessage seed).
  unfold generate. fold payload.
  cbn [attempts maxRetries Nat.ltb Nat.leb Nat.sub].
  unfold try_catch, bind, fetch, setTimeout, throw.
  rewrite !fetches_snoc_Sleep, !fetches_snoc_Fetch, !fetches_snoc_Sleep,
    !fetches_snoc_Fetch.
  rewrite Nat.add_0_r, Nat.add_1_r.
  replace (fetches tr0 + 2)%nat with (S (S (fetches tr0))) by lia.
  rewrite <- !app_assoc. cbn [app Z.of_nat Pos.of_succ_nat Pos.succ Z.add Pos.add].
  repeat match goal with
         | |- context [match ?x with inl _ => _ | inr _ => _ end] =>
             destruct x
         end; reflexivity.
Qed.

(** X19.  A text that [generate] returns has no white space at either end
    ([trim] leaves it unchanged); a response whose content is only white
    space is returned as the empty string, without a retry. *)
Theorem generate_returns_trimmed
    (modelName : string) (network : nat -> Payload -> FetchOutcome)
    (prompt : string) (maxTokens : Z) (temperature : R)
    (systemMessage : option string) (seed : option Z) (tr0 : Trace) :
  let payload :=
    build_payload modelName prompt maxTokens temperature systemMessage seed in
  let run :=
    generate modelName network prompt maxTokens temperature systemMessage
      seed tr0 in
  (forall text, fst run = inr text -> JsString.trim text = text) /\
  (forall raw rest,
     network (fetches tr0) payload
     = Json (mkResponse (Some (Some raw :: rest))) ->
     JsString.trim raw = EmptyString ->
     run = (inr EmptyString, tr0 ++ [Fetch payload])).
Proof.
  cbv zeta. rewrite generate_unfold. cbv zeta.
  set (payload := build_payload modelName prompt maxTokens temperature
                    systemMessage seed).
  split.
  - intros text.
    assert (Htrim : forall n t, read_response (network n payload) = inr t ->
                      JsString.trim t = t).
    { intros n t Ht. apply read_response_text in Ht.
      destruct Ht as (data & raw & rest & _ & _ & ->). apply trim_idempotent. }
    destruct (read_response (network (fetches tr0 + 0)%nat payload)) eqn:H0;
      [|cbn [fst]; intros [= <-]; now apply (Htrim _ _ H0)].
    destruct (read_response (network (fetches tr0 + 1)%nat payload)) eqn:H1;
      [|cbn [fst]; intros [= <-]; now apply (Htrim _ _ H1)].
    destruct (read_response (network (fetches tr0 + 2)%nat payload)) eqn:H2;
      [cbn [fst]; discriminate|cbn [fst]; intros [= <-]; now apply (Htrim _ _ H2)].
  - intros raw rest Hnet Hblank. rewrite Nat.add_0_r, Hnet.
    cbn [read_response choices]. now rewrite Hblank.
Qed.

End OpenRouterFacts.

(** * Judge *)

Module JudgeFacts.
Import JsString Js Judge.

Local Open Scope string_scope.

Lemma extract_score_no_match (patterns : list regex) (text : string) :
  (forall pattern, In pattern patterns -> match_group1 pattern text = None) ->
  extract_score patterns text = JsNumber 0.
Proof.
  induction patterns as [|p ps IH]; intros Hnone; simpl; [reflexivity|].
  rewrite (Hnone p) by now left.
  apply IH. intros q Hq. apply Hnone. now right.
Qed.

Lemma extract_score_first_match
    (before after : list regex) (pattern : regex) (text captured : string) :
  (forall q, In q before -> match_group1 q text = None) ->
  match_group1 pattern text = Some (Some captured) ->
  extract_score (before ++ pattern :: after)%list text = parseFloat captured.
Proof.
  intros Hbefore Hmatch.
  induction before as [|q qs IH]; simpl.
  - now rewrite Hmatch.
  - rewrite (Hbefore q) by now left.
    apply IH. intros q' Hq'. apply Hbefore. now right.
Qed.

Lemma parse_structured_syntax_error
    (JSON_parse : string -> Exn JsValue) (text : string) (rubric : Rubric)
    (e : Error) :
  JSON_parse (extract_json text) = inl e ->
  parse_structured JSON_parse text rubric = inl e.
Proof. intros H. unfold parse_structured. now rewrite H. Qed.

Ltac eval_parse_decimal v :=
  unfold parseFloat;
  match goal with
  | |- context [parse_decimal ?t] =>
      replace (parse_decimal t) with v by (vm_compute; reflexivity)
  end.

Ltac eval_match_group1 :=
  repeat match goal with
    | |- context [match_group1 ?p ?t] =>
        let v := eval vm_compute in (match_group1 p t) in
        replace (match_group1 p t) with v by (vm_compute; reflexivity);
        cbv iota beta
    end.

Example extract_final_score :
  extract_score scorePatterns "Final score: 85" = JsNumber 85.
Proof.
  cbn [extract_score scorePatterns]. eval_match_group1.
  eval_parse_decimal (Some (1%Z, 85%Z, 0%nat)). f_equal. simpl. lra.
Qed.

Example extract_fraction :
  extract_score scorePatterns "I give this 42/100 overall" = JsNumber 42.
Proof.
  cbn [extract_score scorePatterns]. eval_match_group1.
  eval_parse_decimal (Some (1%Z, 42%Z, 0%nat)). f_equal. simpl. lra.
Qed.

Example extract_points :
  extract_score scorePatterns "The response receives 7.5 points"
  = JsNumber 7.5.
Proof.
  cbn [extract_score scorePatterns]. eval_match_group1.
  eval_parse_decimal (Some (1%Z, 75%Z, 1%nat)). f_equal. simpl. lra.
Qed.

Example extract_nothing :
  extract_score scorePatterns "A thoughtful answer, well argued."
  = JsNumber 0.
Proof. cbn [extract_score scorePatterns]. eval_match_group1. reflexivity. Qed.

(** [parseJudgment] returns on every text and rubric.  When the
    structured path fails (as it does when [JSON.parse] throws), the result
    is the fallback: its score is the number captured by the first of the
    four patterns that matches and [0] when none matches, its reasoning is
    the first 300 characters of the text behind the parse-failure marker,
    its [max_score] is the rubric's and its [criteria_scores] is empty. *)
Lemma parseJudgment_total_with_fallback
    (JSON_parse : string -> Exn JsValue) (judgmentText : string)
    (rubric : Rubric) :
  exists result : JudgmentResult,
    parseJudgment JSON_parse judgmentText rubric = inr result /\
    (forall e, JSON_parse (extract_json judgmentText) = inl e ->
       parse_structured JSON_parse judgmentText rubric = inl e) /\
    (forall e, parse_structured JSON_parse judgmentText rubric = inl e ->
       jr_max_score result = max_score rubric /\
       jr_criteria_scores result = JsArray [] /\
       jr_reasoning result
       = JsStr ("[JSON parsing failed] " ++ substring judgmentText 0 300) /\
       (forall (before : list regex) pattern after captured,
          scorePatterns = (before ++ pattern :: after)%list ->
          (forall q, In q before -> match_group1 q judgmentText = None) ->
          match_group1 pattern judgmentText = Some (Some captured) ->
          jr_score result = parseFloat captured) /\
       ((forall pattern, In pattern scorePatterns ->
           match_group1 pattern judgmentText = None) ->
        jr_score result = JsNumber 0)) /\
    extract_score scorePatterns "Final score: 85" = JsNumber 85 /\
    extract_score scorePatterns "I give this 42/100 overall" = JsNumber 42 /\
    extract_score scorePatterns "The response receives 7.5 points"
    = JsNumber 7.5.
Proof.
  unfold parseJudgment, try_catch.
  destruct (parse_structured JSON_parse judgmentText rubric)
    as [e0|structured] eqn:Hstructured.
  - eexists. split; [reflexivity|]. split; [|split].
    + intros e He.
      rewrite (parse_structured_syntax_error _ _ _ _ He) in Hstructured.
      congruence.
    + intros e _. cbn [jr_max_score jr_criteria_scores jr_reasoning jr_score].
      repeat split.
      * intros before pattern after captured -> Hbefore Hmatch.
        now apply extract_score_first_match.
      * apply extract_score_no_match.
    + repeat split;
        [apply extract_final_score | apply extract_fraction
        | apply extract_points].
  - exists structured. split; [reflexivity|]. split; [|split].
    + intros e He.
      rewrite (parse_structured_syntax_error _ _ _ _ He) in Hstructured.
      discriminate.
    + intros e He. discriminate.
    + repeat split;
        [apply extract_final_score | apply extract_fraction
        | apply extract_points].
Qed.

(** ** The text handed to [JSON.parse] *)

Lemma append_nil_l (s : string) : "" ++ s = s.
Proof. reflexivity. Qed.

Lemma append_cons (c : ascii) (a s : string) :
  String c a ++ s = String c (a ++ s).
Proof. reflexivity. Qed.

Lemma index_from_app (before s needle : string) (k : nat) :
  String.index (String.length before + k) needle (before ++ s)
  = option_map (fun i => (String.length before + i)%nat) (String.index k needle s).
Proof.
  induction before as [|b before IH].
  - rewrite append_nil_l. cbn [String.length Nat.add].
    now destruct (String.index k needle s).
  - rewrite append_cons. cbn [String.length Nat.add String.index].
    rewrite IH. now destruct (String.index k needle s).
Qed.

Lemma prefix_append (needle rest : string) :
  String.prefix needle (needle ++ rest) = true.
Proof.
  induction needle as [|c needle IH].
  - rewrite append_nil_l. now destruct rest.
  - rewrite append_cons. cbn [String.prefix].
    destruct (ascii_dec c c); [exact IH|congruence].
Qed.

Lemma index_at_head (needle s : string) :
  String.prefix needle s = true -> String.index 0 needle s = Some 0%nat.
Proof.
  intros Hprefix. destruct s as [|b s]; cbn.
  - destruct needle; [reflexivity|discriminate].
  - cbn in Hprefix. now rewrite Hprefix.
Qed.

Lemma includes_char_false (c : ascii) (s : string) :
  includes s (String c "") = false ->
  forall before b after, s = before ++ String b after -> b <> c.
Proof.
  unfold includes, indexOf. intros Hinc.
  assert (Hnone : String.index 0 (String c "") s = None).
  { destruct (String.index 0 (String c "") s) as [i|]; [|reflexivity].
    destruct (Z.eqb_spec (Z.of_nat i) (-1)); [lia|discriminate]. }
  clear Hinc. induction s as [|a s IH]; intros before b after Heq.
  - destruct before; discriminate.
  - cbn in Hnone. destruct (ascii_dec c a) as [->|Hca].
    + destruct s; discriminate.
    + destruct (String.index 0 (String c "") s) eqn:Hrest; [discriminate|].
      destruct before as [|a' before].
      * rewrite append_nil_l in Heq. injection Heq as -> _. congruence.
      * rewrite append_cons in Heq. injection Heq as _ ->.
        now apply (IH eq_refl before b after).
Qed.

Lemma index_skip (before s needle : string) (c : ascii) :
  includes before (String c "") = false ->
  String.index 0 (String c needle) (before ++ s)
  = option_map (fun i => (String.length before + i)%nat)
      (String.index 0 (String c needle) s).
Proof.
  intros Hinc. pose proof (includes_char_false c before Hinc) as Hchars.
  clear Hinc. induction before as [|b before IH].
  - rewrite append_nil_l. cbn [String.length Nat.add].
    now destruct (String.index 0 (String c needle) s).
  - rewrite append_cons. cbn [String.length String.index String.prefix].
    destruct (ascii_dec c b) as [->|Hcb].
    + exfalso. now apply (Hchars "" b before).
    + rewrite IH.
      * now destruct (String.index 0 (String c needle) s).
      * intros before' b' after ->. apply (Hchars (String b before') b' after).
        reflexivity.
Qed.

Lemma substring_skip (a b : string) (n : nat) :
  String.substring (String.length a) n (a ++ b) = String.substring 0 n b.
Proof.
  induction a as [|c a IH]; [reflexivity|].
  rewrite append_cons. cbn [String.length String.substring]. exact IH.
Qed.

Lemma substring_take (b c : string) :
  String.substring 0 (String.length b) (b ++ c) = b.
Proof.
  induction b as [|x b IH].
  - rewrite append_nil_l. now destruct c.
  - rewrite append_cons. cbn [String.length String.substring]. now rewrite IH.
Qed.

Lemma append_length (a b : string) :
  String.length (a ++ b) = (String.length a + String.length b)%nat.
Proof.
  induction a as [|c a IH]; [reflexivity|].
  rewrite append_cons. cbn [String.length]. now rewrite IH.
Qed.

Lemma append_assoc_string (a b c : string) : (a ++ b) ++ c = a ++ (b ++ c).
Proof.
  induction a as [|x a IH]; [reflexivity|].
  rewrite !append_cons. now rewrite IH.
Qed.

(** X16.  A [```json] block is extracted: for a text
    [before ++ "```json" ++ body ++ "```" ++ after] in which [before] and
    [body] hold no backquote, [JSON.parse] receives [body], trimmed. *)
Theorem extract_json_fenced (before body after : string) :
  includes before "`" = false -> includes body "`" = false ->
  extract_json (before ++ "```json" ++ body ++ "```" ++ after) = trim body.
Proof.
  intros Hbefore Hbody. unfold extract_json.
  set (text := before ++ "```json" ++ body ++ "```" ++ after).
  assert (Hstart : indexOf text "```json" 0 = Z.of_nat (String.length before)).
  { unfold indexOf, text. rewrite (index_skip before _ "``json" "`" Hbefore).
    rewrite index_at_head by apply prefix_append. cbn [option_map].
    now rewrite Nat.add_0_r. }
  unfold includes. rewrite Hstart.
  destruct (Z.eqb_spec (Z.of_nat (String.length before)) (-1)) as [|_]; [lia|].
  cbn [negb].
  assert (Hend : indexOf text "```" (Z.to_nat (Z.of_nat (String.length before) + 7))
                 = Z.of_nat (String.length before + 7 + String.length body)).
  { unfold indexOf, text.
    replace (Z.to_nat (Z.of_nat (String.length before) + 7))
      with (String.length (before ++ "```json") + 0)%nat
      by (rewrite append_length; cbn; lia).
    rewrite <- (append_assoc_string before "```json").
    rewrite index_from_app.
    rewrite (index_skip body _ "``" "`" Hbody).
    rewrite index_at_head by apply prefix_append. cbn [option_map].
    rewrite append_length. cbn [String.length]. f_equal. lia. }
  rewrite Hend. f_equal. unfold substring.
  assert (Hlen : String.length text
                 = (String.length before + 7 + String.length body + 3
                    + String.length after)%nat).
  { unfold text. rewrite !append_length. cbn [String.length]. lia. }
  rewrite Hlen.
  replace (Z.to_nat (Z.min (Z.max (Z.of_nat (String.length before) + 7) 0) _))
    with (String.length before + 7)%nat by lia.
  replace (Z.to_nat (Z.min (Z.max (Z.of_nat (String.length before + 7
                                              + String.length body)) 0) _))
    with (String.length before + 7 + String.length body)%nat by lia.
  rewrite Nat.min_l, Nat.max_r by lia.
  replace (String.length before + 7 + String.length body
           - (String.length before + 7))%nat
    with (String.length body) by lia.
  unfold text. rewrite <- (append_assoc_string before "```json").
  replace (String.length before + 7)%nat
    with (String.length (before ++ "```json"))
    by (rewrite append_length; reflexivity).
  rewrite substring_skip. apply substring_take.
Qed.

Lemma extract_json_fenced_witness :
  includes "Here is my verdict: " "`" = false /\
  includes "{ }" "`" = false /\
  extract_json ("Here is my verdict: " ++ "```json" ++ "{ }" ++ "```" ++ " Thanks.")
  = trim "{ }".
Proof.
  split; [reflexivity|]. split; [reflexivity|].
  apply (extract_json_fenced "Here is my verdict: " "{ }" " Thanks.");
    reflexivity.
Defined.

Lemma append_nil_r (s : string) : s ++ "" = s.
Proof.
  induction s as [|c s IH]; [reflexivity|]. rewrite append_cons. now rewrite IH.
Qed.

Lemma index_absent (s needle : string) (c : ascii) :
  includes s (String c "") = false ->
  String.index 0 (String c needle) s = None.
Proof.
  intros Hinc. rewrite <- (append_nil_r s), (index_skip s "" needle c Hinc).
  reflexivity.
Qed.

(** X17.  A [```json] block that is not closed: for a text
    [before ++ "```json" ++ rest] without any other backquote, the closing
    fence is not found ([indexOf] returns [-1]), [substring] swaps its
    arguments, and [JSON.parse] receives the text up to and including the
    opening fence instead of what follows it. *)
Theorem extract_json_unterminated (before rest : string) :
  includes before "`" = false -> includes rest "`" = false ->
  extract_json (before ++ "```json" ++ rest) = trim (before ++ "```json").
Proof.
  intros Hbefore Hrest. unfold extract_json.
  set (text := before ++ "```json" ++ rest).
  assert (Hstart : indexOf text "```json" 0 = Z.of_nat (String.length before)).
  { unfold indexOf, text. rewrite (index_skip before _ "``json" "`" Hbefore).
    rewrite index_at_head by apply prefix_append. cbn [option_map].
    now rewrite Nat.add_0_r. }
  unfold includes. rewrite Hstart.
  destruct (Z.eqb_spec (Z.of_nat (String.length before)) (-1)) as [|_]; [lia|].
  cbn [negb].
  assert (Hend : indexOf text "```" (Z.to_nat (Z.of_nat (String.length before) + 7))
                 = (-1)%Z).
  { unfold indexOf, text.
    replace (Z.to_nat (Z.of_nat (String.length before) + 7))
      with (String.length (before ++ "```json") + 0)%nat
      by (rewrite append_length; cbn; lia).
    rewrite <- (append_assoc_string before "```json").
    rewrite index_from_app, (index_absent rest "``" "`" Hrest). reflexivity. }
  rewrite Hend. f_equal. unfold substring.
  assert (Hlen : String.length text
                 = (String.length before + 7 + String.length rest)%nat).
  { unfold text. rewrite !append_length. cbn [String.length]. lia. }
  rewrite Hlen.
  replace (Z.to_nat (Z.min (Z.max (Z.of_nat (String.length before) + 7) 0) _))
    with (String.length before + 7)%nat by lia.
  replace (Z.to_nat (Z.min (Z.max (-1) 0) _)) with 0%nat by lia.
  rewrite Nat.min_r, Nat.max_l, Nat.sub_0_r by lia.
  unfold text. rewrite <- (append_assoc_string before "```json").
  replace (String.length before + 7)%nat
    with (String.length (before ++ "```json"))
    by (rewrite append_length; reflexivity).
  apply substring_take.
Qed.

Lemma extract_json_unterminated_witness :
  includes "Verdict: " "`" = false /\
  includes "{ }" "`" = false /\
  extract_json ("Verdict: " ++ "```json" ++ "{ }") = trim ("Verdict: " ++ "```json").
Proof.
  split; [reflexivity|]. split; [reflexivity|].
  apply (extract_json_unterminated "Verdict: " "{ }"); reflexivity.
Defined.

(** ** The structured path *)

(** X18.  When [JSON.parse] returns a value, the patterns of the fallback are
    consulted only if the value is [null] (reading a property of it
    throws).  Every other value yields a judgment with the rubric's
    [max_score] whose score, reasoning and criteria are the value's
    properties, each [undefined] when the value is not an object or has no
    such field; the score is not checked to be a number. *)
Theorem parseJudgment_of_parsed_value
    (JSON_parse : string -> Exn JsValue) (judgmentText : string)
    (rubric : Rubric) (value : JsValue) :
  JSON_parse (extract_json judgmentText) = inr value ->
  let property (name : string) :=
    match value with
    | JsObject fields => default JsUndefined (assoc name fields)
    | _ => JsUndefined
    end in
  match value with
  | JsNull | JsUndefined =>
      parseJudgment JSON_parse judgmentText rubric
      = parse_fallback judgmentText rubric
  | _ =>
      parseJudgment JSON_parse judgmentText rubric
      = inr (mkJudgment (property "final_score") (max_score rubric)
               (property "overall_reasoning")
               (property "criteria_evaluations"))
  end.
Proof.
  intros Hparse. cbv zeta. unfold parseJudgment, parse_structured.
  rewrite Hparse. unfold bind, try_catch, get_property, ret.
  destruct value as [| |b| |x|s|items|fields]; try reflexivity.
  destruct (assoc "final_score" fields), (assoc "overall_reasoning" fields),
    (assoc "criteria_evaluations" fields); reflexivity.
Qed.

Lemma parseJudgment_of_parsed_value_witness :
  (fun _ : string => @inr Js.Error JsValue (JsObject [])) (extract_json "{}")
  = inr (JsObject []) /\
  parseJudgment (fun _ => inr (JsObject [])) "{}" (mkRubric 100 [])
  = inr (mkJudgment JsUndefined 100 JsUndefined JsUndefined).
Proof.
  split; [reflexivity|].
  apply (parseJudgment_of_parsed_value (fun _ => inr (JsObject [])) "{}"
           (mkRubric 100 []) (JsObject []) eq_refl).
Defined.

End JudgeFacts.

(** * Rate limiter *)

Module RateLimiterFacts.
Import RateLimiter.

Local Open Scope Z_scope.

(** ** Sequential callers *)

(** A whole number of milliseconds is waited for exactly. *)
Lemma timer_delay_integer (wait : Z) : 0 < wait -> timer_delay (inject_Z wait) = wait.
Proof. intros H. unfold timer_delay. rewrite Qfloor_Z. lia. Qed.

Lemma timer_delay_positive (wait : Q) : 1 <= timer_delay wait.
Proof. unfold timer_delay. lia. Qed.

(** Lines 26-39 leave in [requestHistory] a new array holding the requests
    of the last window. *)
Lemma prune_spec (provider : string) (st : State) :
  exists ref st',
    prune provider st = (ref, st') /\
    now st' = now st /\ timers st' = timers st /\
    invocations st' = invocations st /\
    requestHistory st' !! provider = Some ref /\
    heap st' !! ref
    = Some (List.filter (fun timestamp => now st - windowMs <? timestamp)
              (history_of provider st)).
Proof.
  unfold prune, history_of.
  destruct (requestHistory st !! provider) as [ref0|] eqn:Hlookup.
  - rewrite Hlookup. unfold alloc. cbn [now heap requestHistory timers invocations].
    eexists _, _. split; [reflexivity|].
    cbn [now heap requestHistory timers invocations].
    repeat split.
    + apply lookup_insert_eq.
    + rewrite lookup_app_r by lia. now rewrite Nat.sub_diag.
  - unfold alloc. cbn [now heap requestHistory timers invocations].
    rewrite lookup_insert_eq. unfold deref.
    cbn [now heap requestHistory timers invocations].
    rewrite lookup_app_r by lia. rewrite Nat.sub_diag. cbn [lookup list_lookup default].
    eexists _, _. split; [reflexivity|].
    cbn [now heap requestHistory timers invocations].
    repeat split.
    + apply lookup_insert_eq.
    + rewrite lookup_app_r by lia. now rewrite Nat.sub_diag.
Qed.

Lemma record_and_invoke_spec provider who ref (st : State) recent :
  heap st !! ref = Some recent ->
  let st' := record_and_invoke provider who ref st in
  now st' = now st /\ timers st' = timers st /\
  requestHistory st' = requestHistory st /\
  invocations st' = invocations st ++ [mkInvocation who provider (now st)] /\
  heap st' !! ref = Some (recent ++ [now st]).
Proof.
  intros Hheap. unfold record_and_invoke. cbn.
  repeat split. rewrite list_lookup_alter_eq, Hheap. reflexivity.
Qed.

(** With no other timer pending, a suspended call resumes when its own
    timer fires. *)
Lemma suspend_then_fire waitTime provider who ref (st : State) recent :
  timers st = [] ->
  heap st !! ref = Some recent ->
  let st1 := suspend waitTime provider who ref st in
  let st' := run_timers (length (timers st1)) None st1 in
  let started := now st + timer_delay waitTime in
  now st' = started /\ timers st' = [] /\
  requestHistory st' = requestHistory st /\
  invocations st' = invocations st ++ [mkInvocation who provider started] /\
  heap st' !! ref = Some (recent ++ [started]).
Proof.
  intros Htimers Hheap. cbv zeta. unfold suspend. rewrite Htimers.
  cbn [timers app length run_timers next_timer].
  unfold fire. cbn [wake_at caller provider_of recentRequests_ref now heap requestHistory timers invocations].
  pose proof (timer_delay_positive waitTime).
  replace (Z.max (now st) (now st + timer_delay waitTime))
    with (now st + timer_delay waitTime) by lia.
  unfold record_and_invoke. cbn.
  repeat split. rewrite list_lookup_alter_eq, Hheap. reflexivity.
Qed.

(** Lines 41-71 for a caller that is alone: the request is recorded at the
    time [fn] starts, which is a window after the oldest recent request
    whenever the window was full. *)
Lemma wait_then_invoke_spec provider limitRPM who ref (st : State) recent :
  0 < limitRPM ->
  timers st = [] ->
  heap st !! ref = Some recent ->
  let st1 := wait_then_invoke provider limitRPM who ref st in
  let st' := run_timers (length (timers st1)) None st1 in
  now st <= now st' /\
  (limitRPM <= Z.of_nat (length recent) ->
   List.hd 0 recent + windowMs <= now st') /\
  timers st' = [] /\
  requestHistory st' = requestHistory st /\
  invocations st'
  = invocations st ++ [mkInvocation who provider (now st')] /\
  heap st' !! ref = Some (recent ++ [now st']).
Proof.
  intros Hlimit Htimers Hheap. cbv zeta. unfold wait_then_invoke.
  assert (Hderef : deref st ref = recent) by (unfold deref; now rewrite Hheap).
  rewrite Hderef.
  destruct (Z.geb_spec (Z.of_nat (length recent)) limitRPM) as [Hfull|Hroom].
  - destruct (Z.ltb_spec 0 (List.hd 0 recent + windowMs - now st)) as [Hwait|Hnow].
    + destruct (suspend_then_fire
                  (inject_Z (List.hd 0 recent + windowMs - now st))
                  provider who ref st recent Htimers Hheap)
        as (Hn & Ht & Hm & Hi & Hh).
      rewrite timer_delay_integer in Hn, Hi, Hh by assumption.
      rewrite Hn. repeat split; try assumption; try lia.
      all: try (rewrite Hi; do 3 f_equal; lia).
      all: try (rewrite Hh; do 3 f_equal; lia).
    + destruct (record_and_invoke_spec provider who ref st recent Hheap)
        as (Hn & Ht & Hm & Hi & Hh).
      rewrite Ht, Htimers. cbn [length run_timers].
      rewrite Hn. repeat split; try assumption; try lia.
      all: try (now rewrite Ht).
  - destruct (0 <? length recent)%nat.
    + destruct (negb _).
      * match goal with |- context [suspend ?wt _ _ _ _] =>
          destruct (suspend_then_fire wt provider who ref st recent Htimers Hheap)
            as (Hn & Ht & Hm & Hi & Hh);
          pose proof (timer_delay_positive wt) end.
        rewrite Hn. repeat split; try assumption; lia.
      * destruct (record_and_invoke_spec provider who ref st recent Hheap)
          as (Hn & Ht & Hm & Hi & Hh).
        rewrite Ht, Htimers. cbn [length run_timers].
        rewrite Hn. repeat split; try assumption; try lia.
        all: try (now rewrite Ht).
    + destruct (record_and_invoke_spec provider who ref st recent Hheap)
        as (Hn & Ht & Hm & Hi & Hh).
      rewrite Ht, Htimers. cbn [length run_timers].
      rewrite Hn. repeat split; try assumption; try lia.
      all: try (now rewrite Ht).
Qed.

Lemma call_and_wait_spec (c : Call) (who : nat) (st : State) :
  0 < call_limitRPM c ->
  timers st = [] ->
  let arrival := Z.max (now st) (call_time c) in
  let recent :=
    List.filter (fun x => arrival - windowMs <? x)
      (history_of (call_provider c) st) in
  let st' := call_and_wait c who st in
  arrival <= now st' /\
  (call_limitRPM c <= Z.of_nat (length recent) ->
   List.hd 0 recent + windowMs <= now st') /\
  timers st' = [] /\
  invocations st'
  = invocations st ++ [mkInvocation who (call_provider c) (now st')] /\
  history_of (call_provider c) st' = recent ++ [now st'].
Proof.
  intros Hlimit Htimers. cbv zeta. unfold call_and_wait, throttle.
  destruct (Z.leb_spec (call_limitRPM c) 0) as [|_]; [lia|].
  set (st0 := mkState _ _ _ _ _).
  destruct (prune_spec (call_provider c) st0)
    as (ref & st1 & Hprune & Hnow & Htim & Hinv & Hmap & Hheap).
  rewrite Hprune.
  assert (Htimers1 : timers st1 = []) by (rewrite Htim; exact Htimers).
  destruct (wait_then_invoke_spec (call_provider c) (call_limitRPM c) who ref
              st1 _ Hlimit Htimers1 Hheap)
    as (Hle & Hfull & Ht & Hm & Hi & Hh).
  rewrite Hnow in Hle. change (now st0) with (Z.max (now st) (call_time c)) in *.
  change (history_of (call_provider c) st0)
    with (history_of (call_provider c) st) in *.
  repeat split; try assumption.
  - rewrite Hi, Hinv. reflexivity.
  - unfold history_of at 1. rewrite Hm, Hmap. unfold deref. rewrite Hh.
    reflexivity.
Qed.

Lemma filter_length_le {A} (f g : A -> bool) (l : list A) :
  (forall x, In x l -> f x = true -> g x = true) ->
  (length (List.filter f l) <= length (List.filter g l))%nat.
Proof.
  induction l as [|a l IH]; intros H; [reflexivity|]. cbn [List.filter].
  assert (IH' := IH (fun x Hx => H x (or_intror Hx))).
  destruct (f a) eqn:Hf.
  - rewrite (H a (or_introl eq_refl) Hf). cbn [length]. lia.
  - destruct (g a); cbn [length]; lia.
Qed.

Lemma filter_filter_in {A} (f g h : A -> bool) (l : list A) :
  (forall x, In x l -> h x = f x && g x) ->
  List.filter f (List.filter g l) = List.filter h l.
Proof.
  induction l as [|a l IH]; intros H; [reflexivity|]. cbn [List.filter].
  rewrite (H a (or_introl eq_refl)).
  assert (IH' := IH (fun x Hx => H x (or_intror Hx))).
  destruct (g a); cbn [List.filter]; destruct (f a); cbn [andb];
    rewrite ?IH'; reflexivity.
Qed.

Lemma sorted_filter_hd (f : Z -> bool) (l : list Z) :
  StronglySorted Z.le l ->
  forall x, In x (List.filter f l) -> List.hd 0 (List.filter f l) <= x.
Proof.
  induction 1 as [|a l Hs IH Ha]; intros x Hx; [destruct Hx|].
  cbn [List.filter] in *. destruct (f a).
  - cbn [List.hd]. destruct Hx as [<-|Hx]; [lia|].
    apply List.filter_In in Hx. destruct Hx as [Hx _].
    rewrite List.Forall_forall in Ha. now apply Ha.
  - now apply IH.
Qed.

Lemma sorted_snoc (l : list Z) (s : Z) :
  StronglySorted Z.le l -> Forall (fun x => x <= s) l ->
  StronglySorted Z.le (l ++ [s]).
Proof.
  induction 1 as [|a l Hs IH Ha]; intros Hb; cbn [app].
  - repeat constructor.
  - inversion Hb; subst. constructor; [now apply IH|].
    apply Forall_app. split; [assumption|]. now constructor.
Qed.

Lemma filter_hd_drops (l : list Z) (h : Z) :
  l <> [] -> h = List.hd 0 l ->
  (S (length (List.filter (fun x => (h <? x)%Z) l)) <= length l)%nat.
Proof.
  destruct l as [|a l]; [congruence|]. intros _ ->. cbn [List.hd List.filter].
  rewrite Z.ltb_irrefl. cbn [length].
  pose proof (List.filter_length_le (fun x => a <? x) l). lia.
Qed.

Lemma settled_initial (provider : string) (limitRPM : Z) :
  0 < limitRPM -> settled provider limitRPM initial.
Proof.
  intros H. unfold settled, initial, times. cbn.
  repeat split; try constructor.
  - exists (- windowMs). split; [lia|]. reflexivity.
  - intros t. cbn. lia.
Qed.

(** An awaited call keeps the state settled. *)
Lemma call_and_wait_settled (c : Call) (who : nat) (st : State) :
  0 < call_limitRPM c ->
  settled (call_provider c) (call_limitRPM c) st ->
  settled (call_provider c) (call_limitRPM c) (call_and_wait c who st).
Proof.
  intros Hlimit (Htimers & Hprov & Hsorted & Hpast & (cutoff & Hcut & Hhist) & Hwin).
  destruct (call_and_wait_spec c who st Hlimit Htimers)
    as (Harr & Hfull & Ht & Hi & Hh).
  set (st' := call_and_wait c who st) in *.
  set (arrival := Z.max (now st) (call_time c)) in *.
  set (L := times (invocations st)) in *.
  set (recent := List.filter _ (history_of (call_provider c) st)) in *.
  assert (Hrecent : recent = List.filter (fun x => arrival - windowMs <? x) L).
  { unfold recent. rewrite Hhist. apply filter_filter_in. intros x _.
    destruct (Z.ltb_spec (arrival - windowMs) x), (Z.ltb_spec cutoff x);
      cbn; try reflexivity; lia. }
  assert (HL' : times (invocations st') = L ++ [now st']).
  { rewrite Hi. unfold times, L. now rewrite map_app. }
  assert (Hpast' : Forall (fun x => x <= now st') L).
  { eapply List.Forall_impl; [|exact Hpast]. cbn. lia. }
  unfold settled. rewrite HL'. repeat split.
  - exact Ht.
  - rewrite Hi. apply Forall_app. split; [assumption|]. now constructor.
  - now apply sorted_snoc.
  - apply Forall_app. split; [assumption|]. constructor; [lia|constructor].
  - exists (arrival - windowMs). split; [lia|].
    rewrite Hh, Hrecent, List.filter_app. f_equal. cbn [List.filter].
    destruct (Z.ltb_spec (arrival - windowMs) (now st')); [reflexivity|].
    unfold windowMs in *. lia.
  - intros t. rewrite List.filter_app, length_app. cbn [List.filter].
    destruct (in_window t (now st')) eqn:Hin; [|cbn [length]; specialize (Hwin t); lia].
    cbn [length]. unfold in_window in Hin.
    apply andb_true_iff in Hin. destruct Hin as [Hlo Hhi].
    apply Z.leb_le in Hlo. apply Z.ltb_lt in Hhi.
    assert (Hcount :
      (length (List.filter (in_window t) L)
       <= length (List.filter (fun x => (now st' - windowMs <? x)%Z) L))%nat).
    { apply filter_length_le. intros x _ Hx. unfold in_window in Hx.
      apply andb_true_iff in Hx. destruct Hx as [Hx _].
      apply Z.leb_le in Hx. apply Z.ltb_lt. lia. }
    destruct (Z.le_gt_cases (call_limitRPM c) (Z.of_nat (length recent)))
      as [Hmany|Hfew].
    + specialize (Hfull Hmany).
      assert (Hne : recent <> []).
      { intros E. rewrite E in Hmany. cbn in Hmany. lia. }
      assert (Hhd : In (List.hd 0 recent) recent).
      { destruct recent; [congruence|now left]. }
      assert (Hbound : Z.of_nat (length recent) <= call_limitRPM c).
      { etransitivity; [|apply (Hwin (List.hd 0 recent))].
        apply inj_le. rewrite Hrecent at 1.
        apply filter_length_le. intros x Hx Hgt. unfold in_window.
        assert (Hxin : In x recent).
        { rewrite Hrecent. apply List.filter_In. now split. }
        pose proof (sorted_filter_hd _ _ Hsorted x
                      ltac:(rewrite <- Hrecent; exact Hxin)) as Hmin.
        rewrite <- Hrecent in Hmin.
        rewrite Hrecent in Hhd. apply List.filter_In in Hhd.
        destruct Hhd as [_ Hhd]. rewrite <- Hrecent in Hhd.
        apply Z.ltb_lt in Hhd.
        rewrite List.Forall_forall in Hpast. specialize (Hpast x Hx).
        apply andb_true_iff. split; [apply Z.leb_le|apply Z.ltb_lt]; lia. }
      assert (Hdrop :
        (length (List.filter (fun x => (now st' - windowMs <? x)%Z) L)
         <= length (List.filter (fun x => (List.hd 0 recent <? x)%Z) recent))%nat).
      { assert (Heq :
          List.filter (fun x => List.hd 0 recent <? x) recent
          = List.filter (fun x => List.hd 0 recent <? x) L).
        { transitivity
            (List.filter (fun x => List.hd 0 recent <? x)
               (List.filter (fun x => arrival - windowMs <? x) L));
            [now f_equal|].
          apply filter_filter_in. intros x _. rewrite Hrecent in Hhd. apply List.filter_In in Hhd.
          destruct Hhd as [_ Hhd]. rewrite <- Hrecent in Hhd.
          apply Z.ltb_lt in Hhd.
          destruct (Z.ltb_spec (List.hd 0 recent) x),
                   (Z.ltb_spec (arrival - windowMs) x);
            cbn; try reflexivity; lia. }
        rewrite Heq. apply filter_length_le. intros x _ Hx.
        apply Z.ltb_lt in Hx. apply Z.ltb_lt. lia. }
      pose proof (filter_hd_drops recent _ Hne eq_refl). lia.
    + assert (Hfewer :
        (length (List.filter (fun x => (now st' - windowMs <? x)%Z) L)
         <= length recent)%nat).
      { rewrite Hrecent. apply filter_length_le. intros x _ Hx.
        apply Z.ltb_lt in Hx. apply Z.ltb_lt. lia. }
      lia.
Qed.

Lemma run_sequential_settled provider limitRPM calls : forall who st,
  0 < limitRPM ->
  Forall (fun c => call_provider c = provider /\ call_limitRPM c = limitRPM)
    calls ->
  settled provider limitRPM st ->
  settled provider limitRPM (run_sequential calls who st).
Proof.
  induction calls as [|c calls IH]; intros who st Hlimit Hcalls Hst;
    [exact Hst|].
  inversion Hcalls as [|? ? [Hp Hl] Hrest]; subst. cbn [run_sequential].
  apply IH; try assumption. now apply call_and_wait_settled.
Qed.

Lemma started_within_times provider t log :
  Forall (fun i => inv_provider i = provider) log ->
  started_within provider t log
  = length (List.filter (in_window t) (times log)).
Proof.
  unfold started_within, times, in_window.
  induction 1 as [|i log Hi _ IH]; [reflexivity|].
  cbn [List.filter map]. rewrite Hi, String.eqb_refl. cbn [andb].
  destruct ((t <=? inv_time i) && (inv_time i <? t + windowMs));
    cbn [length]; now rewrite IH.
Qed.

(** X12.  Callers of one provider that await each call before the next never
    start more than [limitRPM] invocations within any 60-second window:
    the guarantee fails only when calls overlap. *)
Theorem sequential_callers_respect_limit provider limitRPM calls :
  0 < limitRPM ->
  Forall (fun c => call_provider c = provider /\ call_limitRPM c = limitRPM)
    calls ->
  respects_limit provider limitRPM
    (invocations (run_sequential calls 0 initial)).
Proof.
  intros Hlimit Hcalls t.
  destruct (run_sequential_settled provider limitRPM calls 0%nat initial Hlimit
              Hcalls (settled_initial provider limitRPM Hlimit))
    as (_ & Hprov & _ & _ & _ & Hwin).
  rewrite (started_within_times _ _ _ Hprov). apply Hwin.
Qed.
Local Open Scope string_scope.

(** The six Magisterium calls, each awaited before the next, are spaced 12 s
    apart. *)
Example magisterium_sequential :
  map inv_time (invocations (run_sequential magisterium_burst 0 initial))
  = [0; 12000; 24000; 36000; 48000; 60000].
Proof. vm_compute. reflexivity. Qed.

(** C1, on [magisterium_burst].  The first caller is admitted at once; the other
    five all read the history [[0]] before any of them has recorded its own
    request, wait for the same 12 s spacing and start together: six
    invocations fall in one 60-second window although the limit is 5.  The
    callers are nevertheless served in arrival order. *)
Theorem throttle_burst_exceeds_limit :
  let log := run magisterium_burst in
  map (fun i => (inv_caller i, inv_time i)) log
  = [(0%nat, 0); (1%nat, 12000); (2%nat, 12000); (3%nat, 12000);
     (4%nat, 12000); (5%nat, 12000)] /\
  started_within "magisterium" 0 log = 6%nat /\
  ~ respects_limit "magisterium" 5 log /\
  served_fifo log.
Proof.
  cbv zeta.
  assert (Hlog : run magisterium_burst
                 = [mkInvocation 0 "magisterium" 0;
                    mkInvocation 1 "magisterium" 12000;
                    mkInvocation 2 "magisterium" 12000;
                    mkInvocation 3 "magisterium" 12000;
                    mkInvocation 4 "magisterium" 12000;
                    mkInvocation 5 "magisterium" 12000])
    by (vm_compute; reflexivity).
  rewrite Hlog. split; [reflexivity|]. split; [reflexivity|]. split.
  - intros Hlimit. specialize (Hlimit 0).
    vm_compute in Hlimit. now apply Hlimit.
  - unfold served_fifo.
    repeat (constructor; [|repeat constructor; cbn; lia]). constructor.
Qed.

Local Close Scope string_scope.

(** ** First use, cleared history, no limit *)

Lemma wait_then_invoke_empty provider limitRPM who ref (st : State) :
  0 < limitRPM -> heap st !! ref = Some [] ->
  wait_then_invoke provider limitRPM who ref st
  = record_and_invoke provider who ref st.
Proof.
  intros Hlimit Hheap. unfold wait_then_invoke.
  assert (Hderef : deref st ref = []) by (unfold deref; now rewrite Hheap).
  rewrite Hderef. cbn [length].
  destruct (Z.geb_spec (Z.of_nat 0) limitRPM); [lia|]. reflexivity.
Qed.

Lemma call_and_wait_at_once (c : Call) (who : nat) (st : State) :
  timers st = [] ->
  call_limitRPM c <= 0 \/
  List.filter (fun x => Z.max (now st) (call_time c) - windowMs <? x)
    (history_of (call_provider c) st) = [] ->
  let st' := call_and_wait c who st in
  now st' = Z.max (now st) (call_time c) /\
  timers st' = [] /\
  invocations st'
  = (invocations st
     ++ [mkInvocation who (call_provider c) (Z.max (now st) (call_time c))])%list.
Proof.
  intros Htimers Hcase. cbv zeta. unfold call_and_wait, throttle.
  destruct (Z.leb_spec (call_limitRPM c) 0) as [Hle|Hlimit].
  - cbn [timers]. rewrite Htimers. cbn. repeat split.
  - destruct Hcase as [?|Hrecent]; [lia|].
    set (st0 := mkState _ _ _ _ _).
    destruct (prune_spec (call_provider c) st0)
      as (ref & st1 & Hprune & Hnow & Htim & Hinv & Hmap & Hheap).
    rewrite Hprune.
    change (now st0) with (Z.max (now st) (call_time c)) in *.
    change (history_of (call_provider c) st0)
      with (history_of (call_provider c) st) in Hheap.
    rewrite Hrecent in Hheap.
    rewrite (wait_then_invoke_empty _ _ _ _ _ Hlimit Hheap).
    destruct (record_and_invoke_spec (call_provider c) who ref st1 [] Hheap)
      as (Hn & Ht & _ & Hi & _).
    rewrite Ht, Htim. change (timers st0) with (timers st).
    rewrite Htimers. cbn [length run_timers].
    rewrite Hn, Ht, Hi, Hnow, Htim, Hinv.
    change (timers st0) with (timers st). change (invocations st0) with (invocations st).
    repeat split; assumption.
Qed.

Lemma history_of_clearHistory (provider : string) (st : State) :
  history_of provider (clearHistory provider st) = [].
Proof.
  unfold history_of, clearHistory. cbn [requestHistory].
  now rewrite lookup_delete_eq.
Qed.

(** X13.  With no call suspended: a call with [limitRPM <= 0] and a call on a
    history that [clearHistory] or [clearAllHistory] has just dropped start
    at once, whatever was recorded before; [clearHistory] leaves the
    histories of the other providers as they are and [clearAllHistory]
    empties them all. *)
Theorem cleared_history_starts_at_once (c : Call) (who : nat) (st : State) :
  timers st = [] ->
  let arrival := Z.max (now st) (call_time c) in
  let started (st' : State) :=
    invocations st'
    = (invocations st ++ [mkInvocation who (call_provider c) arrival])%list in
  (call_limitRPM c <= 0 -> started (call_and_wait c who st)) /\
  started (call_and_wait c who (clearHistory (call_provider c) st)) /\
  started (call_and_wait c who (clearAllHistory st)) /\
  (forall other, other <> call_provider c ->
     history_of other (clearHistory (call_provider c) st)
     = history_of other st) /\
  (forall other, history_of other (clearAllHistory st) = []).
Proof.
  intros Htimers. cbv zeta. split; [|split; [|split; [|split]]].
  - intros Hle. now apply call_and_wait_at_once; [|left].
  - apply (call_and_wait_at_once c who (clearHistory (call_provider c) st));
      [exact Htimers|].
    right. now rewrite history_of_clearHistory.
  - apply (call_and_wait_at_once c who (clearAllHistory st)); [exact Htimers|].
    right. unfold history_of, clearAllHistory. cbn [requestHistory].
    now rewrite lookup_empty.
  - intros other Hother. unfold history_of, clearHistory, deref.
    cbn [requestHistory heap]. now rewrite lookup_delete_ne.
  - intros other. unfold history_of, clearAllHistory. cbn [requestHistory].
    now rewrite lookup_empty.
Qed.

Lemma cleared_history_starts_at_once_witness :
  timers initial = [] /\
  invocations
    (call_and_wait (mkCall 7 "magisterium"%string 5) 0
       (clearHistory "magisterium"%string initial))
  = [mkInvocation 0 "magisterium"%string 7].
Proof.
  split; [reflexivity|].
  apply (cleared_history_starts_at_once (mkCall 7 "magisterium"%string 5) 0
           initial eq_refl).
Defined.

(** ** Providers do not share a history *)

Lemma alloc_lookup_old (a : list Z) (st : State) (ref : nat) :
  (ref < length (heap st))%nat ->
  heap (snd (alloc a st)) !! ref = heap st !! ref.
Proof. intros Href. unfold alloc. cbn [snd heap]. now rewrite lookup_app_l. Qed.

Lemma prune_other (provider other : string) (st : State) :
  well_formed st -> other <> provider ->
  let out := prune provider st in
  well_formed (snd out) /\
  (fst out < length (heap (snd out)))%nat /\
  requestHistory (snd out) !! provider = Some (fst out) /\
  (forall ref, requestHistory (snd out) !! other = Some ref -> ref <> fst out) /\
  history_of other (snd out) = history_of other st.
Proof.
  intros Hwf Hother. cbv zeta. unfold prune.
  destruct (requestHistory st !! provider) as [ref0|] eqn:Hlookup.
  - rewrite Hlookup. unfold alloc.
    cbn [fst snd now heap requestHistory timers invocations].
    split; [|split; [|split; [|split]]].
    + intros q r. cbn [requestHistory heap]. rewrite length_app. cbn [length].
      destruct (decide (q = provider)) as [->|Hq].
      * rewrite lookup_insert_eq. intros [= <-]. lia.
      * rewrite lookup_insert_ne by congruence. intros Hr.
        pose proof (Hwf q r Hr). lia.
    + rewrite length_app. cbn [length]. lia.
    + apply lookup_insert_eq.
    + intros ref. rewrite lookup_insert_ne by congruence. intros Href.
      pose proof (Hwf other ref Href). lia.
    + unfold history_of, deref. cbn [requestHistory heap].
      rewrite lookup_insert_ne by congruence.
      destruct (requestHistory st !! other) as [r|] eqn:Hr; [|reflexivity].
      rewrite lookup_app_l by (apply (Hwf other r Hr)). reflexivity.
  - unfold alloc. cbn [fst snd now heap requestHistory timers invocations].
    rewrite lookup_insert_eq.
    cbn [fst snd now heap requestHistory timers invocations].
    split; [|split; [|split; [|split]]].
    + intros q r. cbn [requestHistory heap]. rewrite !length_app. cbn [length].
      destruct (decide (q = provider)) as [->|Hq].
      * rewrite lookup_insert_eq. intros [= <-]. lia.
      * rewrite !lookup_insert_ne by congruence. intros Hr.
        pose proof (Hwf q r Hr). lia.
    + rewrite !length_app. cbn [length]. lia.
    + apply lookup_insert_eq.
    + intros ref. rewrite !lookup_insert_ne by congruence. intros Href.
      pose proof (Hwf other ref Href).
      rewrite length_app. cbn [length]. lia.
    + unfold history_of, deref. cbn [requestHistory heap].
      rewrite !lookup_insert_ne by congruence.
      destruct (requestHistory st !! other) as [r|] eqn:Hr; [|reflexivity].
      pose proof (Hwf other r Hr).
      rewrite !lookup_app_l by (rewrite ?length_app; lia). reflexivity.
Qed.

Lemma alter_keeps (st st' : State) (f : list Z -> list Z) (ref : nat)
    (other : string) :
  requestHistory st' = requestHistory st ->
  heap st' = alter f ref (heap st) ->
  (forall r, requestHistory st !! other = Some r -> r <> ref) ->
  well_formed st ->
  well_formed st' /\ history_of other st' = history_of other st.
Proof.
  intros Hmap Hheap Hne Hwf. split.
  - intros q r. rewrite Hmap, Hheap, length_alter. apply Hwf.
  - unfold history_of, deref. rewrite Hmap, Hheap.
    destruct (requestHistory st !! other) as [r|] eqn:Hr; [|reflexivity].
    rewrite list_lookup_alter_ne by (intros E; now apply (Hne r)). reflexivity.
Qed.

Lemma wait_then_invoke_other provider limitRPM who ref (st : State)
    (other : string) :
  timers st = [] ->
  (forall r, requestHistory st !! other = Some r -> r <> ref) ->
  well_formed st ->
  let st1 := wait_then_invoke provider limitRPM who ref st in
  let st' := run_timers (length (timers st1)) None st1 in
  well_formed st' /\ history_of other st' = history_of other st.
Proof.
  intros Htimers Hne Hwf. cbv zeta.
  assert (Hnow : forall st0 : State,
            requestHistory st0 = requestHistory st -> heap st0 = heap st ->
            timers st0 = [] ->
            let st1 := record_and_invoke provider who ref st0 in
            well_formed (run_timers (length (timers st1)) None st1) /\
            history_of other (run_timers (length (timers st1)) None st1)
            = history_of other st).
  { intros st0 Hm Hh Ht. cbv zeta.
    replace (timers (record_and_invoke provider who ref st0)) with (@nil Timer)
      by (unfold record_and_invoke; cbn [timers]; now rewrite Ht).
    cbn [length run_timers].
    apply (alter_keeps st _ (fun a => (a ++ [now st0])%list) ref other);
      try assumption.
    unfold record_and_invoke. cbn [heap]. now rewrite Hh. }
  assert (Hlater : forall waitTime,
            let st1 := suspend waitTime provider who ref st in
            well_formed (run_timers (length (timers st1)) None st1) /\
            history_of other (run_timers (length (timers st1)) None st1)
            = history_of other st).
  { intros waitTime. cbv zeta. unfold suspend. rewrite Htimers.
    cbn [timers app length run_timers next_timer]. unfold fire.
    cbn [wake_at caller provider_of recentRequests_ref].
    match goal with |- context [record_and_invoke _ _ _ ?st0] =>
      apply (Hnow st0); reflexivity end. }
  unfold wait_then_invoke.
  destruct (_ >=? _).
  - destruct (0 <? _); [apply Hlater | now apply (Hnow st)].
  - destruct (0 <? _)%nat; [|now apply (Hnow st)].
    destruct (negb _); [apply Hlater | now apply (Hnow st)].
Qed.

(** X14.  In a limiter with no call suspended, an awaited call for one provider
    leaves the recorded history of every other provider unchanged. *)
Theorem call_keeps_other_histories (c : Call) (who : nat) (st : State)
    (other : string) :
  well_formed st -> timers st = [] -> other <> call_provider c ->
  well_formed (call_and_wait c who st) /\
  history_of other (call_and_wait c who st) = history_of other st.
Proof.
  intros Hwf Htimers Hother. unfold call_and_wait, throttle.
  set (st0 := mkState (Z.max (now st) (call_time c)) (heap st)
                (requestHistory st) (timers st) (invocations st)).
  assert (Hwf0 : well_formed st0) by exact Hwf.
  destruct (call_limitRPM c <=? 0).
  - cbn [timers]. unfold st0. cbn [timers]. rewrite Htimers.
    cbn [length run_timers]. split; [exact Hwf|reflexivity].
  - destruct (prune_other (call_provider c) other st0 Hwf0 Hother)
      as (Hwf1 & _ & _ & Hne & Hhist).
    destruct (prune_spec (call_provider c) st0)
      as (ref & st1 & Hprune & _ & Htim & _).
    rewrite Hprune in *. cbn [fst snd] in *.
    destruct (wait_then_invoke_other (call_provider c) (call_limitRPM c) who
                ref st1 other) as [Hwf' Hhist']; try assumption.
    { rewrite Htim. exact Htimers. }
    split; [exact Hwf'|]. rewrite Hhist'. exact Hhist.
Qed.

Lemma well_formed_initial : well_formed initial.
Proof. intros provider ref. unfold initial. cbn. now rewrite lookup_empty. Qed.

Lemma call_keeps_other_histories_witness :
  well_formed initial /\ timers initial = [] /\
  "openrouter"%string <> "magisterium"%string /\
  well_formed (call_and_wait (mkCall 0 "magisterium"%string 5) 0 initial) /\
  history_of "openrouter"%string
    (call_and_wait (mkCall 0 "magisterium"%string 5) 0 initial)
  = history_of "openrouter"%string initial.
Proof.
  split; [exact well_formed_initial|]. split; [reflexivity|].
  split; [discriminate|].
  apply (call_keeps_other_histories (mkCall 0 "magisterium"%string 5) 0
           initial "openrouter"%string);
    [exact well_formed_initial | reflexivity | discriminate].
Defined.

(** ** Callers that arrive together *)

Lemma next_timer_In (ts : list Timer) (t : Timer) (rest : list Timer) :
  next_timer ts = Some (t, rest) -> In t ts.
Proof.
  revert t rest. induction ts as [|t0 ts IH]; intros t rest; simpl; [discriminate|].
  destruct (next_timer ts) as [[t' rest']|].
  - destruct (wake_at t' <? wake_at t0).
    + intros [= <- <-]. right. eapply IH. reflexivity.
    + intros [= <- <-]. now left.
  - intros [= <- <-]. now left.
Qed.

Lemma next_timer_same_expiry (d : Z) (t : Timer) (ts : list Timer) :
  Forall (fun t => wake_at t = d) (t :: ts) ->
  next_timer (t :: ts) = Some (t, ts).
Proof.
  revert t. induction ts as [|t1 ts IH]; intros t Hall; [reflexivity|].
  inversion Hall as [|? ? Ht Hrest]; subst.
  change (next_timer (t :: t1 :: ts))
    with (match next_timer (t1 :: ts) with
          | Some (t', rest) =>
              if wake_at t' <? wake_at t then Some (t', t :: rest)
              else Some (t, t1 :: ts)
          | None => Some (t, [])
          end).
  rewrite (IH t1 Hrest). inversion Hrest as [|? ? Ht1 _]; subst.
  rewrite Ht1, Z.ltb_irrefl. reflexivity.
Qed.

Lemma run_timers_not_due (st : State) (deadline : Z) :
  Forall (fun t => deadline < wake_at t) (timers st) ->
  run_timers (length (timers st)) (Some deadline) st = st.
Proof.
  intros Hall. destruct (timers st) as [|t ts] eqn:Hts; [reflexivity|].
  cbn [length run_timers]. rewrite Hts.
  destruct (next_timer (t :: ts)) as [[t' rest]|] eqn:Hnext; [|reflexivity].
  apply next_timer_In in Hnext. rewrite List.Forall_forall in Hall.
  specialize (Hall t' Hnext). destruct (Z.leb_spec (wake_at t') deadline); [lia|].
  reflexivity.
Qed.

Lemma run_timers_same_expiry (d : Z) (ts : list Timer) : forall st : State,
  timers st = ts -> Forall (fun t => wake_at t = d) ts -> now st <= d ->
  invocations (run_timers (length ts) None st)
  = (invocations st
     ++ map (fun t => mkInvocation (caller t) (provider_of t) d) ts)%list.
Proof.
  induction ts as [|t ts IH]; intros st Hts Hall Hnow.
  - cbn. now rewrite app_nil_r.
  - cbn [length run_timers]. rewrite Hts, (next_timer_same_expiry d t ts Hall).
    inversion Hall as [|? ? Ht Hrest]; subst.
    rewrite IH; [|reflexivity|assumption|].
    + unfold fire, record_and_invoke. cbn [invocations now map].
      rewrite Z.max_r by lia. now rewrite <- app_assoc.
    + unfold fire, record_and_invoke. cbn [now]. lia.
Qed.

(** The delay of the callers that find one request, made at the same
    instant, in the history. *)
Lemma spacing_delay (limitRPM : Z) :
  0 < limitRPM ->
  timer_delay (inject_Z windowMs / inject_Z limitRPM - inject_Z (0 - 0))
  = Z.max 1 (windowMs / limitRPM).
Proof.
  intros Hlimit. unfold timer_delay. f_equal.
  destruct limitRPM as [|n|n]; try lia.
  unfold windowMs. cbn. now rewrite Z.sub_0_r, Pos.mul_1_r.
Qed.

Lemma follower_suspends (provider : string) (limitRPM : Z) (who ref : nat)
    (st : State) :
  0 < limitRPM -> now st = 0 -> heap st !! ref = Some [0] ->
  wait_then_invoke provider limitRPM who ref st
  = mkState (now st) (heap st) (requestHistory st)
      (timers st
       ++ [mkTimer (Z.max 1 (windowMs / limitRPM)) who provider ref])%list
      (invocations st).
Proof.
  intros Hlimit Hnow Hheap. unfold wait_then_invoke.
  assert (Hderef : deref st ref = [0]) by (unfold deref; now rewrite Hheap).
  rewrite Hderef, Hnow. cbn [length List.hd List.last].
  destruct (Z.geb_spec (Z.of_nat 1) limitRPM) as [Hfull|Hroom].
  - assert (limitRPM = 1) by lia. subst limitRPM.
    change (0 <? 0 + windowMs - 0) with true. cbv iota.
    unfold suspend. rewrite Hnow. reflexivity.
  - change (0 <? 1)%nat with true. cbv iota.
    assert (Hwait : negb (Qle_bool (inject_Z windowMs / inject_Z limitRPM
                                    - inject_Z (0 - 0)) 0) = true).
    { destruct limitRPM as [|n|n]; try lia. reflexivity. }
    rewrite Hwait. unfold suspend.
    rewrite (spacing_delay limitRPM Hlimit), Hnow. reflexivity.
Qed.

Lemma followers_wait (provider : string) (limitRPM : Z) (followers : nat) :
  0 < limitRPM ->
  forall (who : nat) (st : State),
    now st = 0 ->
    (exists ref,
        requestHistory st !! provider = Some ref /\ heap st !! ref = Some [0]) ->
    Forall (fun t => wake_at t = Z.max 1 (windowMs / limitRPM)) (timers st) ->
    invocations
      (run_calls (repeat (mkCall 0 provider limitRPM) followers) who st)
    = (invocations st
       ++ map (fun t => mkInvocation (caller t) (provider_of t)
                          (Z.max 1 (windowMs / limitRPM))) (timers st)
       ++ map (fun i => mkInvocation i provider
                          (Z.max 1 (windowMs / limitRPM))) (seq who followers))%list.
Proof.
  intros Hlimit. set (d := Z.max 1 (windowMs / limitRPM)).
  induction followers as [|m IH]; intros who st Hnow (ref & Hmap & Hheap) Hall.
  - cbn [repeat run_calls seq map]. rewrite app_nil_r.
    apply run_timers_same_expiry; [reflexivity|assumption|]. unfold d. lia.
  - cbn [repeat run_calls call_time call_provider call_limitRPM].
    rewrite run_timers_not_due
      by (eapply List.Forall_impl; [|exact Hall]; cbn; intros t ->; unfold d; lia).
    rewrite Hnow. change (Z.max 0 0) with 0.
    set (st0 := mkState 0 (heap st) (requestHistory st) (timers st)
                  (invocations st)).
    unfold throttle. destruct (Z.leb_spec limitRPM 0) as [|_]; [lia|].
    destruct (prune_spec provider st0)
      as (ref' & st1 & Hprune & Hnow1 & Htim1 & Hinv1 & Hmap1 & Hheap1).
    rewrite Hprune.
    assert (Hhist : history_of provider st0 = [0]).
    { unfold history_of, st0, deref. cbn [requestHistory heap].
      now rewrite Hmap, Hheap. }
    rewrite Hhist in Hheap1. change (now st0) with 0 in *.
    change (List.filter (fun timestamp => 0 - windowMs <? timestamp) [0])
      with [0] in Hheap1.
    rewrite (follower_suspends provider limitRPM who ref' st1 Hlimit Hnow1 Hheap1).
    fold d. rewrite IH.
    + cbn [invocations timers]. rewrite Hinv1, Htim1.
      change (invocations st0) with (invocations st).
      change (timers st0) with (timers st).
      rewrite map_app. cbn [map caller provider_of seq].
      rewrite <- !app_assoc. reflexivity.
    + cbn [now]. exact Hnow1.
    + exists ref'. cbn [requestHistory heap]. now split.
    + cbn [timers]. rewrite Htim1. change (timers st0) with (timers st).
      apply Forall_app. split; [exact Hall|]. now constructor.
Qed.

Lemma burst_log (provider : string) (limitRPM : Z) (followers : nat) :
  0 < limitRPM ->
  run (repeat (mkCall 0 provider limitRPM) (S followers))
  = mkInvocation 0 provider 0
    :: map (fun i => mkInvocation i provider (Z.max 1 (windowMs / limitRPM)))
         (seq 1 followers).
Proof.
  intros Hlimit. unfold run.
  cbn [repeat run_calls call_time call_provider call_limitRPM].
  change (run_timers (length (timers initial)) (Some 0) initial) with initial.
  set (st0 := mkState (Z.max (now initial) 0) (heap initial)
                (requestHistory initial) (timers initial) (invocations initial)).
  unfold throttle. destruct (Z.leb_spec limitRPM 0) as [|_]; [lia|].
  destruct (prune_spec provider st0)
    as (ref & st1 & Hprune & Hnow1 & Htim1 & Hinv1 & Hmap1 & Hheap1).
  rewrite Hprune.
  change (history_of provider st0) with (@nil Z) in Hheap1.
  change (List.filter _ []) with (@nil Z) in Hheap1.
  rewrite (wait_then_invoke_empty _ _ _ _ _ Hlimit Hheap1).
  destruct (record_and_invoke_spec provider 0 ref st1 [] Hheap1)
    as (Hn & Ht & Hm & Hi & Hh).
  change (now st0) with 0 in Hnow1.
  rewrite followers_wait.
  - rewrite Hi, Ht, Htim1, Hinv1, Hnow1. reflexivity.
  - exact Hlimit.
  - now rewrite Hn.
  - exists ref. rewrite Hm, Hh, Hnow1. now split.
  - rewrite Ht, Htim1. constructor.
Qed.

Lemma started_within_followers (provider : string) (d : Z) (who followers : nat) :
  started_within provider d
    (map (fun i => mkInvocation i provider d) (seq who followers))
  = followers.
Proof.
  unfold started_within. revert who.
  induction followers as [|m IH]; intros who; [reflexivity|].
  cbn [seq map List.filter inv_provider inv_time].
  rewrite String.eqb_refl, Z.leb_refl.
  replace (d <? d + windowMs) with true
    by (symmetry; apply Z.ltb_lt; unfold windowMs; lia).
  cbn [andb length]. f_equal. apply IH.
Qed.

(** X15.  Callers that arrive together at a limiter that has not been used: the
    first starts at once and all the others start at the same later
    instant, [max 1 (floor (60000 / limitRPM))] ms after; so whenever more
    than [limitRPM] callers follow the first, more than [limitRPM]
    invocations start within one window. *)
Theorem concurrent_callers_start_together
    (provider : string) (limitRPM : Z) (followers : nat) :
  0 < limitRPM ->
  let delay := Z.max 1 (windowMs / limitRPM) in
  let log := run (repeat (mkCall 0 provider limitRPM) (S followers)) in
  log = mkInvocation 0 provider 0
        :: map (fun i => mkInvocation i provider delay) (seq 1 followers) /\
  started_within provider delay log = followers /\
  (limitRPM < Z.of_nat followers -> ~ respects_limit provider limitRPM log).
Proof.
  intros Hlimit. cbv zeta. rewrite (burst_log provider limitRPM followers Hlimit).
  set (delay := Z.max 1 (windowMs / limitRPM)).
  assert (Hcount :
    started_within provider delay
      (mkInvocation 0 provider 0
       :: map (fun i => mkInvocation i provider delay) (seq 1 followers))
    = followers).
  { rewrite <- (started_within_followers provider delay 1 followers) at 2.
    unfold started_within. cbn [List.filter inv_provider inv_time].
    replace (delay <=? 0) with false
      by (symmetry; apply Z.leb_gt; unfold delay; lia).
    rewrite andb_false_r. reflexivity. }
  split; [reflexivity|]. split; [exact Hcount|].
  intros Hmany Hrespects. specialize (Hrespects delay).
  rewrite Hcount in Hrespects. lia.
Qed.

Lemma concurrent_callers_start_together_witness :
  0 < 2 /\
  ~ respects_limit "openrouter"%string 2
      (run (repeat (mkCall 0 "openrouter"%string 2) 4)).
Proof.
  split; [lia|].
  apply (concurrent_callers_start_together "openrouter"%string 2 3); lia.
Defined.

Lemma sequential_callers_respect_limit_witness :
  0 < 5 /\
  Forall (fun c => call_provider c = "magisterium"%string /\ call_limitRPM c = 5)
    magisterium_burst /\
  respects_limit "magisterium"%string 5
    (invocations (run_sequential magisterium_burst 0 initial)).
Proof.
  assert (Hcalls :
    Forall (fun c => call_provider c = "magisterium"%string /\ call_limitRPM c = 5)
      magisterium_burst) by (repeat constructor).
  split; [lia|]. split; [exact Hcalls|].
  apply (sequential_callers_respect_limit "magisterium"%string 5
           magisterium_burst); [lia|exact Hcalls].
Defined.

End RateLimiterFacts.

(** * Evaluation runner *)

Module RunnerFacts.
Import Statistics Runner RunnerSpec.

Local Open Scope string_scope.

Section Trials.

Variable testModel_generate : nat -> GenerateCall -> string + string.
Variable judge_grade : GradeCall -> string + Judgment.

(** Collaborators that answer every call. *)
Variable generated : nat -> GenerateCall -> string.
Variable judged : GradeCall -> Judgment.
Hypothesis generate_ok :
  forall n call, testModel_generate n call = inr (generated n call).
Hypothesis grade_ok : forall call, judge_grade call = inr (judged call).

Variable question : Question.
Variable questionText : string.
Variable rubric : Judge.Rubric.

Local Abbreviation grade_call_for :=
  (grade_call_for question questionText rubric).
Local Abbreviation result_for := (result_for judged question questionText rubric).

Lemma start_trials_spec (n i0 : nat) (w : World) :
  map_each (seq i0 n) (start_trial testModel_generate questionText) w
  = (inr (map (fun i =>
                 testModel_generate (length (generate_log w) + (i - i0))
                   (trial_call questionText i))
            (seq i0 n)),
     mkWorld (db w)
       (generate_log w ++ map (trial_call questionText) (seq i0 n))%list
       (grade_log w) (progress_log w) (skip_log w) (clock_reads w)
       (random_draws w)).
Proof.
  revert i0 w. induction n as [|n IH]; intros i0 w.
  - cbn. rewrite app_nil_r. now destruct w.
  - cbn [seq map_each]. unfold bind at 1. unfold start_trial at 1.
    unfold bind at 1. rewrite IH. cbn [generate_log db grade_log progress_log
      skip_log clock_reads random_draws]. unfold ret.
    rewrite length_app. cbn [length map].
    rewrite Nat.sub_diag, Nat.add_0_r, <- app_assoc. cbn [app].
    f_equal. f_equal. f_equal.
    apply map_ext_in. intros i Hi. apply in_seq in Hi.
    f_equal. lia.
Qed.

Lemma settle_spec (order : list nat) (texts : list string)
    (slots : list (option RunResult)) (w : World) :
  (forall idx, In idx order -> (idx < length texts)%nat) ->
  settle judge_grade question questionText rubric order (map inr texts)
         slots w
  = (inr (fold_left
            (fun s idx => <[idx := Some (result_for (nth idx texts ""))]> s)
            order slots),
     mkWorld (db w) (generate_log w)
       (grade_log w
          ++ map (fun idx => grade_call_for (nth idx texts "")) order)%list
       (progress_log w) (skip_log w) (clock_reads w) (random_draws w)).
Proof.
  revert slots w. induction order as [|idx order IH]; intros slots w Hin.
  - cbn. rewrite app_nil_r. now destruct w.
  - cbn [settle].
    assert (Hidx : (idx < length texts)%nat) by (apply Hin; now left).
    assert (Hlook : map (@inr string string) texts !! idx
                    = Some (inr (nth idx texts ""))).
    { change (map inr texts) with (@inr string string <$> texts).
      rewrite list_lookup_fmap.
      destruct (nth_lookup_or_length texts idx "") as [->|Hlen];
        [reflexivity | lia]. }
    rewrite Hlook. unfold bind at 1. cbn [finish_trial].
    unfold bind at 1. unfold grade at 1. rewrite grade_ok.
    unfold ret at 1. rewrite IH by (intros i Hi; apply Hin; now right).
    cbn [db generate_log grade_log progress_log skip_log clock_reads
         random_draws fold_left map].
    now rewrite <- app_assoc.
Qed.

Lemma fold_insert_lookup {A} (f : nat -> A) (order : list nat)
    (slots : list (option A)) (i : nat) :
  (i < length slots)%nat ->
  fold_left (fun s idx => <[idx := Some (f idx)]> s) order slots !! i
  = if decide (i ∈ order) then Some (Some (f i)) else slots !! i.
Proof.
  revert slots. induction order as [|idx order IH]; intros slots Hi.
  - cbn. destruct (decide (i ∈ [])) as [Hin|_]; [|reflexivity].
    now apply elem_of_nil in Hin.
  - cbn [fold_left]. rewrite IH by now rewrite length_insert.
    destruct (decide (i ∈ order)) as [Hin|Hnin].
    + rewrite decide_True by (apply elem_of_cons; now right). reflexivity.
    + destruct (decide (i = idx)) as [->|Hne].
      * rewrite list_lookup_insert_eq by assumption.
        rewrite decide_True by (apply elem_of_cons; now left). reflexivity.
      * rewrite list_lookup_insert_ne by congruence.
        rewrite decide_False; [reflexivity|].
        intros [Heq|Hin]%elem_of_cons; [congruence | contradiction].
Qed.

Lemma fold_insert_length {A} (f : nat -> A) (order : list nat)
    (slots : list (option A)) :
  length (fold_left (fun s idx => <[idx := Some (f idx)]> s) order slots)
  = length slots.
Proof.
  revert slots. induction order as [|idx order IH]; intros slots; cbn;
    [reflexivity|]. now rewrite IH, length_insert.
Qed.

(** Whatever the completion order, every slot ends up holding the result
    of the trial of its index. *)
Lemma slots_by_position {A} (f : nat -> A) (order : list nat) (n : nat) :
  Permutation order (seq 0 n) ->
  fold_left (fun s idx => <[idx := Some (f idx)]> s) order
            (replicate n None)
  = map Some (map f (seq 0 n)).
Proof.
  intros Hperm. apply list_eq. intros i.
  destruct (decide (i < n)%nat) as [Hlt|Hge].
  - rewrite fold_insert_lookup by now rewrite length_replicate.
    destruct (decide (i ∈ order)) as [_|Hnin].
    + change (map Some (map f (seq 0 n))) with (Some <$> (f <$> seq 0 n)).
      rewrite !list_lookup_fmap, lookup_seq_lt by assumption. reflexivity.
    + exfalso. apply Hnin. apply list_elem_of_In.
      eapply Permutation_in; [symmetry; exact Hperm | apply in_seq; lia].
  - rewrite !lookup_ge_None_2; [reflexivity| |].
    + rewrite !length_map, length_seq. lia.
    + rewrite fold_insert_length, length_replicate. lia.
Qed.

Lemma map_nth_seq {A} (l : list A) (d : A) :
  map (fun i => nth i l d) (seq 0 (length l)) = l.
Proof.
  induction l as [|a l IH]; [reflexivity|].
  cbn [length seq map nth]. rewrite <- seq_shift, map_map. cbn [nth].
  now rewrite IH.
Qed.

Lemma all_settled_Some {A} (l : list A) : all_settled (map Some l) = Some l.
Proof. induction l as [|a l IH]; cbn; [reflexivity|now rewrite IH]. Qed.

End Trials.

(** ** Keys of the pairs *)

Lemma string_length_append (s t : string) :
  String.length (s ++ t) = (String.length s + String.length t)%nat.
Proof.
  induction s as [|c s IH]; [reflexivity|].
  change (S (String.length (s ++ t))
          = S (String.length s + String.length t)).
  now rewrite IH.
Qed.

Lemma append_same_length_suffix (s1 s2 t1 t2 : string) :
  s1 ++ t1 = s2 ++ t2 -> String.length t1 = String.length t2 ->
  s1 = s2 /\ t1 = t2.
Proof.
  revert s2. induction s1 as [|c1 s1 IH]; intros [|c2 s2] Heq Hlen.
  - change (t1 = t2) in Heq. now split.
  - exfalso. change (t1 = String c2 (s2 ++ t2)) in Heq. subst t1.
    change (S (String.length (s2 ++ t2)) = String.length t2) in Hlen.
    rewrite string_length_append in Hlen. lia.
  - exfalso. change (String c1 (s1 ++ t1) = t2) in Heq. subst t2.
    change (String.length t1 = S (String.length (s1 ++ t1))) in Hlen.
    rewrite string_length_append in Hlen. lia.
  - change (String c1 (s1 ++ t1) = String c2 (s2 ++ t2)) in Heq.
    injection Heq as -> Heq. destruct (IH s2 Heq Hlen) as [-> ->]. now split.
Qed.

Lemma variantKey_of_inj (id1 id2 : string) (v1 v2 : Variant) :
  variantKey_of id1 (variant_name v1) = variantKey_of id2 (variant_name v2) ->
  id1 = id2 /\ v1 = v2.
Proof.
  unfold variantKey_of. intros Heq.
  apply append_same_length_suffix in Heq as [-> Hv].
  - split; [reflexivity|]. destruct v1, v2; vm_compute in Hv; congruence.
  - destruct v1, v2; reflexivity.
Qed.

Lemma elem_of_pair_keys (questions : list Question) (k : string) :
  k ∈ RunnerSpec.pair_keys questions <->
  exists q v, In q questions /\ k = variantKey_of (q_id q) (variant_name v).
Proof.
  unfold RunnerSpec.pair_keys. rewrite list_elem_of_In, in_flat_map. split.
  - intros (q & Hq & [<-|[<-|[]]]); [now exists q, explicit|now exists q, implicit].
  - intros (q & v & Hq & ->). exists q. split; [assumption|].
    destruct v; cbn; auto.
Qed.

Lemma pair_keys_length (questions : list Question) :
  length (RunnerSpec.pair_keys questions) = (2 * length questions)%nat.
Proof.
  induction questions as [|q qs IH]; [reflexivity|].
  change (RunnerSpec.pair_keys (q :: qs))
    with (variantKey_of (q_id q) (variant_name explicit)
          :: variantKey_of (q_id q) (variant_name implicit)
          :: RunnerSpec.pair_keys qs).
  cbn [length]. rewrite IH. lia.
Qed.

Lemma pair_keys_NoDup (questions : list Question) :
  NoDup (map q_id questions) -> NoDup (RunnerSpec.pair_keys questions).
Proof.
  induction questions as [|q qs IH]; intros Hnd; [constructor|].
  cbn [map] in Hnd. apply NoDup_cons in Hnd as [Hnotin Hnd'].
  change (RunnerSpec.pair_keys (q :: qs))
    with (variantKey_of (q_id q) (variant_name explicit)
          :: variantKey_of (q_id q) (variant_name implicit)
          :: RunnerSpec.pair_keys qs).
  assert (Hfresh : forall v,
            variantKey_of (q_id q) (variant_name v)
            ∉ RunnerSpec.pair_keys qs).
  { intros v Hin. apply elem_of_pair_keys in Hin as (q' & v' & Hq' & Heq).
    apply variantKey_of_inj in Heq as [Hid _].
    apply Hnotin. rewrite Hid. apply list_elem_of_In. now apply in_map. }
  apply NoDup_cons. split.
  - intros [Heq|Hin]%elem_of_cons; [|now apply (Hfresh explicit)].
    apply variantKey_of_inj in Heq as [_ Hv]. discriminate.
  - apply NoDup_cons. split; [apply (Hfresh implicit)|now apply IH].
Qed.

Lemma filter_partition_length {A} (P : A -> Prop)
    `{forall x, Decision (P x)} (l : list A) :
  (length (filter P l) + length (filter (fun x => ~ P x) l))%nat = length l.
Proof.
  induction l as [|x l IH]; [reflexivity|].
  destruct (decide (P x)) as [Hp|Hn].
  - rewrite filter_cons_True by assumption.
    rewrite filter_cons_False by (intros Hn; now apply Hn).
    cbn. lia.
  - rewrite filter_cons_False by assumption.
    rewrite filter_cons_True by assumption.
    cbn. lia.
Qed.

(** The completed pairs are skipped exactly once each: the skipped keys are
    the keys of the rows, up to order, and the other pairs number
    [M - K]. *)
Lemma skipped_and_processed (questions : list Question)
    (rows : list ResponseRow) :
  NoDup (map q_id questions) ->
  NoDup (map RunnerSpec.response_key rows) ->
  (forall row, In row rows -> RunnerSpec.is_pair_of questions row) ->
  let completedPairs : gset string :=
    list_to_set (map RunnerSpec.response_key rows) in
  let keys := RunnerSpec.pair_keys questions in
  Permutation (filter (fun k => k ∈ completedPairs) keys)
              (map RunnerSpec.response_key rows) /\
  (length (filter (fun k => k ∉ completedPairs) keys) + length rows)%nat
  = (2 * length questions)%nat.
Proof.
  intros Hids Hrows Hpairs. cbv zeta.
  assert (Hperm :
    Permutation
      (filter (fun k => k ∈ (list_to_set (map RunnerSpec.response_key rows)
                               : gset string))
              (RunnerSpec.pair_keys questions))
      (map RunnerSpec.response_key rows)).
  { apply NoDup_Permutation.
    - apply NoDup_filter. now apply pair_keys_NoDup.
    - assumption.
    - intros k. rewrite list_elem_of_filter, elem_of_list_to_set. split.
      + now intros [Hk _].
      + intros Hk. split; [assumption|].
        apply list_elem_of_In, in_map_iff in Hk as (row & <- & Hrow).
        destruct (Hpairs row Hrow) as (q & v & Hq & Hid & Hv).
        apply elem_of_pair_keys. exists q, v. split; [assumption|].
        unfold RunnerSpec.response_key. now rewrite Hid, Hv. }
  split; [exact Hperm|].
  pose proof (filter_partition_length
                (fun k => k ∈ (list_to_set (map RunnerSpec.response_key rows)
                                 : gset string))
                (RunnerSpec.pair_keys questions)) as Hsum.
  rewrite pair_keys_length in Hsum.
  apply Permutation_length in Hperm. rewrite length_map in Hperm.
  rewrite Hperm in Hsum. lia.
Qed.

(** ** Reading the state of an interrupted run *)

Lemma map_each_inv {A B} (body : A -> M B) (P : A -> B -> Prop)
    (xs : list A) (w : World) (ys : list B) (w1 : World) :
  (forall x y w', body x w = (inr y, w') -> w' = w /\ P x y) ->
  map_each xs body w = (inr ys, w1) -> w1 = w /\ Forall2 P xs ys.
Proof.
  intros Hbody. revert ys w1.
  induction xs as [|x xs IH]; intros ys w1 Hmap; cbn in Hmap.
  - injection Hmap as <- <-. split; [reflexivity|constructor].
  - unfold bind at 1 in Hmap.
    destruct (body x w) as [[e|y] w'] eqn:Hx; [discriminate|].
    destruct (Hbody x y w' Hx) as [-> HP].
    unfold bind at 1 in Hmap.
    destruct (map_each xs body w) as [[e|ys'] w''] eqn:Hxs; [discriminate|].
    destruct (IH ys' w'' eq_refl) as [-> HF].
    injection Hmap as <- <-. split; [reflexivity|now constructor].
Qed.

Lemma map_each_ok {A B} (body : A -> M B) (xs : list A) (w : World) :
  (forall x, In x xs -> exists y, body x w = (inr y, w)) ->
  exists ys, map_each xs body w = (inr ys, w) /\ length ys = length xs.
Proof.
  induction xs as [|x xs IH]; intros Hbody; cbn.
  - now exists [].
  - destruct (Hbody x (or_introl eq_refl)) as [y Hy].
    destruct IH as (ys & Hys & Hlen).
    { intros x' Hx'. apply Hbody. now right. }
    exists (y :: ys). unfold bind at 1. rewrite Hy.
    unfold bind at 1. rewrite Hys. cbn. now rewrite Hlen.
Qed.

Lemma load_existing_stats_inv evalRunId questions w stats w1 :
  load_existing_stats evalRunId questions w = (inr stats, w1) ->
  w1 = w /\
  Forall2 (RunnerSpec.restored_from (db w)) (responses_of evalRunId (db w)) stats.
Proof.
  unfold load_existing_stats, bind at 1, select_responses, bind at 1, get_db,
    ret at 1.
  apply map_each_inv. intros row stat w'.
  unfold bind at 1, select_responseRuns, bind at 1, get_db, ret at 1.
  destruct (responseRuns_of (resp_id row) (db w)) as [|first rest] eqn:Hruns;
    [discriminate|].
  destruct (List.find _ questions) as [q|]; [|discriminate].
  unfold ret. intros [= <- <-]. split; [reflexivity|].
  repeat split; cbn; try reflexivity. now exists first, rest.
Qed.

Lemma load_existing_stats_ok evalRunId questions w :
  (forall row, In row (responses_of evalRunId (db w)) ->
     responseRuns_of (resp_id row) (db w) <> [] /\
     exists q, In q questions /\ q_id q = resp_questionId row) ->
  exists stats,
    load_existing_stats evalRunId questions w = (inr stats, w) /\
    length stats = length (responses_of evalRunId (db w)).
Proof.
  intros Hrows.
  unfold load_existing_stats, bind at 1, select_responses, bind at 1, get_db,
    ret at 1.
  apply map_each_ok. intros row Hrow.
  destruct (Hrows row Hrow) as (Hruns & q & Hq & Hid).
  unfold bind at 1, select_responseRuns, bind at 1, get_db, ret at 1.
  destruct (responseRuns_of (resp_id row) (db w)) as [|first rest];
    [congruence|].
  destruct (List.find (fun q0 => String.eqb (q_id q0) (resp_questionId row))
              questions) as [q'|] eqn:Hfind.
  - eexists. reflexivity.
  - exfalso. apply (List.find_none _ _ Hfind) in Hq.
    rewrite Hid, String.eqb_refl in Hq. discriminate.
Qed.

Lemma trial_call_expected questionText k :
  trial_call questionText k = RunnerSpec.expected_call questionText k.
Proof.
  unfold trial_call. destruct k as [|k]; cbn; [reflexivity|].
  replace (k + 1 =? 0)%nat with false; [reflexivity|].
  symmetry. apply Nat.eqb_neq. lia.
Qed.

Lemma currentScore_weighted_average (stats : list ResponseStat) :
  currentScore_of stats * 100 = RunnerSpec.weighted_average stats.
Proof.
  unfold currentScore_of, RunnerSpec.weighted_average.
  rewrite (StatisticsFacts.fold_left_add_total mean_score).
  rewrite (StatisticsFacts.fold_left_add_total max_score).
  now rewrite !Rplus_0_l.
Qed.

Lemma toFixed_two_pairs : toFixed 2 (250 / 3) = mkDecimal 8333 2.
Proof.
  unfold toFixed, round_half_away. f_equal.
  destruct (Rle_dec 0 (250 / 3 * 10 ^ 2)) as [_|Hneg]; [|simpl in Hneg; lra].
  apply Zfloor_eq. simpl. lra.
Qed.

Lemma seq_head (n : nat) : (1 <= n)%nat -> seq 0 n = 0%nat :: seq 1 (n - 1).
Proof.
  destruct n as [|n]; [lia|]. intros _.
  replace (S n - 1)%nat with n by lia. reflexivity.
Qed.

Section Run.

Variable testModel_generate : nat -> GenerateCall -> string + string.
Variable judge_grade : GradeCall -> string + Judgment.
Variable schedule : nat -> Variant -> list nat.
Variable clock : nat -> Z.
Variable random : nat -> R.
Variable modelConfig : ModelConfig.
Variable runsPerQuestion : nat.

(** Every call is answered, every trial completes, and there is at least
    one trial per pair. *)
Variable generated : nat -> GenerateCall -> string.
Variable judged : GradeCall -> Judgment.
Hypothesis generate_ok :
  forall n call, testModel_generate n call = inr (generated n call).
Hypothesis grade_ok : forall call, judge_grade call = inr (judged call).
Hypothesis schedule_ok :
  forall idx variant,
    Permutation (schedule idx variant) (seq 0 runsPerQuestion).
Hypothesis runs_positive : (1 <= runsPerQuestion)%nat.

Lemma trial_texts_length questionText n0 :
  length (trial_texts generated questionText runsPerQuestion n0)
  = runsPerQuestion.
Proof. unfold trial_texts. now rewrite length_map, length_seq. Qed.

Lemma run_trials_spec idx question variant questionText rubric (w : World) :
  let texts :=
    trial_texts generated questionText runsPerQuestion
      (length (generate_log w)) in
  run_trials testModel_generate judge_grade schedule runsPerQuestion
    idx question variant questionText rubric w
  = (inr (map (result_for judged question questionText rubric) texts),
     mkWorld (db w)
       (generate_log w
          ++ map (trial_call questionText) (seq 0 runsPerQuestion))%list
       (grade_log w
          ++ map (fun i =>
                    grade_call_for question questionText rubric
                      (nth i texts ""))
               (schedule idx variant))%list
       (progress_log w) (skip_log w) (clock_reads w) (random_draws w)).
Proof.
  cbv zeta. unfold run_trials. unfold bind at 1.
  rewrite start_trials_spec.
  set (texts := trial_texts generated questionText runsPerQuestion
                  (length (generate_log w))).
  assert (Hpending :
    map (fun i =>
           testModel_generate (length (generate_log w) + (i - 0))
             (trial_call questionText i)) (seq 0 runsPerQuestion)
    = map inr texts).
  { unfold texts, trial_texts. rewrite map_map. apply map_ext.
    intros i. rewrite generate_ok, Nat.sub_0_r. reflexivity. }
  rewrite Hpending. unfold bind at 1.
  rewrite (settle_spec judge_grade judged grade_ok).
  2: { intros i Hi. unfold texts. rewrite trial_texts_length.
       apply (Permutation_in _ (schedule_ok idx variant)) in Hi.
       apply in_seq in Hi. lia. }
  pose proof (slots_by_position
                (fun i => result_for judged question questionText rubric
                            (nth i texts ""))
                (schedule idx variant) runsPerQuestion
                (schedule_ok idx variant)) as Hslots.
  cbv beta in Hslots. rewrite Hslots, all_settled_Some.
  unfold ret. cbn [db generate_log grade_log progress_log skip_log
                   clock_reads random_draws].
  f_equal. f_equal.
  transitivity (map (result_for judged question questionText rubric)
                  (map (fun i => nth i texts "") (seq 0 (length texts)))).
  - rewrite map_map.
    replace (length texts) with runsPerQuestion
      by (symmetry; apply trial_texts_length).
    reflexivity.
  - now rewrite map_nth_seq.
Qed.

Ltac world_simpl :=
  cbn [db generate_log grade_log progress_log skip_log clock_reads
       random_draws next_id models evaluationRuns responses responseRuns
       pillarScores modelScores resp_id fst snd].

Lemma for_each_insert_responseRun {A} (f : A -> ResponseRunRow) (l : list A)
    (w : World) :
  for_each l (fun x => insert_responseRun (f x)) w
  = (inr tt,
     mkWorld
       (mkDatabase (next_id (db w)) (models (db w)) (evaluationRuns (db w))
          (responses (db w)) (responseRuns (db w) ++ map f l)%list
          (pillarScores (db w)) (modelScores (db w)))
       (generate_log w) (grade_log w) (progress_log w) (skip_log w)
       (clock_reads w) (random_draws w)).
Proof.
  revert w. induction l as [|x l IH]; intros w.
  - cbn. rewrite app_nil_r. now destruct w as [[] ? ? ? ? ? ?].
  - cbn [for_each]. unfold bind at 1.
    unfold insert_responseRun at 1, modify_db at 1.
    rewrite IH. cbn. now rewrite <- app_assoc.
Qed.

Lemma pair_runs_length question variant n0 :
  length (pair_runs generated judged question variant runsPerQuestion n0)
  = runsPerQuestion.
Proof. unfold pair_runs. now rewrite length_map, trial_texts_length. Qed.

Lemma pair_runs_nonempty question variant n0 :
  exists deterministic rest,
    pair_runs generated judged question variant runsPerQuestion n0
    = deterministic :: rest.
Proof.
  pose proof (pair_runs_length question variant n0) as Hlen.
  destruct (pair_runs generated judged question variant runsPerQuestion n0)
    as [|d rest]; [simpl in Hlen; lia | now exists d, rest].
Qed.

(** What one evaluated pair does. *)
Lemma evaluate_variant_spec evalRunId modelId startTime questions_length idx
    question variant (ls : LoopState) (w : World) :
  let runs :=
    pair_runs generated judged question variant runsPerQuestion
      (length (generate_log w)) in
  let stats := calculateConsistencyMetrics (map run_score runs) in
  exists deterministic rest estimatedTimeRemaining w',
    runs = deterministic :: rest /\
    let allResponseStats' :=
      (allResponseStats ls ++
       [mkResponseStat (cm_mean stats) (run_maxScore deterministic)
          (q_pillar_id question) (cm_coefficientOfVariation stats)])%list in
    let completedVariants' := (completedVariants ls + 1)%Z in
    evaluate_variant testModel_generate judge_grade schedule clock
      runsPerQuestion evalRunId modelId startTime questions_length idx
      question variant ls w
    = (inr (mkLoopState completedVariants' allResponseStats'), w') /\
    generate_log w'
    = (generate_log w
       ++ map (trial_call (text_of question variant))
            (seq 0 runsPerQuestion))%list /\
    length (grade_log w')
    = (length (grade_log w) + runsPerQuestion)%nat /\
    skip_log w' = skip_log w /\
    random_draws w' = random_draws w /\
    models (db w') = models (db w) /\
    responses (db w')
    = (responses (db w) ++
       [mkResponseRow (next_id (db w)) evalRunId (q_id question) modelId
          (variant_name variant) (run_responseText deterministic)
          (Z.of_nat runsPerQuestion)
          (toFixed 2 (cm_mean stats)) (toFixed 2 (cm_stdDev stats))
          (toFixed 2 (cm_min stats)) (toFixed 2 (cm_max stats))
          (toFixed 4 (cm_coefficientOfVariation stats))
          (run_judgeReasoning deterministic)])%list /\
    responseRuns (db w')
    = (responseRuns (db w) ++
       map (fun ir =>
              mkResponseRunRow (next_id (db w)) (Z.of_nat (fst ir) + 1)
                (run_responseText (snd ir)) (toFixed 2 (run_score (snd ir)))
                (toFixed 2 (run_maxScore (snd ir)))
                (run_judgeReasoning (snd ir)))
           (indexed_from 0 runs))%list /\
    evaluationRuns (db w')
    = map (fun r =>
             if Nat.eqb (run_id r) evalRunId then
               mkEvaluationRun (run_id r) (run_modelId r) (run_startedAt r)
                 (run_completedAt r) (run_status r) (run_totalQuestions r)
                 (Z.of_nat idx + 1) (Some (q_id question)) (Some variant)
                 (Some completedVariants')
                 (Some (toFixed 2 (currentScore_of allResponseStats' * 100)))
                 (Some estimatedTimeRemaining)
             else r)
          (evaluationRuns (db w)) /\
    progress_log w'
    = (progress_log w ++
       [mkProgress evalRunId modelId "running" (Z.of_nat idx + 1)
          (Z.of_nat questions_length) (Some (q_id question)) (Some variant)
          (Z.of_nat runsPerQuestion) completedVariants'
          (currentScore_of allResponseStats' * 100) startTime
          estimatedTimeRemaining])%list.
Proof.
  cbv zeta.
  destruct (pair_runs_nonempty question variant (length (generate_log w)))
    as (deterministic & rest & Hruns).
  exists deterministic, rest.
  unfold evaluate_variant. unfold bind at 1.
  pose proof (run_trials_spec idx question variant (text_of question variant)
                (getRubricForVariant question variant) w) as Htrials.
  cbv zeta in Htrials. fold (pair_runs generated judged question variant
                              runsPerQuestion (length (generate_log w)))
    in Htrials.
  unfold text_of in Htrials at 1. rewrite Htrials. clear Htrials.
  rewrite Hruns.
  unfold bind at 1. unfold insert_response at 1.
  unfold bind at 1. unfold fresh_id at 1. unfold bind at 1.
  unfold modify_db at 1. unfold ret at 1.
  unfold bind at 1. rewrite for_each_insert_responseRun.
  world_simpl.
  unfold bind at 1, Date_now at 1. world_simpl.
  unfold bind at 1, update_run at 1, modify_db at 1. world_simpl.
  unfold bind at 1, progressCallback at 1. world_simpl.
  unfold ret at 1.
  eexists. eexists. split; [reflexivity|]. split; [reflexivity|].
  world_simpl.
  repeat split; try reflexivity.
  rewrite length_app, length_map.
  now rewrite (Permutation_length (schedule_ok idx variant)), length_seq.
Qed.

(** C2. In a pair evaluated with [runsPerQuestion = N >= 1] trials, the
    generation client is called [N] times: trial 1 with temperature 0 and
    seed 0, trials 2 to [N] with temperature 0.7 and no seed.  Whatever the
    order in which the trials complete, the response row of the pair holds
    the text and the judge reasoning of trial 1, and its mean, standard
    deviation, minimum and maximum are those of the [N] trial scores. *)
Theorem trial_parameters_and_representative
    evalRunId modelId startTime questions_length idx question variant
    (ls : LoopState) (w : World) :
  let questionText := text_of question variant in
  let rubric := getRubricForVariant question variant in
  let text (k : nat) :=
    generated (length (generate_log w) + k)%nat
              (RunnerSpec.expected_call questionText k) in
  let judgment (k : nat) :=
    judged (mkGradeCall questionText (text k) rubric
              (q_reference_answer question)) in
  let scores := map (fun k => j_score (judgment k)) (seq 0 runsPerQuestion) in
  let stats := calculateConsistencyMetrics scores in
  exists ls' w' response,
    evaluate_variant testModel_generate judge_grade schedule clock
      runsPerQuestion evalRunId modelId startTime questions_length idx
      question variant ls w
    = (inr ls', w') /\
    generate_log w'
    = (generate_log w
       ++ map (RunnerSpec.expected_call questionText)
            (seq 0 runsPerQuestion))%list /\
    responses (db w') = (responses (db w) ++ [response])%list /\
    resp_responseText response = text 0%nat /\
    resp_judgeReasoning response = j_reasoning (judgment 0%nat) /\
    length scores = runsPerQuestion /\
    resp_meanScore response = toFixed 2 (cm_mean stats) /\
    resp_stdDev response = toFixed 2 (cm_stdDev stats) /\
    resp_minScore response = toFixed 2 (cm_min stats) /\
    resp_maxScore response = toFixed 2 (cm_max stats).
Proof.
  cbv zeta.
  destruct (evaluate_variant_spec evalRunId modelId startTime questions_length
              idx question variant ls w)
    as (deterministic & rest & eta & w' & Hruns & Heval & Hgen & _ & _ & _
        & _ & Hresp & _).
  assert (Hscores :
    map run_score
      (pair_runs generated judged question variant runsPerQuestion
         (length (generate_log w)))
    = map (fun k =>
             j_score
               (judged
                  (mkGradeCall (text_of question variant)
                     (generated (length (generate_log w) + k)%nat
                        (RunnerSpec.expected_call (text_of question variant) k))
                     (getRubricForVariant question variant)
                     (q_reference_answer question))))
        (seq 0 runsPerQuestion)).
  { unfold pair_runs, trial_texts. rewrite !map_map. apply map_ext.
    intros k. cbn. now rewrite trial_call_expected. }
  assert (Hfirst :
    run_responseText deterministic
    = generated (length (generate_log w) + 0)%nat
        (RunnerSpec.expected_call (text_of question variant) 0)
    /\ run_judgeReasoning deterministic
       = j_reasoning
           (judged
              (mkGradeCall (text_of question variant)
                 (generated (length (generate_log w) + 0)%nat
                    (RunnerSpec.expected_call (text_of question variant) 0))
                 (getRubricForVariant question variant)
                 (q_reference_answer question)))).
  { unfold pair_runs, trial_texts in Hruns.
    rewrite (seq_head _ runs_positive) in Hruns.
    cbn [map] in Hruns. injection Hruns as <- _.
    now rewrite trial_call_expected. }
  destruct Hfirst as [Htext Hreasoning].
  eexists _, w', _. split; [exact Heval|].
  split.
  { rewrite Hgen. f_equal. apply map_ext. intros k.
    apply trial_call_expected. }
  split; [exact Hresp|].
  cbn [resp_responseText resp_judgeReasoning resp_meanScore resp_stdDev
       resp_minScore resp_maxScore].
  rewrite <- Hscores.
  repeat split; try assumption; try reflexivity.
  now rewrite length_map, pair_runs_length.
Qed.

(** ** The loop over the pairs *)

Lemma loop_effect_nil completedPairs ls w :
  loop_effect runsPerQuestion completedPairs [] ls w ls w.
Proof.
  unfold loop_effect. cbn. rewrite !app_nil_r, Z.add_0_r, Nat.mul_0_r,
    !Nat.add_0_r.
  repeat split. exists []. now rewrite app_nil_r.
Qed.

Lemma loop_effect_app completedPairs keys1 keys2 ls w ls1 w1 ls2 w2 :
  loop_effect runsPerQuestion completedPairs keys1 ls w ls1 w1 ->
  loop_effect runsPerQuestion completedPairs keys2 ls1 w1 ls2 w2 ->
  loop_effect runsPerQuestion completedPairs (keys1 ++ keys2) ls w ls2 w2.
Proof.
  unfold loop_effect. cbv zeta.
  intros (Hs1 & Hc1 & Hl1 & Hg1 & Hj1 & Hr1 & [a1 Hp1] & Hd1)
         (Hs2 & Hc2 & Hl2 & Hg2 & Hj2 & Hr2 & [a2 Hp2] & Hd2).
  rewrite !filter_app, !length_app.
  repeat split.
  - now rewrite Hs2, Hs1, app_assoc.
  - rewrite Hc2, Hc1. lia.
  - rewrite Hl2, Hl1. lia.
  - rewrite Hg2, Hg1. lia.
  - rewrite Hj2, Hj1. lia.
  - now rewrite Hr2, Hr1, app_assoc.
  - exists (a1 ++ a2)%list. now rewrite Hp2, Hp1, app_assoc.
  - now rewrite Hd2, Hd1.
Qed.

Lemma process_variant_spec evalRunId modelId startTime questions_length
    completedPairs idx question variant (ls : LoopState) (w : World) :
  counter_synced evalRunId ls w ->
  exists ls' w',
    process_variant testModel_generate judge_grade schedule clock
      runsPerQuestion evalRunId modelId startTime questions_length
      completedPairs idx question variant ls w
    = (inr ls', w') /\
    loop_effect runsPerQuestion completedPairs
      [variantKey_of (q_id question) (variant_name variant)] ls w ls' w' /\
    counter_synced evalRunId ls' w' /\
    (variantKey_of (q_id question) (variant_name variant) ∉ completedPairs
     \/ average_synced evalRunId ls w ->
     average_synced evalRunId ls' w').
Proof.
  intros [Hrow Hcounter]. unfold process_variant.
  set (key := variantKey_of (q_id question) (variant_name variant)).
  destruct (decide (key ∈ completedPairs)) as [Hin|Hnin].
  - exists ls, (mkWorld (db w) (generate_log w) (grade_log w) (progress_log w)
                  (skip_log w ++ [key]) (clock_reads w) (random_draws w)).
    split; [reflexivity|]. split; [|split].
    + unfold loop_effect. cbv zeta.
      rewrite filter_cons_True by assumption.
      rewrite filter_cons_False by (intros Hn; now apply Hn).
      rewrite !filter_nil. cbn. rewrite Z.add_0_r, Nat.mul_0_r, !Nat.add_0_r,
        app_nil_r.
      repeat split. exists []. now rewrite app_nil_r.
    + split; assumption.
    + intros [Hn|Havg]; [contradiction|exact Havg].
  - destruct (evaluate_variant_spec evalRunId modelId startTime
                questions_length idx question variant ls w)
      as (deterministic & rest & eta & w' & Hruns & Heval & Hgen & Hgrade
          & Hskip & Hdraws & _ & Hresp & Hrr & Hrows & _).
    eexists _, w'. split; [exact Heval|]. split; [|split].
    + unfold loop_effect. cbv zeta.
      rewrite filter_cons_False by (intros Hn; now apply Hnin).
      rewrite filter_cons_True by assumption.
      rewrite !filter_nil. cbn [length allResponseStats completedVariants].
      rewrite app_nil_r, Hskip, Hgen, Hgrade, Hresp, Hdraws, !length_app,
        length_map, length_seq, map_app.
      cbn [length map]. repeat split; try lia.
      eexists. exact Hrr.
    + split.
      * destruct Hrow as (r & Hr & Hid). rewrite Hrows.
        eexists. split; [apply in_map; exact Hr|].
        cbv beta. apply Nat.eqb_eq in Hid. rewrite Hid. cbn.
        now apply Nat.eqb_eq.
      * intros r Hr Hid. rewrite Hrows in Hr.
        apply in_map_iff in Hr as (r0 & <- & _).
        destruct (Nat.eqb (run_id r0) evalRunId) eqn:Heq; [reflexivity|].
        apply Nat.eqb_neq in Heq. contradiction.
    + intros _ r Hr Hid. rewrite Hrows in Hr.
      apply in_map_iff in Hr as (r0 & <- & _).
      cbn [allResponseStats]. rewrite <- currentScore_weighted_average.
      destruct (Nat.eqb (run_id r0) evalRunId) eqn:Heq; [reflexivity|].
      apply Nat.eqb_neq in Heq. contradiction.
Qed.

Lemma process_questions_spec evalRunId modelId startTime questions_length
    completedPairs (questions : list Question) :
  forall idx (ls : LoopState) (w : World),
    counter_synced evalRunId ls w ->
    exists ls' w',
      process_questions testModel_generate judge_grade schedule clock
        runsPerQuestion evalRunId modelId startTime questions_length
        completedPairs idx questions ls w
      = (inr ls', w') /\
      loop_effect runsPerQuestion completedPairs (pair_keys questions)
        ls w ls' w' /\
      counter_synced evalRunId ls' w' /\
      (filter (fun k => k ∉ completedPairs) (pair_keys questions) <> []
       \/ average_synced evalRunId ls w ->
       average_synced evalRunId ls' w').
Proof.
  induction questions as [|question questions IH]; intros idx ls w Hsync.
  - exists ls, w. split; [reflexivity|]. split; [apply loop_effect_nil|].
    split; [assumption|]. intros [Hne|Havg]; [now cbn in Hne|exact Havg].
  - cbn [process_questions].
    destruct (process_variant_spec evalRunId modelId startTime
                questions_length completedPairs idx question explicit ls w
                Hsync)
      as (ls1 & w1 & Hrun1 & Heff1 & Hsync1 & Havg1).
    destruct (process_variant_spec evalRunId modelId startTime
                questions_length completedPairs idx question implicit ls1 w1
                Hsync1)
      as (ls2 & w2 & Hrun2 & Heff2 & Hsync2 & Havg2).
    destruct (IH (S idx) ls2 w2 Hsync2)
      as (ls3 & w3 & Hrun3 & Heff3 & Hsync3 & Havg3).
    exists ls3, w3. split; [|split; [|split]].
    + unfold bind at 1. rewrite Hrun1. unfold bind at 1. now rewrite Hrun2.
    + change (pair_keys (question :: questions))
        with ([variantKey_of (q_id question) (variant_name explicit)]
              ++ [variantKey_of (q_id question) (variant_name implicit)]
              ++ pair_keys questions)%list.
      eapply loop_effect_app; [exact Heff1|].
      eapply loop_effect_app; [exact Heff2|exact Heff3].
    + assumption.
    + intros Hcase. apply Havg3.
      destruct (decide (variantKey_of (q_id question) (variant_name explicit)
                        ∈ completedPairs)) as [He|He];
        destruct (decide (variantKey_of (q_id question) (variant_name implicit)
                          ∈ completedPairs)) as [Hi|Hi].
      * destruct Hcase as [Hne|Havg].
        -- left. cbn [pair_keys flat_map app] in Hne.
           rewrite filter_cons_False in Hne by (intros Hn; now apply Hn).
           rewrite filter_cons_False in Hne by (intros Hn; now apply Hn).
           exact Hne.
        -- right. apply Havg2. right. apply Havg1. now right.
      * right. apply Havg2. now left.
      * right. apply Havg2. right. apply Havg1. now left.
      * right. apply Havg2. now left.
Qed.

(** ** Completion of a run *)

Lemma bootstrap_iterations_positive : (1 <= 10000)%nat.
Proof. apply Nat.leb_le. vm_compute. reflexivity. Qed.

Lemma with_random_bootstrap_spec (scores : list R) (w : World) :
  exists ci lower upper k',
    with_random (calculateBootstrapCI random scores 0.95 10000) w
    = (inr ci,
       mkWorld (db w) (generate_log w) (grade_log w) (progress_log w)
               (skip_log w) (clock_reads w) k') /\
    ci_lower ci = Some lower /\ ci_upper ci = Some upper.
Proof.
  destruct (StatisticsFacts.bootstrap_bounds_ordered random scores 0.95 10000
              (random_draws w))
    as (lower & upper & Hlower & Hupper & _);
    [lra | apply bootstrap_iterations_positive |].
  unfold with_random.
  destruct (calculateBootstrapCI random scores 0.95 10000 (random_draws w))
    as [ci k'].
  now exists ci, lower, upper, k'.
Qed.

Lemma persist_pillar_score_spec evalRunId modelId entry (w : World) :
  exists row k',
    persist_pillar_score random evalRunId modelId entry w
    = (inr tt,
       mkWorld
         (mkDatabase (next_id (db w)) (models (db w)) (evaluationRuns (db w))
            (responses (db w)) (responseRuns (db w))
            (pillarScores (db w) ++ [row])%list (modelScores (db w)))
         (generate_log w) (grade_log w) (progress_log w) (skip_log w)
         (clock_reads w) k').
Proof.
  unfold persist_pillar_score.
  destruct (with_random_bootstrap_spec (snd entry) w)
    as (ci & lower & upper & k' & Hci & Hlower & Hupper).
  unfold bind at 1. rewrite Hci, Hlower, Hupper. cbn.
  eexists _, k'. reflexivity.
Qed.

Lemma pillar_loop_spec evalRunId modelId entries (w : World) :
  exists rows k',
    for_each entries (persist_pillar_score random evalRunId modelId) w
    = (inr tt,
       mkWorld
         (mkDatabase (next_id (db w)) (models (db w)) (evaluationRuns (db w))
            (responses (db w)) (responseRuns (db w))
            (pillarScores (db w) ++ rows)%list (modelScores (db w)))
         (generate_log w) (grade_log w) (progress_log w) (skip_log w)
         (clock_reads w) k').
Proof.
  revert w. induction entries as [|entry entries IH]; intros w.
  - exists [], (random_draws w). cbn. rewrite app_nil_r.
    now destruct w as [[] ? ? ? ? ? ?].
  - cbn [for_each]. unfold bind at 1.
    destruct (persist_pillar_score_spec evalRunId modelId entry w)
      as (row & k1 & ->).
    match goal with |- context [for_each entries _ ?w1] =>
      destruct (IH w1) as (rows & k2 & ->) end.
    cbn. exists (row :: rows), k2. now rewrite <- app_assoc.
Qed.

Lemma finalize_spec evalRunId modelId startTime questions_length
    (ls : LoopState) (w : World) :
  exists result completedAt w',
    finalize clock random runsPerQuestion evalRunId modelId startTime
      questions_length ls w
    = (inr result, w') /\
    evaluationRuns (db w')
    = map (fun r => if Nat.eqb (run_id r) evalRunId
                    then completed_row completedAt r else r)
          (evaluationRuns (db w)) /\
    responses (db w') = responses (db w) /\
    generate_log w' = generate_log w /\
    grade_log w' = grade_log w /\
    skip_log w' = skip_log w.
Proof.
  unfold finalize. unfold bind at 1.
  match goal with |- context [for_each ?es _ w] =>
    destruct (pillar_loop_spec evalRunId modelId es w) as (rows & k1 & ->) end.
  unfold bind at 1.
  match goal with |- context [with_random (calculateBootstrapCI _ ?sc _ _) ?w1] =>
    destruct (with_random_bootstrap_spec sc w1)
      as (ci & lower & upper & k2 & -> & Hlower & Hupper) end.
  rewrite Hlower, Hupper.
  unfold bind, toFixed_defined, ret, insert_modelScore, modify_db, Date_now,
    update_run, progressCallback.
  cbn [db generate_log grade_log progress_log skip_log clock_reads
       random_draws next_id models evaluationRuns responses responseRuns
       pillarScores modelScores].
  eexists _, _, _. split; [reflexivity|].
  cbn [db generate_log grade_log progress_log skip_log clock_reads
       random_draws next_id models evaluationRuns responses responseRuns
       pillarScores modelScores].
  repeat split; reflexivity.
Qed.

End Run.

(** ** Resuming a run *)

Lemma loadPartialEvaluation_completed evalRunId (w : World) evalRun :
  List.find (fun r => Nat.eqb (run_id r) evalRunId) (evaluationRuns (db w))
  = Some evalRun ->
  run_status evalRun = "completed" ->
  loadPartialEvaluation evalRunId w = (inl (RunAlreadyCompleted evalRunId), w).
Proof.
  intros Hfind Hstatus.
  unfold loadPartialEvaluation, bind at 1, select_run, bind at 1, get_db,
    ret at 1.
  rewrite Hfind, Hstatus. reflexivity.
Qed.

Lemma loadPartialEvaluation_running evalRunId (w : World) evalRun :
  List.find (fun r => Nat.eqb (run_id r) evalRunId) (evaluationRuns (db w))
  = Some evalRun ->
  run_status evalRun <> "completed" ->
  exists allResponseRuns,
    loadPartialEvaluation evalRunId w
    = (inr (evalRun, responses_of evalRunId (db w), allResponseRuns), w).
Proof.
  intros Hfind Hstatus.
  unfold loadPartialEvaluation, bind at 1, select_run, bind at 1, get_db,
    ret at 1.
  rewrite Hfind.
  destruct (String.eqb_spec (run_status evalRun) "completed") as [Heq|_];
    [contradiction|].
  unfold bind at 1, select_responses, bind at 1, get_db, ret at 1.
  destruct (map_each_ok
              (fun response =>
                 bind (select_responseRuns (resp_id response))
                      (fun runs => ret (resp_id response, runs)))
              (responses_of evalRunId (db w)) w) as (runs & Hruns & _).
  { intros row _. eexists. reflexivity. }
  unfold bind at 1. rewrite Hruns. now exists runs.
Qed.

Lemma find_run_unique evalRunId (runs : list EvaluationRun) evalRun :
  NoDup (map run_id runs) ->
  List.find (fun r => Nat.eqb (run_id r) evalRunId) runs = Some evalRun ->
  In evalRun runs /\ run_id evalRun = evalRunId /\
  forall r, In r runs -> run_id r = evalRunId -> r = evalRun.
Proof.
  intros Hnd Hfind.
  destruct (List.find_some _ _ Hfind) as [Hin Hid].
  apply Nat.eqb_eq in Hid. repeat split; [assumption..|].
  intros r Hr Hrid.
  induction runs as [|r0 runs IH]; [contradiction|].
  cbn [map] in Hnd. apply NoDup_cons in Hnd as [Hfresh Hnd].
  assert (Hother : forall r', In r' runs -> run_id r' <> run_id r0).
  { intros r' Hr' Heq. apply Hfresh. rewrite <- Heq.
    apply list_elem_of_In. now apply in_map. }
  cbn [List.find] in Hfind.
  destruct Hr as [<-|Hr], Hin as [<-|Hin]; try reflexivity.
  - exfalso. apply (Hother evalRun Hin). congruence.
  - exfalso. apply (Hother r Hr). congruence.
  - destruct (Nat.eqb (run_id r0) evalRunId) eqn:Heq.
    + apply Nat.eqb_eq in Heq. exfalso. apply (Hother r Hr). congruence.
    + now apply IH.
Qed.

Lemma find_completed_row evalRunId completedAt (runs : list EvaluationRun) :
  (exists r, In r runs /\ run_id r = evalRunId) ->
  exists r,
    In r runs /\ run_id r = evalRunId /\
    List.find (fun r => Nat.eqb (run_id r) evalRunId)
      (map (fun r => if Nat.eqb (run_id r) evalRunId
                     then completed_row completedAt r else r) runs)
    = Some (completed_row completedAt r).
Proof.
  induction runs as [|r0 runs IH]; intros (r & Hin & Hid); [contradiction|].
  cbn [map List.find].
  destruct (Nat.eqb (run_id r0) evalRunId) eqn:Heq.
  - exists r0. cbn [run_id completed_row]. rewrite Heq.
    apply Nat.eqb_eq in Heq. repeat split; [now left | assumption].
  - rewrite Heq. destruct Hin as [<-|Hin].
    + apply Nat.eqb_neq in Heq. contradiction.
    + destruct IH as (r' & Hin' & Hid' & Hfind'); [now exists r|].
      exists r'. repeat split; [now right | assumption..].
Qed.

(** C3. Resuming a run whose row says [completed] fails with
    [RunAlreadyCompleted] and calls neither the generation client nor the
    judge.  Resuming a running run of [M = 2 * |questions|] pairs, [K] of
    which have their response row, succeeds when every call is answered:
    the [K] completed pairs are each skipped once, the other [M - K] pairs
    are the only ones generated, judged and stored, and the run row ends
    [completed] with [responsesCompleted = M]. *)
Theorem resume_completed_or_partial :
  (forall testModel_generate judge_grade schedule clock random modelConfig
          runsPerQuestion questions evalRunId (w : World) evalRun,
     List.find (fun r => Nat.eqb (run_id r) evalRunId) (evaluationRuns (db w))
     = Some evalRun ->
     run_status evalRun = "completed" ->
     exists w',
       runEvaluation testModel_generate judge_grade schedule clock random
         modelConfig runsPerQuestion questions (Some evalRunId) w
       = (inl (RunAlreadyCompleted evalRunId), w') /\
       db w' = db w /\ generate_log w' = generate_log w /\
       grade_log w' = grade_log w) /\
  (forall testModel_generate judge_grade schedule clock random modelConfig
          runsPerQuestion generated judged questions evalRunId (w : World)
          evalRun (K : nat),
     (forall n call, testModel_generate n call = inr (generated n call)) ->
     (forall call, judge_grade call = inr (judged call)) ->
     (forall idx variant,
        Permutation (schedule idx variant) (seq 0 runsPerQuestion)) ->
     (1 <= runsPerQuestion)%nat ->
     NoDup (map q_id questions) ->
     NoDup (map run_id (evaluationRuns (db w))) ->
     List.find (fun r => Nat.eqb (run_id r) evalRunId) (evaluationRuns (db w))
     = Some evalRun ->
     run_status evalRun <> "completed" ->
     run_responsesCompleted evalRun = Some (Z.of_nat K) ->
     let rows := responses_of evalRunId (db w) in
     length rows = K ->
     NoDup (map response_key rows) ->
     (forall row, In row rows ->
        is_pair_of questions row /\ responseRuns_of (resp_id row) (db w) <> []) ->
     let M := (2 * length questions)%nat in
     exists result w' skipped processed finalRun,
       runEvaluation testModel_generate judge_grade schedule clock random
         modelConfig runsPerQuestion questions (Some evalRunId) w
       = (inr result, w') /\
       skip_log w' = (skip_log w ++ skipped)%list /\
       Permutation skipped (map response_key rows) /\
       map response_key (responses (db w'))
       = (map response_key (responses (db w)) ++ processed)%list /\
       (forall k, In k processed -> ~ In k (map response_key rows)) /\
       length processed = (M - K)%nat /\
       length (generate_log w')
       = (length (generate_log w) + runsPerQuestion * (M - K))%nat /\
       length (grade_log w')
       = (length (grade_log w) + runsPerQuestion * (M - K))%nat /\
       List.find (fun r => Nat.eqb (run_id r) evalRunId)
         (evaluationRuns (db w'))
       = Some finalRun /\
       run_status finalRun = "completed" /\
       run_responsesCompleted finalRun = Some (Z.of_nat M)).
Proof.
  split.
  - intros testModel_generate judge_grade schedule clock random modelConfig
      runsPerQuestion questions evalRunId w evalRun Hfind Hstatus.
    unfold runEvaluation, bind at 1, Date_now. unfold bind at 1, bind at 1.
    rewrite (loadPartialEvaluation_completed evalRunId _ evalRun)
      by assumption.
    eexists. split; [reflexivity|]. repeat split; reflexivity.
  - intros testModel_generate judge_grade schedule clock random modelConfig
      runsPerQuestion generated judged questions evalRunId w evalRun K
      Hgen Hgrade Hsched Hruns Hids Hkeys Hfind Hstatus Hcounter rows Hlen
      Hrows Hpairs M.
    set (w0 := mkWorld (db w) (generate_log w) (grade_log w) (progress_log w)
                 (skip_log w) (S (clock_reads w)) (random_draws w)).
    destruct (loadPartialEvaluation_running evalRunId w0 evalRun Hfind Hstatus)
      as (allResponseRuns & Hload).
    destruct (load_existing_stats_ok evalRunId questions w0)
      as (stats0 & Hstats & _).
    { intros row Hrow. destruct (Hpairs row Hrow) as [(q & v & Hq & Hid & _) ?].
      split; [assumption|]. now exists q. }
    destruct (find_run_unique evalRunId _ evalRun Hkeys Hfind)
      as (Hin & Hid & Hunique).
    set (completedPairs :=
           (list_to_set (map response_key rows) : gset string)).
    set (startTime := match run_startedAt evalRun with
                      | Some t => t
                      | None => clock (clock_reads w)
                      end).
    destruct (process_questions_spec testModel_generate judge_grade schedule
                clock runsPerQuestion generated judged Hgen Hgrade Hsched
                Hruns evalRunId (run_modelId evalRun) startTime
                (length questions) completedPairs questions 0%nat
                (mkLoopState (Z.of_nat K) stats0) w0)
      as (ls1 & w1 & Hloop & Heffect & [Hrow1 Hsync1] & _).
    { split; [now exists evalRun|].
      intros r Hr Hrid. rewrite (Hunique r Hr Hrid). exact Hcounter. }
    destruct (finalize_spec clock random runsPerQuestion evalRunId
                (run_modelId evalRun) startTime (length questions) ls1 w1)
      as (result & completedAt & w2 & Hfinal & Hruns2 & Hresp2 & Hgen2
          & Hgrade2 & Hskip2).
    destruct (find_completed_row evalRunId completedAt _ Hrow1)
      as (r1 & Hr1 & Hid1 & Hfind1).
    destruct (skipped_and_processed questions rows Hids Hrows)
      as [Hperm Hcount].
    { intros row Hrow. now destruct (Hpairs row Hrow). }
    destruct Heffect as (Hskip1 & Hcv1 & _ & Hgen1 & Hgrade1 & Hresp1 & _ & _).
    fold completedPairs in Hperm, Hcount.
    exists result, w2,
      (filter (fun k => k ∈ completedPairs) (pair_keys questions)),
      (filter (fun k => k ∉ completedPairs) (pair_keys questions)),
      (completed_row completedAt r1).
    assert (Hprocessed :
      length (filter (fun k => k ∉ completedPairs) (pair_keys questions))
      = (M - K)%nat) by (unfold M; lia).
    split; [|repeat split].
    + unfold runEvaluation, bind at 1, Date_now. fold w0.
      unfold bind at 1, bind at 1. rewrite Hload.
      unfold ret at 1. cbn [fst snd].
      unfold bind at 1. rewrite Hstats.
      unfold bind at 1. rewrite Hcounter.
      fold startTime. change (db w0) with (db w).
      change (list_to_set _) with completedPairs.
      rewrite Hloop. exact Hfinal.
    + now rewrite Hskip2, Hskip1.
    + exact Hperm.
    + now rewrite Hresp2, Hresp1.
    + intros k Hk Hrowkey.
      apply list_elem_of_In, list_elem_of_filter in Hk as [Hnot _].
      apply Hnot. unfold completedPairs.
      now apply elem_of_list_to_set, list_elem_of_In.
    + exact Hprocessed.
    + rewrite Hgen2, Hgen1, Hprocessed. reflexivity.
    + rewrite Hgrade2, Hgrade1, Hprocessed. reflexivity.
    + rewrite Hruns2. exact Hfind1.
    + cbn [completed_row run_responsesCompleted].
      rewrite (Hsync1 r1 Hr1 Hid1), Hcv1, Hprocessed. f_equal.
      cbn [completedVariants]. unfold M. lia.
Qed.

(** ** The statements on the sample run *)

Lemma sample_schedule_ok (idx : nat) (variant : Variant) :
  Permutation (Sample.schedule idx variant) (seq 0 2).
Proof. apply perm_swap. Qed.

Lemma trial_parameters_and_representative_witness :
  (forall idx variant, Permutation (Sample.schedule idx variant) (seq 0 2)) /\
  (1 <= 2)%nat /\
  exists ls' w' response,
    evaluate_variant Sample.testModel_generate Sample.judge_grade
      Sample.schedule Sample.clock 2 7 3 0 1 0 Sample.question implicit
      (mkLoopState 1 []) Sample.interrupted
    = (inr ls', w') /\
    generate_log w'
    = [mkGenerateCall "Why do good works matter?" 2000 0 None (Some 0%Z);
       mkGenerateCall "Why do good works matter?" 2000 0.7 None None] /\
    responses (db w') = [Sample.explicit_row; response] /\
    resp_responseText response = "deterministic answer" /\
    resp_judgeReasoning response = "precise".
Proof.
  split; [exact sample_schedule_ok|]. split; [lia|].
  destruct (trial_parameters_and_representative
              Sample.testModel_generate Sample.judge_grade Sample.schedule
              Sample.clock 2 Sample.generated Sample.judged
              (fun n call => eq_refl) (fun call => eq_refl)
              sample_schedule_ok (le_S 1 1 (le_n 1))
              7%nat 3%nat 0%Z 1%nat 0%nat Sample.question implicit
              (mkLoopState 1 []) Sample.interrupted)
    as (ls' & w' & response & Heval & Hgen & Hresp & Htext & Hreason & _).
  exists ls', w', response.
  split; [exact Heval|]. split; [exact Hgen|]. split; [exact Hresp|].
  split; [exact Htext | exact Hreason].
Defined.

Lemma sample_questions_NoDup : NoDup (map q_id [Sample.question]).
Proof. apply NoDup_singleton. Qed.

Lemma sample_runs_NoDup :
  NoDup (map run_id (evaluationRuns (db Sample.interrupted))).
Proof. apply NoDup_singleton. Qed.

Lemma sample_rows_NoDup :
  NoDup (map response_key (responses_of 7 (db Sample.interrupted))).
Proof. apply NoDup_singleton. Qed.

Lemma sample_rows_are_pairs (row : ResponseRow) :
  In row (responses_of 7 (db Sample.interrupted)) ->
  is_pair_of [Sample.question] row
  /\ responseRuns_of (resp_id row) (db Sample.interrupted) <> [].
Proof.
  intros [<-|[]]. split; [|discriminate].
  exists Sample.question, explicit. repeat split. now left.
Qed.

Lemma sample_status_running : run_status Sample.run_row <> "completed".
Proof. discriminate. Qed.

Lemma resume_completed_or_partial_witness :
  exists result w' finalRun,
    runEvaluation Sample.testModel_generate Sample.judge_grade
      Sample.schedule Sample.clock Sample.random Sample.modelConfig 2
      [Sample.question] (Some 7%nat) Sample.interrupted
    = (inr result, w') /\
    skip_log w' = ["q1:explicit"] /\
    length (generate_log w') = 2%nat /\
    List.find (fun r => Nat.eqb (run_id r) 7) (evaluationRuns (db w'))
    = Some finalRun /\
    run_status finalRun = "completed" /\
    run_responsesCompleted finalRun = Some 2%Z.
Proof.
  destruct (proj2 resume_completed_or_partial
              Sample.testModel_generate Sample.judge_grade Sample.schedule
              Sample.clock Sample.random Sample.modelConfig 2%nat
              Sample.generated Sample.judged [Sample.question] 7%nat
              Sample.interrupted Sample.run_row 1%nat
              (fun n call => eq_refl) (fun call => eq_refl)
              sample_schedule_ok (le_S 1 1 (le_n 1))
              sample_questions_NoDup sample_runs_NoDup eq_refl
              sample_status_running eq_refl eq_refl sample_rows_NoDup
              sample_rows_are_pairs)
    as (result & w' & skipped & processed & finalRun & Hrun & Hskip & Hperm
        & _ & _ & _ & Hgen & _ & Hfind & Hstatus & Hcounter).
  exists result, w', finalRun.
  split; [exact Hrun|]. split.
  { rewrite Hskip. apply Permutation_sym, Permutation_length_1_inv in Hperm.
    now rewrite Hperm. }
  split; [exact Hgen|]. split; [exact Hfind|].
  split; [exact Hstatus | exact Hcounter].
Defined.

(** ** What the steps of a run leave as it is *)

Section Frame.

Variable I : World -> World -> Prop.
Hypothesis I_refl : forall w, I w w.
Hypothesis I_trans : forall w1 w2 w3, I w1 w2 -> I w2 w3 -> I w1 w3.
Hypothesis I_tables : forall w w', tables_same w w' -> I w w'.

Lemma keeps_ret {A} (a : A) : keeps I (ret a).
Proof. intros w. apply I_refl. Qed.

Lemma keeps_throw {A} (e : Error) : keeps I (@throw A e).
Proof. intros w. apply I_refl. Qed.

Lemma keeps_bind {A B} (m : M A) (f : A -> M B) :
  keeps I m -> (forall a, keeps I (f a)) -> keeps I (bind m f).
Proof.
  intros Hm Hf w. unfold bind. specialize (Hm w).
  destruct (m w) as [[e|a] w1]; cbn [snd] in *; [exact Hm|].
  eapply I_trans; [exact Hm|apply Hf].
Qed.

Lemma keeps_for_each {A} (xs : list A) (body : A -> M unit) :
  (forall x, keeps I (body x)) -> keeps I (for_each xs body).
Proof.
  intros Hbody. induction xs as [|x xs IH]; cbn [for_each].
  - apply keeps_ret.
  - apply keeps_bind; [apply Hbody|intros _; exact IH].
Qed.

Lemma keeps_map_each {A B} (xs : list A) (body : A -> M B) :
  (forall x, keeps I (body x)) -> keeps I (map_each xs body).
Proof.
  intros Hbody. induction xs as [|x xs IH]; cbn [map_each].
  - apply keeps_ret.
  - apply keeps_bind; [apply Hbody|]. intros y.
    apply keeps_bind; [exact IH|]. intros ys. apply keeps_ret.
Qed.

Lemma keeps_update_run (evalRunId : nat) (set : EvaluationRun -> EvaluationRun) :
  (forall r, run_id (set r) = run_id r /\ run_status (set r) = run_status r) ->
  keeps I (update_run evalRunId set).
Proof.
  intros Hset w. apply I_tables. repeat split.
  unfold run_statuses, update_run, modify_db.
  cbn [snd db evaluationRuns]. rewrite map_map. apply map_ext.
  intros r. destruct (Nat.eqb (run_id r) evalRunId); [|reflexivity].
  destruct (Hset r) as [-> ->]. reflexivity.
Qed.

Lemma keeps_Date_now clock : keeps I (Date_now clock).
Proof. intros w. apply I_tables. repeat split. Qed.

Lemma keeps_select_run evalRunId : keeps I (select_run evalRunId).
Proof. intros w. apply I_tables. repeat split. Qed.

Lemma keeps_select_responses evalRunId : keeps I (select_responses evalRunId).
Proof. intros w. apply I_tables. repeat split. Qed.

Lemma keeps_select_responseRuns responseId :
  keeps I (select_responseRuns responseId).
Proof. intros w. apply I_tables. repeat split. Qed.

Lemma keeps_select_model name : keeps I (select_model name).
Proof. intros w. apply I_tables. repeat split. Qed.

Lemma keeps_insert_response row : keeps I (insert_response row).
Proof. intros w. apply I_tables. repeat split. Qed.

Lemma keeps_insert_responseRun row : keeps I (insert_responseRun row).
Proof. intros w. apply I_tables. repeat split. Qed.

Lemma keeps_log_skip key : keeps I (log_skip key).
Proof. intros w. apply I_tables. repeat split. Qed.

Lemma keeps_progressCallback progress : keeps I (progressCallback progress).
Proof. intros w. apply I_tables. repeat split. Qed.

Lemma keeps_start_trial testModel_generate questionText idx :
  keeps I (start_trial testModel_generate questionText idx).
Proof. intros w. apply I_tables. repeat split. Qed.

Lemma keeps_grade judge_grade call : keeps I (grade judge_grade call).
Proof.
  intros w. apply I_tables.
  repeat split; unfold grade; destruct (judge_grade call); reflexivity.
Qed.

Lemma keeps_finish_trial judge_grade question questionText rubric generated :
  keeps I (finish_trial judge_grade question questionText rubric generated).
Proof.
  unfold finish_trial. destruct generated; [apply keeps_throw|].
  apply keeps_bind; [apply keeps_grade|]. intros j. apply keeps_ret.
Qed.

Lemma keeps_settle judge_grade question questionText rubric order pending :
  forall slots,
    keeps I
      (settle judge_grade question questionText rubric order pending slots).
Proof.
  induction order as [|idx order IH]; intros slots; cbn [settle].
  - apply keeps_ret.
  - destruct (pending !! idx); [|apply IH].
    apply keeps_bind; [apply keeps_finish_trial|]. intros r. apply IH.
Qed.

Lemma keeps_run_trials testModel_generate judge_grade schedule runsPerQuestion
    idx question variant questionText rubric :
  keeps I
    (run_trials testModel_generate judge_grade schedule runsPerQuestion idx
       question variant questionText rubric).
Proof.
  unfold run_trials.
  apply keeps_bind; [apply keeps_map_each; intros i; apply keeps_start_trial|].
  intros pending. apply keeps_bind; [apply keeps_settle|].
  intros slots. destruct (all_settled slots); [apply keeps_ret|apply keeps_throw].
Qed.

Lemma keeps_evaluate_variant testModel_generate judge_grade schedule clock
    runsPerQuestion evalRunId modelId startTime questions_length idx question
    variant ls :
  keeps I
    (evaluate_variant testModel_generate judge_grade schedule clock
       runsPerQuestion evalRunId modelId startTime questions_length idx
       question variant ls).
Proof.
  unfold evaluate_variant.
  apply keeps_bind; [apply keeps_run_trials|]. intros runs.
  destruct runs as [|deterministic rest]; [apply keeps_throw|].
  apply keeps_bind; [apply keeps_insert_response|]. intros response.
  apply keeps_bind.
  { apply keeps_for_each. intros ir. apply keeps_insert_responseRun. }
  intros _. apply keeps_bind; [apply keeps_Date_now|]. intros now.
  apply keeps_bind; [apply keeps_update_run; intros r; split; reflexivity|].
  intros _. apply keeps_bind; [apply keeps_progressCallback|].
  intros _. apply keeps_ret.
Qed.

Lemma keeps_process_questions testModel_generate judge_grade schedule clock
    runsPerQuestion evalRunId modelId startTime questions_length completedPairs
    questions :
  forall idx ls,
    keeps I
      (process_questions testModel_generate judge_grade schedule clock
         runsPerQuestion evalRunId modelId startTime questions_length
         completedPairs idx questions ls).
Proof.
  assert (Hvariant : forall idx question variant ls,
    keeps I
      (process_variant testModel_generate judge_grade schedule clock
         runsPerQuestion evalRunId modelId startTime questions_length
         completedPairs idx question variant ls)).
  { intros idx question variant ls. unfold process_variant.
    destruct (decide _).
    - apply keeps_bind; [apply keeps_log_skip|]. intros _. apply keeps_ret.
    - apply keeps_evaluate_variant. }
  induction questions as [|question questions IH]; intros idx ls;
    cbn [process_questions].
  - apply keeps_ret.
  - apply keeps_bind; [apply Hvariant|]. intros ls1.
    apply keeps_bind; [apply Hvariant|]. intros ls2. apply IH.
Qed.

Lemma keeps_loadPartialEvaluation evalRunId :
  keeps I (loadPartialEvaluation evalRunId).
Proof.
  unfold loadPartialEvaluation.
  apply keeps_bind; [apply keeps_select_run|]. intros [evalRun|];
    [|apply keeps_throw].
  destruct (String.eqb _ _); [apply keeps_throw|].
  apply keeps_bind; [apply keeps_select_responses|]. intros rows.
  apply keeps_bind.
  { apply keeps_map_each. intros response.
    apply keeps_bind; [apply keeps_select_responseRuns|]. intros runs.
    apply keeps_ret. }
  intros all. apply keeps_ret.
Qed.

Lemma keeps_load_existing_stats evalRunId questions :
  keeps I (load_existing_stats evalRunId questions).
Proof.
  unfold load_existing_stats.
  apply keeps_bind; [apply keeps_select_responses|]. intros rows.
  apply keeps_map_each. intros response.
  apply keeps_bind; [apply keeps_select_responseRuns|]. intros [|first rest];
    [apply keeps_throw|].
  destruct (List.find _ questions); [apply keeps_ret|apply keeps_throw].
Qed.

Lemma fails_within {A B} (m : M A) (f : A -> M B) (w w' : World) (e : Error) :
  keeps I m ->
  (forall a w1, f a w1 = (inl e, w') -> I w1 w') ->
  bind m f w = (inl e, w') -> I w w'.
Proof.
  intros Hm Hf. unfold bind. pose proof (Hm w) as Hk.
  destruct (m w) as [[e1|a] w1]; cbn [snd] in Hk.
  - intros [= <- <-]. exact Hk.
  - intros Hfa. eapply I_trans; [exact Hk|]. eapply Hf. exact Hfa.
Qed.

End Frame.

Lemma tables_same_refl (w : World) : tables_same w w.
Proof. repeat split. Qed.

Lemma tables_same_trans (w1 w2 w3 : World) :
  tables_same w1 w2 -> tables_same w2 w3 -> tables_same w1 w3.
Proof.
  intros (? & ? & ? & ?) (? & ? & ? & ?). repeat split; congruence.
Qed.

Lemma scores_untouched_refl (w : World) : scores_untouched w w.
Proof.
  split; [reflexivity|]. split; [reflexivity|]. exists [].
  rewrite app_nil_r. split; [reflexivity|constructor].
Qed.

Lemma scores_untouched_trans (w1 w2 w3 : World) :
  scores_untouched w1 w2 -> scores_untouched w2 w3 -> scores_untouched w1 w3.
Proof.
  intros (Hp1 & Hm1 & a1 & Hs1 & Ha1) (Hp2 & Hm2 & a2 & Hs2 & Ha2).
  split; [congruence|]. split; [congruence|].
  exists (a1 ++ a2)%list. split.
  - rewrite Hs2, Hs1. now rewrite <- app_assoc.
  - apply Forall_app. now split.
Qed.

Lemma scores_untouched_tables (w w' : World) :
  tables_same w w' -> scores_untouched w w'.
Proof.
  intros (_ & Hp & Hm & Hr). split; [exact Hp|]. split; [exact Hm|].
  exists []. rewrite app_nil_r. split; [exact Hr|constructor].
Qed.

Lemma keeps_scores_insert_model name version provider :
  keeps scores_untouched (insert_model name version provider).
Proof.
  intros w. split; [reflexivity|]. split; [reflexivity|]. exists [].
  rewrite app_nil_r. split; [reflexivity|constructor].
Qed.

Lemma keeps_scores_insert_run (row : nat -> EvaluationRun) :
  (forall id, run_status (row id) = "running") ->
  keeps scores_untouched (insert_run row).
Proof.
  intros Hrow w. split; [reflexivity|]. split; [reflexivity|].
  exists [(run_id (row (next_id (db w))), "running")].
  split; [|now repeat constructor].
  unfold run_statuses, insert_run, bind, fresh_id, modify_db, ret.
  cbn [snd db evaluationRuns next_id]. rewrite map_app. cbn [map].
  now rewrite Hrow.
Qed.

(** X22.  With a database whose reads and writes succeed, whatever the
    generation client and the judge do: when [runEvaluation] throws (a
    generation or a grading failed, the run to resume does not exist or is
    completed, a restored row has no trial or no question), it has written
    no pillar score and no model score, and no run has changed its status;
    the run it may have created is still [running]. *)
Theorem failed_run_writes_no_score
    (testModel_generate : nat -> GenerateCall -> string + string)
    (judge_grade : GradeCall -> string + Judgment)
    (schedule : nat -> Variant -> list nat) (clock : nat -> Z)
    (random : nat -> R) (modelConfig : ModelConfig) (runsPerQuestion : nat)
    (questions : list Question) (resumeEvalRunId : option nat)
    (w w' : World) (error : Error) :
  runEvaluation testModel_generate judge_grade schedule clock random
    modelConfig runsPerQuestion questions resumeEvalRunId w
  = (inl error, w') ->
  scores_untouched w w'.
Proof.
  pose proof scores_untouched_refl as Hrefl.
  pose proof scores_untouched_trans as Htrans.
  pose proof scores_untouched_tables as Htables.
  unfold runEvaluation. intros Hrun.
  eapply (fails_within _ Htrans); [now apply keeps_Date_now| |exact Hrun].
  intros startTime w1 H1.
  eapply (fails_within _ Htrans); [| |exact H1].
  { destruct resumeEvalRunId as [evalRunId|].
    - apply keeps_bind; [assumption|now apply keeps_loadPartialEvaluation|].
      intros st. now apply keeps_ret.
    - apply keeps_bind; [assumption|now apply keeps_select_model|].
      intros existing. apply keeps_bind; [assumption| |].
      { destruct existing; [now apply keeps_ret|].
        apply keeps_bind; [assumption|apply keeps_scores_insert_model|].
        intros m. now apply keeps_ret. }
      intros modelId.
      apply keeps_bind; [assumption| |intros r; now apply keeps_ret].
      apply keeps_scores_insert_run. reflexivity. }
  intros started w2 H2.
  eapply (fails_within _ Htrans); [| |exact H2].
  { destruct resumeEvalRunId;
      [now apply keeps_load_existing_stats|now apply keeps_ret]. }
  intros stats w3 H3.
  eapply (fails_within _ Htrans); [now apply keeps_process_questions| |exact H3].
  intros ls w4 H4. exfalso. cbv beta in H4.
  match type of H4 with finalize ?c ?r ?n ?e ?m ?s ?q ?l ?w0 = _ =>
    destruct (finalize_spec c r n e m s q l w0) as (result & t & w5 & Hfin & _)
  end.
  rewrite Hfin in H4. discriminate.
Qed.

Lemma failed_run_writes_no_score_witness :
  let w0 := mkWorld (mkDatabase 0 [] [] [] [] [] []) [] [] [] [] 0 0 in
  let w1 := mkWorld (mkDatabase 0 [] [] [] [] [] []) [] [] [] [] 1 0 in
  runEvaluation Sample.testModel_generate Sample.judge_grade Sample.schedule
    Sample.clock Sample.random Sample.modelConfig 2 [Sample.question]
    (Some 7%nat) w0
  = (inl (RunNotFound 7), w1) /\
  scores_untouched w0 w1.
Proof.
  cbv zeta. split; [reflexivity|].
  apply (failed_run_writes_no_score Sample.testModel_generate
           Sample.judge_grade Sample.schedule Sample.clock Sample.random
           Sample.modelConfig 2 [Sample.question] (Some 7%nat) _ _
           (RunNotFound 7)).
  reflexivity.
Defined.

(** ** The aggregate scores *)

Import StatisticsSpec.

Lemma ci_mean_value random (scores : list R) (cl : R) (iterations k : nat) :
  scores <> [] ->
  ci_mean (fst (calculateBootstrapCI random scores cl iterations k))
  = arithmetic_mean scores.
Proof.
  intros Hne. destruct scores as [|s0 [|s1 rest]]; [congruence| |].
  - cbn. unfold arithmetic_mean. cbn. field.
  - rewrite StatisticsFacts.calculateBootstrapCI_reads. cbn [ci_mean].
    unfold arithmetic_mean. now rewrite StatisticsFacts.reduce_sum_total.
Qed.

Lemma cm_variance_sample (scores : list R) :
  cm_variance (calculateConsistencyMetrics scores) = sample_variance scores.
Proof.
  destruct scores as [|s0 [|s1 rest]]; cbn [calculateConsistencyMetrics];
    [reflexivity..|].
  cbn [cm_variance]. unfold sample_variance. cbn [length Nat.leb].
  unfold arithmetic_mean.
  now rewrite StatisticsFacts.reduce_sqdev_total, StatisticsFacts.reduce_sum_total.
Qed.

(** *** Grouping by pillar *)

Lemma map_push_keys (key : Z) (x : R) (m : list (Z * list R)) :
  map fst (map_push key x m)
  = if decide (key ∈ map fst m) then map fst m
    else (map fst m ++ [key])%list.
Proof.
  induction m as [|[k xs] m IH]; cbn [map_push map fst].
  - destruct (decide (key ∈ [])) as [Hin|_]; [|reflexivity].
    now apply elem_of_nil in Hin.
  - destruct (Z.eqb_spec k key) as [->|Hne]; cbn [map fst].
    + destruct (decide (key ∈ key :: map fst m)) as [_|Hn]; [reflexivity|].
      exfalso. apply Hn. apply elem_of_cons. now left.
    + rewrite IH.
      destruct (decide (key ∈ map fst m)) as [Hin|Hn],
               (decide (key ∈ k :: map fst m)) as [Hin'|Hn'];
        try reflexivity.
      * exfalso. apply Hn'. apply elem_of_cons. now right.
      * apply elem_of_cons in Hin'. destruct Hin' as [?|?];
          [congruence|contradiction].
Qed.

Lemma map_push_In (key : Z) (x : R) (m : list (Z * list R)) (k : Z) (xs : list R) :
  NoDup (map fst m) ->
  In (k, xs) (map_push key x m) ->
  (k <> key /\ In (k, xs) m) \/
  (k = key /\ ((exists xs0, In (key, xs0) m /\ xs = (xs0 ++ [x])%list) \/
               ((key ∉ map fst m) /\ xs = [x]))).
Proof.
  induction m as [|[k0 xs0] m IH]; cbn [map_push]; intros Hnd.
  - intros [[= <- <-]|[]]. right. split; [reflexivity|]. right.
    split; [apply not_elem_of_nil|reflexivity].
  - cbn [map fst] in Hnd. apply NoDup_cons in Hnd. destruct Hnd as [Hk0 Hnd].
    destruct (Z.eqb_spec k0 key) as [->|Hne].
    + intros [[= <- <-]|Hin].
      * right. split; [reflexivity|]. left. exists xs0.
        split; [now left|reflexivity].
      * left. split; [|now right]. intros ->. apply Hk0.
        apply list_elem_of_In. apply in_map_iff. now exists (key, xs).
    + intros [[= <- <-]|Hin].
      * left. split; [exact Hne|now left].
      * destruct (IH Hnd Hin) as [[Hk Hin']|[-> [(ys & Hin' & ->)|[Hn ->]]]].
        -- left. split; [exact Hk|now right].
        -- right. split; [reflexivity|]. left. exists ys.
           split; [now right|reflexivity].
        -- right. split; [reflexivity|]. right. split; [|reflexivity].
           cbn [map fst]. intros Hin'. apply elem_of_cons in Hin'.
           destruct Hin' as [?|?]; [congruence|contradiction].
Qed.

Lemma pillar_percentages_snoc (pillarId : Z) (stats : list ResponseStat)
    (r : ResponseStat) :
  pillar_percentages pillarId (stats ++ [r])
  = (pillar_percentages pillarId stats
     ++ if (stat_pillar_id r =? pillarId)%Z then [percentage r] else [])%list.
Proof.
  unfold pillar_percentages. rewrite List.filter_app, map_app. cbn [List.filter].
  now destruct (stat_pillar_id r =? pillarId)%Z.
Qed.

Lemma pillar_percentages_absent (pillarId : Z) (stats : list ResponseStat) :
  (forall r, In r stats -> stat_pillar_id r <> pillarId) ->
  pillar_percentages pillarId stats = [].
Proof.
  intros Habsent. unfold pillar_percentages.
  induction stats as [|r stats IH]; [reflexivity|]. cbn [List.filter].
  destruct (Z.eqb_spec (stat_pillar_id r) pillarId) as [E|_].
  - exfalso. now apply (Habsent r (or_introl eq_refl)).
  - apply IH. intros r' Hr'. apply Habsent. now right.
Qed.

(** The [Map] that lines 430-446 build: one entry per pillar that occurs,
    holding the percentages of its pairs. *)
Lemma pillarScoreMap_groups (stats : list ResponseStat) :
  let groups :=
    fold_left
      (fun m response =>
         map_push (stat_pillar_id response)
           (mean_score response / max_score response * 100) m)
      stats [] in
  NoDup (map fst groups) /\
  (forall r, In r stats -> stat_pillar_id r ∈ map fst groups) /\
  (forall k xs, In (k, xs) groups ->
     xs = pillar_percentages k stats /\ xs <> []).
Proof.
  cbv zeta. induction stats as [|r stats IH] using rev_ind.
  - cbn. split; [constructor|]. split; intros; contradiction.
  - rewrite fold_left_app. cbn [fold_left].
    set (groups := fold_left _ stats []) in *.
    destruct IH as (Hnd & Hkeys & Hgroups).
    pose proof (map_push_keys (stat_pillar_id r)
                  (mean_score r / max_score r * 100) groups) as Hk.
    split; [|split].
    + rewrite Hk. destruct (decide (stat_pillar_id r ∈ map fst groups));
        [assumption|].
      apply NoDup_app. split; [assumption|]. split.
      * intros k Hin Hin'. apply list_elem_of_singleton in Hin'. now subst.
      * apply NoDup_singleton.
    + intros r' Hr'. rewrite Hk. apply in_app_or in Hr'.
      destruct (decide (stat_pillar_id r ∈ map fst groups)) as [Hin|Hn].
      * destruct Hr' as [Hr'|[<-|[]]]; [now apply Hkeys|assumption].
      * apply elem_of_app. destruct Hr' as [Hr'|[<-|[]]].
        -- left. now apply Hkeys.
        -- right. now apply list_elem_of_singleton.
    + intros k xs Hin.
      destruct (map_push_In _ _ _ _ _ Hnd Hin)
        as [[Hne Hin']|[-> [(ys & Hin' & ->)|[Hn ->]]]].
      * destruct (Hgroups k xs Hin') as [-> Hnonempty].
        split; [|assumption]. rewrite pillar_percentages_snoc.
        destruct (Z.eqb_spec (stat_pillar_id r) k); [congruence|].
        now rewrite app_nil_r.
      * destruct (Hgroups _ ys Hin') as [-> _]. split.
        -- rewrite pillar_percentages_snoc, Z.eqb_refl. reflexivity.
        -- intros E. now apply app_eq_nil in E as [_ [=]].
      * split; [|discriminate].
        rewrite pillar_percentages_snoc, Z.eqb_refl.
        rewrite pillar_percentages_absent; [reflexivity|].
        intros r' Hr' E. apply Hn. rewrite <- E. now apply Hkeys.
Qed.

Lemma with_random_bootstrap_value random (scores : list R) (w : World) :
  exists lower upper k',
    with_random (calculateBootstrapCI random scores 0.95 10000) w
    = (inr (mkCI (Some lower) (Some upper)
              (match scores with
               | [] => 0
               | _ :: _ => arithmetic_mean scores
               end)),
       mkWorld (db w) (generate_log w) (grade_log w) (progress_log w)
               (skip_log w) (clock_reads w) k').
Proof.
  destruct (StatisticsFacts.bootstrap_bounds_ordered random scores 0.95 10000
              (random_draws w))
    as (lower & upper & Hlower & Hupper & _);
    [lra | apply bootstrap_iterations_positive |].
  assert (Hmean :
    ci_mean (fst (calculateBootstrapCI random scores 0.95 10000 (random_draws w)))
    = match scores with [] => 0 | _ :: _ => arithmetic_mean scores end).
  { destruct scores as [|s0 rest]; [reflexivity|]. now apply ci_mean_value. }
  unfold with_random.
  destruct (calculateBootstrapCI random scores 0.95 10000 (random_draws w))
    as [[lo hi mean] k']. cbn [fst ci_lower ci_upper ci_mean] in *.
  subst lo hi mean. now exists lower, upper, k'.
Qed.

Lemma persist_pillar_score_row random evalRunId modelId (pillarId : Z)
    (group : list R) (w : World) :
  group <> [] ->
  exists row k',
    persist_pillar_score random evalRunId modelId (pillarId, group) w
    = (inr tt,
       mkWorld
         (mkDatabase (next_id (db w)) (models (db w)) (evaluationRuns (db w))
            (responses (db w)) (responseRuns (db w))
            (pillarScores (db w) ++ [row])%list (modelScores (db w)))
         (generate_log w) (grade_log w) (progress_log w) (skip_log w)
         (clock_reads w) k') /\
    is_pillar_row evalRunId modelId pillarId group row.
Proof.
  intros Hne. unfold persist_pillar_score. cbn [fst snd].
  destruct (with_random_bootstrap_value random group w)
    as (lower & upper & k' & Hci).
  unfold bind at 1. rewrite Hci. cbn [ci_lower ci_upper ci_mean].
  unfold bind, toFixed_defined, ret, insert_pillarScore, modify_db.
  cbn [db generate_log grade_log progress_log skip_log clock_reads
       random_draws next_id models evaluationRuns responses responseRuns
       pillarScores modelScores].
  eexists _, k'. split; [reflexivity|].
  unfold is_pillar_row.
  cbn [ps_evaluationRunId ps_modelId ps_pillarId ps_avgScore
       ps_sampleVariance ps_questionCount].
  rewrite cm_variance_sample.
  destruct group; [congruence|]. repeat split.
Qed.

Lemma pillar_loop_rows random evalRunId modelId (entries : list (Z * list R)) :
  (forall k xs, In (k, xs) entries -> xs <> []) ->
  forall w : World,
  exists rows k',
    for_each entries (persist_pillar_score random evalRunId modelId) w
    = (inr tt,
       mkWorld
         (mkDatabase (next_id (db w)) (models (db w)) (evaluationRuns (db w))
            (responses (db w)) (responseRuns (db w))
            (pillarScores (db w) ++ rows)%list (modelScores (db w)))
         (generate_log w) (grade_log w) (progress_log w) (skip_log w)
         (clock_reads w) k') /\
    Forall2 (fun entry row =>
               is_pillar_row evalRunId modelId (fst entry) (snd entry) row)
      entries rows.
Proof.
  induction entries as [|[k xs] entries IH]; intros Hne w.
  - exists [], (random_draws w). cbn. rewrite app_nil_r.
    split; [|constructor]. now destruct w as [[] ? ? ? ? ? ?].
  - cbn [for_each]. unfold bind at 1.
    destruct (persist_pillar_score_row random evalRunId modelId k xs w
                (Hne k xs (or_introl eq_refl)))
      as (row & k1 & -> & Hrow).
    match goal with |- context [for_each entries _ ?w1] =>
      destruct (IH (fun k' xs' H => Hne k' xs' (or_intror H)) w1)
        as (rows & k2 & -> & Hrows) end.
    cbn. exists (row :: rows), k2. rewrite <- app_assoc.
    split; [reflexivity|]. now constructor.
Qed.

Lemma finalize_effect clock random runsPerQuestion evalRunId modelId startTime
    questions_length (ls : LoopState) (w : World) :
  let stats := allResponseStats ls in
  let groups :=
    fold_left
      (fun m response =>
         map_push (stat_pillar_id response)
           (mean_score response / max_score response * 100) m)
      stats [] in
  let overall :=
    match map percentage stats with
    | [] => 0
    | _ :: _ => arithmetic_mean (map percentage stats)
    end in
  exists rows lower upper result w',
    finalize clock random runsPerQuestion evalRunId modelId startTime
      questions_length ls w
    = (inr result, w') /\
    Forall2 (fun entry row =>
               is_pillar_row evalRunId modelId (fst entry) (snd entry) row)
      groups rows /\
    result
    = mkResult evalRunId modelId overall (Some lower, Some upper) overall
        (Some lower, Some upper)
        (calculateAverageConsistencyScore (map stat_cv stats))
        (Z.of_nat (length stats)) /\
    models (db w') = models (db w) /\
    pillarScores (db w') = (pillarScores (db w) ++ rows)%list /\
    modelScores (db w')
    = (modelScores (db w)
       ++ [mkModelScoreRow modelId evalRunId (toFixed 2 overall)
             (toFixed 2 lower) (toFixed 2 upper) (toFixed 2 overall)
             (toFixed 2 lower) (toFixed 2 upper)
             (toFixed 2 (sample_variance (map percentage stats)))
             (toFixed 2
                (calculateAverageConsistencyScore (map stat_cv stats)))
             (Z.of_nat (length stats))])%list.
Proof.
  cbv zeta. unfold finalize. unfold bind at 1.
  destruct (pillarScoreMap_groups (allResponseStats ls)) as (_ & _ & Hgroups).
  cbv zeta in Hgroups.
  match goal with |- context [for_each ?es _ w] =>
    destruct (pillar_loop_rows random evalRunId modelId es
                (fun k xs H => proj2 (Hgroups k xs H)) w)
      as (rows & k1 & -> & Hrows) end.
  unfold bind at 1.
  match goal with |- context [with_random (calculateBootstrapCI _ ?sc _ _) ?w1] =>
    destruct (with_random_bootstrap_value random sc w1)
      as (lower & upper & k2 & ->) end.
  cbn [ci_lower ci_upper ci_mean].
  unfold bind, toFixed_defined, ret, insert_modelScore, modify_db, Date_now,
    update_run, progressCallback.
  cbn [db generate_log grade_log progress_log skip_log clock_reads
       random_draws next_id models evaluationRuns responses responseRuns
       pillarScores modelScores].
  rewrite cm_variance_sample.
  exists rows, lower, upper. eexists _, _. split; [reflexivity|].
  cbn [db models pillarScores modelScores].
  split; [exact Hrows|]. repeat split.
Qed.

Lemma pillar_rows_of_groups evalRunId modelId (groups : list (Z * list R))
    (rows : list PillarScoreRow) :
  Forall2 (fun entry row =>
             is_pillar_row evalRunId modelId (fst entry) (snd entry) row)
    groups rows ->
  map ps_pillarId rows = map fst groups /\
  forall row, In row rows ->
    exists k xs,
      In (k, xs) groups /\ is_pillar_row evalRunId modelId k xs row.
Proof.
  induction 1 as [|[k xs] row groups rows Hrow _ [IHkeys IHrows]].
  - split; [reflexivity|]. intros row [].
  - split.
    + cbn [map fst]. destruct Hrow as (_ & _ & -> & _). now rewrite IHkeys.
    + intros row' [<-|Hin].
      * exists k, xs. split; [now left|exact Hrow].
      * destruct (IHrows row' Hin) as (k' & xs' & Hin' & Hrow').
        exists k', xs'. split; [now right|exact Hrow'].
Qed.

Lemma pillarScoreMap_order (stats : list ResponseStat)
    (groups : list (Z * list R)) :
  map fst
    (fold_left
       (fun m response =>
          map_push (stat_pillar_id response)
            (mean_score response / max_score response * 100) m)
       stats groups)
  = fold_left
      (fun seen key =>
         if decide (key ∈ seen) then seen else (seen ++ [key])%list)
      (map stat_pillar_id stats) (map fst groups).
Proof.
  revert groups. induction stats as [|r stats IH]; intros groups;
    [reflexivity|].
  cbn [fold_left map]. rewrite IH, map_push_keys. reflexivity.
Qed.


(** The pillars 2, 1, 2, 3 of four pairs give the rows of the pillars 2, 1
    and 3, in this order. *)
Example first_occurrences_2_1_2_3 :
  PillarSpec.first_occurrences [2; 1; 2; 3]%Z = [2; 1; 3]%Z.
Proof. reflexivity. Qed.


(** ** A new run *)

Lemma filter_none {A} (P : A -> Prop) (H : forall x, Decision (P x))
    (l : list A) :
  (forall x, ~ P x) -> filter P l = [].
Proof.
  intros HP. induction l as [|x l IH]; [reflexivity|].
  rewrite filter_cons. destruct (decide (P x)); [now apply HP in p|exact IH].
Qed.

Lemma filter_every {A} (P : A -> Prop) (H : forall x, Decision (P x))
    (l : list A) :
  (forall x, P x) -> filter P l = l.
Proof.
  intros HP. induction l as [|x l IH]; [reflexivity|].
  rewrite filter_cons. destruct (decide (P x)) as [_|Hn];
    [now rewrite IH|now specialize (HP x)].
Qed.

Lemma new_run_synced (d : Database) (modelId : nat) (startTime : Z)
    (totalQuestions : Z) (w : World) :
  db w = d ->
  (forall r, In r (evaluationRuns d) -> (run_id r < next_id d)%nat) ->
  let row :=
    mkEvaluationRun (next_id d) modelId (Some startTime) None "running"
      totalQuestions 0 None None (Some 0%Z) None None in
  insert_run (fun id =>
    mkEvaluationRun id modelId (Some startTime) None "running" totalQuestions
      0 None None (Some 0%Z) None None) w
  = (inr row,
     mkWorld
       (mkDatabase (S (next_id d)) (models d) (evaluationRuns d ++ [row])
          (responses d) (responseRuns d) (pillarScores d) (modelScores d))
       (generate_log w) (grade_log w) (progress_log w) (skip_log w)
       (clock_reads w) (random_draws w)) /\
  counter_synced (next_id d) (mkLoopState 0 [])
    (mkWorld
       (mkDatabase (S (next_id d)) (models d) (evaluationRuns d ++ [row])
          (responses d) (responseRuns d) (pillarScores d) (modelScores d))
       (generate_log w) (grade_log w) (progress_log w) (skip_log w)
       (clock_reads w) (random_draws w)).
Proof.
  intros <- Hfresh. cbv zeta. split; [reflexivity|].
  unfold counter_synced. cbn [db evaluationRuns completedVariants]. split.
  - eexists. split; [apply in_or_app; right; now left|reflexivity].
  - intros r Hin Hid. apply in_app_or in Hin. destruct Hin as [Hin|[<-|[]]].
    + specialize (Hfresh r Hin). lia.
    + reflexivity.
Qed.

Section NewRun.

Variable testModel_generate : nat -> GenerateCall -> string + string.
Variable judge_grade : GradeCall -> string + Judgment.
Variable schedule : nat -> Variant -> list nat.
Variable clock : nat -> Z.
Variable random : nat -> R.
Variable modelConfig : ModelConfig.
Variable runsPerQuestion : nat.
Variable generated : nat -> GenerateCall -> string.
Variable judged : GradeCall -> Judgment.

Hypothesis generate_ok :
  forall n call, testModel_generate n call = inr (generated n call).
Hypothesis grade_ok : forall call, judge_grade call = inr (judged call).
Hypothesis schedule_ok :
  forall idx variant,
    Permutation (schedule idx variant) (seq 0 runsPerQuestion).
Hypothesis runs_positive : (1 <= runsPerQuestion)%nat.

(** What follows the creation of the run, from a world in which the run
    row is in step with the counter. *)
Lemma loop_then_finalize (evalRunId modelId : nat) (startTime : Z)
    (questions : list Question) (w : World) :
  counter_synced evalRunId (mkLoopState 0 []) w ->
  exists result w' run completedAt,
    bind
      (process_questions testModel_generate judge_grade schedule clock
         runsPerQuestion evalRunId modelId startTime (length questions)
         ∅ 0 questions (mkLoopState 0 []))
      (finalize clock random runsPerQuestion evalRunId modelId startTime
         (length questions)) w
    = (inr result, w') /\
    res_eval_run_id result = evalRunId /\
    res_model_id result = modelId /\
    res_total_responses result = Z.of_nat (2 * length questions) /\
    length (generate_log w')
    = (length (generate_log w) + runsPerQuestion * (2 * length questions))%nat /\
    length (grade_log w')
    = (length (grade_log w) + runsPerQuestion * (2 * length questions))%nat /\
    map response_key (responses (db w'))
    = (map response_key (responses (db w)) ++ pair_keys questions)%list /\
    skip_log w' = skip_log w /\
    models (db w') = models (db w) /\
    In run (evaluationRuns (db w')) /\
    run_id run = evalRunId /\
    run_status run = "completed" /\
    run_completedAt run = Some completedAt /\
    run_responsesCompleted run = Some (Z.of_nat (2 * length questions)).
Proof.
  intros Hsync.
  destruct (process_questions_spec testModel_generate judge_grade schedule
              clock runsPerQuestion generated judged generate_ok grade_ok
              schedule_ok runs_positive evalRunId modelId startTime
              (length questions) ∅ questions 0%nat (mkLoopState 0 []) w Hsync)
    as (ls & w1 & Hloop & Heffect & Hsync1 & _).
  pose proof (keeps_process_questions tables_same tables_same_refl
                tables_same_trans (fun _ _ H => H) testModel_generate
                judge_grade schedule clock runsPerQuestion evalRunId modelId
                startTime (length questions) ∅ questions 0%nat
                (mkLoopState 0 []) w) as Hsame.
  rewrite Hloop in Hsame. cbn [snd] in Hsame. destruct Hsame as (Hmodels & _).
  destruct Heffect as (Hskip & Hcount & Hstats & Hgen & Hgrade & Hkeys & _ & _).
  rewrite filter_none in Hskip by (intros k; apply not_elem_of_empty).
  rewrite filter_every in Hcount, Hstats, Hgen, Hgrade, Hkeys
    by (intros k; apply not_elem_of_empty).
  rewrite pair_keys_length in Hcount, Hstats, Hgen, Hgrade.
  cbn [completedVariants allResponseStats length] in *.
  destruct (finalize_effect clock random runsPerQuestion evalRunId modelId
              startTime (length questions) ls w1)
    as (rows & lower & upper & result & w' & Hfin & _ & Hresult & Hmodels' & _).
  destruct (finalize_spec clock random runsPerQuestion evalRunId modelId
              startTime (length questions) ls w1)
    as (result' & completedAt & w'' & Hfin' & Hruns & Hresp & Hgen' & Hgrade'
        & Hskip').
  rewrite Hfin in Hfin'. injection Hfin' as <- <-.
  destruct Hsync1 as [(run & Hin & Hid) Hcounter].
  exists result, w', (completed_row completedAt run), completedAt.
  split; [unfold bind; now rewrite Hloop|].
  rewrite Hresult.
  cbn [res_eval_run_id res_model_id res_total_responses]. rewrite Hstats.
  split; [reflexivity|]. split; [reflexivity|]. split; [reflexivity|].
  rewrite Hgen', Hgrade', Hresp, Hskip', Hmodels', Hruns.
  split; [exact Hgen|]. split; [exact Hgrade|]. split; [exact Hkeys|].
  split; [now rewrite Hskip, app_nil_r|]. split; [exact Hmodels|].
  split.
  { apply in_map_iff. exists run. split; [|exact Hin].
    now rewrite Hid, Nat.eqb_refl. }
  cbn [completed_row run_id run_status run_completedAt run_responsesCompleted].
  split; [exact Hid|]. split; [reflexivity|]. split; [reflexivity|].
  rewrite (Hcounter run Hin Hid), Hcount. reflexivity.
Qed.

(** X25.  A new run, when every call is answered: the model row is looked up by
    name and created only if there is none; the run makes
    [runsPerQuestion] generation calls and as many grading calls for each
    of the two variants of every question, stores one response per pair in
    the order of the question list, skips nothing, and ends with its row
    [completed] and its counter at twice the number of questions. *)
Theorem new_run_completes (questions : list Question) (w : World) :
  (forall r, In r (evaluationRuns (db w)) -> (run_id r < next_id (db w))%nat) ->
  exists result w' run completedAt,
    runEvaluation testModel_generate judge_grade schedule clock random
      modelConfig runsPerQuestion questions None w
    = (inr result, w') /\
    match
      List.find (fun m => String.eqb (model_name m) (mc_name modelConfig))
        (models (db w))
    with
    | Some m => models (db w') = models (db w) /\ res_model_id result = model_id m
    | None =>
        models (db w')
        = (models (db w)
           ++ [mkModelRow (next_id (db w)) (mc_name modelConfig)
                 (mc_version modelConfig) (mc_provider modelConfig)])%list /\
        res_model_id result = next_id (db w)
    end /\
    res_total_responses result = Z.of_nat (2 * length questions) /\
    length (generate_log w')
    = (length (generate_log w) + runsPerQuestion * (2 * length questions))%nat /\
    length (grade_log w')
    = (length (grade_log w) + runsPerQuestion * (2 * length questions))%nat /\
    map response_key (responses (db w'))
    = (map response_key (responses (db w)) ++ pair_keys questions)%list /\
    skip_log w' = skip_log w /\
    In run (evaluationRuns (db w')) /\
    run_id run = res_eval_run_id result /\
    run_status run = "completed" /\
    run_completedAt run = Some completedAt /\
    run_responsesCompleted run = Some (Z.of_nat (2 * length questions)).
Proof.
  intros Hfresh. unfold runEvaluation.
  unfold bind at 1, Date_now at 1.
  unfold bind at 1. unfold bind at 1, select_model at 1.
  unfold bind at 1, get_db at 1, ret at 1.
  cbn [db generate_log grade_log progress_log skip_log clock_reads
       random_draws].
  destruct (List.find _ (models (db w))) as [m|] eqn:Hfind.
  - unfold bind at 1, ret at 1. unfold bind at 1.
    match goal with |- context [insert_run ?row ?w0] =>
      destruct (new_run_synced (db w) (model_id m) (clock (clock_reads w))
                  (Z.of_nat (length questions)) w0 eq_refl Hfresh)
        as [Hinsert Hsync] end.
    cbv zeta in Hinsert, Hsync. rewrite Hinsert. unfold ret at 1.
    cbn [fst snd run_id]. unfold bind at 1, ret at 1.
    match goal with |- context [bind (process_questions _ _ _ _ _ _ _ _ _ _ _ _ _) _ ?w3] =>
      destruct (loop_then_finalize (next_id (db w)) (model_id m)
                  (clock (clock_reads w)) questions w3 Hsync)
        as (result & w' & run & completedAt & Hrun & Hrid & Hmid & Htotal & Hgen
            & Hgrade & Hkeys & Hskip & Hmodels & Hin & Hid & Hstatus & Hat
            & Hcounter) end.
    exists result, w', run, completedAt.
    split; [exact Hrun|].
    cbn [db models generate_log grade_log responses skip_log] in *.
    rewrite Hrid, Hmid. repeat split; first [assumption|reflexivity].
  - unfold bind at 1. unfold bind at 1, insert_model at 1.
    unfold bind at 1, fresh_id at 1. unfold bind at 1, modify_db at 1.
    unfold ret at 1. unfold ret at 1.
    cbn [db generate_log grade_log progress_log skip_log clock_reads
         random_draws next_id models evaluationRuns responses responseRuns
         pillarScores modelScores model_id].
    unfold bind at 1.
    match goal with |- context [insert_run ?row ?w0] =>
      destruct (new_run_synced (db w0) (next_id (db w))
                  (clock (clock_reads w)) (Z.of_nat (length questions)) w0
                  eq_refl)
        as [Hinsert Hsync] end.
    { cbn [db evaluationRuns next_id]. intros r Hr.
      specialize (Hfresh r Hr). lia. }
    cbv zeta in Hinsert, Hsync.
    cbn [db next_id models evaluationRuns responses responseRuns pillarScores
         modelScores generate_log grade_log progress_log skip_log clock_reads
         random_draws] in Hinsert, Hsync.
    rewrite Hinsert. unfold ret at 1.
    cbn [fst snd run_id]. unfold bind at 1, ret at 1.
    match goal with |- context [bind (process_questions _ _ _ _ _ _ _ _ _ _ _ _ _) _ ?w3] =>
      destruct (loop_then_finalize (S (next_id (db w))) (next_id (db w))
                  (clock (clock_reads w)) questions w3 Hsync)
        as (result & w' & run & completedAt & Hrun & Hrid & Hmid & Htotal & Hgen
            & Hgrade & Hkeys & Hskip & Hmodels & Hin & Hid & Hstatus & Hat
            & Hcounter) end.
    exists result, w', run, completedAt.
    split; [exact Hrun|].
    cbn [db models generate_log grade_log responses skip_log] in *.
    rewrite Hrid, Hmid. repeat split; first [assumption|reflexivity].
Qed.

End NewRun.

Lemma new_run_completes_witness :
  let w0 := mkWorld (mkDatabase 0 [] [] [] [] [] []) [] [] [] [] 0 0 in
  (forall r, In r (evaluationRuns (db w0)) -> (run_id r < next_id (db w0))%nat) /\
  exists result w' run,
    runEvaluation Sample.testModel_generate Sample.judge_grade Sample.schedule
      Sample.clock Sample.random Sample.modelConfig 2 [Sample.question] None w0
    = (inr result, w') /\
    models (db w') = [mkModelRow 0 "model" "v1" "lab"] /\
    res_total_responses result = 2%Z /\
    length (generate_log w') = 4%nat /\
    map response_key (responses (db w')) = ["q1:explicit"; "q1:implicit"] /\
    In run (evaluationRuns (db w')) /\
    run_id run = res_eval_run_id result /\
    run_status run = "completed" /\
    run_responsesCompleted run = Some 2%Z.
Proof.
  cbv zeta. split; [intros r []|].
  destruct (new_run_completes Sample.testModel_generate Sample.judge_grade
              Sample.schedule Sample.clock Sample.random Sample.modelConfig
              2%nat Sample.generated Sample.judged
              (fun n call => eq_refl) (fun call => eq_refl)
              sample_schedule_ok (le_S 1 1 (le_n 1)) [Sample.question]
              (mkWorld (mkDatabase 0 [] [] [] [] [] []) [] [] [] [] 0 0)
              (fun r (H : In r []) => match H with end))
    as (result & w' & run & completedAt & Hrun & [Hmodels _] & Htotal & Hgen & _
        & Hkeys & _ & Hin & Hid & Hstatus & _ & Hcounter).
  exists result, w', run.
  split; [exact Hrun|]. split; [exact Hmodels|]. split; [exact Htotal|].
  split; [exact Hgen|]. split; [exact Hkeys|]. split; [exact Hin|].
  split; [exact Hid|]. split; [exact Hstatus|exact Hcounter].
Defined.

End RunnerFacts.

(** * The judge's client *)

Module JudgeClientFacts.
Import Js Judge OpenRouter OpenRouterFacts JudgeClient.

Local Open Scope string_scope.

Lemma parseJudgment_returns
    (JSON_parse : string -> Exn JsValue) (judgmentText : string)
    (rubric : Rubric) :
  exists result,
    parseJudgment JSON_parse judgmentText rubric = inr result /\
    jr_max_score result = max_score rubric.
Proof.
  unfold parseJudgment, try_catch.
  destruct (parse_structured JSON_parse judgmentText rubric)
    as [e|result] eqn:Hstructured.
  - eexists. split; reflexivity.
  - exists result. split; [reflexivity|].
    unfold parse_structured, Js.bind, Js.ret in Hstructured.
    destruct (JSON_parse _) as [|v]; [discriminate|].
    destruct (get_property v "final_score"); [discriminate|].
    destruct (get_property v "overall_reasoning"); [discriminate|].
    destruct (get_property v "criteria_evaluations"); [discriminate|].
    now injection Hstructured as <-.
Qed.

(** X20.  [grade] sends the judge model one system message and the prompt at
    temperature 0 without a seed, in at most three requests.  It fails
    only when all three requests fail, with the error of [generate]
    wrapped; whatever text the judge returns, however malformed, yields a
    judgment with the rubric's [max_score]. *)
Theorem grade_fails_only_with_the_client
    (network : nat -> Payload -> FetchOutcome)
    (JSON_parse : string -> Exn JsValue)
    (buildJudgePrompt : string -> string -> Rubric -> option string -> string)
    (question response : string) (rubric : Rubric)
    (referenceAnswer : option string) (tr0 : Trace) :
  let prompt := buildJudgePrompt question response rubric referenceAnswer in
  let payload :=
    mkPayload judgeModel
      [mkMessage "system" judgeSystemMessage; mkMessage "user" prompt]
      2000 0 None in
  let attempt (k : nat) :=
    read_response (network (fetches tr0 + k)%nat payload) in
  let run :=
    grade network JSON_parse buildJudgePrompt question response rubric
      referenceAnswer tr0 in
  (fetches (snd run) <= fetches tr0 + 3)%nat /\
  (forall event, In event (snd run) -> In event tr0 \/ event = Fetch payload
                                       \/ exists ms, event = Sleep ms) /\
  (forall result, fst run = inr result ->
     jr_max_score result = max_score rubric) /\
  (forall error, fst run = inl error <->
     exists e0 e1 e2,
       attempt 0%nat = inl e0 /\ attempt 1%nat = inl e1 /\
       attempt 2%nat = inl e2 /\
       error = JudgeApiCallFailed (inl (FailedAfterAttempts 3 e2))).
Proof.
  cbv zeta. unfold grade. rewrite generate_unfold. cbv zeta.
  change (build_payload judgeModel
            (buildJudgePrompt question response rubric referenceAnswer)
            2000 0 (Some judgeSystemMessage) None)
    with (mkPayload judgeModel
            [mkMessage "system" judgeSystemMessage;
             mkMessage "user"
               (buildJudgePrompt question response rubric referenceAnswer)]
            2000 0 None).
  set (payload := mkPayload _ _ _ _ _).
  destruct (read_response (network (fetches tr0 + 0)%nat payload))
    as [e0|text0] eqn:H0.
  2: { destruct (parseJudgment_returns JSON_parse text0 rubric)
         as (result & -> & Hmax).
       cbn [fst snd]. rewrite fetches_snoc_Fetch.
       split; [lia|]. split; [|split].
       - intros event Hin. apply in_app_or in Hin.
         destruct Hin as [Hin|[<-|[]]]; auto.
       - now intros ? [= <-].
       - intros error. split; [discriminate|].
         intros (? & ? & ? & [=] & _). }
  destruct (read_response (network (fetches tr0 + 1)%nat payload))
    as [e1|text1] eqn:H1.
  2: { destruct (parseJudgment_returns JSON_parse text1 rubric)
         as (result & -> & Hmax).
       cbn [fst snd]. rewrite fetches_app. cbn [fetches].
       split; [lia|]. split; [|split].
       - intros event Hin. apply in_app_or in Hin.
         destruct Hin as [Hin|[<-|[<-|[<-|[]]]]]; eauto.
       - now intros ? [= <-].
       - intros error. split; [discriminate|].
         intros (? & ? & ? & _ & [=] & _). }
  destruct (read_response (network (fetches tr0 + 2)%nat payload))
    as [e2|text2] eqn:H2.
  2: { destruct (parseJudgment_returns JSON_parse text2 rubric)
         as (result & -> & Hmax).
       cbn [fst snd]. rewrite fetches_app. cbn [fetches].
       split; [lia|]. split; [|split].
       - intros event Hin. apply in_app_or in Hin.
         destruct Hin as [Hin|[<-|[<-|[<-|[<-|[<-|[]]]]]]]; eauto.
       - now intros ? [= <-].
       - intros error. split; [discriminate|].
         intros (? & ? & ? & _ & _ & [=] & _). }
  cbn [fst snd]. rewrite fetches_app. cbn [fetches].
  split; [lia|]. split; [|split].
  - intros event Hin. apply in_app_or in Hin.
    destruct Hin as [Hin|[<-|[<-|[<-|[<-|[<-|[]]]]]]]; eauto.
  - discriminate.
  - intros error. split.
    + intros [= <-]. now exists e0, e1, e2.
    + intros (? & ? & x2 & _ & _ & [= <-] & ->). reflexivity.
Qed.

End JudgeClientFacts.

(** * Magisterium client *)

Module MagisteriumFacts.
Import Magisterium.

Local Open Scope string_scope.

Lemma not_blank_trim (text : string) :
  not_blank text = true ->
  JsString.trim text <> "" /\
  JsString.trim (JsString.trim text) = JsString.trim text.
Proof.
  unfold not_blank. intros Hlen. split.
  - intros E. rewrite E in Hlen. discriminate.
  - apply OpenRouterFacts.trim_idempotent.
Qed.

Lemma read_result_not_blank (result : Completion) (text : string) :
  read_result result = inr text -> text <> "" /\ JsString.trim text = text.
Proof.
  unfold read_result.
  destruct (choices result) as [[|content rest]|]; try discriminate.
  assert (Hcit :
    match citations result with
    | Some (c :: cs) =>
        if not_blank (extractedText (c :: cs))
        then inr (JsString.trim (extractedText (c :: cs)))
        else inl (EmptyResponseContent result)
    | _ => inl (EmptyResponseContent result)
    end = inr text -> text <> "" /\ JsString.trim text = text).
  { destruct (citations result) as [[|c cs]|]; try discriminate.
    destruct (not_blank (extractedText (c :: cs))) eqn:Hnb; [|discriminate].
    intros [= <-]. now apply not_blank_trim. }
  destruct content as [raw|]; [|exact Hcit].
  destruct (not_blank raw) eqn:Hnb; [|exact Hcit].
  intros [= <-]. now apply not_blank_trim.
Qed.

Lemma requests_app (tr1 tr2 : Trace) :
  requests (tr1 ++ tr2)%list = (requests tr1 + requests tr2)%nat.
Proof.
  induction tr1 as [|[p l y|ms] tr1 IH]; simpl; [reflexivity|now rewrite IH..].
Qed.

Lemma magisterium_generate_unfold
    (modelName : string) (service : nat -> Payload -> CreateOutcome)
    (prompt : string) (maxTokens : Z) (temperature : R)
    (systemMessage : option string) (seed : option Z) (tr0 : Trace) :
  let payload :=
    build_payload modelName prompt maxTokens temperature systemMessage seed in
  let request := Throttled "magisterium" 5 payload in
  generate modelName service prompt maxTokens temperature systemMessage
    seed tr0
  = match read_outcome (service (requests tr0 + 0)%nat payload) with
    | inr text => (inr text, (tr0 ++ [request])%list)
    | inl _ =>
        match read_outcome (service (requests tr0 + 1)%nat payload) with
        | inr text =>
            (inr text, (tr0 ++ [request; Sleep 2000; request])%list)
        | inl _ =>
            match read_outcome (service (requests tr0 + 2)%nat payload) with
            | inr text =>
                (inr text,
                 (tr0 ++ [request; Sleep 2000; request; Sleep 4000;
                          request])%list)
            | inl error =>
                (inl (FailedAfterAttempts 3 error),
                 (tr0 ++ [request; Sleep 2000; request; Sleep 4000;
                          request])%list)
            end
        end
    end.
Proof.
  cbv zeta.
  set (payload := build_payload modelName prompt maxTokens temperature
                    systemMessage seed).
  unfold generate. fold payload.
  cbn [attempts maxRetries Nat.ltb Nat.leb Nat.sub].
  unfold try_catch, bind, throttled_create, setTimeout, throw.
  rewrite !requests_app. cbn [requests].
  rewrite <- !app_assoc. cbn [app]. rewrite !Nat.add_0_r.
  replace (requests tr0 + 1 + 1)%nat with (requests tr0 + 2)%nat by lia.
  reflexivity.
Qed.

(** X21.  A text that the Magisterium client returns is never empty and has no
    white space at either end.  A completion whose content is blank (or
    [null]) and whose citations hold no text is an error; three such
    completions in a row exhaust the retries, each request having gone
    through the rate limiter. *)
Theorem magisterium_text_never_blank
    (modelName : string) (service : nat -> Payload -> CreateOutcome)
    (prompt : string) (maxTokens : Z) (temperature : R)
    (systemMessage : option string) (seed : option Z) (tr0 : Trace) :
  let payload :=
    build_payload modelName prompt maxTokens temperature systemMessage seed in
  let request := Throttled "magisterium" 5 payload in
  let run :=
    generate modelName service prompt maxTokens temperature systemMessage
      seed tr0 in
  (forall text, fst run = inr text ->
     text <> "" /\ JsString.trim text = text) /\
  (forall content rest,
     (forall raw, content = Some raw -> JsString.trim raw = "") ->
     (forall n,
        service n payload
        = Created (mkCompletion (Some (content :: rest)) None)) ->
     run = (inl (FailedAfterAttempts 3
                   (EmptyResponseContent
                      (mkCompletion (Some (content :: rest)) None))),
            tr0 ++ [request; Sleep 2000; request; Sleep 4000; request])%list).
Proof.
  cbv zeta. rewrite magisterium_generate_unfold. cbv zeta.
  set (payload := build_payload modelName prompt maxTokens temperature
                    systemMessage seed).
  split.
  - intros text.
    assert (Hok : forall n t, read_outcome (service n payload) = inr t ->
                    t <> "" /\ JsString.trim t = t).
    { intros n t. unfold read_outcome.
      destruct (service n payload); [discriminate|]. apply read_result_not_blank. }
    destruct (read_outcome (service (requests tr0 + 0)%nat payload)) eqn:H0;
      [|cbn [fst]; intros [= <-]; now apply (Hok _ _ H0)].
    destruct (read_outcome (service (requests tr0 + 1)%nat payload)) eqn:H1;
      [|cbn [fst]; intros [= <-]; now apply (Hok _ _ H1)].
    destruct (read_outcome (service (requests tr0 + 2)%nat payload)) eqn:H2;
      [cbn [fst]; discriminate|cbn [fst]; intros [= <-]; now apply (Hok _ _ H2)].
  - intros content rest Hblank Hservice. rewrite !Hservice.
    assert (Hread : read_outcome (Created (mkCompletion (Some (content :: rest)) None))
                    = inl (EmptyResponseContent
                             (mkCompletion (Some (content :: rest)) None))).
    { unfold read_outcome, read_result. cbn [choices citations].
      destruct content as [raw|]; [|reflexivity].
      unfold not_blank. now rewrite (Hblank raw eq_refl). }
    rewrite Hread. reflexivity.
Qed.

End MagisteriumFacts.

(** * Published results *)

Module EvaluationsLoaderFacts.

Import Runner EvaluationsLoader StatisticsSpec.

Local Close Scope string_scope.

(** ** The weighted score *)

Lemma weighted_sums (qs : list QuestionResult) (a b : R) :
  fold_left
    (fun '(totalWeightedScore, totalWeight) question =>
       let weight := qr_weight question * qr_truth_hierarchy question in
       (totalWeightedScore
          + (qr_score question / qr_max_score question) * 100 * weight,
        totalWeight + weight))
    qs (a, b)
  = (a + total (map (fun q => question_percent q * question_weight q) qs),
     b + total (map question_weight qs)).
Proof.
  revert a b. induction qs as [|q qs IH]; intros a b; simpl.
  - f_equal; lra.
  - rewrite IH. unfold question_percent, question_weight. f_equal; lra.
Qed.

Lemma calculateWeightedScore_unfold (e : EvaluationResult) :
  calculateWeightedScore e
  = if Rlt_dec 0 (total (map question_weight (er_questions e)))
    then total (map (fun q => question_percent q * question_weight q)
                  (er_questions e))
         / total (map question_weight (er_questions e))
    else 0.
Proof.
  unfold calculateWeightedScore. rewrite weighted_sums.
  rewrite !Rplus_0_l. reflexivity.
Qed.

Lemma weighted_total_nonneg (qs : list QuestionResult) :
  Forall (fun q => 0 <= qr_score q /\ 0 < qr_max_score q /\
                   0 <= question_weight q) qs ->
  0 <= total (map (fun q => question_percent q * question_weight q) qs).
Proof.
  induction 1 as [|q qs (Hs & Hm & Hw) _ IH]; cbn [map total]; [lra|].
  assert (Hp : 0 <= question_percent q).
  { unfold question_percent. apply Rmult_le_pos; [|lra].
    apply Rmult_le_pos; [assumption|]. left. now apply Rinv_0_lt_compat. }
  pose proof (Rmult_le_pos _ _ Hp Hw). lra.
Qed.


(** The two answers of the sample, 80% with weight 2 and 50% with weight
    1, have the weighted score 70. *)
Example weighted_score_two_answers : calculateWeightedScore two_answers = 70.
Proof.
  rewrite calculateWeightedScore_unfold.
  unfold question_weight, question_percent. cbn.
  destruct (Rlt_dec 0 _) as [_|Hn]; lra.
Qed.

(** ** The leaderboard *)

Lemma sort_insert_permutation {A} (compare : A -> A -> R) (a : A)
    (l : list A) :
  Permutation (sort_insert compare a l) (a :: l).
Proof.
  induction l as [|b l IH]; simpl; [reflexivity|].
  destruct (Rle_dec (compare a b) 0); [reflexivity|].
  rewrite IH. apply perm_swap.
Qed.

Lemma Array_sort_permutation {A} (compare : A -> A -> R) (l : list A) :
  Permutation (Array_sort compare l) l.
Proof.
  induction l as [|a l IH]; simpl; [reflexivity|].
  rewrite sort_insert_permutation. constructor. exact IH.
Qed.

Lemma sort_insert_sorted (a : LeaderboardEntry) (l : list LeaderboardEntry) :
  StronglySorted shows_at_least l ->
  StronglySorted shows_at_least (sort_insert by_weighted_score a l).
Proof.
  induction 1 as [|b l Hl IH Hb]; simpl.
  - constructor; constructor.
  - destruct (Rle_dec (by_weighted_score a b) 0) as [Hle|Hgt].
    + constructor; [constructor; assumption|].
      constructor.
      * unfold shows_at_least. unfold by_weighted_score in Hle. lra.
      * eapply Forall_impl; [exact Hb|]. intros c Hc.
        unfold shows_at_least in *. unfold by_weighted_score in Hle. lra.
    + constructor; [exact IH|].
      rewrite sort_insert_permutation. constructor; [|exact Hb].
      unfold shows_at_least. unfold by_weighted_score in Hgt. lra.
Qed.

Lemma Array_sort_sorted (l : list LeaderboardEntry) :
  StronglySorted shows_at_least (Array_sort by_weighted_score l).
Proof.
  induction l as [|a l IH]; simpl; [constructor|].
  apply sort_insert_sorted, IH.
Qed.

Lemma sort_insert_stable (d : Decimal) (a : LeaderboardEntry)
    (l : list LeaderboardEntry) :
  filter (fun e => le_weightedScore e = d) (sort_insert by_weighted_score a l)
  = filter (fun e => le_weightedScore e = d) (a :: l).
Proof.
  induction l as [|b l IH]; simpl; [reflexivity|].
  destruct (Rle_dec (by_weighted_score a b) 0) as [Hle|Hgt]; [reflexivity|].
  rewrite filter_cons, IH, !filter_cons.
  destruct (decide (le_weightedScore b = d)) as [Hb|Hb];
    destruct (decide (le_weightedScore a = d)) as [Ha|Ha]; try reflexivity.
  exfalso. apply Hgt. unfold by_weighted_score. rewrite Ha, Hb. lra.
Qed.

Lemma Array_sort_stable (d : Decimal) (l : list LeaderboardEntry) :
  filter (fun e => le_weightedScore e = d) (Array_sort by_weighted_score l)
  = filter (fun e => le_weightedScore e = d) l.
Proof.
  induction l as [|a l IH]; simpl; [reflexivity|].
  rewrite sort_insert_stable, !filter_cons, IH. reflexivity.
Qed.

Lemma eval_id_injective (i j : nat) : eval_id i = eval_id j -> i = j.
Proof.
  unfold eval_id. rewrite !JudgeFacts.append_cons, !JudgeFacts.append_nil_l.
  intros H. injection H as H.
  assert (Hu : Nat.to_uint i = Nat.to_uint j).
  { assert (Hs : Some (Nat.to_uint i) = Some (Nat.to_uint j))
      by (rewrite <- !NilEmpty.usu, H; reflexivity).
    congruence. }
  rewrite <- (DecimalNat.Unsigned.of_to i), <- (DecimalNat.Unsigned.of_to j).
  congruence.
Qed.

Lemma indexed_from_ids {A} (entry : nat -> A -> LeaderboardEntry)
    (Hid : forall i a, le_id (entry i a) = eval_id i) (l : list A) (s : nat) :
  map le_id (map (fun ie => entry (fst ie) (snd ie)) (indexed_from s l))
  = map eval_id (seq s (length l)).
Proof.
  revert s. induction l as [|a l IH]; intros s; simpl; [reflexivity|].
  rewrite Hid, IH. reflexivity.
Qed.

Lemma indexed_from_lookup {A} (l : list A) (s i : nat) (a : A) :
  l !! i = Some a -> indexed_from s l !! i = Some ((s + i)%nat, a).
Proof.
  revert s i. induction l as [|b l IH]; intros s [|i] H; simpl in *;
    try discriminate.
  - injection H as ->. rewrite Nat.add_0_r. reflexivity.
  - rewrite (IH (S s) i H). do 2 f_equal. lia.
Qed.

(** X27.  The leaderboard holds one entry per evaluation of the file,
    numbered [eval-i] by its position in the file (not by its rank), in
    descending order of the displayed weighted score; entries that display
    the same weighted score keep the order of the file, and no two entries
    share an id. *)
Theorem leaderboard_sorted_stable (data : EvaluationsData) :
  Forall well_scored (ed_evaluations data) ->
  let entries :=
    map (fun ie => leaderboard_entry (fst ie) (snd ie))
      (indexed_from 0 (ed_evaluations data)) in
  Permutation (getLeaderboard data) entries /\
  StronglySorted shows_at_least (getLeaderboard data) /\
  (forall d : Decimal,
     filter (fun e => le_weightedScore e = d) (getLeaderboard data)
     = filter (fun e => le_weightedScore e = d) entries) /\
  NoDup (map le_id (getLeaderboard data)) /\
  (forall idx e, ed_evaluations data !! idx = Some e ->
     leaderboard_entry idx e ∈ getLeaderboard data).
Proof.
  intros _ entries. unfold getLeaderboard. fold entries.
  pose proof (Array_sort_permutation by_weighted_score entries) as Hperm.
  split; [exact Hperm|].
  split; [apply Array_sort_sorted|].
  split; [intros d; apply Array_sort_stable|].
  split.
  - rewrite Hperm. unfold entries.
    rewrite (indexed_from_ids leaderboard_entry) by reflexivity.
    apply NoDup_fmap_2; [|apply NoDup_seq].
    intros i j. apply eval_id_injective.
  - intros idx e He. rewrite Hperm. unfold entries.
    apply list_elem_of_lookup. exists idx.
    rewrite list_lookup_fmap, (indexed_from_lookup _ 0 idx e He). reflexivity.
Qed.

Lemma leaderboard_sorted_stable_witness :
  Permutation (getLeaderboard two_models)
    [ leaderboard_entry 0 two_answers; leaderboard_entry 1 three_answers ].
Proof.
  apply (leaderboard_sorted_stable two_models).
  repeat constructor; simpl; lra.
Defined.

(** ** Pillar scores *)

Lemma count_or_0_set (counts : Counts) (key k : R) (value : nat) :
  count_or_0 (set_count counts key value) k
  = if Req_dec_T k key then value else count_or_0 counts k.
Proof.
  unfold count_or_0, set_count. destruct (Req_dec_T k key); reflexivity.
Qed.

Lemma count_questions (qs : list QuestionResult) (counts : Counts) (k : R) :
  count_or_0 (fold_left count_question qs counts) k
  = (count_or_0 counts k + questions_of_pillar k qs)%nat.
Proof.
  revert counts. induction qs as [|q qs IH]; intros counts; simpl.
  - lia.
  - rewrite IH. unfold count_question. rewrite count_or_0_set.
    destruct (Req_dec_T k (qr_pillar_id q)) as [->|Hne];
      destruct (Req_dec_T (qr_pillar_id q) _) as [Heq|Hne']; try lia.
    + contradiction.
    + symmetry in Heq. contradiction.
Qed.

Lemma pillar_entries_spec (idx : nat) (e : EvaluationResult) :
  pillar_entries idx e
  = map (fun ps =>
           mkPillarScoreEntry (eval_id idx) (fst ps) (toFixed 1 (snd ps))
             (questions_of_pillar (fst ps) (er_questions e)))
      [ (1, pillar_1 (er_pillar_scores e)); (2, pillar_2 (er_pillar_scores e));
        (3, pillar_3 (er_pillar_scores e)); (4, pillar_4 (er_pillar_scores e)) ].
Proof.
  unfold pillar_entries. simpl. rewrite !count_questions. reflexivity.
Qed.

Lemma push_entries {A B} (f : A -> list B) (l : list A) (acc : list B) :
  fold_left (fun scores a => (scores ++ f a)%list) l acc
  = (acc ++ concat (map f l))%list.
Proof.
  revert acc. induction l as [|a l IH]; intros acc; simpl.
  - rewrite app_nil_r. reflexivity.
  - rewrite IH, app_assoc. reflexivity.
Qed.

Lemma blocks_of_four {A B} (f : A -> list B) (l : list A) (i : nat) (a : A) :
  (forall x, length (f x) = 4%nat) ->
  l !! i = Some a ->
  take 4 (drop (4 * i) (concat (map f l))) = f a.
Proof.
  intros Hlen. revert i. induction l as [|b l IH]; intros [|i] H;
    try discriminate.
  - injection H as ->. change (4 * 0)%nat with 0%nat.
    rewrite drop_0. change (concat (map f (a :: l))) with (f a ++ concat (map f l))%list.
    rewrite take_app_length'; [reflexivity|symmetry; apply Hlen].
  - change (concat (map f (b :: l))) with (f b ++ concat (map f l))%list.
    replace (4 * S i)%nat with (length (f b) + 4 * i)%nat by (rewrite Hlen; lia).
    rewrite drop_app_add. apply IH, H.
Qed.

Lemma length_blocks {A B} (f : A -> list B) (l : list A) :
  (forall x, length (f x) = 4%nat) ->
  length (concat (map f l)) = (4 * length l)%nat.
Proof.
  intros Hlen. induction l as [|a l IH]; [reflexivity|].
  change (concat (map f (a :: l))) with (f a ++ concat (map f l))%list.
  rewrite length_app, IH, Hlen. simpl. lia.
Qed.

Lemma indexed_from_length {A} (l : list A) (s : nat) :
  length (indexed_from s l) = length l.
Proof.
  revert s. induction l as [|a l IH]; intros s; simpl; [reflexivity|].
  rewrite IH. reflexivity.
Qed.

Lemma questions_by_pillar (qs : list QuestionResult) :
  Forall (fun q => qr_pillar_id q = 1 \/ qr_pillar_id q = 2 \/
                   qr_pillar_id q = 3 \/ qr_pillar_id q = 4) qs ->
  (questions_of_pillar 1 qs + questions_of_pillar 2 qs
   + questions_of_pillar 3 qs + questions_of_pillar 4 qs)%nat = length qs.
Proof.
  induction 1 as [|q qs Hq _ IH]; simpl; [reflexivity|].
  rewrite <- IH.
  destruct (Req_dec_T (qr_pillar_id q) 1), (Req_dec_T (qr_pillar_id q) 2),
    (Req_dec_T (qr_pillar_id q) 3), (Req_dec_T (qr_pillar_id q) 4);
    try lia; try lra.
Qed.

(** X28.  The pillar scores hold four entries per evaluation, in file order:
    for the evaluation at position [idx], entries [4*idx .. 4*idx+3] are
    pillars 1 to 4 under the id [eval-idx], each with the pillar score of
    the file to one decimal and the number of the evaluation's questions
    filed under that pillar.  When every question is filed under pillar 1,
    2, 3 or 4 the four counts add up to the number of questions. *)
Theorem pillar_scores_four_per_evaluation (data : EvaluationsData)
    (idx : nat) (e : EvaluationResult) :
  ed_evaluations data !! idx = Some e ->
  length (getPillarScores data) = (4 * length (ed_evaluations data))%nat /\
  take 4 (drop (4 * idx) (getPillarScores data))
  = map (fun ps =>
           mkPillarScoreEntry (eval_id idx) (fst ps) (toFixed 1 (snd ps))
             (questions_of_pillar (fst ps) (er_questions e)))
      [ (1, pillar_1 (er_pillar_scores e)); (2, pillar_2 (er_pillar_scores e));
        (3, pillar_3 (er_pillar_scores e)); (4, pillar_4 (er_pillar_scores e)) ] /\
  (Forall (fun q => qr_pillar_id q = 1 \/ qr_pillar_id q = 2 \/
                    qr_pillar_id q = 3 \/ qr_pillar_id q = 4) (er_questions e) ->
   list_sum (map pe_questionCount
               (take 4 (drop (4 * idx) (getPillarScores data))))
   = length (er_questions e)).
Proof.
  intros He. unfold getPillarScores.
  rewrite (push_entries (fun ie => pillar_entries (fst ie) (snd ie))).
  rewrite app_nil_l.
  assert (Hblock :
    take 4 (drop (4 * idx)
      (concat (map (fun ie => pillar_entries (fst ie) (snd ie))
                 (indexed_from 0 (ed_evaluations data)))))
    = pillar_entries idx e).
  { rewrite (blocks_of_four _ _ idx (idx, e)); [reflexivity|reflexivity|].
    rewrite (indexed_from_lookup _ 0 idx e He). reflexivity. }
  split; [|split].
  - rewrite length_blocks by reflexivity.
    rewrite indexed_from_length. reflexivity.
  - rewrite Hblock. apply pillar_entries_spec.
  - intros Hall. rewrite Hblock, pillar_entries_spec. simpl.
    rewrite <- (questions_by_pillar _ Hall). lia.
Qed.

Lemma pillar_scores_four_per_evaluation_witness :
  length (getPillarScores two_models) = 8%nat /\
  list_sum (map pe_questionCount (take 4 (drop 4 (getPillarScores two_models))))
  = 3%nat.
Proof.
  destruct (pillar_scores_four_per_evaluation two_models 1 three_answers)
    as (Hlen & _ & Hsum); [reflexivity|].
  split; [exact Hlen|].
  apply Hsum. repeat constructor; simpl; lra.
Defined.

End EvaluationsLoaderFacts.

(** * Command line *)

Module RunEvalFacts.

Import Runner RunEval.

Local Close Scope string_scope.

Lemma truthy_string_inv (s : option string) :
  truthy_string s = true -> exists c t, s = Some (String c t).
Proof.
  destruct s as [[|c t]|]; try discriminate. intros _. eauto.
Qed.

Lemma truthy_number_inv (n : option Number) :
  truthy_number n = true -> exists z, n = Some (Int z) /\ z <> 0%Z.
Proof.
  destruct n as [[|z]|]; try discriminate. simpl.
  destruct (Z.eqb_spec z 0); [discriminate|]. intros _. eauto.
Qed.

Lemma follows_here (flag value : string) (rest : list string) :
  follows flag value (flag :: value :: rest).
Proof. exists [], rest. reflexivity. Qed.

Lemma follows_later (flag value : string) (skipped rest : list string) :
  follows flag value rest -> follows flag value (skipped ++ rest).
Proof.
  intros (before & after & ->). exists (skipped ++ before), after.
  rewrite <- app_assoc. reflexivity.
Qed.

Lemma set_by_later (skipped rest : list string) (o o1 o' : Options) :
  set_by rest o1 o' ->
  (modelName o1 = modelName o \/
   exists value, follows "--model" value (skipped ++ rest) /\
                 truthy_string (Some value) = true /\
                 modelName o1 = Some value) ->
  (runsPerQuestion o1 = runsPerQuestion o \/
   exists value, follows "--runs" value (skipped ++ rest) /\
                 runsPerQuestion o1 = Some (parseInt value)) ->
  set_by (skipped ++ rest) o o'.
Proof.
  intros [Hm Hr] Hm1 Hr1. split.
  - destruct Hm as [Hm|(v & Hf & Ht & Hm)].
    + rewrite Hm. exact Hm1.
    + right. exists v. split; [apply follows_later, Hf|]. split; assumption.
  - destruct Hr as [Hr|(v & Hf & Hr)].
    + rewrite Hr. exact Hr1.
    + right. exists v. split; [apply follows_later, Hf|assumption].
Qed.

Section MainFacts.

Variable default_questionsPath : string.
Variable resolve : string -> string.
Variable OPENROUTER_API_KEY : option string.
Variable MAGISTERIUM_API_KEY : option string.
Variable QuestionLoader_load : string -> string + list Question.

Lemma parse_args_set_by (n : nat) :
  forall (args : list string) (o o' : Options),
    (length args <= n)%nat ->
    parse_args resolve args o = Some o' -> set_by args o o'.
Proof.
  induction n as [|n IH]; intros args o o' Hlen Hparse.
  - destruct args; [|simpl in Hlen; lia].
    simpl in Hparse. injection Hparse as <-. split; left; reflexivity.
  - destruct args as [|a rest].
    { simpl in Hparse. injection Hparse as <-. split; left; reflexivity. }
    cbn [parse_args] in Hparse.
    assert (Hskip : forall o1,
      truthy_string (next_arg rest) = true ->
      parse_args resolve (after_next rest) o1 = Some o' ->
      exists value rest',
        rest = value :: rest' /\ next_arg rest = Some value /\
        set_by rest' o1 o').
    { intros o1 Ht Hp. destruct rest as [|b rest']; [discriminate|].
      exists b, rest'. repeat split; try reflexivity.
      - apply (IH rest' o1 o'); [simpl in Hlen; lia|exact Hp].
      - apply (IH rest' o1 o'); [simpl in Hlen; lia|exact Hp]. }
    assert (Hrest : forall x, parse_args resolve rest o = Some o' ->
                      set_by (x :: rest) o o').
    { intros x Hp. change (x :: rest) with ([x] ++ rest)%list.
      eapply set_by_later;
        [apply (IH rest o o'); [simpl in Hlen; lia|exact Hp]
        |left; reflexivity|left; reflexivity]. }
    clear IH Hlen.
    destruct (truthy_string (next_arg rest)) eqn:Ht.
    + specialize (fun o1 => Hskip o1 eq_refl).
      repeat match type of Hparse with
      | (if (?c && true)%bool then _ else _) = _ =>
          let Hc := fresh "Hc" in
          destruct c eqn:Hc;
          [first [ cbv in Hc; discriminate Hc
                 | apply String.eqb_eq in Hc; subst a ]
          |];
          cbn [andb] in Hparse
      end.
      all: try match type of Hparse with
      | parse_args _ (after_next _) _ = _ =>
          destruct (Hskip _ Hparse) as (value & rest' & -> & Hnext & Hset);
          rewrite Hnext in *; cbn [text_of] in *;
          match goal with
          | |- set_by (?x :: value :: rest') _ _ =>
              change (x :: value :: rest') with ([x; value] ++ rest')%list
          end;
          eapply set_by_later; [exact Hset| |];
          cbn [modelName runsPerQuestion];
          first [ left; reflexivity
                | right; eexists; split; [apply follows_here|]; try split;
                  solve [reflexivity|assumption] ]
      end.
      destruct ((a =? "--help")%string || (a =? "-h")%string)%bool;
        [discriminate|].
      apply Hrest, Hparse.
    + rewrite !andb_false_r in Hparse.
      destruct ((a =? "--help")%string || (a =? "-h")%string)%bool;
        [discriminate|].
      apply Hrest, Hparse.
Qed.

(** What is known once [main] awaits an evaluation. *)
Lemma run_evaluates (o : Options) (runner : EvalRunner)
    (questions : list Question) (resume : option string) :
  run OPENROUTER_API_KEY MAGISTERIUM_API_KEY QuestionLoader_load o
  = Evaluate runner questions resume ->
  (exists name entry,
     modelName o = Some name /\
     own_property name allModelConfigs = Some entry /\
     runner_modelConfig runner = Config entry /\
     ((exists key model,
         ce_magisterium_model entry = Some model /\
         MAGISTERIUM_API_KEY = Some key /\ key <> EmptyString /\
         testModel runner = MagisteriumClient key model (timeoutMs o)) \/
      (exists key model,
         ce_openrouter_model entry = Some model /\
         OPENROUTER_API_KEY = Some key /\ key <> EmptyString /\
         testModel runner = OpenRouterClient key model (timeoutMs o)))) /\
  (exists n,
     runner_runsPerQuestion runner = Some (Int n) /\ (1 <= n <= 10)%Z /\
     (runsPerQuestion o = Some (Int n) \/
      (n = 3%Z /\ truthy_string (resumeEvalRunId o) = true /\
       truthy_number (runsPerQuestion o) = false))) /\
  resume = resumeEvalRunId o.
Proof.
  unfold run.
  destruct (negb (truthy_string (resumeEvalRunId o))
            && negb (truthy_string (modelName o)))%bool eqn:H1;
    [discriminate|].
  destruct (negb (truthy_string (resumeEvalRunId o))
            && negb (truthy_number (runsPerQuestion o)))%bool eqn:H2;
    [discriminate|].
  destruct (truthy_number (runsPerQuestion o)
            && match runsPerQuestion o with
               | Some n => isNaN n || Number_lt n 1 || Number_gt n 10
               | None => false
               end)%bool eqn:H3; [discriminate|].
  destruct (truthy_string (modelName o)
            && negb (has_property (text_of (modelName o)) allModelConfigs))%bool
    eqn:H4; [discriminate|].
  unfold start.
  destruct (QuestionLoader_load (questionsPath o)) as [message|qs];
    [discriminate|].
  (* the runs that reach the constructor *)
  assert (Hruns : forall runs,
    runs = (if truthy_string (resumeEvalRunId o)
            then if negb (truthy_number (runsPerQuestion o))
                 then Some (Int 3) else runsPerQuestion o
            else runsPerQuestion o) ->
    exists n, runs = Some (Int n) /\ (1 <= n <= 10)%Z /\
      (runsPerQuestion o = Some (Int n) \/
       (n = 3%Z /\ truthy_string (resumeEvalRunId o) = true /\
        truthy_number (runsPerQuestion o) = false))).
  { intros runs ->.
    destruct (truthy_number (runsPerQuestion o)) eqn:Hn.
    - destruct (truthy_number_inv _ Hn) as (z & Hz & Hz0).
      rewrite Hz in H3. cbn [andb isNaN Number_lt Number_gt orb] in H3.
      apply orb_false_elim in H3 as [Hlt Hgt].
      apply Z.ltb_ge in Hlt. apply Z.ltb_ge in Hgt.
      exists z. cbn [negb]. rewrite Hz.
      destruct (truthy_string (resumeEvalRunId o));
        (split; [reflexivity|]; split; [lia|left; reflexivity]).
    - destruct (truthy_string (resumeEvalRunId o)) eqn:Hr;
        [|discriminate].
      exists 3%Z. cbn [negb]. split; [reflexivity|]. split; [lia|].
      right. repeat split; reflexivity. }
  (* the model that reaches the constructor *)
  destruct (truthy_string (modelName o)) eqn:Hm.
  2:{ destruct (truthy_string (resumeEvalRunId o)); discriminate. }
  destruct (truthy_string_inv _ Hm) as (name0 & name1 & Hname).
  set (name := String name0 name1) in *.
  rewrite Hname in *. cbn [text_of negb andb] in *.
  set (runs := if truthy_string (resumeEvalRunId o)
               then if negb (truthy_number (runsPerQuestion o))
                    then Some (Int 3) else runsPerQuestion o
               else runsPerQuestion o) in *.
  specialize (Hruns runs eq_refl).
  assert (Hsel :
    (if truthy_string (resumeEvalRunId o)
     then inr (get_property name allModelConfigs,
               if negb (truthy_number (runsPerQuestion o))
               then Some (Int 3) else runsPerQuestion o)
     else inr (get_property name allModelConfigs, runsPerQuestion o))
    = (inr (get_property name allModelConfigs, runs)
       : string + (option PropertyValue * option Number))).
  { unfold runs. destruct (truthy_string (resumeEvalRunId o)); reflexivity. }
  rewrite Hsel. clear Hsel.
  unfold get_property.
  destruct (own_property name allModelConfigs) as [entry|] eqn:Hown.
  2:{ destruct (inherits name); [|discriminate].
      cbn [magisterium_model openrouter_model truthy_string andb].
      unfold new_EvalRunner.
      cbn [magisterium_model openrouter_model truthy_string]. discriminate. }
  cbn [magisterium_model openrouter_model].
  unfold new_EvalRunner. cbn [magisterium_model openrouter_model].
  destruct (truthy_string (ce_magisterium_model entry)) eqn:Hmag.
  - destruct (truthy_string MAGISTERIUM_API_KEY) eqn:Hkey;
      cbn [negb andb]; [|discriminate].
    destruct (truthy_string (ce_openrouter_model entry)
              && negb (truthy_string OPENROUTER_API_KEY))%bool;
      [discriminate|].
    intros H. injection H as <- <- <-.
    split; [|split; [exact Hruns|reflexivity]].
    exists name, entry. repeat split; try reflexivity; try assumption.
    left.
    destruct (truthy_string_inv _ Hmag) as (c & t & Hmodel).
    destruct (truthy_string_inv _ Hkey) as (c' & t' & Hk).
    exists (String c' t'), (String c t).
    rewrite Hmodel, Hk. repeat split; try reflexivity. discriminate.
  - cbn [andb].
    destruct (truthy_string (ce_openrouter_model entry)) eqn:Hor;
      [|discriminate].
    destruct (truthy_string OPENROUTER_API_KEY) eqn:Hkey;
      cbn [negb andb]; [|discriminate].
    intros H. injection H as <- <- <-.
    split; [|split; [exact Hruns|reflexivity]].
    exists name, entry. repeat split; try reflexivity; try assumption.
    right.
    destruct (truthy_string_inv _ Hor) as (c & t & Hmodel).
    destruct (truthy_string_inv _ Hkey) as (c' & t' & Hk).
    exists (String c' t'), (String c t).
    rewrite Hmodel, Hk. repeat split; try reflexivity. discriminate.
Qed.

Lemma own_property_In {A} (key : string) (object : list (string * A))
    (value : A) :
  own_property key object = Some value -> In (key, value) object.
Proof.
  induction object as [|[k v] object IH]; simpl; [discriminate|].
  destruct (String.eqb_spec k key) as [->|Hne].
  - intros H. injection H as ->. left. reflexivity.
  - intros H. right. apply IH, H.
Qed.

Lemma allModelConfigs_entries :
  allModelConfigs = (MODEL_CONFIGS ++ MAGISTERIUM_MODEL_CONFIGS)%list.
Proof. vm_compute. reflexivity. Qed.

(** X29.  The command line starts an evaluation only with a whole number of
    runs between 1 and 10: the number read by [parseInt] from the value
    after a [--runs] flag, or 3 when a run is resumed and no usable number
    was given. *)
Theorem main_runs_within_1_and_10 (args : list string) (runner : EvalRunner)
    (questions : list Question) (resume : option string) :
  main default_questionsPath resolve OPENROUTER_API_KEY MAGISTERIUM_API_KEY
    QuestionLoader_load args
  = Evaluate runner questions resume ->
  exists n : Z,
    runner_runsPerQuestion runner = Some (Int n) /\
    (1 <= n <= 10)%Z /\
    ((exists value, follows "--runs" value args /\ parseInt value = Int n) \/
     (n = 3%Z /\ truthy_string resume = true)).
Proof.
  unfold main.
  destruct (parse_args resolve args (defaults default_questionsPath))
    as [o|] eqn:Hparse; [|discriminate].
  intros Hrun.
  destruct (run_evaluates o runner questions resume Hrun)
    as (_ & (n & Hn & Hrange & Hfrom) & ->).
  exists n. split; [exact Hn|]. split; [exact Hrange|].
  destruct Hfrom as [Hset|(-> & Hresume & _)];
    [|right; split; [reflexivity|exact Hresume]].
  left.
  destruct (parse_args_set_by (length args) args _ o (le_n _) Hparse)
    as [_ [Hsame|(value & Hfollows & Hvalue)]].
  - rewrite Hset in Hsame. discriminate.
  - exists value. split; [exact Hfollows|]. congruence.
Qed.

(** X30.  The command line starts an evaluation only for the value of a
    [--model] flag that names one of the configured models, with the client
    that model's entry selects and a non-empty key for that client.  A name
    that only [Object.prototype] defines passes the check [in] but never
    reaches an evaluation. *)
Theorem main_evaluates_a_configured_model (args : list string)
    (runner : EvalRunner) (questions : list Question)
    (resume : option string) :
  main default_questionsPath resolve OPENROUTER_API_KEY MAGISTERIUM_API_KEY
    QuestionLoader_load args
  = Evaluate runner questions resume ->
  exists name entry,
    follows "--model" name args /\
    In (name, entry) (MODEL_CONFIGS ++ MAGISTERIUM_MODEL_CONFIGS) /\
    runner_modelConfig runner = Config entry /\
    ((exists key model timeout,
        ce_magisterium_model entry = Some model /\
        MAGISTERIUM_API_KEY = Some key /\ key <> EmptyString /\
        testModel runner = MagisteriumClient key model timeout) \/
     (exists key model timeout,
        ce_openrouter_model entry = Some model /\
        OPENROUTER_API_KEY = Some key /\ key <> EmptyString /\
        testModel runner = OpenRouterClient key model timeout)).
Proof.
  unfold main.
  destruct (parse_args resolve args (defaults default_questionsPath))
    as [o|] eqn:Hparse; [|discriminate].
  intros Hrun.
  destruct (run_evaluates o runner questions resume Hrun)
    as ((name & entry & Hname & Hown & Hconfig & Hclient) & _ & _).
  exists name, entry.
  split.
  { destruct (parse_args_set_by (length args) args _ o (le_n _) Hparse)
      as [[Hsame|(value & Hfollows & _ & Hvalue)] _].
    - rewrite Hname in Hsame. discriminate.
    - replace name with value by congruence. exact Hfollows. }
  split.
  { rewrite <- allModelConfigs_entries. apply own_property_In, Hown. }
  split; [exact Hconfig|].
  destruct Hclient as [(key & model & H1 & H2 & H3 & H4)
                      |(key & model & H1 & H2 & H3 & H4)].
  - left. exists key, model, (timeoutMs o). repeat split; assumption.
  - right. exists key, model, (timeoutMs o). repeat split; assumption.
Qed.

End MainFacts.

Lemma main_runs_within_1_and_10_witness :
  exists n : Z,
    runner_runsPerQuestion sample_runner = Some (Int n) /\ (1 <= n <= 10)%Z.
Proof.
  destruct (main_runs_within_1_and_10 "questions-alpha.yaml" (fun path => path)
              (Some "sk-or"%string) (Some "sk-mag"%string) (fun _ => inr [])
              ["--model"; "gpt-4"; "--runs"; "3"]%string sample_runner [] None)
    as (n & Hn & Hrange & _); [vm_compute; reflexivity|].
  exists n. split; assumption.
Defined.

Lemma main_evaluates_a_configured_model_witness :
  exists name entry,
    In (name, entry) (MODEL_CONFIGS ++ MAGISTERIUM_MODEL_CONFIGS) /\
    runner_modelConfig sample_runner = Config entry.
Proof.
  destruct (main_evaluates_a_configured_model "questions-alpha.yaml"
              (fun path => path) (Some "sk-or"%string) (Some "sk-mag"%string)
              (fun _ => inr [])
              ["--runs"; "3"; "--model"; "gpt-4"]%string sample_runner [] None)
    as (name & entry & _ & Hin & Hconfig & _); [vm_compute; reflexivity|].
  exists name, entry. split; assumption.
Defined.

End RunEvalFacts.

(** * IEEE 754 binary64 numbers *)

Module Float64Facts.

Import Float64.

Local Open Scope Q_scope.

(** ** Powers of two *)

Lemma pow2_pos (e : Z) : 0 < pow2 e.
Proof. unfold pow2. apply Qpower_0_lt. reflexivity. Qed.

Lemma pow2_plus (a b : Z) : pow2 (a + b) == pow2 a * pow2 b.
Proof. unfold pow2. apply Qpower_plus. discriminate. Qed.

Lemma pow2_succ (a : Z) : pow2 (a + 1) == 2 * pow2 a.
Proof. rewrite pow2_plus. unfold pow2 at 2. simpl. ring. Qed.

Lemma pow2_pred (a : Z) : pow2 a == 2 * pow2 (a - 1).
Proof. rewrite <- pow2_succ. replace (a - 1 + 1)%Z with a by lia. reflexivity. Qed.

Lemma pow2_le (a b : Z) : (a <= b)%Z -> pow2 a <= pow2 b.
Proof. intros H. unfold pow2. apply Qpower_le_compat_l; [exact H|]. discriminate. Qed.

Lemma pow2_lt (a b : Z) : (a < b)%Z -> pow2 a < pow2 b.
Proof. intros H. unfold pow2. apply Qpower_lt_compat_l; [exact H|]. reflexivity. Qed.

Lemma pow2_lt_inv (a b : Z) : pow2 a < pow2 b -> (a < b)%Z.
Proof.
  intros H. destruct (Z_lt_le_dec a b) as [Hlt|Hge]; [exact Hlt|].
  apply pow2_le in Hge. exfalso. apply (Qlt_not_le _ _ H). exact Hge.
Qed.

Lemma pow2_Z (e : Z) : (0 <= e)%Z -> pow2 e == inject_Z (2 ^ e).
Proof. intros H. unfold pow2. symmetry. apply (Zpower_Qpower 2 e H). Qed.


(** ** The binary logarithm *)

Lemma ilog2_arith (a N D A B K K' : Q) :
  0 < D -> 0 < B -> 0 < K' -> a * D == N ->
  A <= N -> N < 2 * A -> B <= D -> D < 2 * B ->
  K * B == A -> K == 2 * K' ->
  (K <= a -> a < 2 * K) /\ (a < K -> K' <= a).
Proof.
  intros HD HB HK' HaD HA1 HA2 HB1 HB2 HK Hpred.
  assert (HKpos : 0 < K) by Lqa.lra.
  split; intros H.
  - apply (Qmult_lt_r _ _ D HD). rewrite HaD.
    apply Qlt_le_trans with (2 * A); [exact HA2|].
    rewrite <- HK. Lqa.nra.
  - apply (Qmult_le_r _ _ D HD). rewrite HaD.
    apply Qle_trans with A; [|exact HA1].
    rewrite <- HK.
    apply Qle_trans with (K' * (2 * B)); [Lqa.nra|].
    rewrite Hpred. Lqa.nra.
Qed.

Lemma ilog2_spec (a : Q) :
  0 < a -> pow2 (ilog2 a) <= a /\ a < pow2 (ilog2 a + 1).
Proof.
  intros Ha. destruct a as [n d]. unfold ilog2. cbn [Qnum Qden]. cbv zeta.
  assert (Hn : (0 < n)%Z).
  { unfold Qlt in Ha. cbn in Ha. lia. }
  set (la := Z.log2 n). set (ld := Z.log2 (Zpos d)).
  destruct (Z.log2_spec n Hn) as [Hn1 Hn2]. fold la in Hn1, Hn2.
  destruct (Z.log2_spec (Zpos d) eq_refl) as [Hd1 Hd2]. fold ld in Hd1, Hd2.
  assert (Hla : (0 <= la)%Z) by apply Z.log2_nonneg.
  assert (Hld : (0 <= ld)%Z) by apply Z.log2_nonneg.
  destruct (ilog2_arith (n # d) (inject_Z n) (inject_Z (Zpos d))
              (pow2 la) (pow2 ld) (pow2 (la - ld)) (pow2 (la - ld - 1)))
    as [Hge Hlt].
  - reflexivity.
  - apply pow2_pos.
  - apply pow2_pos.
  - rewrite (Qmake_Qdiv n d). field. discriminate.
  - rewrite (pow2_Z la Hla), <- Zle_Qle. exact Hn1.
  - rewrite <- pow2_succ, (pow2_Z (la + 1)) by lia.
    rewrite <- Zlt_Qlt. replace (la + 1)%Z with (Z.succ la) by lia. exact Hn2.
  - rewrite (pow2_Z ld Hld), <- Zle_Qle. exact Hd1.
  - rewrite <- pow2_succ, (pow2_Z (ld + 1)) by lia.
    rewrite <- Zlt_Qlt. replace (ld + 1)%Z with (Z.succ ld) by lia. exact Hd2.
  - rewrite <- pow2_plus. replace (la - ld + ld)%Z with la by lia. reflexivity.
  - apply pow2_pred.
  - destruct (Qle_bool (pow2 (la - ld)) (n # d)) eqn:Hcmp.
    + apply Qle_bool_iff in Hcmp. split; [exact Hcmp|].
      rewrite pow2_succ. apply Hge, Hcmp.
    + assert (Hlt' : (n # d) < pow2 (la - ld)).
      { apply Qnot_le_lt. intros H. apply Qle_bool_iff in H. congruence. }
      split; [apply Hlt, Hlt'|].
      replace (la - ld - 1 + 1)%Z with (la - ld)%Z by lia. exact Hlt'.
Qed.

Lemma ilog2_unique (a : Q) (k : Z) :
  pow2 k <= a -> a < pow2 (k + 1) -> ilog2 a = k.
Proof.
  intros H1 H2.
  assert (Ha : 0 < a) by (pose proof (pow2_pos k); Lqa.lra).
  destruct (ilog2_spec a Ha) as [H3 H4].
  assert (Hlt1 : (k < ilog2 a + 1)%Z) by (apply pow2_lt_inv; Lqa.lra).
  assert (Hlt2 : (ilog2 a < k + 1)%Z) by (apply pow2_lt_inv; Lqa.lra).
  lia.
Qed.

Lemma ilog2_compat (a b : Q) : 0 < a -> a == b -> ilog2 a = ilog2 b.
Proof.
  intros Ha Hab. symmetry. apply ilog2_unique.
  - rewrite <- Hab. apply ilog2_spec, Ha.
  - rewrite <- Hab. apply ilog2_spec, Ha.
Qed.

(** ** The nearest integer *)

Lemma round_even_cases (q : Q) :
  let f := Qfloor q in
  let r := q - inject_Z f in
  0 <= r /\ r < 1 /\
  ((round_even q = f /\ r <= 1 # 2) \/
   (round_even q = (f + 1)%Z /\ 1 # 2 <= r)).
Proof.
  cbv zeta. pose proof (Qfloor_le q) as Hlo. pose proof (Qlt_floor q) as Hhi.
  rewrite inject_Z_plus in Hhi. change (inject_Z 1) with 1 in Hhi.
  split; [Lqa.lra|]. split; [Lqa.lra|].
  unfold round_even.
  destruct (Qcompare (q - inject_Z (Qfloor q)) (1 # 2)) eqn:Hc.
  - apply Qeq_alt in Hc. destruct (Z.even (Qfloor q)).
    + left. split; [reflexivity|Lqa.lra].
    + right. split; [reflexivity|Lqa.lra].
  - apply Qlt_alt in Hc. left. split; [reflexivity|Lqa.lra].
  - apply Qgt_alt in Hc. right. split; [reflexivity|Lqa.lra].
Qed.

Lemma Qabs_le_of (x y : Q) : - y <= x -> x <= y -> Qabs x <= y.
Proof. intros H1 H2. apply Qabs_Qle_condition. split; assumption. Qed.

Lemma Qabs_ge_l (x : Q) : x <= Qabs x.
Proof. apply Qle_Qabs. Qed.

Lemma Qabs_ge_r (x : Q) : - x <= Qabs x.
Proof. rewrite <- Qabs_opp. apply Qle_Qabs. Qed.

Lemma round_even_nearest (q : Q) (j : Z) :
  Qabs (inject_Z (round_even q) - q) <= Qabs (inject_Z j - q).
Proof.
  destruct (round_even_cases q) as (Hr0 & Hr1 & Hcase).
  set (f := Qfloor q) in *.
  pose proof (Qabs_ge_l (inject_Z j - q)) as Hj1.
  pose proof (Qabs_ge_r (inject_Z j - q)) as Hj2.
  destruct (Z_le_gt_dec j f) as [Hjf|Hjf].
  - assert (HQ : inject_Z j <= inject_Z f) by (rewrite <- Zle_Qle; exact Hjf).
    destruct Hcase as [[-> Hr]|[-> Hr]]; apply Qabs_le_of;
      rewrite ?inject_Z_plus; change (inject_Z 1) with 1; Lqa.lra.
  - assert (HQ : inject_Z f + 1 <= inject_Z j).
    { change 1 with (inject_Z 1).
      rewrite <- (inject_Z_plus f 1), <- Zle_Qle. lia. }
    destruct Hcase as [[-> Hr]|[-> Hr]]; apply Qabs_le_of;
      rewrite ?inject_Z_plus; change (inject_Z 1) with 1; Lqa.lra.
Qed.

Lemma round_even_compat (p q : Q) : p == q -> round_even p = round_even q.
Proof.
  intros H. unfold round_even. rewrite (Qfloor_comp _ _ H).
  assert (Hc : Qcompare (p - inject_Z (Qfloor q)) (1 # 2)
               = Qcompare (q - inject_Z (Qfloor q)) (1 # 2)).
  { apply Qcompare_comp; [rewrite H; reflexivity|reflexivity]. }
  rewrite Hc. reflexivity.
Qed.

Lemma Qabs_zero_inv (x : Q) : Qabs x <= 0 -> x == 0.
Proof.
  intros H. pose proof (Qabs_ge_l x). pose proof (Qabs_ge_r x). Lqa.lra.
Qed.

Lemma round_even_Z (z : Z) : round_even (inject_Z z) = z.
Proof.
  pose proof (round_even_nearest (inject_Z z) z) as H.
  assert (H0 : Qabs (inject_Z z - inject_Z z) == 0).
  { assert (E : inject_Z z - inject_Z z == 0) by ring. rewrite E. reflexivity. }
  rewrite H0 in H. apply Qabs_zero_inv in H.
  assert (Heq' : inject_Z (round_even (inject_Z z)) == inject_Z z) by Lqa.lra.
  apply (proj1 (inject_Z_injective _ _)) in Heq'. exact Heq'.
Qed.

(** ** Rounding *)

Lemma Qabs_pow2 (e : Z) : Qabs (pow2 e) == pow2 e.
Proof. apply Qabs_pos. apply Qlt_le_weak, pow2_pos. Qed.

Lemma rnd_eq (q : Q) :
  rnd q == inject_Z (round_even (q / pow2 (ulp_exponent q)))
           * pow2 (ulp_exponent q).
Proof. unfold rnd. apply Qred_correct. Qed.

Lemma ulp_exponent_min (q : Q) : (-1074 <= ulp_exponent q)%Z.
Proof. unfold ulp_exponent. lia. Qed.

Lemma Qabs_pos_of (q : Q) : ~ q == 0 -> 0 < Qabs q.
Proof.
  intros Hq. pose proof (Qabs_nonneg q) as H0.
  destruct (Qeq_dec (Qabs q) 0) as [Hz|Hnz]; [|Lqa.lra].
  exfalso. apply Hq. apply Qabs_zero_inv. Lqa.lra.
Qed.

Lemma ulp_exponent_above (q : Q) :
  ~ q == 0 -> Qabs q < pow2 (ulp_exponent q + 53).
Proof.
  intros Hq. destruct (ilog2_spec (Qabs q) (Qabs_pos_of q Hq)) as [_ H].
  eapply Qlt_le_trans; [exact H|]. apply pow2_le. unfold ulp_exponent. lia.
Qed.

Lemma ulp_exponent_below (q : Q) :
  ~ q == 0 -> (-1074 < ulp_exponent q)%Z ->
  pow2 (ulp_exponent q + 52) <= Qabs q.
Proof.
  intros Hq He. destruct (ilog2_spec (Qabs q) (Qabs_pos_of q Hq)) as [H _].
  replace (ulp_exponent q + 52)%Z with (ilog2 (Qabs q)); [exact H|].
  unfold ulp_exponent in *. lia.
Qed.

Lemma rnd_zero (q : Q) : q == 0 -> rnd q == 0.
Proof.
  intros Hq. rewrite rnd_eq.
  assert (Hx : q / pow2 (ulp_exponent q) == inject_Z 0).
  { unfold Qdiv. change (inject_Z 0) with 0.
    rewrite <- (Qmult_0_l (/ pow2 (ulp_exponent q))).
    apply Qmult_comp; [exact Hq|reflexivity]. }
  rewrite (round_even_compat _ _ Hx), round_even_Z. ring.
Qed.

(** The error of [rnd q] in units of the last place. *)
Lemma rnd_error (q : Q) (j : Z) :
  Qabs (rnd q - q)
  <= Qabs (inject_Z j * pow2 (ulp_exponent q) - q).
Proof.
  set (e := ulp_exponent q).
  pose proof (pow2_pos e) as Hpos.
  pose proof (round_even_nearest (q / pow2 e) j) as Hn.
  assert (E1 : rnd q - q
               == (inject_Z (round_even (q / pow2 e)) - q / pow2 e) * pow2 e).
  { rewrite rnd_eq. fold e. field. Lqa.lra. }
  assert (E2 : inject_Z j * pow2 e - q
               == (inject_Z j - q / pow2 e) * pow2 e).
  { field. Lqa.lra. }
  rewrite E1, E2, !Qabs_Qmult, Qabs_pow2.
  apply Qmult_le_compat_r; [exact Hn|Lqa.lra].
Qed.

Lemma rnd_nearest (q r : Q) :
  format r -> Qabs (rnd q - q) <= Qabs (r - q).
Proof.
  intros (m & e' & He' & Hm & Hr).
  destruct (Qeq_dec q 0) as [Hq|Hq].
  { assert (E : rnd q - q == 0).
    { pose proof (rnd_zero q Hq). Lqa.lra. }
    rewrite E. apply Qabs_nonneg. }
  set (e := ulp_exponent q).
  destruct (Z_le_gt_dec e e') as [Hle|Hgt].
  - (* [r] is a multiple of the unit *)
    assert (Hj : r == inject_Z (m * 2 ^ (e' - e)) * pow2 e).
    { rewrite Hr, inject_Z_mult, <- (pow2_Z (e' - e)) by lia.
      rewrite <- Qmult_assoc, <- pow2_plus.
      replace (e' - e + e)%Z with e' by lia. reflexivity. }
    rewrite Hj. apply rnd_error.
  - (* [r] is below the binade of [q] *)
    assert (Hbelow : pow2 (e + 52) <= Qabs q).
    { apply ulp_exponent_below; [exact Hq|]. fold e. lia. }
    assert (Hr' : Qabs r < pow2 (e + 52)).
    { rewrite Hr, Qabs_Qmult, Qabs_pow2.
      apply Qlt_le_trans with (pow2 53 * pow2 e').
      - apply Qmult_lt_compat_r; [apply pow2_pos|].
        rewrite (pow2_Z 53) by lia.
        change (Qabs (inject_Z m)) with (inject_Z (Z.abs m)).
        rewrite <- Zlt_Qlt. exact Hm.
      - rewrite <- pow2_plus. apply pow2_le. lia. }
    pose proof (Qabs_triangle_reverse q r) as Htri.
    assert (Hswap : Qabs (q - r) == Qabs (r - q)).
    { rewrite <- Qabs_opp. apply Qabs_wd. ring. }
    rewrite Hswap in Htri.
    assert (Hp : pow2 (e + 52) == inject_Z (2 ^ 52) * pow2 e).
    { rewrite pow2_plus, (pow2_Z 52) by lia. ring. }
    pose proof (Qabs_nonneg (r - q)) as Hnn.
    destruct (Qlt_le_dec q 0) as [Hneg|Hnonneg].
    + eapply Qle_trans; [apply (rnd_error q (- 2 ^ 52))|]. fold e.
      assert (Hq' : Qabs q == - q) by (apply Qabs_neg; Lqa.lra).
      assert (E : inject_Z (- 2 ^ 52) * pow2 e - q == - pow2 (e + 52) - q).
      { rewrite Hp, inject_Z_opp. ring. }
      rewrite E. apply Qabs_le_of; Lqa.lra.
    + eapply Qle_trans; [apply (rnd_error q (2 ^ 52))|]. fold e.
      assert (Hq' : Qabs q == q) by (apply Qabs_pos; exact Hnonneg).
      rewrite <- Hp. apply Qabs_le_of; Lqa.lra.
Qed.

Lemma rnd_id (q : Q) : format q -> rnd q == q.
Proof.
  intros H. pose proof (rnd_nearest q q H) as Hn.
  assert (E : Qabs (q - q) == 0).
  { assert (E' : q - q == 0) by ring. rewrite E'. reflexivity. }
  rewrite E in Hn. apply Qabs_zero_inv in Hn. Lqa.lra.
Qed.

Lemma rnd_le (q r : Q) : q <= r -> format r -> rnd q <= r.
Proof.
  intros Hqr Hr. apply Qnot_lt_le. intros Hlt.
  pose proof (rnd_nearest q r Hr) as Hn.
  assert (E1 : Qabs (rnd q - q) == rnd q - q) by (apply Qabs_pos; Lqa.lra).
  assert (E2 : Qabs (r - q) == r - q) by (apply Qabs_pos; Lqa.lra).
  rewrite E1, E2 in Hn. Lqa.lra.
Qed.

Lemma rnd_ge (q r : Q) : r <= q -> format r -> r <= rnd q.
Proof.
  intros Hqr Hr. apply Qnot_lt_le. intros Hlt.
  pose proof (rnd_nearest q r Hr) as Hn.
  assert (E1 : Qabs (rnd q - q) == q - rnd q).
  { rewrite <- Qabs_opp.
    assert (E : - (rnd q - q) == q - rnd q) by ring.
    rewrite E. apply Qabs_pos. Lqa.lra. }
  assert (E2 : Qabs (r - q) == q - r).
  { rewrite <- Qabs_opp.
    assert (E : - (r - q) == q - r) by ring.
    rewrite E. apply Qabs_pos. Lqa.lra. }
  rewrite E1, E2 in Hn. Lqa.lra.
Qed.

Lemma rnd_Qeq_compat (p q : Q) : p == q -> rnd p == rnd q.
Proof.
  intros Hpq. destruct (Qeq_dec p 0) as [Hp|Hp].
  - rewrite (rnd_zero p Hp), (rnd_zero q); [reflexivity|].
    rewrite <- Hpq. exact Hp.
  - assert (He : ulp_exponent p = ulp_exponent q).
    { unfold ulp_exponent. f_equal. f_equal.
      apply ilog2_compat; [apply Qabs_pos_of, Hp|]. apply Qabs_wd, Hpq. }
    rewrite !rnd_eq, He.
    assert (Hx : p / pow2 (ulp_exponent q) == q / pow2 (ulp_exponent q)).
    { unfold Qdiv. apply Qmult_comp; [exact Hpq|reflexivity]. }
    rewrite (round_even_compat _ _ Hx). reflexivity.
Qed.

Lemma rnd_compat (p q : Q) : p == q -> rnd p = rnd q.
Proof.
  intros Hpq. pose proof (rnd_Qeq_compat p q Hpq) as H.
  rewrite !rnd_eq in H. unfold rnd. apply Qred_complete. exact H.
Qed.

Lemma rnd_format (q : Q) : format (rnd q).
Proof.
  destruct (Qeq_dec q 0) as [Hq|Hq].
  { exists 0%Z, 0%Z. split; [lia|]. split; [reflexivity|].
    rewrite (rnd_zero q Hq). reflexivity. }
  set (e := ulp_exponent q).
  pose proof (ulp_exponent_min q) as Hmin. fold e in Hmin.
  pose proof (ulp_exponent_above q Hq) as Habove. fold e in Habove.
  pose proof (pow2_pos e) as Hpos.
  set (x := q / pow2 e).
  assert (Hx : Qabs x < inject_Z (2 ^ 53)).
  { unfold x, Qdiv. rewrite Qabs_Qmult, Qabs_Qinv, Qabs_pow2.
    apply Qlt_shift_div_r; [exact Hpos|].
    rewrite <- (pow2_Z 53), <- pow2_plus, Z.add_comm by lia. exact Habove. }
  pose proof (Qabs_ge_l x) as Hx1. pose proof (Qabs_ge_r x) as Hx2.
  destruct (round_even_cases x) as (Hr0 & Hr1 & Hcase).
  set (f := Qfloor x) in *.
  assert (Hf1 : (f < 2 ^ 53)%Z).
  { rewrite Zlt_Qlt. Lqa.lra. }
  assert (Hf2 : (- 2 ^ 53 <= f)%Z).
  { assert (H : (- 2 ^ 53 < f + 1)%Z); [|lia].
    rewrite Zlt_Qlt, inject_Z_plus, inject_Z_opp.
    change (inject_Z 1) with 1. Lqa.lra. }
  assert (Hrnd : rnd q == inject_Z (round_even x) * pow2 e) by apply rnd_eq.
  assert (Hn : (- 2 ^ 53 <= round_even x <= 2 ^ 53)%Z).
  { destruct Hcase as [[-> _]|[-> _]]; lia. }
  destruct (Z.eq_dec (Z.abs (round_even x)) (2 ^ 53)%Z) as [Htop|Htop].
  - exists (round_even x / 2)%Z, (e + 1)%Z.
    split; [lia|]. split.
    + assert (Hc : (round_even x = 2 ^ 53 \/ round_even x = - 2 ^ 53)%Z) by lia.
      destruct Hc as [-> | ->]; reflexivity.
    + rewrite Hrnd, pow2_succ.
      assert (Hc : (round_even x = 2 ^ 53 \/ round_even x = - 2 ^ 53)%Z) by lia.
      destruct Hc as [-> | ->].
      * change (inject_Z (2 ^ 53 / 2)) with (inject_Z (2 ^ 52)).
        change (inject_Z (2 ^ 53)) with (2 * inject_Z (2 ^ 52)). ring.
      * change (inject_Z (- 2 ^ 53 / 2)) with (- inject_Z (2 ^ 52)).
        change (inject_Z (- 2 ^ 53)) with (2 * - inject_Z (2 ^ 52)). ring.
  - exists (round_even x), e. split; [exact Hmin|]. split; [lia|exact Hrnd].
Qed.

Lemma rnd_mono (p q : Q) : p <= q -> rnd p <= rnd q.
Proof.
  intros Hpq. apply Qnot_lt_le. intros Hlt.
  pose proof (rnd_nearest p (rnd q) (rnd_format q)) as Hp.
  pose proof (rnd_nearest q (rnd p) (rnd_format p)) as Hq.
  set (a := rnd q) in *. set (b := rnd p) in *.
  assert (Hmid_p : a + b <= 2 * p).
  { apply Qnot_lt_le. intros H.
    assert (H1 : Qabs (a - p) < b - p).
    { apply Qabs_case; intros; Lqa.lra. }
    pose proof (Qle_Qabs (b - p)) as H2. Lqa.lra. }
  assert (Hmid_q : 2 * q <= a + b).
  { apply Qnot_lt_le. intros H.
    assert (H1 : Qabs (b - q) < q - a).
    { apply Qabs_case; intros; Lqa.lra. }
    pose proof (Qabs_ge_r (a - q)) as H2. Lqa.lra. }
  assert (Heq : p == q) by Lqa.lra.
  pose proof (rnd_Qeq_compat p q Heq) as H. fold a b in H. Lqa.lra.
Qed.

(** ** Doubles *)

Lemma round_Finite (q : Q) :
  Qabs (rnd q) < pow2 1024 -> round q = Finite (rnd q).
Proof.
  intros H. unfold round.
  destruct (Qle_bool (pow2 1024) (Qabs (rnd q))) eqn:Hc; [|reflexivity].
  apply Qle_bool_iff in Hc. exfalso. apply (Qlt_not_le _ _ H). exact Hc.
Qed.

Lemma round_between (q lo hi : Q) :
  lo <= q -> q <= hi -> format lo -> format hi ->
  - pow2 1024 < lo -> hi < pow2 1024 ->
  round q = Finite (rnd q) /\ lo <= rnd q /\ rnd q <= hi.
Proof.
  intros H1 H2 Hlo Hhi Hlo' Hhi'.
  pose proof (rnd_ge q lo H1 Hlo) as Hge.
  pose proof (rnd_le q hi H2 Hhi) as Hle.
  split; [|split; assumption].
  apply round_Finite. apply Qabs_case; intros; Lqa.lra.
Qed.

Lemma round_not_NaN (q : Q) : is_NaN (round q) = false.
Proof. unfold round. destruct (Qle_bool _ _); reflexivity. Qed.

Lemma round_mono (p q : Q) : p <= q -> fle (round p) (round q) = true.
Proof.
  intros Hpq. pose proof (rnd_mono p q Hpq) as Hm. unfold round.
  pose proof (pow2_pos 1024) as Hpos.
  destruct (Qle_bool (pow2 1024) (Qabs (rnd p))) eqn:Hp;
    destruct (Qle_bool (pow2 1024) (Qabs (rnd q))) eqn:Hq; cbn [fle].
  - apply Qle_bool_iff in Hp, Hq. unfold is_negative.
    destruct (Qle_bool 0 (rnd p)) eqn:Hsp; [|reflexivity]. cbn [negb orb].
    apply Qle_bool_iff in Hsp.
    destruct (Qle_bool 0 (rnd q)) eqn:Hsq; [reflexivity|]. exfalso.
    assert (Hneg : rnd q < 0).
    { apply Qnot_le_lt. intros H. apply Qle_bool_iff in H. congruence. }
    Lqa.lra.
  - apply Qle_bool_iff in Hp. unfold is_negative.
    destruct (Qle_bool 0 (rnd p)) eqn:Hsp; [|reflexivity]. exfalso.
    apply Qle_bool_iff in Hsp.
    assert (Hq' : Qabs (rnd q) < pow2 1024).
    { apply Qnot_le_lt. intros H. apply Qle_bool_iff in H. congruence. }
    rewrite (Qabs_pos (rnd p) Hsp) in Hp.
    pose proof (Qle_Qabs (rnd q)). Lqa.lra.
  - apply Qle_bool_iff in Hq. unfold is_negative.
    destruct (Qle_bool 0 (rnd q)) eqn:Hsq; [reflexivity|]. exfalso.
    assert (Hneg : rnd q < 0).
    { apply Qnot_le_lt. intros H. apply Qle_bool_iff in H. congruence. }
    assert (Hp' : Qabs (rnd p) < pow2 1024).
    { apply Qnot_le_lt. intros H. apply Qle_bool_iff in H. congruence. }
    rewrite (Qabs_neg (rnd q)) in Hq by Lqa.lra.
    pose proof (Qabs_ge_r (rnd p)). Lqa.lra.
  - apply Qle_bool_iff. exact Hm.
Qed.

(** ** [Math.exp] *)

(** Values of the algorithm, as V8 prints them: on each side of the
    reduction thresholds, at the underflow threshold and next to the
    overflow threshold. *)
Example Math_exp_values :
  Math_exp (of_Z 0) = of_Z 1
  /\ Math_exp (of_Z 1) = decimal 2718281828459045 15
  /\ Math_exp (of_Z (-1)) = decimal 36787944117144233 17
  /\ Math_exp (decimal (-3) 1) = decimal 7408182206817179 16
  /\ Math_exp (decimal (-9) 1) = decimal 4065696597405991 16
  /\ Math_exp (decimal 103 2) = decimal 2801065834699079 15
  /\ Math_exp (of_Z 10) = decimal 22026465794806718 12
  /\ Math_exp (of_Z (-20)) = decimal 2061153622438558 24
  /\ Math_exp (of_Z 709) = round (8218407461554972 * 10 ^ 292)
  /\ Math_exp (of_Z 710) = Infinity false
  /\ Math_exp (of_Z (-745)) = Finite (pow2 (-1074))
  /\ Math_exp (of_Z (-750)) = of_Z 0.
Proof. repeat split; vm_compute; reflexivity. Qed.

End Float64Facts.

(** * Statistics in double arithmetic *)

Module Statistics64Facts.

Import Float64 Float64Facts Statistics64.

Local Open Scope Q_scope.

(** ** Doubles that the proofs name *)

Lemma inject_Z_minus (x y : Z) : inject_Z (x - y) = inject_Z x - inject_Z y.
Proof.
  change (x - y)%Z with (x + - y)%Z.
  rewrite inject_Z_plus, inject_Z_opp. reflexivity.
Qed.

Lemma format_Z (z : Z) : (Z.abs z < 2 ^ 53)%Z -> format (inject_Z z).
Proof.
  intros H. exists z, 0%Z. split; [lia|]. split; [exact H|].
  unfold pow2. simpl. ring.
Qed.

Lemma format_pow2 (e : Z) : (-1074 <= e)%Z -> format (pow2 e).
Proof.
  intros H. exists 1%Z, e. split; [exact H|]. split; [reflexivity|]. ring.
Qed.

Lemma format_scaled (z e : Z) :
  (Z.abs z < 2 ^ 53)%Z -> (-1074 <= e)%Z -> format (inject_Z z * pow2 e).
Proof. intros Hz He. exists z, e. repeat split; assumption. Qed.

Lemma of_Z_0 : of_Z 0 = Finite 0.
Proof. vm_compute. reflexivity. Qed.

Lemma of_Z_1 : of_Z 1 = Finite 1.
Proof. vm_compute. reflexivity. Qed.

Lemma of_Z_2 : of_Z 2 = Finite 2.
Proof. vm_compute. reflexivity. Qed.

Lemma of_Z_100 : of_Z 100 = Finite 100.
Proof. vm_compute. reflexivity. Qed.

Lemma of_Z_minus_3 : of_Z (-3) = Finite (-3).
Proof. vm_compute. reflexivity. Qed.

Lemma below_one_value :
  below_one = Finite (4503599627370495 # 4503599627370496).
Proof. vm_compute. reflexivity. Qed.

Lemma last_below_one_value :
  last_below_one = Finite (9007199254740991 # 9007199254740992).
Proof. vm_compute. reflexivity. Qed.

Lemma pow2_1024_large : inject_Z (2 ^ 53) < pow2 1024.
Proof. rewrite <- (pow2_Z 53) by lia. apply pow2_lt. lia. Qed.

Lemma of_nat_value (n : nat) :
  (Z.of_nat n < 2 ^ 53)%Z ->
  exists N : Q, of_nat n = Finite N /\ N == inject_Z (Z.of_nat n).
Proof.
  intros Hn. unfold of_nat, of_Z.
  assert (Hf : format (inject_Z (Z.of_nat n))) by (apply format_Z; lia).
  assert (Hq : inject_Z (Z.of_nat n) < inject_Z (2 ^ 53)).
  { rewrite <- Zlt_Qlt. exact Hn. }
  assert (H0 : 0 <= inject_Z (Z.of_nat n)).
  { change 0 with (inject_Z 0). rewrite <- Zle_Qle. lia. }
  pose proof pow2_1024_large as Hbig.
  destruct (round_between (inject_Z (Z.of_nat n)) (inject_Z (Z.of_nat n))
              (inject_Z (Z.of_nat n))) as (Hr & Hlo & Hhi);
    try assumption; try apply Qle_refl; try Lqa.lra.
  exists (rnd (inject_Z (Z.of_nat n))). split; [exact Hr|]. Lqa.lra.
Qed.

(** ** The product below the length

    For an integer [n] below [2^53], a number that is no more than
    [n (1 - 2^-53)] is rounded to a double below [n]. *)

Lemma rnd_below_integer (n : Z) (x : Q) :
  (1 <= n < 2 ^ 53)%Z ->
  x <= inject_Z n * (1 - pow2 (-53)) ->
  rnd x < inject_Z n.
Proof.
  intros Hn Hx.
  set (k := Z.log2 n).
  destruct (Z.log2_spec n ltac:(lia)) as [Hk1 Hk2]. fold k in Hk1, Hk2.
  assert (Hk0 : (0 <= k)%Z) by apply Z.log2_nonneg.
  assert (Hk52 : (k <= 52)%Z).
  { assert (H : (k < 53)%Z); [|lia].
    apply (Z.pow_lt_mono_r_iff 2); lia. }
  set (N := inject_Z n) in *.
  assert (HN1 : pow2 k <= N).
  { rewrite (pow2_Z k Hk0). unfold N. rewrite <- Zle_Qle. exact Hk1. }
  assert (HNpos : 0 < N) by (pose proof (pow2_pos k); Lqa.lra).
  pose proof (pow2_pos (-53)) as Hp53.
  pose proof (pow2_pos (k - 52)) as Hg.
  pose proof (pow2_pos (k - 53)) as Hg2.
  assert (Hgg : pow2 (k - 52) == 2 * pow2 (k - 53)).
  { rewrite <- pow2_succ. replace (k - 53 + 1)%Z with (k - 52)%Z by lia.
    reflexivity. }
  assert (Hk53 : pow2 (k - 53) == pow2 k * pow2 (-53)).
  { rewrite <- pow2_plus. replace (k + -53)%Z with (k - 53)%Z by lia.
    reflexivity. }
  assert (HfN : format N) by (apply format_Z; lia).
  (* the double below [n] in its binade *)
  assert (Hfr : format (N - pow2 (k - 52))).
  { exists (n * 2 ^ (52 - k) - 1)%Z, (k - 52)%Z. split; [lia|]. split.
    - assert (H1 : (n * 2 ^ (52 - k) < 2 ^ 53)%Z).
      { replace (2 ^ 53)%Z with (2 ^ Z.succ k * 2 ^ (52 - k))%Z.
        - apply Z.mul_lt_mono_pos_r; [apply Z.pow_pos_nonneg; lia|exact Hk2].
        - rewrite <- Z.pow_add_r by lia. f_equal. lia. }
      assert (H2 : (0 < n * 2 ^ (52 - k))%Z).
      { apply Z.mul_pos_pos; [lia|apply Z.pow_pos_nonneg; lia]. }
      lia.
    - rewrite inject_Z_minus, inject_Z_mult, <- (pow2_Z (52 - k)) by lia.
      fold N. change (inject_Z 1) with 1.
      assert (E : pow2 (52 - k) * pow2 (k - 52) == 1).
      { rewrite <- pow2_plus. replace (52 - k + (k - 52))%Z with 0%Z by lia.
        reflexivity. }
      assert (E' : (N * pow2 (52 - k) - 1) * pow2 (k - 52)
                   == N * (pow2 (52 - k) * pow2 (k - 52)) - pow2 (k - 52))
        by ring.
      rewrite E', E. ring. }
  pose proof (rnd_le x N) as Hle.
  assert (HxN : x <= N) by Lqa.nra.
  specialize (Hle HxN HfN).
  apply Qnot_le_lt. intros Hge.
  assert (Heq : rnd x == N) by Lqa.lra.
  destruct (Qlt_le_dec (N - pow2 (k - 52)) x) as [Hgt|Hsmall].
  - pose proof (rnd_nearest x (N - pow2 (k - 52)) Hfr) as Hnear.
    assert (E1 : Qabs (rnd x - x) == N - x).
    { rewrite Heq. apply Qabs_pos. Lqa.lra. }
    assert (E2 : Qabs (N - pow2 (k - 52) - x) == x - (N - pow2 (k - 52))).
    { rewrite <- Qabs_opp.
      assert (E : - (N - pow2 (k - 52) - x) == x - (N - pow2 (k - 52)))
        by ring.
      rewrite E. apply Qabs_pos. Lqa.lra. }
    rewrite E1, E2 in Hnear.
    (* so [n] is a power of two and [x] the double just below it *)
    assert (Hxeq : x == N - pow2 (k - 53)) by Lqa.nra.
    assert (HNeq : N == pow2 k) by Lqa.nra.
    assert (Hfx : format x).
    { exists (2 ^ 53 - 1)%Z, (k - 53)%Z. split; [lia|]. split; [reflexivity|].
      rewrite Hxeq, HNeq.
      assert (E : pow2 k == inject_Z (2 ^ 53) * pow2 (k - 53)).
      { rewrite <- (pow2_Z 53), <- pow2_plus by lia.
        replace (53 + (k - 53))%Z with k by lia. reflexivity. }
      rewrite E, inject_Z_minus. change (inject_Z 1) with 1. ring. }
    pose proof (rnd_id x Hfx). Lqa.lra.
  - pose proof (rnd_le x (N - pow2 (k - 52)) Hsmall Hfr). Lqa.lra.
Qed.

(** ** The operations of the two index formulas, between two doubles *)

Lemma fsub_one_between (c lo hi : Q) :
  format lo -> format hi -> - pow2 1024 < lo -> hi < pow2 1024 ->
  lo <= 1 - c -> 1 - c <= hi ->
  exists a : Q, fsub (of_Z 1) (Finite c) = Finite a /\ lo <= a /\ a <= hi.
Proof.
  intros Hflo Hfhi Hlo Hhi H1 H2.
  rewrite of_Z_1. unfold fsub, fneg, fadd.
  pose proof (Qred_correct (- c)) as Hred.
  destruct (round_between (1 + Qred (- c)) lo hi) as (Hr & Ha & Hb);
    try assumption; try Lqa.lra.
  exists (rnd (1 + Qred (- c))). auto.
Qed.

Lemma fdiv_two_between (a lo hi : Q) :
  format lo -> format hi -> - pow2 1024 < lo -> hi < pow2 1024 ->
  lo <= a / 2 -> a / 2 <= hi ->
  exists h : Q, fdiv (Finite a) (of_Z 2) = Finite h /\ lo <= h /\ h <= hi.
Proof.
  intros Hflo Hfhi Hlo Hhi H1 H2.
  rewrite of_Z_2. unfold fdiv. change (Qeq_bool 2 0) with false. cbv iota.
  destruct (round_between (a / 2) lo hi) as (Hr & Ha & Hb);
    try assumption.
  exists (rnd (a / 2)). auto.
Qed.

Lemma fmul_between (a b lo hi : Q) :
  format lo -> format hi -> - pow2 1024 < lo -> hi < pow2 1024 ->
  lo <= a * b -> a * b <= hi ->
  fmul (Finite a) (Finite b) = Finite (rnd (a * b))
  /\ lo <= rnd (a * b) /\ rnd (a * b) <= hi.
Proof.
  intros Hflo Hfhi Hlo Hhi H1 H2. unfold fmul.
  apply round_between; assumption.
Qed.

Lemma format_0 : format 0.
Proof. apply (format_Z 0). reflexivity. Qed.

Lemma format_1 : format 1.
Proof. apply (format_Z 1). reflexivity. Qed.

Lemma format_half : format (1 # 2).
Proof. exists 1%Z, (-1)%Z. split; [lia|]. split; reflexivity. Qed.

Lemma format_one_minus_ulp : format (1 - pow2 (-53)).
Proof.
  exists (2 ^ 53 - 1)%Z, (-53)%Z. split; [lia|]. split; reflexivity.
Qed.

Lemma pow2_1024_above_1 : 1 < pow2 1024.
Proof. change 1 with (pow2 0). apply pow2_lt. lia. Qed.

Lemma finite_between (x lo hi : float64) (a b : Q) :
  lo = Finite a -> hi = Finite b ->
  fle lo x = true -> fle x hi = true ->
  exists c : Q, x = Finite c /\ a <= c /\ c <= b.
Proof.
  intros -> -> H1 H2. destruct x as [c|s|]; simpl in H1, H2.
  - exists c. split; [reflexivity|].
    split; apply Qle_bool_iff; assumption.
  - destruct s; discriminate.
  - discriminate.
Qed.

(** ** The two indices are indices of the array

    For a confidence level from 0 to [1 - 2^-52], the two indices are whole
    numbers with [0 <= lowerIndex <= upperIndex < length]. *)

Lemma indices_in_bounds (n : nat) (confidenceLevel : float64) :
  (1 <= n)%nat -> (Z.of_nat n < 2 ^ 53)%Z ->
  fle (of_Z 0) confidenceLevel = true ->
  fle confidenceLevel below_one = true ->
  exists li ui : Z,
    lowerIndex n confidenceLevel = Finite (inject_Z li)
    /\ upperIndex n confidenceLevel = Finite (inject_Z ui)
    /\ (0 <= li)%Z /\ (li <= ui)%Z /\ (ui < Z.of_nat n)%Z.
Proof.
  intros Hn1 Hn53 H0 H1.
  destruct (finite_between confidenceLevel _ _ _ _ of_Z_0 below_one_value H0 H1)
    as (c & -> & Hc0 & Hc1).
  assert (Hb : (4503599627370495 # 4503599627370496) == 1 - pow2 (-52))
    by reflexivity.
  rewrite Hb in Hc1.
  pose proof (pow2_pos (-52)) as Hp52.
  pose proof (pow2_pos (-53)) as Hp53.
  assert (Hp : pow2 (-52) == 2 * pow2 (-53)) by reflexivity.
  pose proof pow2_1024_above_1 as Hbig1.
  pose proof pow2_1024_large as Hbig.
  destruct (of_nat_value n Hn53) as (N & HN & HNn).
  assert (HNlt : N < inject_Z (2 ^ 53)).
  { rewrite HNn, <- Zlt_Qlt. exact Hn53. }
  assert (HN1 : 1 <= N).
  { rewrite HNn. change 1 with (inject_Z 1). rewrite <- Zle_Qle. lia. }
  destruct (fsub_one_between c (pow2 (-52)) 1) as (a & Ha & Ha1 & Ha2);
    try Lqa.lra;
    [apply format_pow2; lia|apply format_1|].
  destruct (fdiv_two_between a (pow2 (-53)) (1 # 2)) as (h & Hh & Hh1 & Hh2);
    try Lqa.lra;
    [apply format_pow2; lia|apply format_half| | |].
  { rewrite Hp in Ha1. apply Qle_shift_div_l; Lqa.lra. }
  { apply Qle_shift_div_r; Lqa.lra. }
  destruct (fsub_one_between h (1 # 2) (1 - pow2 (-53)))
    as (u & Hu & Hu1 & Hu2);
    try Lqa.lra;
    [apply format_half|apply format_one_minus_ulp|].
  assert (HfN : format (inject_Z (Z.of_nat n))) by (apply format_Z; lia).
  assert (HfN2 : format (inject_Z (Z.of_nat n) * pow2 (-1)))
    by (apply format_scaled; lia).
  assert (Hhalf : pow2 (-1) == 1 # 2) by reflexivity.
  destruct (fmul_between N h 0 (inject_Z (Z.of_nat n) * pow2 (-1)))
    as (Hl & Hl1 & Hl2);
    try assumption; try apply format_0; try Lqa.nra.
  destruct (fmul_between N u (inject_Z (Z.of_nat n) * pow2 (-1))
              (inject_Z (Z.of_nat n)))
    as (Hm & Hm1 & Hm2);
    try assumption; try Lqa.nra.
  assert (Hm3 : rnd (N * u) < inject_Z (Z.of_nat n)).
  { apply rnd_below_integer; [lia|]. Lqa.nra. }
  exists (Qfloor (rnd (N * h))), (Qfloor (rnd (N * u))).
  unfold lowerIndex, upperIndex. cbv zeta.
  rewrite Ha, Hh, Hu, HN, Hl, Hm. unfold Math_floor.
  split; [reflexivity|]. split; [reflexivity|]. split; [|split].
  - change 0%Z with (Qfloor 0). apply Qfloor_resp_le. exact Hl1.
  - apply Qfloor_resp_le. Lqa.lra.
  - pose proof (Qfloor_le (rnd (N * u))) as Hf.
    rewrite Zlt_Qlt. Lqa.lra.
Qed.

(** ** Reading the array at a double *)

Lemma js_get_whole (array : list R) (i : Z) :
  js_get array (Finite (inject_Z i)) = Statistics.js_get array i.
Proof.
  unfold js_get. rewrite Qfloor_Z.
  assert (H : Qeq_bool (inject_Z i) (inject_Z i) = true)
    by (apply Qeq_bool_iff; reflexivity).
  rewrite H. reflexivity.
Qed.

Lemma js_get_length (array : list R) :
  js_get array (Finite (inject_Z (Z.of_nat (length array)))) = None.
Proof. rewrite js_get_whole. apply StatisticsFacts.js_get_at_length. Qed.

Lemma js_get_index (array : list R) (i : Z) :
  (0 <= i < Z.of_nat (length array))%Z ->
  exists x : R, js_get array (Finite (inject_Z i)) = Some x.
Proof.
  intros Hi. rewrite js_get_whole.
  apply StatisticsFacts.js_get_in_range. exact Hi.
Qed.

(** ** The upper index when [1 - alpha / 2] is rounded to 1 *)

Lemma of_nat_whole (n : nat) :
  (Z.of_nat n < 2 ^ 53)%Z ->
  Math_floor (fmul (of_nat n) (Finite 1)) = Finite (inject_Z (Z.of_nat n)).
Proof.
  intros Hn. destruct (of_nat_value n Hn) as (N & HN & HNn).
  assert (Hf : format (inject_Z (Z.of_nat n))) by (apply format_Z; lia).
  assert (E : N * 1 == inject_Z (Z.of_nat n)) by (rewrite HNn; ring).
  pose proof pow2_1024_large as Hbig.
  assert (Hlt : inject_Z (Z.of_nat n) < inject_Z (2 ^ 53))
    by (rewrite <- Zlt_Qlt; exact Hn).
  assert (H0 : 0 <= inject_Z (Z.of_nat n)).
  { change 0 with (inject_Z 0). rewrite <- Zle_Qle. lia. }
  destruct (fmul_between N 1 (inject_Z (Z.of_nat n)) (inject_Z (Z.of_nat n)))
    as (Hm & Hm1 & Hm2); try assumption; try Lqa.lra.
  rewrite HN, Hm. unfold Math_floor. f_equal.
  assert (E' : rnd (N * 1) == inject_Z (Z.of_nat n)) by Lqa.lra.
  rewrite E', Qfloor_Z. reflexivity.
Qed.

Lemma upper_factor_at_one :
  fsub (of_Z 1) (fdiv (fsub (of_Z 1) (of_Z 1)) (of_Z 2)) = Finite 1.
Proof. vm_compute. reflexivity. Qed.

Lemma upper_factor_at_last_below_one :
  fsub (of_Z 1) (fdiv (fsub (of_Z 1) last_below_one) (of_Z 2)) = Finite 1.
Proof. vm_compute. reflexivity. Qed.

Lemma upperIndex_is_length (n : nat) (confidenceLevel : float64) :
  (Z.of_nat n < 2 ^ 53)%Z ->
  confidenceLevel = last_below_one \/ confidenceLevel = of_Z 1 ->
  upperIndex n confidenceLevel = Finite (inject_Z (Z.of_nat n)).
Proof.
  intros Hn [-> | ->]; unfold upperIndex; cbv zeta.
  - rewrite upper_factor_at_last_below_one. now apply of_nat_whole.
  - rewrite upper_factor_at_one. now apply of_nat_whole.
Qed.

Lemma Qred_inject_Z (z : Z) : Qred (inject_Z z) = inject_Z z.
Proof.
  unfold Qred, inject_Z.
  pose proof (Z.ggcd_gcd z 1) as Hg.
  pose proof (Z.ggcd_correct_divisors z 1) as Hd.
  destruct (Z.ggcd z 1) as (g, (a, b)). simpl in Hg, Hd.
  rewrite Z.gcd_1_r in Hg. subst g. destruct Hd as [Ha Hb].
  assert (Hb1 : b = 1%Z) by lia. assert (Ha1 : a = z) by lia.
  subst a b. reflexivity.
Qed.

Lemma of_nat_exact (n : nat) :
  (Z.of_nat n < 2 ^ 53)%Z -> of_nat n = Finite (inject_Z (Z.of_nat n)).
Proof.
  intros Hn. unfold of_nat, of_Z.
  assert (Hf : format (inject_Z (Z.of_nat n))) by (apply format_Z; lia).
  pose proof (rnd_id _ Hf) as Hid.
  rewrite round_Finite.
  - f_equal. rewrite <- (Qred_inject_Z (Z.of_nat n)) at 2.
    unfold rnd in *. cbv zeta in *.
    apply Qred_complete.
    eapply Qeq_trans; [symmetry; apply Qred_correct|exact Hid].
  - rewrite Hid. rewrite Qabs_pos.
    + pose proof pow2_1024_large.
      assert (inject_Z (Z.of_nat n) < inject_Z (2 ^ 53))
        by (rewrite <- Zlt_Qlt; exact Hn).
      Lqa.lra.
    + change 0 with (inject_Z 0). rewrite <- Zle_Qle. lia.
Qed.

(** ** What [calculateBootstrapCI] reads *)

Lemma double_indices_read random s0 s1 rest cl iterations k :
  let scores := s0 :: s1 :: rest in
  let sorted :=
    fst (Statistics.sortedBootstrapMeans random scores iterations k) in
  fst (calculateBootstrapCI random scores cl iterations k) =
  Statistics.mkCI
    (js_get sorted (lowerIndex iterations cl))
    (js_get sorted (upperIndex iterations cl))
    (Statistics.reduce_sum scores / INR (length scores))%R.
Proof.
  cbv zeta. cbn [calculateBootstrapCI]. unfold Statistics.bind at 1.
  pose proof (StatisticsFacts.sortedBootstrapMeans_length random
                (s0 :: s1 :: rest) iterations k) as Hlen.
  destruct (Statistics.sortedBootstrapMeans random _ iterations k)
    as [means k'].
  cbn [fst Statistics.ret] in *. now rewrite Hlen.
Qed.

(** C10. With at least two scores and from 1 to fewer than [2^32]
    iterations (the most an array holds), the sorted array of bootstrap means
    has [iterations] elements and is read at the doubles
    [Math.floor(iterations * (alpha / 2))] and
    [Math.floor(iterations * (1 - alpha / 2))] for
    [alpha = 1 - confidenceLevel].  For a confidence level from 0 to
    [0.9999999999999998] both are whole numbers within [[0, iterations)].
    At [0.9999999999999999], the one double between that and 1, and at 1
    the upper index is [iterations] and the read, out of range, makes the
    upper bound undefined. *)
Theorem bootstrap_reads_at_double_indices
    (random : nat -> R) (scores : list R) (confidenceLevel : float64)
    (iterations k : nat)
    (Hlen : (2 <= length scores)%nat) (Hit : (1 <= iterations)%nat)
    (Hmax : (Z.of_nat iterations < 2 ^ 32)%Z) :
  let sorted :=
    fst (Statistics.sortedBootstrapMeans random scores iterations k) in
  let ci :=
    fst (calculateBootstrapCI random scores confidenceLevel iterations k) in
  let alpha := fsub (of_Z 1) confidenceLevel in
  let lo := Math_floor (fmul (of_nat iterations) (fdiv alpha (of_Z 2))) in
  let hi :=
    Math_floor
      (fmul (of_nat iterations) (fsub (of_Z 1) (fdiv alpha (of_Z 2)))) in
  length sorted = iterations /\
  Statistics.ci_lower ci = js_get sorted lo /\
  Statistics.ci_upper ci = js_get sorted hi /\
  (fle (of_Z 0) confidenceLevel = true /\
   fle confidenceLevel below_one = true ->
     exists li ui : Z,
       lo = Finite (inject_Z li) /\ hi = Finite (inject_Z ui) /\
       (0 <= li < Z.of_nat iterations)%Z /\
       (0 <= ui < Z.of_nat iterations)%Z) /\
  (confidenceLevel = last_below_one \/ confidenceLevel = of_Z 1 ->
     hi = of_nat iterations /\ Statistics.ci_upper ci = None).
Proof.
  destruct scores as [|s0 [|s1 rest]]; simpl in Hlen; [lia..|].
  cbv zeta.
  pose proof (double_indices_read random s0 s1 rest confidenceLevel
                iterations k) as Hreads.
  cbv zeta in Hreads. rewrite Hreads.
  cbn [Statistics.ci_lower Statistics.ci_upper].
  pose proof (StatisticsFacts.sortedBootstrapMeans_length random
                (s0 :: s1 :: rest) iterations k) as Hsorted.
  fold (lowerIndex iterations confidenceLevel).
  fold (upperIndex iterations confidenceLevel).
  assert (H53 : (Z.of_nat iterations < 2 ^ 53)%Z).
  { eapply Z.lt_trans; [exact Hmax|reflexivity]. }
  split; [exact Hsorted|]. split; [reflexivity|]. split; [reflexivity|].
  split.
  - intros [H0 H1].
    destruct (indices_in_bounds iterations confidenceLevel Hit H53 H0 H1)
      as (li & ui & Hli & Hui & Ha & Hb & Hc).
    exists li, ui. repeat split; try assumption; lia.
  - intros Hcl.
    rewrite (upperIndex_is_length iterations confidenceLevel H53 Hcl).
    split; [symmetry; now apply of_nat_exact|].
    rewrite <- Hsorted at 2. apply js_get_length.
Qed.

Lemma bootstrap_reads_at_double_indices_witness :
  (2 <= length [70; 90]%R)%nat /\ (1 <= 100)%nat /\
  (Z.of_nat 100 < 2 ^ 32)%Z /\
  Statistics.ci_upper
    (fst (calculateBootstrapCI (fun _ => 0%R) [70; 90]%R (of_Z 1) 100 0%nat))
  = None.
Proof.
  split; [simpl; lia|]. split; [lia|]. split; [reflexivity|].
  apply (bootstrap_reads_at_double_indices (fun _ => 0%R) [70; 90]%R (of_Z 1)
           100 0%nat); [simpl; lia | lia | reflexivity | now right].
Defined.

(** C10 does not hold as the specification states it: [0.9999999999999999] is strictly
    between 0 and 1, and with 100 iterations the upper index is 100, not an
    index of the array; the upper bound is undefined. *)
Lemma bootstrap_upper_index_out_of_bounds_below_one :
  flt (of_Z 0) last_below_one = true /\
  flt last_below_one (of_Z 1) = true /\
  upperIndex 100 last_below_one = of_Z 100 /\
  Statistics.ci_upper
    (fst (calculateBootstrapCI (fun _ => 0%R) [70; 90]%R last_below_one
            100 0%nat))
  = None.
Proof.
  split; [vm_compute; reflexivity|]. split; [vm_compute; reflexivity|].
  split; [vm_compute; reflexivity|].
  pose proof (double_indices_read (fun _ => 0%R) 70%R 90%R []
                last_below_one 100 0%nat) as Hreads.
  cbv zeta in Hreads. rewrite Hreads. cbn [Statistics.ci_upper].
  rewrite (upperIndex_is_length 100 last_below_one);
    [|reflexivity|now left].
  pose proof (StatisticsFacts.sortedBootstrapMeans_length (fun _ => 0%R)
                [70; 90]%R 100 0%nat) as Hsorted.
  rewrite <- Hsorted at 2. apply js_get_length.
Qed.

Lemma double_bounds_ordered
    (random : nat -> R) (scores : list R) (confidenceLevel : float64)
    (iterations k : nat) :
  fle (of_Z 0) confidenceLevel = true ->
  fle confidenceLevel below_one = true ->
  (1 <= iterations)%nat -> (Z.of_nat iterations < 2 ^ 32)%Z ->
  exists lower upper : R,
    let ci :=
      fst (calculateBootstrapCI random scores confidenceLevel iterations k) in
    Statistics.ci_lower ci = Some lower /\
    Statistics.ci_upper ci = Some upper /\ (lower <= upper)%R.
Proof.
  intros H0 H1 Hit Hmax.
  destruct scores as [|s0 [|s1 rest]].
  - exists 0%R, 0%R. cbn. repeat split; lra.
  - exists s0, s0. cbn. repeat split; lra.
  - pose proof (double_indices_read random s0 s1 rest confidenceLevel
                  iterations k) as Hreads.
    cbv zeta in Hreads. rewrite Hreads.
    cbn [Statistics.ci_lower Statistics.ci_upper].
    set (sorted := fst (Statistics.sortedBootstrapMeans random
                          (s0 :: s1 :: rest) iterations k)).
    assert (Hlen : length sorted = iterations)
      by apply StatisticsFacts.sortedBootstrapMeans_length.
    assert (H53 : (Z.of_nat iterations < 2 ^ 53)%Z).
    { eapply Z.lt_trans; [exact Hmax|reflexivity]. }
    destruct (indices_in_bounds iterations confidenceLevel Hit H53 H0 H1)
      as (li & ui & Hli & Hui & Ha & Hb & Hc).
    rewrite Hli, Hui, !js_get_whole.
    destruct (StatisticsFacts.js_get_in_range sorted li) as [lo Hlo];
      [rewrite Hlen; lia|].
    destruct (StatisticsFacts.js_get_in_range sorted ui) as [hi Hhi];
      [rewrite Hlen; lia|].
    exists lo, hi. repeat split; [assumption..|].
    eapply StatisticsFacts.js_get_sorted_le;
      [apply StatisticsFacts.sortedBootstrapMeans_sorted|exact Hb|
       eassumption..].
Qed.




(** The indices of the default call shape, 100 iterations at 0.9: the
    lower index is 4, since [1 - 0.9] is a little below [0.1]. *)
Example indices_100_at_0_9 :
  lowerIndex 100 (decimal 9 1) = of_Z 4
  /\ upperIndex 100 (decimal 9 1) = of_Z 95.
Proof. split; vm_compute; reflexivity. Qed.

Example indices_10000_at_0_95 :
  lowerIndex 10000 (decimal 95 2) = of_Z 250
  /\ upperIndex 10000 (decimal 95 2) = of_Z 9750.
Proof. split; vm_compute; reflexivity. Qed.

(** ** Order of doubles *)

Lemma fle_not_NaN (x y : float64) :
  fle x y = true -> is_NaN x = false /\ is_NaN y = false.
Proof. destruct x, y; simpl; intros H; try discriminate; auto. Qed.

Lemma fle_refl (x : float64) : is_NaN x = false -> fle x x = true.
Proof.
  destruct x as [a|s|]; simpl; intros H; try discriminate.
  - apply Qle_bool_iff. apply Qle_refl.
  - destruct s; reflexivity.
Qed.

Lemma fle_trans (x y z : float64) :
  fle x y = true -> fle y z = true -> fle x z = true.
Proof.
  destruct x as [a|[|]|], y as [b|[|]|], z as [c|[|]|]; simpl;
    intros H1 H2; try discriminate; try assumption; try reflexivity.
  apply Qle_bool_iff. apply Qle_bool_iff in H1, H2.
  eapply Qle_trans; eassumption.
Qed.

Lemma flt_fle (x y : float64) :
  is_NaN x = false -> is_NaN y = false -> flt x y = negb (fle y x).
Proof.
  destruct x as [a|[|]|], y as [b|[|]|]; simpl; intros H1 H2;
    try discriminate; reflexivity.
Qed.

Lemma fle_total (x y : float64) :
  is_NaN x = false -> is_NaN y = false ->
  fle x y = true \/ fle y x = true.
Proof.
  destruct x as [a|[|]|], y as [b|[|]|]; simpl; intros H1 H2;
    try discriminate; auto.
  destruct (Qlt_le_dec b a) as [H|H].
  - right. apply Qle_bool_iff. apply Qlt_le_weak. exact H.
  - left. apply Qle_bool_iff. exact H.
Qed.

(** ** [Math.min] and [Math.max] of doubles that are not NaN *)

Lemma Math_min_cases (x y : float64) :
  is_NaN x = false -> is_NaN y = false ->
  (Math_min x y = y /\ fle y x = true)
  \/ (Math_min x y = x /\ fle x y = true).
Proof.
  intros Hx Hy. unfold Math_min. rewrite Hx, Hy. cbn [orb].
  rewrite (flt_fle y x Hy Hx).
  destruct (fle x y) eqn:E; cbn [negb].
  - right. auto.
  - left. split; [reflexivity|].
    destruct (fle_total x y Hx Hy) as [H|H]; [congruence|exact H].
Qed.

Lemma Math_max_cases (x y : float64) :
  is_NaN x = false -> is_NaN y = false ->
  (Math_max x y = y /\ fle x y = true)
  \/ (Math_max x y = x /\ fle y x = true).
Proof.
  intros Hx Hy. unfold Math_max. rewrite Hx, Hy. cbn [orb].
  rewrite (flt_fle x y Hx Hy).
  destruct (fle y x) eqn:E; cbn [negb].
  - right. auto.
  - left. split; [reflexivity|].
    destruct (fle_total x y Hx Hy) as [H|H]; [exact H|congruence].
Qed.

Lemma Math_min_mono (c x y : float64) :
  is_NaN c = false -> fle x y = true ->
  fle (Math_min c x) (Math_min c y) = true.
Proof.
  intros Hc Hxy. destruct (fle_not_NaN x y Hxy) as [Hx Hy].
  destruct (Math_min_cases c x Hc Hx) as [[-> H1]|[-> H1]],
           (Math_min_cases c y Hc Hy) as [[-> H2]|[-> H2]].
  - exact Hxy.
  - exact H1.
  - exact (fle_trans c x y H1 Hxy).
  - now apply fle_refl.
Qed.

Lemma Math_max_mono (c x y : float64) :
  is_NaN c = false -> fle x y = true ->
  fle (Math_max c x) (Math_max c y) = true.
Proof.
  intros Hc Hxy. destruct (fle_not_NaN x y Hxy) as [Hx Hy].
  destruct (Math_max_cases c x Hc Hx) as [[-> H1]|[-> H1]],
           (Math_max_cases c y Hc Hy) as [[-> H2]|[-> H2]].
  - exact Hxy.
  - exact (fle_trans x y c Hxy H2).
  - exact H2.
  - now apply fle_refl.
Qed.

(** ** A product by a positive double *)

Lemma round_finite_or_infinite (q : Q) :
  round q = Finite (rnd q)
  \/ exists s : bool, round q = Infinity s /\ s = is_negative (rnd q).
Proof.
  unfold round. cbv zeta.
  destruct (Qle_bool (pow2 1024) (Qabs (rnd q))); [right|left]; eauto.
Qed.

Lemma fmul_positive_not_NaN (c : Q) (x : float64) :
  0 < c -> is_NaN x = false -> is_NaN (fmul (Finite c) x) = false.
Proof.
  intros Hc Hx. destruct x as [a|s|]; simpl in *; try discriminate.
  - apply round_not_NaN.
  - destruct (Qeq_bool c 0) eqn:E; [|reflexivity].
    apply Qeq_bool_iff in E. Lqa.lra.
Qed.

Lemma is_negative_false (q : Q) : 0 <= q -> is_negative q = false.
Proof.
  intros H. unfold is_negative. apply Qle_bool_iff in H. now rewrite H.
Qed.

Lemma is_negative_true (q : Q) : q < 0 -> is_negative q = true.
Proof.
  intros H. unfold is_negative.
  destruct (Qle_bool 0 q) eqn:E; [|reflexivity].
  apply Qle_bool_iff in E. Lqa.lra.
Qed.

Lemma fle_round_Infinity (q : Q) : fle (round q) (Infinity false) = true.
Proof.
  destruct (round_finite_or_infinite q) as [->|(s & -> & _)]; simpl;
    [reflexivity|]. destruct s; reflexivity.
Qed.

Lemma fle_Infinity_round (q : Q) : fle (Infinity true) (round q) = true.
Proof.
  destruct (round_finite_or_infinite q) as [->|(s & -> & _)]; reflexivity.
Qed.

Lemma fmul_positive_mono (c : Q) (x y : float64) :
  0 < c -> fle x y = true ->
  fle (fmul (Finite c) x) (fmul (Finite c) y) = true.
Proof.
  intros Hc Hxy.
  assert (Ec : Qeq_bool c 0 = false).
  { destruct (Qeq_bool c 0) eqn:E; [|reflexivity].
    apply Qeq_bool_iff in E. Lqa.lra. }
  assert (Hn : is_negative c = false) by (apply is_negative_false; Lqa.lra).
  destruct x as [a|[|]|], y as [b|[|]|]; simpl in Hxy; try discriminate;
    unfold fmul; rewrite ?Ec, ?Hn; cbn [xorb];
    try reflexivity;
    try apply fle_round_Infinity; try apply fle_Infinity_round.
  apply round_mono. apply Qle_bool_iff in Hxy. Lqa.nra.
Qed.

(** ** The consistency score *)

Lemma of_Z_0_not_NaN : is_NaN (of_Z 0) = false.
Proof. reflexivity. Qed.

Lemma of_Z_100_not_NaN : is_NaN (of_Z 100) = false.
Proof. reflexivity. Qed.

Lemma calculateConsistencyScore_mono
    (Math_exp : float64 -> float64) (cv cv' : float64) :
  fle (Math_exp (fmul (of_Z (-3)) cv')) (Math_exp (fmul (of_Z (-3)) cv))
  = true ->
  fle (calculateConsistencyScore Math_exp cv')
      (calculateConsistencyScore Math_exp cv) = true.
Proof.
  intros Hexp. unfold calculateConsistencyScore. cbv zeta.
  apply Math_max_mono; [exact of_Z_0_not_NaN|].
  apply Math_min_mono; [exact of_Z_100_not_NaN|].
  rewrite of_Z_100. apply fmul_positive_mono; [reflexivity|exact Hexp].
Qed.

Lemma calculateConsistencyScore_range
    (Math_exp : float64 -> float64) (cv : float64) :
  is_NaN (Math_exp (fmul (of_Z (-3)) cv)) = false ->
  fle (of_Z 0) (calculateConsistencyScore Math_exp cv) = true
  /\ fle (calculateConsistencyScore Math_exp cv) (of_Z 100) = true.
Proof.
  intros Hnan. unfold calculateConsistencyScore. cbv zeta.
  set (e := Math_exp (fmul (of_Z (-3)) cv)) in *.
  assert (Hp : is_NaN (fmul (of_Z 100) e) = false).
  { rewrite of_Z_100. apply fmul_positive_not_NaN; [reflexivity|exact Hnan]. }
  set (p := fmul (of_Z 100) e) in *.
  assert (H0100 : fle (of_Z 0) (of_Z 100) = true) by reflexivity.
  destruct (Math_min_cases (of_Z 100) p of_Z_100_not_NaN Hp)
    as [[Hm Hle]|[Hm Hle]]; rewrite Hm.
  - destruct (Math_max_cases (of_Z 0) p of_Z_0_not_NaN Hp)
      as [[HM H]|[HM H]]; rewrite HM; auto.
  - destruct (Math_max_cases (of_Z 0) (of_Z 100) of_Z_0_not_NaN
                of_Z_100_not_NaN) as [[HM H]|[HM H]]; rewrite HM; auto.
Qed.

(** Clamping from above first, as the code does, or from below first, as
    the specification writes it, gives the same double. *)
Lemma clamp_either_order (p : float64) :
  is_NaN p = false ->
  Math_max (of_Z 0) (Math_min (of_Z 100) p)
  = Math_min (of_Z 100) (Math_max (of_Z 0) p).
Proof.
  intros Hp.
  destruct (Math_min_cases (of_Z 100) p of_Z_100_not_NaN Hp)
    as [[Hm Hle]|[Hm Hle]];
    destruct (Math_max_cases (of_Z 0) p of_Z_0_not_NaN Hp)
    as [[HM Hge]|[HM Hge]]; rewrite Hm, HM.
  - symmetry. exact Hm.
  - reflexivity.
  - rewrite Hm. reflexivity.
  - pose proof (fle_trans _ _ _ Hle Hge) as H. discriminate H.
Qed.

(** [-3 * 1.5000000000000004] and [-3 * 1.5000000000000007] are the same
    double: the exact products lie between two doubles and round to the same
    one. *)
Lemma product_by_minus_three_ties :
  flt (decimal 15000000000000004 16) (decimal 15000000000000007 16) = true
  /\ fmul (of_Z (-3)) (decimal 15000000000000004 16)
     = fmul (of_Z (-3)) (decimal 15000000000000007 16).
Proof. split; vm_compute; reflexivity. Qed.




End Statistics64Facts.

(** * A trial and the judgment it receives *)

Module JudgedTrialFacts.
Import Js Judge OpenRouter JudgeClient JudgedTrial.

Local Open Scope string_scope.

Lemma parseJudgment_empty_object
    (JSON_parse : string -> Exn JsValue) (rubric : Rubric) :
  JSON_parse "{}" = inr (JsObject []) ->
  parse_structured JSON_parse "{}" rubric
  = inr (mkJudgment JsUndefined (max_score rubric) JsUndefined JsUndefined)
  /\ parseJudgment JSON_parse "{}" rubric
     = inr (mkJudgment JsUndefined (max_score rubric) JsUndefined
              JsUndefined).
Proof.
  intros Hparse.
  assert (H : parse_structured JSON_parse "{}" rubric
              = inr (mkJudgment JsUndefined (max_score rubric) JsUndefined
                       JsUndefined)).
  { unfold parse_structured.
    change (extract_json "{}") with "{}". rewrite Hparse. reflexivity. }
  split; [exact H|]. unfold parseJudgment. rewrite H. reflexivity.
Qed.

Lemma grade_empty_object
    (JSON_parse : string -> Exn JsValue)
    (buildJudgePrompt : string -> string -> Rubric -> option string -> string)
    (question response : string) (rubric : Rubric)
    (referenceAnswer : option string) (tr : Trace) :
  JSON_parse "{}" = inr (JsObject []) ->
  fst (grade empty_object_judge JSON_parse buildJudgePrompt question response
         rubric referenceAnswer tr)
  = inr (mkJudgment JsUndefined (max_score rubric) JsUndefined JsUndefined).
Proof.
  intros Hparse. unfold grade, generate.
  cbn [attempts maxRetries]. unfold OpenRouter.try_catch, fetch.
  unfold empty_object_judge. cbn [read_response choices].
  change (JsString.trim "{}") with "{}".
  destruct (parseJudgment_empty_object JSON_parse rubric Hparse) as [_ ->].
  reflexivity.
Qed.

Lemma first_rejection_all_rejected {A}
    (order : list nat) (promises : list (Rejection + A)) (r : Rejection) :
  order <> [] ->
  (forall idx, In idx order -> (idx < length promises)%nat) ->
  (forall p, In p promises -> p = inl r) ->
  first_rejection order promises = Some r.
Proof.
  intros Hne Hidx Hall.
  destruct order as [|idx order']; [congruence|].
  cbn [first_rejection].
  destruct (nth_error promises idx) as [p|] eqn:Hnth.
  - rewrite (Hall p (nth_error_In _ _ Hnth)). reflexivity.
  - apply nth_error_None in Hnth.
    specialize (Hidx idx (or_introl eq_refl)). lia.
Qed.

(** C4.  When the judge answers with the text [{}], which is valid JSON
    with no [final_score], [parseJudgment] does not throw and does not fall
    back: the judgment has the score [undefined].  Every trial then throws a
    [TypeError] at [score.toFixed(1)], and [Promise.all] over the trials of
    a pair rejects with it. *)
Theorem judgment_without_score_rejects_trials
    (JSON_parse : string -> Exn JsValue)
    (buildJudgePrompt : string -> string -> Rubric -> option string -> string)
    (questionText : string) (rubric : Rubric)
    (referenceAnswer : option string)
    (responses : list (string * Trace)) (order : list nat)
    (Hparse : JSON_parse "{}" = inr (JsObject []))
    (Hruns : (1 <= length responses)%nat)
    (Horder : Permutation order (seq 0 (length responses))) :
  let graded (response : string * Trace) :=
    fst (grade empty_object_judge JSON_parse buildJudgePrompt questionText
           (fst response) rubric referenceAnswer (snd response)) in
  let type_error :=
    Thrown
      (Js.TypeError "Cannot read properties of undefined (reading 'toFixed')") in
  parseJudgment JSON_parse "{}" rubric
  = inr (mkJudgment JsUndefined (max_score rubric) JsUndefined JsUndefined)
  /\ (forall response,
        graded response
        = inr (mkJudgment JsUndefined (max_score rubric) JsUndefined
                 JsUndefined)
        /\ trial (inr (fst response)) (graded response) = inl type_error)
  /\ Promise_all order
       (map (fun response => trial (inr (fst response)) (graded response))
          responses)
     = inl type_error.
Proof.
  cbv zeta.
  assert (Hgraded : forall response : string * Trace,
             fst (grade empty_object_judge JSON_parse buildJudgePrompt
                    questionText (fst response) rubric referenceAnswer
                    (snd response))
             = inr (mkJudgment JsUndefined (max_score rubric) JsUndefined
                      JsUndefined)).
  { intros response. now apply grade_empty_object. }
  split; [apply (parseJudgment_empty_object JSON_parse rubric Hparse)|].
  split.
  - intros response. rewrite Hgraded. split; reflexivity.
  - unfold Promise_all.
    rewrite (first_rejection_all_rejected order _
               (Thrown (Js.TypeError
                  "Cannot read properties of undefined (reading 'toFixed')"))).
    + reflexivity.
    + intros ->. apply Permutation_nil in Horder.
      destruct responses; [simpl in Hruns; lia|discriminate].
    + intros idx Hin. rewrite length_map.
      apply (Permutation_in _ Horder) in Hin. apply in_seq in Hin. lia.
    + intros p Hin. apply in_map_iff in Hin.
      destruct Hin as (response & <- & _). rewrite Hgraded. reflexivity.
Qed.

Lemma judgment_without_score_rejects_trials_witness :
  let JSON_parse (s : string) : Exn JsValue :=
    if String.eqb s "{}" then inr (JsObject [])
    else inl (Js.SyntaxError "Unexpected token") in
  let responses : list (string * Trace) :=
    [("Yes.", []); ("Yes, it is.", []); ("It is.", [])] in
  JSON_parse "{}" = inr (JsObject [])
  /\ (1 <= length responses)%nat
  /\ Permutation [2; 0; 1]%nat (seq 0 (length responses))
  /\ Promise_all [2; 0; 1]%nat
       (map (fun response =>
               trial (inr (fst response))
                 (fst (grade empty_object_judge JSON_parse
                         (fun _ _ _ _ => "prompt") "Is God one?"
                         (fst response) (mkRubric 100 []) None
                         (snd response))))
          responses)
     = inl (Thrown
              (Js.TypeError
                 "Cannot read properties of undefined (reading 'toFixed')")).
Proof.
  cbv zeta.
  assert (Hperm : Permutation [2; 0; 1]%nat
                    (seq 0 (length [("Yes.", @nil Event);
                                    ("Yes, it is.", []); ("It is.", [])]))).
  { simpl. apply perm_trans with [0; 2; 1]%nat.
    - apply perm_swap.
    - apply perm_skip. apply perm_swap. }
  split; [reflexivity|]. split; [simpl; lia|]. split; [exact Hperm|].
  apply (judgment_without_score_rejects_trials
           (fun s => if String.eqb s "{}" then inr (JsObject [])
                     else inl (Js.SyntaxError "Unexpected token"))
           (fun _ _ _ _ => "prompt") "Is God one?" (mkRubric 100 []) None
           [("Yes.", []); ("Yes, it is.", []); ("It is.", [])]
           [2; 0; 1]%nat);
    [reflexivity | simpl; lia | exact Hperm].
Defined.

End JudgedTrialFacts.

(** * The running average of a run *)

Module RunningAverageFacts.
Import Statistics Runner RunnerSpec RunnerFacts RunningAverage.

Lemma evaluated_stats_app generated judged n pairs1 pairs2 n0 :
  evaluated_stats generated judged n (pairs1 ++ pairs2) n0
  = (evaluated_stats generated judged n pairs1 n0
     ++ evaluated_stats generated judged n pairs2
          (n0 + n * length pairs1))%list.
Proof.
  revert n0. induction pairs1 as [|entry pairs1 IH]; intros n0.
  - cbn. now rewrite Nat.mul_0_r, Nat.add_0_r.
  - cbn [app evaluated_stats length]. rewrite IH.
    do 3 f_equal. lia.
Qed.

Lemma evaluated_stats_length generated judged n pairs n0 :
  length (evaluated_stats generated judged n pairs n0) = length pairs.
Proof.
  revert n0. induction pairs as [|entry pairs IH]; intros n0;
    [reflexivity|].
  cbn. now rewrite IH.
Qed.

Lemma running_averages_app acc fresh1 fresh2 :
  running_averages acc (fresh1 ++ fresh2)
  = (running_averages acc fresh1
     ++ running_averages (acc ++ fresh1) fresh2)%list.
Proof.
  revert acc. induction fresh1 as [|stat fresh1 IH]; intros acc.
  - cbn. now rewrite app_nil_r.
  - cbn [app running_averages]. rewrite IH, <- app_assoc. reflexivity.
Qed.

Lemma pending_app completedPairs pairs1 pairs2 :
  pending completedPairs (pairs1 ++ pairs2)
  = (pending completedPairs pairs1 ++ pending completedPairs pairs2)%list.
Proof. unfold pending. apply filter_app. Qed.

Lemma pending_keys completedPairs questions :
  map pair_key (pending completedPairs (pairs_of questions))
  = filter (fun k => k ∉ completedPairs) (pair_keys questions).
Proof.
  induction questions as [|q questions IH]; [reflexivity|].
  change (pairs_of (q :: questions))
    with ([(q, explicit); (q, implicit)] ++ pairs_of questions)%list.
  change (pair_keys (q :: questions))
    with ([variantKey_of (q_id q) (variant_name explicit);
           variantKey_of (q_id q) (variant_name implicit)]
          ++ pair_keys questions)%list.
  rewrite pending_app, map_app, filter_app, IH. f_equal.
  unfold pending. rewrite !filter_cons, !filter_nil.
  unfold pair_key. cbn [fst snd].
  destruct (decide (variantKey_of (q_id q) (variant_name explicit)
                    ∉ completedPairs));
    destruct (decide (variantKey_of (q_id q) (variant_name implicit)
                      ∉ completedPairs));
    reflexivity.
Qed.

Section Run.

Variable testModel_generate : nat -> GenerateCall -> string + string.
Variable judge_grade : GradeCall -> string + Judgment.
Variable schedule : nat -> Variant -> list nat.
Variable clock : nat -> Z.
Variable random : nat -> R.
Variable modelConfig : ModelConfig.
Variable runsPerQuestion : nat.

Variable generated : nat -> GenerateCall -> string.
Variable judged : GradeCall -> Judgment.
Hypothesis generate_ok :
  forall n call, testModel_generate n call = inr (generated n call).
Hypothesis grade_ok : forall call, judge_grade call = inr (judged call).
Hypothesis schedule_ok :
  forall idx variant,
    Permutation (schedule idx variant) (seq 0 runsPerQuestion).
Hypothesis runs_positive : (1 <= runsPerQuestion)%nat.

(** What one evaluated pair adds and writes. *)
Lemma evaluate_variant_average evalRunId modelId startTime questions_length
    idx question variant (ls : LoopState) (w : World) :
  exists ls' w' event,
    evaluate_variant testModel_generate judge_grade schedule clock
      runsPerQuestion evalRunId modelId startTime questions_length idx
      question variant ls w
    = (inr ls', w') /\
    allResponseStats ls'
    = (allResponseStats ls
       ++ [evaluated_stat generated judged runsPerQuestion
             (question, variant) (length (generate_log w))])%list /\
    progress_log w' = (progress_log w ++ [event])%list /\
    p_averageScore event = weighted_average (allResponseStats ls') /\
    length (generate_log w')
    = (length (generate_log w) + runsPerQuestion)%nat /\
    map run_id (evaluationRuns (db w'))
    = map run_id (evaluationRuns (db w)) /\
    average_synced evalRunId ls' w'.
Proof.
  destruct (evaluate_variant_spec testModel_generate judge_grade schedule
              clock runsPerQuestion generated judged generate_ok grade_ok
              schedule_ok runs_positive evalRunId modelId startTime
              questions_length idx question variant ls w)
    as (deterministic & rest & eta & w' & Hruns & Heval & Hgen & _ & _ & _
        & _ & _ & _ & Hrows & Hprogress).
  eexists _, w', _. split; [exact Heval|].
  cbn [allResponseStats]. split; [|split; [|split; [|split; [|split]]]].
  - unfold evaluated_stat. cbn [fst snd]. rewrite Hruns. reflexivity.
  - exact Hprogress.
  - cbn [p_averageScore]. apply currentScore_weighted_average.
  - rewrite Hgen, length_app, length_map, length_seq. reflexivity.
  - rewrite Hrows, map_map. apply map_ext. intros r.
    destruct (Nat.eqb (run_id r) evalRunId); reflexivity.
  - intros r Hr Hid. rewrite Hrows in Hr.
    apply in_map_iff in Hr as (r0 & <- & _).
    cbn [allResponseStats]. rewrite <- currentScore_weighted_average.
    destruct (Nat.eqb (run_id r0) evalRunId) eqn:Heq; [reflexivity|].
    apply Nat.eqb_neq in Heq. contradiction.
Qed.

Lemma visit_effect_app evalRunId completedPairs pairs1 pairs2
    ls w ls1 w1 ls2 w2 :
  visit_effect generated judged runsPerQuestion evalRunId completedPairs pairs1 ls w ls1 w1 ->
  visit_effect generated judged runsPerQuestion evalRunId completedPairs pairs2 ls1 w1 ls2 w2 ->
  visit_effect generated judged runsPerQuestion evalRunId completedPairs (pairs1 ++ pairs2) ls w ls2 w2.
Proof.
  unfold visit_effect. cbv zeta.
  intros (Hs1 & (ev1 & Hp1 & Ha1) & Hg1 & Hr1 & Hsync1)
         (Hs2 & (ev2 & Hp2 & Ha2) & Hg2 & Hr2 & Hsync2).
  rewrite pending_app, evaluated_stats_app, length_app.
  rewrite Hg1 in Hs2, Ha2, Hg2. rewrite Hs1 in Hs2, Ha2.
  split; [|split; [|split; [|split]]].
  - now rewrite Hs2, app_assoc.
  - exists (ev1 ++ ev2)%list. split.
    + now rewrite Hp2, Hp1, app_assoc.
    + now rewrite map_app, running_averages_app, Ha1, Ha2.
  - rewrite Hg2. lia.
  - now rewrite Hr2, Hr1.
  - intros Hcase. apply Hsync2.
    destruct (pending completedPairs pairs2) as [|entry rest];
      [right|left; discriminate].
    apply Hsync1. destruct Hcase as [Hne|Hs]; [left|now right].
    now rewrite app_nil_r in Hne.
Qed.

Lemma process_variant_average evalRunId modelId startTime questions_length
    completedPairs idx question variant (ls : LoopState) (w : World) :
  exists ls' w',
    process_variant testModel_generate judge_grade schedule clock
      runsPerQuestion evalRunId modelId startTime questions_length
      completedPairs idx question variant ls w
    = (inr ls', w') /\
    visit_effect generated judged runsPerQuestion evalRunId completedPairs
      [(question, variant)] ls w ls' w'.
Proof.
  unfold process_variant, visit_effect, pending. cbv zeta.
  rewrite filter_cons, filter_nil.
  change (variantKey_of (q_id question) (variant_name variant))
    with (pair_key (question, variant)).
  set (key := pair_key (question, variant)).
  destruct (decide (key ∈ completedPairs)) as [Hin|Hnin].
  - destruct (decide (key ∉ completedPairs)) as [Hn|_]; [contradiction|].
    exists ls, (mkWorld (db w) (generate_log w) (grade_log w) (progress_log w)
                  (skip_log w ++ [key]) (clock_reads w) (random_draws w)).
    split; [reflexivity|].
    cbn [evaluated_stats running_averages length db generate_log
         progress_log].
    rewrite app_nil_r.
    split; [reflexivity|]. split; [exists []; now rewrite app_nil_r|].
    split; [lia|]. split; [reflexivity|].
    intros [Hne|Hs]; [congruence|exact Hs].
  - destruct (decide (key ∉ completedPairs)) as [_|Hn]; [|contradiction].
    destruct (evaluate_variant_average evalRunId modelId startTime
                questions_length idx question variant ls w)
      as (ls' & w' & event & Heval & Hstats & Hprogress & Havg & Hgen
          & Hrows & Hsync).
    exists ls', w'. split; [exact Heval|].
    cbn [evaluated_stats running_averages length].
    split; [exact Hstats|]. split.
    { exists [event]. split; [exact Hprogress|].
      cbn [map]. now rewrite Havg, Hstats. }
    split; [rewrite Hgen; lia|]. split; [exact Hrows|].
    intros _. exact Hsync.
Qed.

Lemma process_questions_average evalRunId modelId startTime questions_length
    completedPairs (questions : list Question) :
  forall idx (ls : LoopState) (w : World),
    exists ls' w',
      process_questions testModel_generate judge_grade schedule clock
        runsPerQuestion evalRunId modelId startTime questions_length
        completedPairs idx questions ls w
      = (inr ls', w') /\
      visit_effect generated judged runsPerQuestion evalRunId completedPairs (pairs_of questions) ls w ls' w'.
Proof.
  induction questions as [|question questions IH]; intros idx ls w.
  - exists ls, w. split; [reflexivity|].
    unfold visit_effect. cbn. rewrite !app_nil_r, Nat.mul_0_r, Nat.add_0_r.
    split; [reflexivity|]. split; [exists []; now rewrite app_nil_r|].
    split; [reflexivity|]. split; [reflexivity|].
    intros [Hne|Hs]; [congruence|exact Hs].
  - cbn [process_questions].
    destruct (process_variant_average evalRunId modelId startTime
                questions_length completedPairs idx question explicit ls w)
      as (ls1 & w1 & Hrun1 & Heff1).
    destruct (process_variant_average evalRunId modelId startTime
                questions_length completedPairs idx question implicit ls1 w1)
      as (ls2 & w2 & Hrun2 & Heff2).
    destruct (IH (S idx) ls2 w2) as (ls3 & w3 & Hrun3 & Heff3).
    exists ls3, w3. split.
    + unfold bind at 1. rewrite Hrun1. unfold bind at 1. now rewrite Hrun2.
    + change (pairs_of (question :: questions))
        with ([(question, explicit)] ++ [(question, implicit)]
              ++ pairs_of questions)%list.
      eapply visit_effect_app; [exact Heff1|].
      eapply visit_effect_app; [exact Heff2|exact Heff3].
Qed.

(** The completion of a run reports once more and leaves the running
    average of the run row as it is. *)
Lemma finalize_average evalRunId modelId startTime questions_length
    (ls : LoopState) (w : World) :
  exists result w' completed,
    finalize clock random runsPerQuestion evalRunId modelId startTime
      questions_length ls w
    = (inr result, w') /\
    res_eval_run_id result = evalRunId /\
    progress_log w' = (progress_log w ++ [completed])%list /\
    p_status completed = "completed"%string /\
    map run_id (evaluationRuns (db w')) = map run_id (evaluationRuns (db w)) /\
    (average_synced evalRunId ls w -> average_synced evalRunId ls w').
Proof.
  unfold finalize. unfold bind at 1.
  match goal with |- context [for_each ?es _ w] =>
    destruct (pillar_loop_spec random evalRunId modelId es w)
      as (rows & k1 & ->) end.
  unfold bind at 1.
  match goal with |- context [with_random (calculateBootstrapCI _ ?sc _ _) ?w1] =>
    destruct (with_random_bootstrap_spec random sc w1)
      as (ci & lower & upper & k2 & -> & Hlower & Hupper) end.
  rewrite Hlower, Hupper.
  unfold bind, toFixed_defined, ret, insert_modelScore, modify_db, Date_now,
    update_run, progressCallback.
  cbn [db generate_log grade_log progress_log skip_log clock_reads
       random_draws next_id models evaluationRuns responses responseRuns
       pillarScores modelScores].
  eexists _, _, _. split; [reflexivity|].
  cbn [res_eval_run_id progress_log p_status db evaluationRuns].
  split; [reflexivity|]. split; [reflexivity|]. split; [reflexivity|].
  split.
  { rewrite map_map. apply map_ext. intros r.
    destruct (Nat.eqb (run_id r) evalRunId); reflexivity. }
  intros Hsync r Hr Hid.
  apply in_map_iff in Hr as (r0 & <- & Hr0).
  destruct (Nat.eqb (run_id r0) evalRunId) eqn:Heq.
  - cbn [run_averageScore]. apply Hsync; [exact Hr0|].
    now apply Nat.eqb_eq.
  - apply Hsync; assumption.
Qed.

(** The loop over the pairs followed by the completion, from the pairs
    [stats0]. *)
Lemma loop_then_finalize_average (evalRunId modelId : nat) (startTime : Z)
    (questions : list Question) (completedPairs : gset string)
    (completed0 : Z) (stats0 : list ResponseStat) (w : World) :
  let fresh :=
    evaluated_stats generated judged runsPerQuestion
      (pending completedPairs (pairs_of questions))
      (length (generate_log w)) in
  exists result w' events completed,
    bind
      (process_questions testModel_generate judge_grade schedule clock
         runsPerQuestion evalRunId modelId startTime (length questions)
         completedPairs 0 questions (mkLoopState completed0 stats0))
      (finalize clock random runsPerQuestion evalRunId modelId startTime
         (length questions)) w
    = (inr result, w') /\
    res_eval_run_id result = evalRunId /\
    progress_log w' = (progress_log w ++ events ++ [completed])%list /\
    map p_averageScore events = running_averages stats0 fresh /\
    p_status completed = "completed"%string /\
    map run_id (evaluationRuns (db w')) = map run_id (evaluationRuns (db w)) /\
    (pending completedPairs (pairs_of questions) <> [] ->
     forall r, In r (evaluationRuns (db w')) -> run_id r = evalRunId ->
       run_averageScore r
       = Some (toFixed 2 (weighted_average (stats0 ++ fresh)))).
Proof.
  cbv zeta.
  destruct (process_questions_average evalRunId modelId startTime
              (length questions) completedPairs questions 0%nat
              (mkLoopState completed0 stats0) w)
    as (ls1 & w1 & Hloop & Hstats & (events & Hprogress & Havg) & _ & Hids
        & Hsync).
  cbn [allResponseStats] in Hstats, Havg.
  destruct (finalize_average evalRunId modelId startTime (length questions)
              ls1 w1)
    as (result & w' & completed & Hfin & Hid & Hprogress' & Hstatus & Hids'
        & Hkeep).
  exists result, w', events, completed.
  split; [unfold bind; now rewrite Hloop|].
  split; [exact Hid|].
  split; [now rewrite Hprogress', Hprogress, <- app_assoc|].
  split; [exact Havg|]. split; [exact Hstatus|].
  split; [now rewrite Hids', Hids|].
  intros Hpending r Hr Hrid.
  rewrite <- Hstats. apply (Hkeep (Hsync (or_introl Hpending)) r Hr Hrid).
Qed.

(** A resumed run: the pairs restored from the rows, then the pairs that
    were still to evaluate. *)
Lemma resumed_run_average (questions : list Question) (evalRunId : nat)
    (w : World) (evalRun : EvaluationRun) :
  List.find (fun r => Nat.eqb (run_id r) evalRunId) (evaluationRuns (db w))
  = Some evalRun ->
  run_status evalRun <> "completed"%string ->
  (forall row, In row (responses_of evalRunId (db w)) ->
     responseRuns_of (resp_id row) (db w) <> [] /\
     exists q, In q questions /\ q_id q = resp_questionId row) ->
  let rows := responses_of evalRunId (db w) in
  let completedPairs : gset string := list_to_set (map response_key rows) in
  let fresh :=
    evaluated_stats generated judged runsPerQuestion
      (pending completedPairs (pairs_of questions))
      (length (generate_log w)) in
  exists result w' stats0 events completed,
    runEvaluation testModel_generate judge_grade schedule clock random
      modelConfig runsPerQuestion questions (Some evalRunId) w
    = (inr result, w') /\
    Forall2 (restored_from (db w)) rows stats0 /\
    progress_log w' = (progress_log w ++ events ++ [completed])%list /\
    map p_averageScore events = running_averages stats0 fresh /\
    p_status completed = "completed"%string /\
    map run_id (evaluationRuns (db w')) = map run_id (evaluationRuns (db w)) /\
    (pending completedPairs (pairs_of questions) <> [] ->
     forall r, In r (evaluationRuns (db w')) -> run_id r = evalRunId ->
       run_averageScore r
       = Some (toFixed 2 (weighted_average (stats0 ++ fresh)))).
Proof.
  intros Hfind Hstatus Hrows rows completedPairs fresh.
  set (w0 := mkWorld (db w) (generate_log w) (grade_log w) (progress_log w)
               (skip_log w) (S (clock_reads w)) (random_draws w)).
  destruct (loadPartialEvaluation_running evalRunId w0 evalRun Hfind Hstatus)
    as (allResponseRuns & Hload).
  destruct (load_existing_stats_ok evalRunId questions w0 Hrows)
    as (stats0 & Hstats & _).
  destruct (load_existing_stats_inv evalRunId questions w0 stats0 w0 Hstats)
    as [_ Hrestored].
  set (startTime := match run_startedAt evalRun with
                    | Some t => t
                    | None => clock (clock_reads w)
                    end).
  set (completed0 := match run_responsesCompleted evalRun with
                     | Some n => n
                     | None => 0%Z
                     end).
  destruct (loop_then_finalize_average evalRunId (run_modelId evalRun)
              startTime questions completedPairs completed0 stats0 w0)
    as (result & w' & events & completed & Hrun & _ & Hprogress & Havg
        & Hcompleted & Hids & Hfinal).
  exists result, w', stats0, events, completed.
  split; [|split; [exact Hrestored|split; [exact Hprogress|
            split; [exact Havg|split; [exact Hcompleted|
              split; [exact Hids|exact Hfinal]]]]]].
  unfold runEvaluation, bind at 1, Date_now. fold w0.
  unfold bind at 1, bind at 1. rewrite Hload.
  unfold ret at 1. cbn [fst snd].
  unfold bind at 1. rewrite Hstats.
  fold startTime. fold completed0.
  change (list_to_set _) with completedPairs.
  exact Hrun.
Qed.

Lemma pending_empty (pairs : list (Question * Variant)) :
  pending ∅ pairs = pairs.
Proof.
  unfold pending. apply filter_every. intros entry. apply not_elem_of_empty.
Qed.

(** A new run: every pair of the question list, from no pair at all. *)
Lemma new_run_average (questions : list Question) (w : World) :
  (forall r, In r (evaluationRuns (db w)) -> (run_id r < next_id (db w))%nat) ->
  let fresh :=
    evaluated_stats generated judged runsPerQuestion (pairs_of questions)
      (length (generate_log w)) in
  exists result w' events completed,
    runEvaluation testModel_generate judge_grade schedule clock random
      modelConfig runsPerQuestion questions None w
    = (inr result, w') /\
    progress_log w' = (progress_log w ++ events ++ [completed])%list /\
    map p_averageScore events = running_averages [] fresh /\
    p_status completed = "completed"%string /\
    (questions <> [] ->
     forall r, In r (evaluationRuns (db w')) ->
       run_id r = res_eval_run_id result ->
       run_averageScore r = Some (toFixed 2 (weighted_average fresh))).
Proof.
  intros Hfresh fresh.
  assert (Hpairs : questions <> [] -> pairs_of questions <> []).
  { destruct questions; [congruence|discriminate]. }
  unfold runEvaluation.
  unfold bind at 1, Date_now at 1.
  unfold bind at 1. unfold bind at 1, select_model at 1.
  unfold bind at 1, get_db at 1, ret at 1.
  cbn [db generate_log grade_log progress_log skip_log clock_reads
       random_draws].
  destruct (List.find _ (models (db w))) as [m|] eqn:Hfind.
  - unfold bind at 1, ret at 1. unfold bind at 1.
    match goal with |- context [insert_run ?row ?w0] =>
      destruct (new_run_synced (db w) (model_id m) (clock (clock_reads w))
                  (Z.of_nat (length questions)) w0 eq_refl Hfresh)
        as [Hinsert _] end.
    cbv zeta in Hinsert. rewrite Hinsert. unfold ret at 1.
    cbn [fst snd run_id]. unfold bind at 1, ret at 1.
    match goal with |- context [bind (process_questions _ _ _ _ _ _ _ _ _ _ _ _ _) _ ?w3] =>
      destruct (loop_then_finalize_average (next_id (db w)) (model_id m)
                  (clock (clock_reads w)) questions ∅ 0%Z [] w3)
        as (result & w' & events & completed & Hrun & Hid & Hprogress & Havg
            & Hcompleted & _ & Hfinal) end.
    cbn [generate_log progress_log] in Hprogress, Havg, Hfinal.
    rewrite pending_empty in Havg, Hfinal.
    exists result, w', events, completed.
    split; [exact Hrun|]. split; [exact Hprogress|]. split; [exact Havg|].
    split; [exact Hcompleted|].
    intros Hne r Hr Hrid. rewrite Hid in Hrid.
    exact (Hfinal (Hpairs Hne) r Hr Hrid).
  - unfold bind at 1. unfold bind at 1, insert_model at 1.
    unfold bind at 1, fresh_id at 1. unfold bind at 1, modify_db at 1.
    unfold ret at 1. unfold ret at 1.
    cbn [db generate_log grade_log progress_log skip_log clock_reads
         random_draws next_id models evaluationRuns responses responseRuns
         pillarScores modelScores model_id].
    unfold bind at 1.
    match goal with |- context [insert_run ?row ?w0] =>
      destruct (new_run_synced (db w0) (next_id (db w))
                  (clock (clock_reads w)) (Z.of_nat (length questions)) w0
                  eq_refl)
        as [Hinsert _] end.
    { cbn [db evaluationRuns next_id]. intros r Hr.
      specialize (Hfresh r Hr). lia. }
    cbv zeta in Hinsert.
    cbn [db next_id models evaluationRuns responses responseRuns pillarScores
         modelScores generate_log grade_log progress_log skip_log clock_reads
         random_draws] in Hinsert.
    rewrite Hinsert. unfold ret at 1.
    cbn [fst snd run_id]. unfold bind at 1, ret at 1.
    match goal with |- context [bind (process_questions _ _ _ _ _ _ _ _ _ _ _ _ _) _ ?w3] =>
      destruct (loop_then_finalize_average (S (next_id (db w)))
                  (next_id (db w)) (clock (clock_reads w)) questions ∅ 0%Z []
                  w3)
        as (result & w' & events & completed & Hrun & Hid & Hprogress & Havg
            & Hcompleted & _ & Hfinal) end.
    cbn [generate_log progress_log] in Hprogress, Havg, Hfinal.
    rewrite pending_empty in Havg, Hfinal.
    exists result, w', events, completed.
    split; [exact Hrun|]. split; [exact Hprogress|]. split; [exact Havg|].
    split; [exact Hcompleted|].
    intros Hne r Hr Hrid. rewrite Hid in Hrid.
    exact (Hfinal (Hpairs Hne) r Hr Hrid).
Qed.


End Run.

(** ** The statements on the sample runs *)

Lemma rounded_schedule_ok (idx : nat) (variant : Variant) :
  Permutation (RoundedSample.schedule idx variant) (seq 0 3).
Proof.
  unfold RoundedSample.schedule. simpl.
  apply perm_trans with [0; 2; 1]%nat; [apply perm_swap|].
  apply perm_skip. apply perm_swap.
Qed.

Lemma rounded_pair_runs (variant : Variant) (n0 : nat) :
  pair_runs RoundedSample.generated RoundedSample.judged
    RoundedSample.question variant 3 n0
  = [mkRunResult "deterministic answer" 2 10 "partly right";
     mkRunResult "sampled answer" 1 10 "mostly wrong";
     mkRunResult "sampled answer" 1 10 "mostly wrong"].
Proof. destruct variant; reflexivity. Qed.

Lemma rounded_mean : cm_mean (calculateConsistencyMetrics [2; 1; 1]) = 4 / 3.
Proof. cbn. unfold reduce_sum. cbn. lra. Qed.

Lemma rounded_evaluated_stat (variant : Variant) (n0 : nat) :
  let stat :=
    evaluated_stat RoundedSample.generated RoundedSample.judged 3
      (RoundedSample.question, variant) n0 in
  mean_score stat = 4 / 3 /\ max_score stat = 10.
Proof.
  cbv zeta. unfold evaluated_stat. cbn [fst snd].
  rewrite rounded_pair_runs. cbn [map run_score mean_score max_score
                                  run_maxScore].
  split; [apply rounded_mean|reflexivity].
Qed.

Lemma toFixed_4_3 : toFixed 2 (4 / 3) = mkDecimal 133 2.
Proof.
  unfold toFixed, round_half_away. f_equal.
  destruct (Rle_dec 0 (4 / 3 * 10 ^ 2)) as [_|Hneg]; [|simpl in Hneg; lra].
  apply Zfloor_eq. simpl. lra.
Qed.

Lemma toFixed_10 : toFixed 2 10 = mkDecimal 1000 2.
Proof.
  unfold toFixed, round_half_away. f_equal.
  destruct (Rle_dec 0 (10 * 10 ^ 2)) as [_|Hneg]; [|simpl in Hneg; lra].
  apply Zfloor_eq. simpl. lra.
Qed.

(** The first session: the pair enters with its mean, 4/3, and its row
    stores 1.33. *)
Lemma rounded_first_session :
  exists ls1 row runs run,
    fst RoundedSample.first_session = inr ls1 /\
    allResponseStats ls1
    = [evaluated_stat RoundedSample.generated RoundedSample.judged 3
         (RoundedSample.question, explicit) 0] /\
    responses (db RoundedSample.resumed) = [row] /\
    resp_id row = 8%nat /\
    resp_evaluationRunId row = 7%nat /\
    resp_questionId row = "q1"%string /\
    resp_questionVariant row = "explicit"%string /\
    resp_meanScore row = mkDecimal 133 2 /\
    responseRuns (db RoundedSample.resumed)
    = mkResponseRunRow 8 1 "deterministic answer" (mkDecimal 200 2)
        (mkDecimal 1000 2) "partly right" :: runs /\
    evaluationRuns (db RoundedSample.resumed) = [run] /\
    run_id run = 7%nat /\ run_status run = "running"%string.
Proof.
  unfold RoundedSample.resumed, RoundedSample.first_session.
  destruct (evaluate_variant_spec RoundedSample.testModel_generate
              RoundedSample.judge_grade RoundedSample.schedule
              RoundedSample.clock 3 RoundedSample.generated
              RoundedSample.judged (fun n call => eq_refl)
              (fun call => eq_refl) rounded_schedule_ok
              (le_S 1 2 (le_S 1 1 (le_n 1)))
              7%nat 3%nat 0%Z 1%nat 0%nat RoundedSample.question explicit
              (mkLoopState 0 []) RoundedSample.started)
    as (deterministic & rest & eta & w' & Hruns & Heval & _ & _ & _ & _
        & _ & Hresp & Hrr & Hrows & _).
  rewrite rounded_pair_runs in Hruns, Heval, Hresp, Hrr.
  injection Hruns as <- <-.
  rewrite Heval. cbn [fst snd db].
  rewrite Hresp, Hrr, Hrows.
  cbn [map run_score run_maxScore run_responseText run_judgeReasoning
       RoundedSample.started db responses responseRuns evaluationRuns
       next_id app indexed_from fst snd RoundedSample.run_row run_id
       Nat.eqb allResponseStats q_id q_pillar_id RoundedSample.question
       variant_name].
  rewrite rounded_mean, toFixed_4_3, toFixed_10.
  eexists _, _, _, _.
  split; [reflexivity|]. split.
  { unfold evaluated_stat. cbn [fst snd]. rewrite rounded_pair_runs.
    cbn [map run_score run_maxScore RoundedSample.question q_pillar_id
         allResponseStats app].
    rewrite rounded_mean. reflexivity. }
  split; [reflexivity|].
  cbn [resp_id resp_evaluationRunId resp_questionId resp_questionVariant
       resp_meanScore].
  repeat (split; [reflexivity|]).
  split.
  { f_equal. f_equal. unfold toFixed, round_half_away. f_equal.
    destruct (Rle_dec 0 (2 * 10 ^ 2)) as [_|Hneg]; [|simpl in Hneg; lra].
    apply Zfloor_eq. simpl. lra. }
  split; [reflexivity|]. split; reflexivity.
Qed.

Lemma pending_after_explicit (question : Question) :
  q_id question = "q1"%string ->
  pending (list_to_set ["q1:explicit"%string]) (pairs_of [question])
  = [(question, implicit)].
Proof.
  intros Hq. unfold pending, pairs_of. cbn [flat_map app].
  rewrite !filter_cons, filter_nil. unfold pair_key. cbn [fst snd].
  rewrite Hq.
  change (variantKey_of "q1" (variant_name explicit))
    with "q1:explicit"%string.
  change (variantKey_of "q1" (variant_name implicit))
    with "q1:implicit"%string.
  destruct (decide ("q1:explicit"%string
                    ∉ (list_to_set ["q1:explicit"%string] : gset string)))
    as [Hn|_].
  { exfalso. apply Hn. apply elem_of_list_to_set. now left. }
  destruct (decide ("q1:implicit"%string
                    ∉ (list_to_set ["q1:explicit"%string] : gset string)))
    as [_|Hn]; [reflexivity|].
  exfalso. apply Hn. intros Hin. apply elem_of_list_to_set in Hin.
  apply list_elem_of_In in Hin. destruct Hin as [Heq|[]]. discriminate Heq.
Qed.

Lemma toFixed_resumed_average :
  toFixed 2 ((133 / 100 + (4 / 3 + 0)) / (10 + (10 + 0)) * 100)
  = mkDecimal 1332 2.
Proof.
  unfold toFixed, round_half_away. f_equal.
  match goal with |- context [Rle_dec 0 ?x] =>
    destruct (Rle_dec 0 x) as [_|Hneg]; [|simpl in Hneg; lra] end.
  apply Zfloor_eq. simpl. lra.
Qed.

Lemma toFixed_true_average :
  toFixed 2 ((4 / 3 + (4 / 3 + 0)) / (10 + (10 + 0)) * 100)
  = mkDecimal 1333 2.
Proof.
  unfold toFixed, round_half_away. f_equal.
  match goal with |- context [Rle_dec 0 ?x] =>
    destruct (Rle_dec 0 x) as [_|Hneg]; [|simpl in Hneg; lra] end.
  apply Zfloor_eq. simpl. lra.
Qed.


Lemma sample_evaluated_stat (variant : Variant) (n0 : nat) :
  let stat :=
    evaluated_stat Sample.generated Sample.judged 2
      (Sample.question, variant) n0 in
  mean_score stat = 80 /\ max_score stat = 100.
Proof.
  cbv zeta. unfold evaluated_stat. cbn [fst snd].
  assert (Hruns : pair_runs Sample.generated Sample.judged Sample.question
                    variant 2 n0
                  = [mkRunResult "deterministic answer" 90 100 "precise";
                     mkRunResult "sampled answer" 70 100 "vague"])
    by (destruct variant; reflexivity).
  rewrite Hruns. cbn [map run_score mean_score max_score run_maxScore].
  split; [|reflexivity]. cbn. unfold reduce_sum. cbn. lra.
Qed.

Lemma toFixed_80 : toFixed 2 80 = mkDecimal 8000 2.
Proof.
  unfold toFixed, round_half_away. f_equal.
  destruct (Rle_dec 0 (80 * 10 ^ 2)) as [_|Hneg]; [|simpl in Hneg; lra].
  apply Zfloor_eq. simpl. lra.
Qed.

(** On the sample run the restored pair enters as (80, 100), the values
    its rows store, and the resumed run leaves 80.00 in the run row. *)
Lemma sample_resumed_value (stats0 : list ResponseStat) :
  Forall2 (restored_from (db Sample.interrupted))
    (responses_of 7 (db Sample.interrupted)) stats0 ->
  let completedPairs : gset string :=
    list_to_set
      (map response_key (responses_of 7 (db Sample.interrupted))) in
  pending completedPairs (pairs_of [Sample.question]) <> [] /\
  toFixed 2
    (weighted_average
       (stats0
        ++ evaluated_stats Sample.generated Sample.judged 2
             (pending completedPairs (pairs_of [Sample.question]))
             (length (generate_log Sample.interrupted))))
  = mkDecimal 8000 2.
Proof.
  intros Hrestored. cbv zeta.
  change (responses_of 7 (db Sample.interrupted))
    with [Sample.explicit_row] in *.
  change (map response_key [Sample.explicit_row])
    with ["q1:explicit"%string].
  rewrite (pending_after_explicit Sample.question eq_refl).
  split; [discriminate|].
  apply Forall2_cons_inv_l in Hrestored
    as (stat0 & tail & (Hmean0 & _ & first & rest & Hfirst0 & Hmax0)
        & Htail & ->).
  apply Forall2_nil_inv_l in Htail. subst tail.
  change (responseRuns_of (resp_id Sample.explicit_row)
            (db Sample.interrupted))
    with Sample.explicit_runs in Hfirst0.
  injection Hfirst0 as <- <-.
  destruct (sample_evaluated_stat implicit 0) as [Hm HM].
  cbv zeta in Hm, HM.
  cbn [generate_log Sample.interrupted length evaluated_stats app].
  assert (Hvalue :
    weighted_average
      [stat0;
       evaluated_stat Sample.generated Sample.judged 2
         (Sample.question, implicit) 0] = 80).
  { unfold weighted_average. cbn [map StatisticsSpec.total].
    rewrite Hmean0, Hmax0, Hm, HM. unfold decimal_value. cbn. lra. }
  rewrite Hvalue. apply toFixed_80.
Qed.

Lemma sample_rows_restorable (row : ResponseRow) :
  In row (responses_of 7 (db Sample.interrupted)) ->
  responseRuns_of (resp_id row) (db Sample.interrupted) <> [] /\
  exists q, In q [Sample.question] /\ q_id q = resp_questionId row.
Proof.
  intros [<-|[]]. split; [discriminate|].
  exists Sample.question. split; [now left|reflexivity].
Qed.


End RunningAverageFacts.
